(** * Telia front end: scopes, parser and module-tree builder

    A shallow embedding of the Go sources of the Telia compiler front end
    (package [scope], package [parser]) together with the properties of the
    written specification that were checked against it.  The scopes the
    parser works on are those of package [ast], whose source is not at
    hand: they are modelled from the specification.

    Conventions of the embedding:
    - a Go [error] is a reference: the package-level sentinels are distinct
      constructors, a value made by [fmt.Errorf] is a fresh allocation
      carrying its message ([Errorf]);
    - pointers to scopes are addresses into a store of scope records, so
      that a parent shared by several children is really shared;
    - the parser is a state-and-error monad over the parser's fields
      (lexer, collector, scope store, current module scope);
    - recursion of the recursive-descent parser is bounded by a [fuel]
      argument, one unit per call. *)

From stdpp Require Import base option list gmap strings pretty.
From Stdlib Require Import Lia Ascii.

Set Warnings "-register-all".

Local Open Scope string_scope.
Local Open Scope list_scope.

(** ** Go errors *)

Module errors.

(** The sentinels are the package-level [errors.New] values of packages
    [scope] and [diagnostics]; [Errorf] is the result of a [fmt.Errorf]
    call, a freshly allocated value holding its formatted message.
    [ERR_SYMBOL_ALREADY_DEFINED_ON_SCOPE] is the sentinel of package [ast]
    the parser compares with: the parser names it, its declaration is not
    among the sources. *)
Inductive error : Type :=
  | SYMBOL_ALREADY_DEFINED_ON_SCOPE
  | SYMBOL_NOT_FOUND_ON_SCOPE
  | COMPILER_ERROR_FOUND
  | ERR_SYMBOL_ALREADY_DEFINED_ON_SCOPE
  | Errorf (msg : string).

(** [err.Error()].  The text of the sentinel of package [ast] is not among
    the sources; it is given the words of its counterpart in package
    [scope]. *)
Definition Error (e : error) : string :=
  match e with
  | SYMBOL_ALREADY_DEFINED_ON_SCOPE => "symbol already defined on scope"
  | SYMBOL_NOT_FOUND_ON_SCOPE => "symbol not found on scope"
  | COMPILER_ERROR_FOUND => "compiler error found"
  | ERR_SYMBOL_ALREADY_DEFINED_ON_SCOPE => "symbol already defined on scope"
  | Errorf msg => msg
  end.

(** Go's [err == sentinel] on interface values holding pointers: identity
    of the referenced value.  A value allocated by [fmt.Errorf] is never
    identical to a package-level sentinel, whatever its text. *)
Definition same (e1 e2 : error) : bool :=
  match e1, e2 with
  | SYMBOL_ALREADY_DEFINED_ON_SCOPE, SYMBOL_ALREADY_DEFINED_ON_SCOPE => true
  | SYMBOL_NOT_FOUND_ON_SCOPE, SYMBOL_NOT_FOUND_ON_SCOPE => true
  | COMPILER_ERROR_FOUND, COMPILER_ERROR_FOUND => true
  | ERR_SYMBOL_ALREADY_DEFINED_ON_SCOPE, ERR_SYMBOL_ALREADY_DEFINED_ON_SCOPE => true
  | _, _ => false
  end.

End errors.
Export errors.

(** ** Package scope: the chained symbol table *)

Module scope.

(** A pointer to a [Scope[V]] is an address in the store. *)
Definition loc := nat.

Section Scope.
Context {V : Type}.

(** [type Scope[V any] struct { parent *Scope[V]; nodes map[string]V }] *)
Record Scope : Type := mkScope {
  parent : option loc;
  nodes : gmap string V;
}.

(** The scopes allocated so far; the address of a scope is its index. *)
Local Abbreviation store := (list Scope).

(** [New(parent)]: allocates a scope with an empty mapping. *)
Definition New (parent : option loc) (σ : store) : loc * store :=
  (List.length σ, σ ++ [mkScope parent ∅]).

(** [scope.Insert(name, element)].  The outer [None] is the run-time
    panic of a nil or dangling receiver; the inner option is the returned
    [error] ([None] for [nil]). *)
Definition Insert (s : loc) (name : string) (element : V) (σ : store)
  : option (option error * store) :=
  sc ← σ !! s;
  match nodes sc !! name with
  | Some _ =>
      Some (Some (Errorf (Error SYMBOL_ALREADY_DEFINED_ON_SCOPE +:+ ": " +:+ name)), σ)
  | None =>
      Some (None, <[s := mkScope (parent sc) (<[name := element]> (nodes sc))]> σ)
  end.

(** [scope.Lookup(name)], the recursion on [scope.parent] bounded by
    [fuel].  [inl v] is [(v, nil)], [inr e] is [(empty, e)]. *)
Fixpoint Lookup_rec (fuel : nat) (σ : store) (s : loc) (name : string)
  : option (V + error) :=
  match fuel with
  | O => None
  | S fuel' =>
      sc ← σ !! s;
      match nodes sc !! name with
      | Some node => Some (inl node)
      | None =>
          match parent sc with
          | None => Some (inr (Errorf (Error SYMBOL_NOT_FOUND_ON_SCOPE +:+ ": " +:+ name)))
          | Some p => Lookup_rec fuel' σ p name
          end
      end
  end.

(** A chain of parents in a store of [length σ] scopes built by [New]
    has at most [length σ] links. *)
Definition Lookup (σ : store) (s : loc) (name : string) : option (V + error) :=
  Lookup_rec (List.length σ) σ s name.

(** Stores built by [New]: a parent is allocated before its children. *)
Definition wf (σ : store) : Prop :=
  ∀ s sc p, σ !! s = Some sc → parent sc = Some p → p < s.

(** The scopes met from [s] up to the parent-less root, nearest first. *)
Inductive ancestry (σ : store) : loc → list Scope → Prop :=
  | ancestry_root s sc :
      σ !! s = Some sc → parent sc = None → ancestry σ s [sc]
  | ancestry_step s sc p c :
      σ !! s = Some sc → parent sc = Some p → ancestry σ p c →
      ancestry σ s (sc :: c).

End Scope.
Global Arguments Scope : clear implicits.

Abbreviation store V := (list (Scope V)).

End scope.

(** ** Package token *)

Module token.

(** Modelled from the spec: package [token] (the token kinds, which of them
    are literals or basic types, and how a kind or a token is printed) is
    not among the sources; the kinds are those the parser names, the
    literals and the primitive types of the language. *)
Inductive Kind : Type :=
  | EOF | INVALID | ID
  | INTEGER_LITERAL | STRING_LITERAL | TRUE_BOOL_LITERAL | FALSE_BOOL_LITERAL
  | FN | RETURN | EXTERN | IF | ELIF | ELSE | FOR | WHILE | NOT | AND | OR
  | BOOL_TYPE | INT_TYPE | I8_TYPE | I16_TYPE | I32_TYPE | I64_TYPE
  | UINT_TYPE | U8_TYPE | U16_TYPE | U32_TYPE | U64_TYPE | VOID_TYPE
  | OPEN_PAREN | CLOSE_PAREN | OPEN_CURLY | CLOSE_CURLY
  | COMMA | SEMICOLON | DOT | DOT_DOT_DOT | EQUAL | COLON_EQUAL
  | BANG_EQUAL | EQUAL_EQUAL | STAR | MINUS | PLUS | SLASH
  | GREATER | GREATER_EQ | LESS | LESS_EQ.

(** An injective numbering of the constants, used to compare kinds. *)
Definition code (k : Kind) : nat :=
  match k with
  | EOF => 0 | INVALID => 1 | ID => 2
  | INTEGER_LITERAL => 3 | STRING_LITERAL => 4
  | TRUE_BOOL_LITERAL => 5 | FALSE_BOOL_LITERAL => 6
  | FN => 7 | RETURN => 8 | EXTERN => 9 | IF => 10 | ELIF => 11 | ELSE => 12
  | FOR => 13 | WHILE => 14 | NOT => 15 | AND => 16 | OR => 17
  | BOOL_TYPE => 18 | INT_TYPE => 19 | I8_TYPE => 20 | I16_TYPE => 21
  | I32_TYPE => 22 | I64_TYPE => 23 | UINT_TYPE => 24 | U8_TYPE => 25
  | U16_TYPE => 26 | U32_TYPE => 27 | U64_TYPE => 28 | VOID_TYPE => 29
  | OPEN_PAREN => 30 | CLOSE_PAREN => 31 | OPEN_CURLY => 32 | CLOSE_CURLY => 33
  | COMMA => 34 | SEMICOLON => 35 | DOT => 36 | DOT_DOT_DOT => 37
  | EQUAL => 38 | COLON_EQUAL => 39 | BANG_EQUAL => 40 | EQUAL_EQUAL => 41
  | STAR => 42 | MINUS => 43 | PLUS => 44 | SLASH => 45
  | GREATER => 46 | GREATER_EQ => 47 | LESS => 48 | LESS_EQ => 49
  end.

(** [k1 == k2] *)
Definition eqb (k1 k2 : Kind) : bool := Nat.eqb (code k1) (code k2).

(** [kind.IsBasicType()] *)
Definition IsBasicType (k : Kind) : bool :=
  match k with
  | BOOL_TYPE | INT_TYPE | I8_TYPE | I16_TYPE | I32_TYPE | I64_TYPE
  | UINT_TYPE | U8_TYPE | U16_TYPE | U32_TYPE | U64_TYPE | VOID_TYPE => true
  | _ => false
  end.

(** [_, ok := token.LITERAL_KIND[k]] *)
Definition LITERAL_KIND (k : Kind) : bool :=
  match k with
  | INTEGER_LITERAL | STRING_LITERAL | TRUE_BOOL_LITERAL | FALSE_BOOL_LITERAL => true
  | _ => false
  end.

(** The [%s] rendering of a kind. *)
Definition Kind_String (k : Kind) : string :=
  match k with
  | EOF => "end of file" | INVALID => "invalid" | ID => "id"
  | INTEGER_LITERAL => "integer literal" | STRING_LITERAL => "string literal"
  | TRUE_BOOL_LITERAL => "true" | FALSE_BOOL_LITERAL => "false"
  | FN => "fn" | RETURN => "return" | EXTERN => "extern" | IF => "if"
  | ELIF => "elif" | ELSE => "else" | FOR => "for" | WHILE => "while"
  | NOT => "not" | AND => "and" | OR => "or"
  | BOOL_TYPE => "bool" | INT_TYPE => "int" | I8_TYPE => "i8" | I16_TYPE => "i16"
  | I32_TYPE => "i32" | I64_TYPE => "i64" | UINT_TYPE => "uint" | U8_TYPE => "u8"
  | U16_TYPE => "u16" | U32_TYPE => "u32" | U64_TYPE => "u64" | VOID_TYPE => "void"
  | OPEN_PAREN => "(" | CLOSE_PAREN => ")" | OPEN_CURLY => "{" | CLOSE_CURLY => "}"
  | COMMA => "," | SEMICOLON => ";" | DOT => "." | DOT_DOT_DOT => "..."
  | EQUAL => "=" | COLON_EQUAL => ":=" | BANG_EQUAL => "!=" | EQUAL_EQUAL => "=="
  | STAR => "*" | MINUS => "-" | PLUS => "+" | SLASH => "/"
  | GREATER => ">" | GREATER_EQ => ">=" | LESS => "<" | LESS_EQ => "<="
  end.

(** [token.Position] *)
Record Position : Type := mkPosition {
  Filename : string;
  Line : nat;
  Column : nat;
}.

(** [token.Token] *)
Record Token : Type := mkToken {
  Kind_ : Kind;
  Lexeme : string;
  Pos : Position;
}.

(** [tok.Name()] *)
Definition Name (tok : Token) : string := Lexeme tok.

(** The [%s] rendering of a position and of a token. *)
Definition Position_String (pos : Position) : string :=
  Filename pos +:+ ":" +:+ pretty (Line pos) +:+ ":" +:+ pretty (Column pos).

Definition Token_String (tok : Token) : string :=
  Kind_String (Kind_ tok) +:+ " " +:+ Lexeme tok +:+ " " +:+ Position_String (Pos tok).

End token.

(** ** Package diagnostics *)

Module diagnostics.

(** Modelled from the spec: package [diagnostics] is not among the
    sources; the parser builds a [Diag] from its message, hands it to
    [ReportAndSave], which records it, and returns the sentinel
    [COMPILER_ERROR_FOUND]. *)
Record Diag : Type := mkDiag { Message : string }.

(** [diagnostics.Collector]: the diagnostics saved so far, oldest first. *)
Definition Collector : Type := list Diag.

Definition New : Collector := [].

(** [collector.ReportAndSave(diag)] *)
Definition ReportAndSave (c : Collector) (d : Diag) : Collector := c ++ [d].

(** The prefix [%s:%d:%d: ] shared by every positioned message. *)
Definition at_pos (pos : token.Position) (text : string) : Diag :=
  mkDiag (token.Position_String pos +:+ ": " +:+ text).

End diagnostics.

(** ** Package lexer: the token source *)

Module lexer.
Import token.

(** Modelled from the spec: the tokenizer is not among the sources; the
    parser sees it through [Peek] (current token), [Peek1] (one-token
    lookahead), [Skip] (consume the current token) and [NextIs].  The
    stream is the list of the tokens still to be read, followed by an
    endless supply of [EOF]. *)
Record Lexer : Type := mkLexer {
  ParentDirName : string;
  Path : string;
  toks : list Token;
}.

Definition eof (lex : Lexer) : Token :=
  mkToken EOF "" (mkPosition (Path lex) 0 0).

Definition Peek (lex : Lexer) : Token := hd (eof lex) (toks lex).

Definition Peek1 (lex : Lexer) : Token := hd (eof lex) (tl (toks lex)).

Definition Skip (lex : Lexer) : Lexer :=
  mkLexer (ParentDirName lex) (Path lex) (tl (toks lex)).

Definition NextIs (lex : Lexer) (expectedKind : Kind) : bool :=
  token.eqb (Kind_ (Peek lex)) expectedKind.

(** [lexer.New(filename, src, collector)], on an already tokenized source. *)
Definition New (filename : string) (src : list Token) : Lexer :=
  mkLexer "" filename src.

End lexer.

(** ** Package ast *)

Module ast.
Import token.

(** Modelled from the spec: the declarations of package [ast] in the
    version the parser imports are not among the sources ([ast/ast.go] and
    [ast/expr.go] are of an earlier one); the node types below have the
    fields the parser sets, which are those the specification lists.

    [ast.ExprType]: [BasicType], [PointerType], [IdType]. *)
Inductive ExprType : Type :=
  | BasicType (Kind : token.Kind)
  | PointerType (Type_ : ExprType)
  | IdType (Name : Token).

(** [ast.Expr] and the structs implementing it.  [FunctionCall] and
    [FieldAccess] are structs of their own because the parser also returns
    them as statements. *)
Inductive Expr : Type :=
  | LiteralExpr (Type_ : ExprType) (Value : string)
  | IdExpr (Name : Token)
  | UnaryExpr (Op : token.Kind) (Value : Expr)
  | BinaryExpr (Left : Expr) (Op : token.Kind) (Right : Expr)
  | FunctionCallExpr (call : FunctionCall)
  | FieldAccessExpr (access : FieldAccess)
  | VoidExpr
with FunctionCall : Type :=
  | mkFunctionCall (Name : Token) (Args : list Expr)
with FieldAccess : Type :=
  | mkFieldAccess (Left : Expr) (Right : Expr).

(** Modelled from the spec: the table [ast.LOGICAL] that [parseLogical]
    consults is not among the sources.  The specification puts [and], [or]
    and the equality operators on this level; these are also the keys of
    the table [EQUALITY] of [ast/expr.go]. *)
Definition LOGICAL (k : token.Kind) : bool :=
  match k with
  | EQUAL_EQUAL | BANG_EQUAL | AND | OR => true
  | _ => false
  end.

(** The tables [COMPARASION], [TERM], [FACTOR] and [UNARY] of
    [ast/expr.go]; a Go [map[kind]bool] used as a set is its membership
    test. *)
Definition COMPARASION (k : token.Kind) : bool :=
  match k with
  | GREATER | GREATER_EQ | LESS | LESS_EQ => true
  | _ => false
  end.

Definition TERM (k : token.Kind) : bool :=
  match k with
  | MINUS | PLUS => true
  | _ => false
  end.

Definition FACTOR (k : token.Kind) : bool :=
  match k with
  | SLASH | STAR => true
  | _ => false
  end.

Definition UNARY (k : token.Kind) : bool :=
  match k with
  | NOT | MINUS => true
  | _ => false
  end.

(** [ast.Field] and [ast.FieldList] *)
Record Field : Type := mkField {
  Field_Name : Token;
  Field_Type : ExprType;
}.

Record FieldList : Type := mkFieldList {
  Open : Token;
  Fields : list Field;
  IsVariadic : bool;
  Close : Token;
}.

(** [ast.VarStmt]; [Type] and [Value] are [nil] until the parser fills
    them in. *)
Record VarStmt : Type := mkVarStmt {
  Var_Name : Token;
  Var_Type : option ExprType;
  Var_Value : option Expr;
  Decl : bool;
  NeedsInference : bool;
}.

(** [ast.Stmt] and the structs it is made of. *)
Inductive Stmt : Type :=
  | ReturnStmt (Return : Token) (Value : Expr)
  | VarStmt_ (variable : VarStmt)
  | MultiVarStmt (IsDecl : bool) (Variables : list VarStmt)
  | FunctionCallStmt (call : FunctionCall)
  | FieldAccessStmt (access : FieldAccess)
  | CondStmt (IfStmt : IfElifCond) (ElifStmts : list IfElifCond)
             (ElseStmt : option ElseCond)
  | ForLoop (Init : Stmt) (Cond : Expr) (Update : Stmt) (Block : BlockStmt)
  | WhileLoop (Cond : Expr) (Block : BlockStmt)
with BlockStmt : Type :=
  | mkBlockStmt (OpenCurly : Position) (Statements : list Stmt)
                (CloseCurly : Position)
with IfElifCond : Type :=
  | mkIfElifCond (If : Position) (Expr_ : Expr) (Block : BlockStmt)
with ElseCond : Type :=
  | mkElseCond (Else : Position) (Block : BlockStmt).

(** Declarations *)
Record Proto : Type := mkProto {
  Proto_Name : Token;
  Proto_Params : FieldList;
  Proto_RetType : ExprType;
}.

Record ExternDecl : Type := mkExternDecl {
  Extern_Scope : option scope.loc;
  Extern_Name : Token;
  Prototypes : list Proto;
}.

Record FunctionDecl : Type := mkFunctionDecl {
  Fn_Scope : scope.loc;
  Fn_Name : Token;
  Params : FieldList;
  Block : BlockStmt;
  RetType : ExprType;
}.

(** [ast.Node], as far as the parser produces it at file level. *)
Inductive Node : Type :=
  | FunctionDeclNode (fnDecl : FunctionDecl)
  | ExternDeclNode (externDecl : ExternDecl).

(** Modelled from the spec: [ast.Scope], the scope of package [ast] the
    parser works on, is not among the sources.  Section 3: a scope is a
    "mapping from identifier name (string, unique per scope) to a bound
    entity", with "a non-owning reference to an optional parent scope".
    It is the record of a parent pointer and a map that package [scope]
    declares, holding nodes. *)
Abbreviation Scope := (scope.Scope Node).

(** Modelled from the spec: [ast.NewScope(parent)], not among the sources.
    A scope is "created" with the parent it is given; nothing is bound in
    it yet. *)
Definition NewScope (parent : option scope.loc) (σ : scope.store Node)
  : scope.loc * scope.store Node :=
  (List.length σ, σ ++ [scope.mkScope parent ∅]).

(** Modelled from the spec: [Insert] of [ast.Scope], not among the
    sources.  Section 4.1: "insert(name, value) fails with
    DuplicateSymbol(name) if name already exists in this scope instance;
    otherwise binds it".  The error of the failure is the duplicate-symbol
    sentinel [ast.ERR_SYMBOL_ALREADY_DEFINED_ON_SCOPE], the one value the
    parser tests the result against.  The outer [None] is the run-time
    panic of a nil or dangling receiver; the inner option is the returned
    [error] ([None] for [nil]). *)
Definition Insert (s : scope.loc) (name : string) (element : Node)
    (σ : scope.store Node) : option (option error * scope.store Node) :=
  sc ← σ !! s;
  match scope.nodes sc !! name with
  | Some _ => Some (Some ERR_SYMBOL_ALREADY_DEFINED_ON_SCOPE, σ)
  | None =>
      Some (None,
            <[s := scope.mkScope (scope.parent sc)
                     (<[name := element]> (scope.nodes sc))]> σ)
  end.

(** [ast.File], [ast.Module], [ast.Program] *)
Record File : Type := mkFile {
  Dir : string;
  File_Path : string;
  File_Scope : scope.loc;
  Body : list Node;
}.

Inductive Module_ : Type :=
  | mkModule (Name : string) (Files : list File) (Modules : list Module_)
             (Scope : scope.loc) (IsRoot : bool).

Record Program : Type := mkProgram { Root : Module_ }.

End ast.

(** ** Package parser *)

Module parser.
Import token lexer ast.

(** What a call of a parser method comes to: it returns a value with a nil
    error ([Ok]), returns a non-nil error ([Err]), ends the process with
    [log.Fatal] or a run-time panic ([Exit]), or, in the embedding only,
    uses up its [fuel] ([OutOfFuel]). *)
Inductive Result (A : Type) : Type :=
  | Ok (a : A)
  | Err (e : error)
  | Exit (msg : string)
  | OutOfFuel.
Global Arguments Ok {A} a.
Global Arguments Err {A} e.
Global Arguments Exit {A} msg.
Global Arguments OutOfFuel {A}.

(** [type Parser struct { lex; collector; moduleScope }], with the store
    the scope pointers point into. *)
Record Parser : Type := mkParser {
  lex : Lexer;
  collector : diagnostics.Collector;
  moduleScope : option scope.loc;
  heap : scope.store Node;
}.

Definition M (A : Type) : Type := Parser → Result A * Parser.

Definition ret {A} (a : A) : M A := λ p, (Ok a, p).

Definition bind {A B} (m : M A) (k : A → M B) : M B :=
  λ p, match m p with
       | (Ok a, p') => k a p'
       | (Err e, p') => (Err e, p')
       | (Exit msg, p') => (Exit msg, p')
       | (OutOfFuel, p') => (OutOfFuel, p')
       end.

(** [v, err := m; if err != nil { onErr } ; k v] *)
Definition handle {A B} (m : M A) (onErr : error → M B) (k : A → M B) : M B :=
  λ p, match m p with
       | (Ok a, p') => k a p'
       | (Err e, p') => onErr e p'
       | (Exit msg, p') => (Exit msg, p')
       | (OutOfFuel, p') => (OutOfFuel, p')
       end.

(** [return nil, err] *)
Definition fail {A} (e : error) : M A := λ p, (Err e, p).

(** [log.Fatal(msg)] *)
Definition fatal {A} (msg : string) : M A := λ p, (Exit msg, p).

Definition outOfFuel {A} : M A := λ p, (OutOfFuel, p).

Notation "'let*' x ':=' c1 'in' c2" := (bind c1 (λ x, c2))
  (at level 10, x pattern, c1 at level 200, c2 at level 200).
Notation "c1 ;; c2" := (bind c1 (λ _, c2))
  (at level 100, c2 at level 200, right associativity).

(** The lexer and the collector, reached through the parser's fields. *)
Definition set_lex (p : Parser) (l : Lexer) : Parser :=
  mkParser l (collector p) (moduleScope p) (heap p).
Definition set_collector (p : Parser) (c : diagnostics.Collector) : Parser :=
  mkParser (lex p) c (moduleScope p) (heap p).
Definition set_moduleScope (p : Parser) (s : option scope.loc) : Parser :=
  mkParser (lex p) (collector p) s (heap p).
Definition set_heap (p : Parser) (σ : scope.store Node) : Parser :=
  mkParser (lex p) (collector p) (moduleScope p) σ.

Definition Peek : M Token := λ p, (Ok (lexer.Peek (lex p)), p).
Definition Peek1 : M Token := λ p, (Ok (lexer.Peek1 (lex p)), p).
Definition Skip : M unit := λ p, (Ok tt, set_lex p (lexer.Skip (lex p))).
Definition NextIs (k : token.Kind) : M bool :=
  λ p, (Ok (lexer.NextIs (lex p) k), p).
Definition ReportAndSave (d : diagnostics.Diag) : M unit :=
  λ p, (Ok tt, set_collector p (diagnostics.ReportAndSave (collector p) d)).

(** [for _, end := range possibleEnds { if p.lex.NextIs(end) { ... } }] *)
Definition NextIsAny (possibleEnds : list token.Kind) : M bool :=
  λ p, (Ok (existsb (lexer.NextIs (lex p)) possibleEnds), p).

(** The parser after [p.lex.Skip()]. *)
Definition skipped (p : Parser) : Parser := set_lex p (lexer.Skip (lex p)).

(** The parser after [p.collector.ReportAndSave(d)]. *)
Definition reported (p : Parser) (d : diagnostics.Diag) : Parser :=
  set_collector p (diagnostics.ReportAndSave (collector p) d).

(** [ast.NewScope(parent)] *)
Definition NewScope (parent : option scope.loc) : M scope.loc :=
  λ p, let '(s, σ) := ast.NewScope parent (heap p) in (Ok s, set_heap p σ).

(** [scope.Insert(name, element)] for a pointer [scope] to an [ast.Scope],
    which may be nil. *)
Definition ScopeInsert (s : option scope.loc) (name : string) (element : Node)
  : M (option error) :=
  λ p, match s with
       | None => (Exit "nil pointer dereference", p)
       | Some s =>
           match ast.Insert s name element (heap p) with
           | None => (Exit "invalid memory address", p)
           | Some (err, σ) => (Ok err, set_heap p σ)
           end
       end.

(** [New(collector)]: no lexer yet, no module scope. *)
Definition New (collector : diagnostics.Collector) (σ : scope.store Node) : Parser :=
  mkParser (lexer.New "" []) collector None σ.

(** [NewWithLex(lex, collector)] *)
Definition NewWithLex (lex : Lexer) (collector : diagnostics.Collector)
    (σ : scope.store Node) : Parser :=
  mkParser lex collector None σ.

(** [p.expect(expectedKind)] *)
Definition expect (expectedKind : token.Kind) : M (Token * bool) :=
  let* tok := Peek in
  if negb (token.eqb (Kind_ tok) expectedKind) then ret (tok, false)
  else Skip ;; ret (tok, true).

(** The diagnostic [pos: expected <what>, not <kind>]. *)
Definition expected (what : string) (tok : Token) : diagnostics.Diag :=
  diagnostics.at_pos (Pos tok) ("expected " +:+ what +:+ ", not " +:+ Kind_String (Kind_ tok)).

(** *** Types *)

(** [p.parseExprType()], by recursion on the tokens still to be read: the
    head is [Peek], the tail is what [Skip] leaves.  At the end of the
    stream [Peek] is [EOF], which is no type. *)
Fixpoint parseExprType_from (ts : list Token) : Result ExprType * list Token :=
  match ts with
  | [] => (Err COMPILER_ERROR_FOUND, [])
  | tok :: rest =>
      match Kind_ tok with
      | STAR =>
          match parseExprType_from rest with
          | (Ok ty, ts') => (Ok (PointerType ty), ts')
          | (r, ts') => (r, ts')
          end
      | ID => (Ok (IdType tok), rest)
      | k =>
          if IsBasicType k then (Ok (BasicType k), rest)
          else (Err COMPILER_ERROR_FOUND, ts)
      end
  end.

Definition parseExprType : M ExprType :=
  λ p, let '(r, ts) := parseExprType_from (toks (lex p)) in
       (r, set_lex p (mkLexer (ParentDirName (lex p)) (Path (lex p)) ts)).

(** [p.parseReturnType(isPrototype)] *)
Definition parseReturnType (isPrototype : bool) : M ExprType :=
  let* semicolon := NextIs SEMICOLON in
  let* openCurly := NextIs OPEN_CURLY in
  if (isPrototype && semicolon) || openCurly then ret (BasicType VOID_TYPE)
  else
    handle parseExprType
      (λ _, let* tok := Peek in
            ReportAndSave (expected "type or {" tok) ;;
            fail COMPILER_ERROR_FOUND)
      (λ returnType, ret returnType).

(** *** Parameter lists *)

(** The [for] loop of [parseFunctionParams]; it returns [params] and
    [isVariadic] as they are when the loop is left. *)
Fixpoint parseFunctionParams_loop (fuel : nat) (params : list Field)
    (isVariadic : bool) : M (list Field * bool) :=
  match fuel with
  | O => outOfFuel
  | S fuel' =>
      let* closeParen := NextIs CLOSE_PAREN in
      if closeParen then ret (params, isVariadic)
      else
        let* dots := NextIs DOT_DOT_DOT in
        if dots then
          let* tok := Peek in
          Skip ;;
          let* closeParen := NextIs CLOSE_PAREN in
          if negb closeParen then
            ReportAndSave (diagnostics.at_pos (Pos tok)
              "... is only allowed at the end of parameter list") ;;
            fail COMPILER_ERROR_FOUND
          else ret (params, true)
        else
          let* (name, ok) := expect ID in
          if negb ok then
            ReportAndSave (expected "parameter or )" name) ;;
            fail COMPILER_ERROR_FOUND
          else
            handle parseExprType
              (λ _, let* tok := Peek in
                    ReportAndSave (expected
                      ("parameter type for '" +:+ Lexeme name +:+ "'") tok) ;;
                    fail COMPILER_ERROR_FOUND)
              (λ paramType,
                 let params := params ++ [mkField name paramType] in
                 let* comma := NextIs COMMA in
                 if comma then Skip ;; parseFunctionParams_loop fuel' params isVariadic
                 else parseFunctionParams_loop fuel' params isVariadic)
  end.

(** [p.parseFunctionParams()] *)
Definition parseFunctionParams (fuel : nat) : M FieldList :=
  let* (openParen, ok) := expect OPEN_PAREN in
  if negb ok then
    ReportAndSave (expected "(" openParen) ;;
    fail COMPILER_ERROR_FOUND
  else
    let* (params, isVariadic) := parseFunctionParams_loop fuel [] false in
    let* (closeParen, ok) := expect CLOSE_PAREN in
    if negb ok then
      ReportAndSave (expected ")" closeParen) ;;
      fail COMPILER_ERROR_FOUND
    else ret (mkFieldList openParen params isVariadic closeParen).

(** *** Expressions *)

(** The precedence ladder.  Every [for] loop is a function of its own
    (suffix [_loop]) taking the loop's accumulator; every call spends one
    unit of [fuel]. *)
Fixpoint parseExpr (fuel : nat) : M Expr :=
  match fuel with
  | O => outOfFuel
  | S fuel' => parseLogical fuel'
  end

with parseLogical (fuel : nat) : M Expr :=
  match fuel with
  | O => outOfFuel
  | S fuel' =>
      let* lhs := parseComparasion fuel' in
      parseLogical_loop fuel' lhs
  end

with parseLogical_loop (fuel : nat) (lhs : Expr) : M Expr :=
  match fuel with
  | O => outOfFuel
  | S fuel' =>
      let* next := Peek in
      if LOGICAL (Kind_ next) then
        Skip ;;
        let* rhs := parseComparasion fuel' in
        parseLogical_loop fuel' (BinaryExpr lhs (Kind_ next) rhs)
      else ret lhs
  end

with parseComparasion (fuel : nat) : M Expr :=
  match fuel with
  | O => outOfFuel
  | S fuel' =>
      let* lhs := parseTerm fuel' in
      parseComparasion_loop fuel' lhs
  end

with parseComparasion_loop (fuel : nat) (lhs : Expr) : M Expr :=
  match fuel with
  | O => outOfFuel
  | S fuel' =>
      let* next := Peek in
      if COMPARASION (Kind_ next) then
        Skip ;;
        let* rhs := parseTerm fuel' in
        parseComparasion_loop fuel' (BinaryExpr lhs (Kind_ next) rhs)
      else ret lhs
  end

with parseTerm (fuel : nat) : M Expr :=
  match fuel with
  | O => outOfFuel
  | S fuel' =>
      let* lhs := parseFactor fuel' in
      parseTerm_loop fuel' lhs
  end

with parseTerm_loop (fuel : nat) (lhs : Expr) : M Expr :=
  match fuel with
  | O => outOfFuel
  | S fuel' =>
      let* next := Peek in
      if TERM (Kind_ next) then
        Skip ;;
        let* rhs := parseFactor fuel' in
        parseTerm_loop fuel' (BinaryExpr lhs (Kind_ next) rhs)
      else ret lhs
  end

with parseFactor (fuel : nat) : M Expr :=
  match fuel with
  | O => outOfFuel
  | S fuel' =>
      let* lhs := parseUnary fuel' in
      parseFactor_loop fuel' lhs
  end

with parseFactor_loop (fuel : nat) (lhs : Expr) : M Expr :=
  match fuel with
  | O => outOfFuel
  | S fuel' =>
      let* next := Peek in
      if FACTOR (Kind_ next) then
        Skip ;;
        let* rhs := parseUnary fuel' in
        parseFactor_loop fuel' (BinaryExpr lhs (Kind_ next) rhs)
      else ret lhs
  end

with parseUnary (fuel : nat) : M Expr :=
  match fuel with
  | O => outOfFuel
  | S fuel' =>
      let* next := Peek in
      if UNARY (Kind_ next) then
        Skip ;;
        let* rhs := parseUnary fuel' in
        ret (UnaryExpr (Kind_ next) rhs)
      else parsePrimary fuel'
  end

with parsePrimary (fuel : nat) : M Expr :=
  match fuel with
  | O => outOfFuel
  | S fuel' =>
      let* tok := Peek in
      match Kind_ tok with
      | ID =>
          let* next := Peek1 in
          match Kind_ next with
          | OPEN_PAREN =>
              let* call := parseFnCall fuel' in
              ret (FunctionCallExpr call)
          | DOT =>
              let* fieldAccess := parseFieldAccess fuel' in
              ret (FieldAccessExpr fieldAccess)
          | _ => Skip ;; ret (IdExpr tok)
          end
      | OPEN_PAREN =>
          Skip ;;
          let* expr := parseExpr fuel' in
          let* (_, ok) := expect CLOSE_PAREN in
          if negb ok then fail (Errorf "expected closing parenthesis")
          else ret expr
      | k =>
          if LITERAL_KIND k then
            Skip ;; ret (LiteralExpr (BasicType k) (Lexeme tok))
          else
            fail (Errorf ("invalid token for expression parsing: "
                          +:+ Kind_String k +:+ " " +:+ Lexeme tok +:+ " "
                          +:+ Position_String (Pos tok)))
      end
  end

with parseExprList (fuel : nat) (possibleEnds : list token.Kind) : M (list Expr) :=
  match fuel with
  | O => outOfFuel
  | S fuel' => parseExprList_loop fuel' possibleEnds []
  end

with parseExprList_loop (fuel : nat) (possibleEnds : list token.Kind)
    (exprs : list Expr) : M (list Expr) :=
  match fuel with
  | O => outOfFuel
  | S fuel' =>
      let* atEnd := NextIsAny possibleEnds in
      if atEnd then ret exprs
      else
        let* expr := parseExpr fuel' in
        let exprs := exprs ++ [expr] in
        let* comma := NextIs COMMA in
        if comma then Skip ;; parseExprList_loop fuel' possibleEnds exprs
        else parseExprList_loop fuel' possibleEnds exprs
  end

with parseFnCall (fuel : nat) : M FunctionCall :=
  match fuel with
  | O => outOfFuel
  | S fuel' =>
      let* (name, ok) := expect ID in
      if negb ok then fail (Errorf "expected 'id'")
      else
        let* (_, ok) := expect OPEN_PAREN in
        if negb ok then fail (Errorf "expected '('")
        else
          let* args := parseExprList fuel' [CLOSE_PAREN] in
          let* (_, ok) := expect CLOSE_PAREN in
          if negb ok then fail (Errorf "expected ')'")
          else ret (mkFunctionCall name args)
  end

with parseFieldAccess (fuel : nat) : M FieldAccess :=
  match fuel with
  | O => outOfFuel
  | S fuel' =>
      let* (id, ok) := expect ID in
      if negb ok then fatal "expected ID"
      else
        let* (_, ok) := expect DOT in
        if negb ok then fatal "expect a dot"
        else
          handle (parsePrimary fuel')
            (λ err, fatal (Error err))
            (λ right, ret (mkFieldAccess (IdExpr id) right))
  end.

(** *** Variable statements *)

(** The [VarDecl] loop of [parseVar]: the names read so far, and on exit
    whether the operator was [:=].  The two [switch next.Kind] statements
    are written as the comparisons they make. *)
Fixpoint parseVar_loop (fuel : nat) (variables : list VarStmt)
  : M (list VarStmt * bool) :=
  match fuel with
  | O => outOfFuel
  | S fuel' =>
      let* (name, ok) := expect ID in
      if negb ok then fail (Errorf "expected ID")
      else
        let variable := mkVarStmt name None None true true in
        let* next := Peek in
        if token.eqb (Kind_ next) COLON_EQUAL || token.eqb (Kind_ next) EQUAL then
          Skip ;;
          ret (variables ++ [variable], token.eqb (Kind_ next) COLON_EQUAL)
        else if token.eqb (Kind_ next) COMMA then
          Skip ;; parseVar_loop fuel' (variables ++ [variable])
        else
          let* ty := parseExprType in
          let variable := mkVarStmt name (Some ty) None true false in
          let* next := Peek in
          if token.eqb (Kind_ next) COLON_EQUAL || token.eqb (Kind_ next) EQUAL then
            Skip ;;
            ret (variables ++ [variable], token.eqb (Kind_ next) COLON_EQUAL)
          else if token.eqb (Kind_ next) COMMA then
            Skip ;; parseVar_loop fuel' (variables ++ [variable])
          else parseVar_loop fuel' (variables ++ [variable])
  end.

(** [variables[i].Value = exprs[i]; variables[i].Decl = isDecl] *)
Definition assign (isDecl : bool) (variable : VarStmt) (expr : Expr) : VarStmt :=
  mkVarStmt (Var_Name variable) (Var_Type variable) (Some expr) isDecl
            (NeedsInference variable).

(** The part of [parseVar] after the expression list has been read. *)
Definition parseVar_finish (variables : list VarStmt) (isDecl : bool)
    (exprs : list Expr) : M Stmt :=
  if negb (Nat.eqb (List.length variables) (List.length exprs)) then
    fail (Errorf (pretty (List.length variables) +:+ " != "
                  +:+ pretty (List.length exprs)))
  else
    let variables := zip_with (assign isDecl) variables exprs in
    match variables with
    | [variable] => ret (VarStmt_ variable)
    | _ => ret (MultiVarStmt isDecl variables)
    end.

(** [p.parseVar()] *)
Definition parseVar (fuel : nat) : M Stmt :=
  let* (variables, isDecl) := parseVar_loop fuel [] in
  let* exprs := parseExprList fuel [SEMICOLON; CLOSE_PAREN] in
  parseVar_finish variables isDecl exprs.

(** [p.ParseIdStmt()] *)
Definition ParseIdStmt (fuel : nat) : M Stmt :=
  let* aheadId := Peek1 in
  match Kind_ aheadId with
  | OPEN_PAREN =>
      let* fnCall := parseFnCall fuel in
      ret (FunctionCallStmt fnCall)
  | DOT =>
      let* fieldAccessing := parseFieldAccess fuel in
      ret (FieldAccessStmt fieldAccessing)
  | _ => parseVar fuel
  end.

(** *** Statements *)

Fixpoint parseStmt (fuel : nat) : M (option Stmt) :=
  match fuel with
  | O => outOfFuel
  | S fuel' =>
      let* tok := Peek in
      match Kind_ tok with
      | RETURN =>
          Skip ;;
          let* semicolon := NextIs SEMICOLON in
          if semicolon then Skip ;; ret (Some (ReturnStmt tok VoidExpr))
          else
            handle (parseExpr fuel')
              (λ _, let* tok := Peek in
                    ReportAndSave (expected "expression or ;" tok) ;;
                    fail COMPILER_ERROR_FOUND)
              (λ returnValue,
                 let* (_, ok) := expect SEMICOLON in
                 if negb ok then
                   let* tok := Peek in
                   ReportAndSave (expected "; at the end of statement" tok) ;;
                   fail COMPILER_ERROR_FOUND
                 else ret (Some (ReturnStmt tok returnValue)))
      | ID =>
          let* idStmt := ParseIdStmt fuel' in
          let* (semicolon, ok) := expect SEMICOLON in
          if negb ok then
            ReportAndSave (expected "; at the end of statement" semicolon) ;;
            fail COMPILER_ERROR_FOUND
          else ret (Some idStmt)
      | IF =>
          let* condStmt := parseCondStmt fuel' in
          ret (Some condStmt)
      | FOR =>
          let* forLoop := parseForLoop fuel' in
          ret (Some forLoop)
      | WHILE =>
          let* whileLoop := parseWhileLoop fuel' in
          ret (Some whileLoop)
      | _ => ret None
      end
  end

with parseBlock (fuel : nat) : M BlockStmt :=
  match fuel with
  | O => outOfFuel
  | S fuel' =>
      let* (openCurly, ok) := expect OPEN_CURLY in
      if negb ok then
        fail (Errorf ("expected '{', but got " +:+ Token_String openCurly))
      else
        let* statements := parseBlock_loop fuel' [] in
        let* (closeCurly, ok) := expect CLOSE_CURLY in
        if negb ok then
          ReportAndSave (expected "statement or }" closeCurly) ;;
          fail COMPILER_ERROR_FOUND
        else ret (mkBlockStmt (Pos openCurly) statements (Pos closeCurly))
  end

with parseBlock_loop (fuel : nat) (statements : list Stmt) : M (list Stmt) :=
  match fuel with
  | O => outOfFuel
  | S fuel' =>
      let* tok := Peek in
      if token.eqb (Kind_ tok) CLOSE_CURLY then ret statements
      else
        let* stmt := parseStmt fuel' in
        match stmt with
        | Some stmt => parseBlock_loop fuel' (statements ++ [stmt])
        | None => ret statements
        end
  end

with parseCondStmt (fuel : nat) : M Stmt :=
  match fuel with
  | O => outOfFuel
  | S fuel' =>
      let* ifCond := parseIfCond fuel' in
      let* elifConds := parseElifConds fuel' [] in
      let* elseCond := parseElseCond fuel' in
      ret (CondStmt ifCond elifConds elseCond)
  end

with parseIfCond (fuel : nat) : M IfElifCond :=
  match fuel with
  | O => outOfFuel
  | S fuel' =>
      let* (ifToken, ok) := expect IF in
      if negb ok then fail (Errorf "expected 'if'")
      else
        let* ifExpr := parseExpr fuel' in
        let* ifBlock := parseBlock fuel' in
        ret (mkIfElifCond (Pos ifToken) ifExpr ifBlock)
  end

with parseElifConds (fuel : nat) (elifConds : list IfElifCond)
  : M (list IfElifCond) :=
  match fuel with
  | O => outOfFuel
  | S fuel' =>
      let* (elifToken, ok) := expect ELIF in
      if negb ok then ret elifConds
      else
        let* elifExpr := parseExpr fuel' in
        let* elifBlock := parseBlock fuel' in
        parseElifConds fuel'
          (elifConds ++ [mkIfElifCond (Pos elifToken) elifExpr elifBlock])
  end

with parseElseCond (fuel : nat) : M (option ElseCond) :=
  match fuel with
  | O => outOfFuel
  | S fuel' =>
      let* (elseToken, ok) := expect ELSE in
      if negb ok then ret None
      else
        let* elseBlock := parseBlock fuel' in
        ret (Some (mkElseCond (Pos elseToken) elseBlock))
  end

with parseForLoop (fuel : nat) : M Stmt :=
  match fuel with
  | O => outOfFuel
  | S fuel' =>
      let* (_, ok) := expect FOR in
      if negb ok then fail (Errorf "expected 'for'")
      else
        let* (_, ok) := expect OPEN_PAREN in
        if negb ok then fail (Errorf "expected '('")
        else
          let* init := parseVar fuel' in
          let* (_, ok) := expect SEMICOLON in
          if negb ok then fail (Errorf "expected ';'")
          else
            let* cond := parseExpr fuel' in
            let* (_, ok) := expect SEMICOLON in
            if negb ok then fail (Errorf "expected ';'")
            else
              let* update := parseVar fuel' in
              let* (_, ok) := expect CLOSE_PAREN in
              if negb ok then fail (Errorf "expected ')'")
              else
                let* block := parseBlock fuel' in
                ret (ForLoop init cond update block)
  end

with parseWhileLoop (fuel : nat) : M Stmt :=
  match fuel with
  | O => outOfFuel
  | S fuel' =>
      let* (_, ok) := expect WHILE in
      if negb ok then fail (Errorf "expected 'while'")
      else
        let* expr := parseExpr fuel' in
        let* block := parseBlock fuel' in
        ret (WhileLoop expr block)
  end.

(** *** Declarations *)

(** [p.parsePrototype()] *)
Definition parsePrototype (fuel : nat) : M Proto :=
  let* (fn, ok) := expect FN in
  if negb ok then
    ReportAndSave (expected "prototype or }" fn) ;;
    fail COMPILER_ERROR_FOUND
  else
    let* (name, ok) := expect ID in
    if negb ok then
      ReportAndSave (expected "name" name) ;;
      fail COMPILER_ERROR_FOUND
    else
      let* params := parseFunctionParams fuel in
      let* returnType := parseReturnType true in
      let* (semicolon, ok) := expect SEMICOLON in
      if negb ok then
        ReportAndSave (expected "; at the end of prototype" semicolon) ;;
        fail COMPILER_ERROR_FOUND
      else ret (mkProto name params returnType).

(** The prototype loop of [parseExternDecl]. *)
Fixpoint parseExternDecl_loop (fuel : nat) (prototypes : list Proto)
  : M (list Proto) :=
  match fuel with
  | O => outOfFuel
  | S fuel' =>
      let* closeCurly := NextIs CLOSE_CURLY in
      if closeCurly then ret prototypes
      else
        let* proto := parsePrototype fuel' in
        parseExternDecl_loop fuel' (prototypes ++ [proto])
  end.

(** [p.parseExternDecl()] *)
Definition parseExternDecl (fuel : nat) : M ExternDecl :=
  let* (_, ok) := expect EXTERN in
  if negb ok then fail (Errorf "expected 'extern'")
  else
    let* (name, ok) := expect ID in
    if negb ok then
      ReportAndSave (expected "name" name) ;;
      fail COMPILER_ERROR_FOUND
    else
      let* (openCurly, ok) := expect OPEN_CURLY in
      if negb ok then
        ReportAndSave (expected "{" openCurly) ;;
        fail COMPILER_ERROR_FOUND
      else
        let* prototypes := parseExternDecl_loop fuel [] in
        let* (closeCurly, ok) := expect CLOSE_CURLY in
        if negb ok then
          ReportAndSave (expected "}" closeCurly) ;;
          fail COMPILER_ERROR_FOUND
        else ret (mkExternDecl None name prototypes).

(** The diagnostic of a redeclared function. *)
Definition functionRedeclaration (name : Token) : diagnostics.Diag :=
  diagnostics.at_pos (Pos name)
    ("function '" +:+ token.Name name +:+ "' already declared on scope").

(** [p.parseFnDecl()] *)
Definition parseFnDecl (fuel : nat) : M FunctionDecl :=
  let* (_, ok) := expect FN in
  if negb ok then fail (Errorf "expected 'fn'")
  else
    let* (name, ok) := expect ID in
    if negb ok then
      ReportAndSave (expected "name" name) ;;
      fail COMPILER_ERROR_FOUND
    else
      let* params := parseFunctionParams fuel in
      let* returnType := parseReturnType false in
      let* block := parseBlock fuel in
      let* moduleScope := (λ p, (Ok (moduleScope p), p)) in
      let* fnScope := NewScope moduleScope in
      let fnDecl := mkFunctionDecl fnScope name params block returnType in
      let* err := ScopeInsert moduleScope (token.Name name) (FunctionDeclNode fnDecl) in
      match err with
      | Some err =>
          (if same err ERR_SYMBOL_ALREADY_DEFINED_ON_SCOPE
           then ReportAndSave (functionRedeclaration name)
           else ret tt) ;;
          fail err
      | None => ret fnDecl
      end.

(** [p.next()]: [None] is the return [(nil, eof = true, nil)], [Some node]
    the return [(node, false, nil)]. *)
Definition next (fuel : nat) : M (option Node) :=
  let* tok := Peek in
  match Kind_ tok with
  | EOF => ret None
  | FN =>
      let* fnDecl := parseFnDecl fuel in
      ret (Some (FunctionDeclNode fnDecl))
  | EXTERN =>
      let* externDecl := parseExternDecl fuel in
      ret (Some (ExternDeclNode externDecl))
  | _ =>
      ReportAndSave (diagnostics.at_pos (Pos tok)
        "unexpected non-declaration statement on global scope") ;;
      fail COMPILER_ERROR_FOUND
  end.

(** [p.parseFileNodes()], the loop with its accumulator [nodes]. *)
Fixpoint parseFileNodes_loop (fuel : nat) (nodes : list Node) : M (list Node) :=
  match fuel with
  | O => outOfFuel
  | S fuel' =>
      let* node := next fuel' in
      match node with
      | None => ret nodes
      | Some node => parseFileNodes_loop fuel' (nodes ++ [node])
      end
  end.

Definition parseFileNodes (fuel : nat) : M (list Node) :=
  parseFileNodes_loop fuel [].

(** [p.parseFile(lex, moduleScope)] *)
Definition parseFile (fuel : nat) (lex : Lexer) (moduleScope : scope.loc) : M File :=
  let* fileScope := NewScope (Some moduleScope) in
  (λ p, (Ok tt, set_moduleScope (set_lex p lex) (Some moduleScope))) ;;
  let* nodes := parseFileNodes fuel in
  ret (mkFile (ParentDirName lex) (Path lex) fileScope nodes).

(** [ParseExprFrom(expr, filename)], on an already tokenized expression. *)
Definition ParseExprFrom (fuel : nat) (expr : list Token) (filename : string)
  : Result Expr :=
  (parseExpr fuel (NewWithLex (lexer.New filename expr) diagnostics.New [])).1.

(** [parseVarFrom(filename, input)] *)
Definition parseVarFrom (fuel : nat) (filename : string) (input : list Token)
  : Result Stmt :=
  (ParseIdStmt fuel (NewWithLex (lexer.New filename input) diagnostics.New [])).1.

(** *** The module tree *)

(** What the file system answers: [os.ReadDir] on a directory gives an
    error or its entries; opening a file ([lexer.NewFromFilePath]) gives an
    error or the source, here its tokens. *)
Inductive DirEntry : Type :=
  | Dir_ (name : string) (read : ReadDir)
  | File_ (name : string) (source : error + list Token)
with ReadDir : Type :=
  | ReadError (err : error)
  | Entries (entries : list DirEntry).

(** [entry.Name()], [entry.IsDir()] *)
Definition Entry_Name (entry : DirEntry) : string :=
  match entry with Dir_ name _ | File_ name _ => name end.

(** Package [filepath] where the separator is the slash and there are no
    volume names (Unix). *)
Definition isSep (c : ascii) : bool := Ascii.eqb c "/"%char.

Fixpoint hasSep (s : string) : bool :=
  match s with
  | EmptyString => false
  | String c s' => isSep c || hasSep s'
  end.

(** [filepath.Ext]: the suffix starting at the last dot of the last element. *)
Fixpoint Ext (path : string) : string :=
  match path with
  | EmptyString => ""
  | String c rest =>
      if hasSep rest then Ext rest
      else match Ext rest with
           | EmptyString => if Ascii.eqb c "."%char then path else ""
           | ext => ext
           end
  end.

(** What stands between the separators of a path: [a//b/] has the
    elements [a], the empty string, [b] and the empty string. *)
Fixpoint elements (path : string) : list string :=
  match path with
  | EmptyString => [""]
  | String c rest =>
      if isSep c then "" :: elements rest
      else match elements rest with
           | e :: es => String c e :: es
           | [] => [String c ""]
           end
  end.

(** [strings.Join(elems, "/")] *)
Fixpoint joined (elems : list string) : string :=
  match elems with
  | [] => ""
  | [e] => e
  | e :: es => e +:+ "/" +:+ joined es
  end.

(** One element met by [filepath.Clean]; [out] holds the elements kept so
    far, the last one first.  An empty element and [.] are dropped; [..]
    takes back the element before it, is dropped at the root, and is kept
    where there is nothing to take back. *)
Definition Clean_step (rooted : bool) (out : list string) (e : string)
  : list string :=
  if String.eqb e "" || String.eqb e "." then out
  else if String.eqb e ".." then
    match out with
    | last :: out' => if String.eqb last ".." then e :: out else out'
    | [] => if rooted then [] else [e]
    end
  else e :: out.

(** [filepath.Clean]: the shortest path equivalent to [path] by lexical
    processing; the empty path gives [.]. *)
Definition Clean (path : string) : string :=
  match path with
  | EmptyString => "."
  | String c _ =>
      let out := rev (fold_left (Clean_step (isSep c)) (elements path) []) in
      if isSep c then "/" +:+ joined out
      else match out with
           | [] => "."
           | _ => joined out
           end
  end.

(** [filepath.Base]: the last element, trailing separators apart; [.] for
    the empty path, [/] for a path of separators only. *)
Definition Base (path : string) : string :=
  match path with
  | EmptyString => "."
  | _ =>
      match fold_left (λ found e, if String.eqb e "" then found else Some e)
                      (elements path) None with
      | Some e => e
      | None => "/"
      end
  end.

(** [filepath.Dir]: [Clean] of the path up to its last separator, that
    separator included; [.] when there is none. *)
Definition Dir (path : string) : string :=
  match rev (elements path) with
  | _ :: ((_ :: _) as before) => Clean (joined (rev before) +:+ "/")
  | _ => "."
  end.

(** [filepath.Join(path, name)]: [Clean] of the elements joined by a
    separator, leading empty elements being left out. *)
Definition Join (path name : string) : string :=
  match path, name with
  | EmptyString, EmptyString => ""
  | EmptyString, _ => Clean name
  | _, _ => Clean (path +:+ "/" +:+ name)
  end.

Definition Module_Scope (module : Module_) : scope.loc :=
  match module with mkModule _ _ _ s _ => s end.
Definition Module_Files (module : Module_) : list File :=
  match module with mkModule _ files _ _ _ => files end.
Definition Module_Modules (module : Module_) : list Module_ :=
  match module with mkModule _ _ modules _ _ => modules end.

(** [module.Files = append(module.Files, file)] *)
Definition appendFile (module : Module_) (file : File) : Module_ :=
  match module with
  | mkModule name files modules s isRoot =>
      mkModule name (files ++ [file]) modules s isRoot
  end.

(** [module.Modules = append(module.Modules, childModule)], the child
    being in the state its own walk left it in. *)
Definition appendModule (module childModule : Module_) : Module_ :=
  match module with
  | mkModule name files modules s isRoot =>
      mkModule name files (modules ++ [childModule]) s isRoot
  end.

(** The fuel a file is parsed with: enough for a source of that many
    tokens, whatever they are (lemma [parseFile_fuel]). *)
Definition fuel_for (lex : Lexer) : nat := 32 * S (List.length (toks lex)).

(** A walk works on the module being filled and on the parser. *)
Definition Walk : Type := Module_ → Parser → Result unit * Module_ * Parser.

(** The [for _, entry := range entries] loop of [processModuleEntries]. *)
Definition processModuleEntries_loop (path : string)
    (handler : DirEntry → string → Walk) : list DirEntry → Walk :=
  fix loop (entries : list DirEntry) : Walk :=
    λ module p,
      match entries with
      | [] => (Ok tt, module, p)
      | entry :: entries' =>
          let fullPath := Join path (Entry_Name entry) in
          match handler entry fullPath module p with
          | (Ok _, module', p') => loop entries' module' p'
          | failed => failed
          end
      end.

Section Walk.

(** The verb [%q] of package [fmt] on a string: the string as a quoted Go
    literal.  Which literal it is for each string is left open; the text
    of one error is all that depends on it. *)
Variable quote : string → string.

(** [p.processModuleEntries(path, handler)]; [read] is what [os.ReadDir(path)]
    returns. *)
Definition processModuleEntries (path : string) (read : ReadDir)
    (handler : DirEntry → string → Walk) : Walk :=
  match read with
  | ReadError err =>
      λ module p,
        (Err (Errorf ("failed to read directory " +:+ quote path +:+ ": "
                      +:+ Error err)), module, p)
  | Entries entries => processModuleEntries_loop path handler entries
  end.

(** The closure [buildModuleTree] hands to [processModuleEntries]; [build]
    is [p.buildModuleTree] itself, called on a subdirectory. *)
Definition buildModuleTree_closure (build : string → ReadDir → Walk)
  : DirEntry → string → Walk :=
  λ entry fullPath module p,
    match entry with
    | Dir_ _ read' =>
        let '(childScope, σ) := ast.NewScope (Some (Module_Scope module)) (heap p) in
        let childModule := mkModule "" [] [] childScope false in
        let '(r, childModule', p') :=
          build fullPath read' childModule (set_heap p σ) in
        (r, appendModule module childModule', p')
    | File_ name source =>
        if String.eqb (Ext name) ".t" then
          let fileDirName := Base (Dir fullPath) in
          match source with
          | inl err => (Err err, module, p)
          | inr src =>
              let lex := mkLexer fileDirName fullPath src in
              match parseFile (fuel_for lex) lex (Module_Scope module) p with
              | (Ok file, p') => (Ok tt, appendFile module file, p')
              | (Err err, p') => (Err err, module, p')
              | (Exit msg, p') => (Exit msg, module, p')
              | (OutOfFuel, p') => (OutOfFuel, module, p')
              end
          end
        else (Ok tt, module, p)
    end.

(** [p.buildModuleTree(path, module)] *)
Fixpoint buildModuleTree (path : string) (read : ReadDir) {struct read} : Walk :=
  processModuleEntries path read (buildModuleTree_closure buildModuleTree).

Definition buildModuleTree_handler : DirEntry → string → Walk :=
  buildModuleTree_closure buildModuleTree.

(** The child module a subdirectory is walked with, and the parser once
    its scope is allocated. *)
Definition childOf (module : Module_) (p : Parser) : Module_ :=
  mkModule "" [] [] (ast.NewScope (Some (Module_Scope module)) (heap p)).1 false.

Definition withChildScope (module : Module_) (p : Parser) : Parser :=
  set_heap p (ast.NewScope (Some (Module_Scope module)) (heap p)).2.

(** The root module [ParseModuleDir] starts from, and the parser once the
    universe scope is allocated. *)
Definition rootOf (p : Parser) : Module_ :=
  mkModule "" [] [] (ast.NewScope None (heap p)).1 true.

Definition withUniverse (p : Parser) : Parser :=
  set_heap p (ast.NewScope None (heap p)).2.

(** The walk of a directory, started on [module] with the parser [p],
    fails with [err]: the directory cannot be read; or, the entries before
    it having gone through, a subdirectory fails in the same sense, a
    source file cannot be opened, or the parse of a source file returns
    [err]. *)
Inductive walk_fails : string → ReadDir → Module_ → Parser → error → Prop :=
  | fails_read path err module p :
      walk_fails path (ReadError err) module p
        (Errorf ("failed to read directory " +:+ quote path +:+ ": " +:+ Error err))
  | fails_subdir path before name read after module p module1 p1 err :
      processModuleEntries_loop path buildModuleTree_handler before module p
        = (Ok tt, module1, p1) →
      walk_fails (Join path name) read (childOf module1 p1)
        (withChildScope module1 p1) err →
      walk_fails path (Entries (before ++ Dir_ name read :: after)) module p err
  | fails_open path before name err after module p module1 p1 :
      processModuleEntries_loop path buildModuleTree_handler before module p
        = (Ok tt, module1, p1) →
      Ext name = ".t" →
      walk_fails path (Entries (before ++ File_ name (inl err) :: after)) module p err
  | fails_parse path before name src after module p module1 p1 err p' :
      processModuleEntries_loop path buildModuleTree_handler before module p
        = (Ok tt, module1, p1) →
      Ext name = ".t" →
      (let lex := mkLexer (Base (Dir (Join path name))) (Join path name) src in
       parseFile (fuel_for lex) lex (Module_Scope module1) p1) = (Err err, p') →
      walk_fails path (Entries (before ++ File_ name (inr src) :: after)) module p err.

(** The walk of a directory ends the process with the message [msg]: the
    entries before it having gone through, the parse of a source file
    ends in [log.Fatal], in this directory or in a subdirectory. *)
Inductive walk_exits : string → ReadDir → Module_ → Parser → string → Prop :=
  | exits_subdir path before name read after module p module1 p1 msg :
      processModuleEntries_loop path buildModuleTree_handler before module p
        = (Ok tt, module1, p1) →
      walk_exits (Join path name) read (childOf module1 p1)
        (withChildScope module1 p1) msg →
      walk_exits path (Entries (before ++ Dir_ name read :: after)) module p msg
  | exits_parse path before name src after module p module1 p1 msg p' :
      processModuleEntries_loop path buildModuleTree_handler before module p
        = (Ok tt, module1, p1) →
      Ext name = ".t" →
      (let lex := mkLexer (Base (Dir (Join path name))) (Join path name) src in
       parseFile (fuel_for lex) lex (Module_Scope module1) p1) = (Exit msg, p') →
      walk_exits path (Entries (before ++ File_ name (inr src) :: after)) module p msg.

(** A tree holding, at any depth, a directory that cannot be read or a
    source file that cannot be opened. *)
Fixpoint unusable (read : ReadDir) : bool :=
  match read with
  | ReadError _ => true
  | Entries entries =>
      existsb (λ entry,
                 match entry with
                 | Dir_ _ read' => unusable read'
                 | File_ name (inl _) => String.eqb (Ext name) ".t"
                 | File_ _ (inr _) => false
                 end) entries
  end.

(** What the caller of [ParseModuleDir] gets: the returned pair
    of a program pointer and an error, unless the process ended first. *)
Inductive Returned : Type :=
  | Returns (program : option Program) (err : option error)
  | Exits (msg : string)
  | NoFuel.

(** [p.ParseModuleDir(path)] *)
Definition ParseModuleDir (path : string) (read : ReadDir) (p : Parser)
  : Returned * Parser :=
  let '(universe, σ) := ast.NewScope None (heap p) in
  let root := mkModule "" [] [] universe true in
  match buildModuleTree path read root (set_heap p σ) with
  | (Err err, _, p') => (Returns None (Some err), p')
  | (Ok _, root', p') => (Returns (Some (mkProgram root')) None, p')
  | (Exit msg, _, p') => (Exits msg, p')
  | (OutOfFuel, _, p') => (NoFuel, p')
  end.

End Walk.

(** [p.ParseFileAsProgram(lex)] *)
Definition ParseFileAsProgram (fuel : nat) (lex : Lexer) (p : Parser)
  : Returned * Parser :=
  let '(universe, σ) := ast.NewScope None (heap p) in
  let '(moduleScope, σ) := ast.NewScope (Some universe) σ in
  match parseFile fuel lex moduleScope (set_heap p σ) with
  | (Err err, p') => (Returns None (Some err), p')
  | (Ok file, p') =>
      (Returns (Some (mkProgram
         (mkModule (ParentDirName lex) [file] [] moduleScope true))) None, p')
  | (Exit msg, p') => (Exits msg, p')
  | (OutOfFuel, p') => (NoFuel, p')
  end.

End parser.

(** ** Fuel: what it takes for the recursion to reach its end *)

Module fuel.
Import token lexer ast parser.

(** The number of tokens still to be read. *)
Definition len (p : Parser) : nat := List.length (toks (lex p)).

(** [sound ne n Q m]: run on at most [n] remaining tokens (at least one
    of them if [ne]), [m] does not run out of fuel, gives no token back,
    and has read at least one token whenever it returns a value [a] with
    [Q a]. *)
Definition sound {A} (ne : bool) (n : nat) (Q : A → bool) (m : M A) : Prop :=
  ∀ p, (len p ≤ n)%nat → (ne = true → (1 ≤ len p)%nat) →
    (m p).1 ≠ OutOfFuel
    ∧ (len (m p).2 ≤ len p)%nat
    ∧ (∀ a, (m p).1 = Ok a → Q a = true → (len (m p).2 < len p)%nat).

(** Fuel enough for a function of level [lvl] on [n] tokens: every token
    read pays for a full descent of the call graph. *)
Definition enough (lvl n fuel : nat) : Prop := (16 * n + lvl ≤ fuel)%nat.

Definition always {A} (_ : A) : bool := true.
Definition never {A} (_ : A) : bool := false.
Definition isSome {A} (o : option A) : bool :=
  match o with Some _ => true | None => false end.

(** The expression parser, on at most [n] tokens, with enough fuel. *)
Record ExprSound (n : nat) : Prop := mkExprSound {
  so_parseFieldAccess : ∀ fuel, enough 1 n fuel →
    sound false n always (parseFieldAccess fuel);
  so_parseFnCall : ∀ fuel, enough 1 n fuel →
    sound false n always (parseFnCall fuel);
  so_parsePrimary : ∀ fuel, enough 2 n fuel →
    sound false n always (parsePrimary fuel);
  so_parseUnary : ∀ fuel, enough 3 n fuel →
    sound false n always (parseUnary fuel);
  so_parseFactor_loop : ∀ fuel lhs, enough 1 n fuel →
    sound false n never (parseFactor_loop fuel lhs);
  so_parseFactor : ∀ fuel, enough 4 n fuel →
    sound false n always (parseFactor fuel);
  so_parseTerm_loop : ∀ fuel lhs, enough 1 n fuel →
    sound false n never (parseTerm_loop fuel lhs);
  so_parseTerm : ∀ fuel, enough 5 n fuel →
    sound false n always (parseTerm fuel);
  so_parseComparasion_loop : ∀ fuel lhs, enough 1 n fuel →
    sound false n never (parseComparasion_loop fuel lhs);
  so_parseComparasion : ∀ fuel, enough 6 n fuel →
    sound false n always (parseComparasion fuel);
  so_parseLogical_loop : ∀ fuel lhs, enough 1 n fuel →
    sound false n never (parseLogical_loop fuel lhs);
  so_parseLogical : ∀ fuel, enough 7 n fuel →
    sound false n always (parseLogical fuel);
  so_parseExpr : ∀ fuel, enough 8 n fuel →
    sound false n always (parseExpr fuel);
  so_parseExprList_loop : ∀ fuel ends exprs, enough 9 n fuel →
    sound false n never (parseExprList_loop fuel ends exprs);
  so_parseExprList : ∀ fuel ends, enough 10 n fuel →
    sound false n never (parseExprList fuel ends);
}.

(** The statement parser, on at most [n] tokens, with enough fuel. *)
Record StmtSound (n : nat) : Prop := mkStmtSound {
  so_parseWhileLoop : ∀ fuel, enough 1 n fuel →
    sound false n always (parseWhileLoop fuel);
  so_parseForLoop : ∀ fuel, enough 1 n fuel →
    sound false n always (parseForLoop fuel);
  so_parseIfCond : ∀ fuel, enough 1 n fuel →
    sound false n always (parseIfCond fuel);
  so_parseElseCond : ∀ fuel, enough 1 n fuel →
    sound false n never (parseElseCond fuel);
  so_parseElifConds : ∀ fuel elifConds, enough 1 n fuel →
    sound false n never (parseElifConds fuel elifConds);
  so_parseCondStmt : ∀ fuel, enough 2 n fuel →
    sound false n always (parseCondStmt fuel);
  so_parseStmt : ∀ fuel, enough 11 n fuel →
    sound false n isSome (parseStmt fuel);
  so_parseBlock : ∀ fuel, enough 1 n fuel →
    sound false n always (parseBlock fuel);
  so_parseBlock_loop : ∀ fuel statements, enough 12 n fuel →
    sound false n never (parseBlock_loop fuel statements);
}.

End fuel.

(** ** Chains of operators *)

Module grammar.
Import token lexer ast parser.

(** The parser [p] with [ts] left to read. *)
Definition leaving (p : Parser) (ts : list Token) : Parser :=
  set_lex p (mkLexer (ParentDirName (lex p)) (Path (lex p)) ts).

(** [parses f stop f0 ts e]: with fuel [f0] or more, [f] reads the tokens
    [ts] as the expression [e] and stops there, whatever follows them,
    provided the kind of the token that follows is not in [stop]. *)
Definition parses (f : nat → M Expr) (stop : token.Kind → bool) (f0 : nat)
    (ts : list Token) (e : Expr) : Prop :=
  ∀ fuel p rest,
    (f0 ≤ fuel)%nat →
    toks (lex p) = ts ++ rest →
    stop (Kind_ (hd (lexer.eof (lex p)) rest)) = false →
    f fuel p = (Ok e, leaving p rest).

(** An operand of a chain: the operator before it, its tokens, and the
    expression they stand for. *)
Definition Operand : Type := Token * list Token * Expr.

(** The tokens [op1 x1 op2 x2 ...] of a chain after its first operand. *)
Definition chain_tokens (items : list Operand) : list Token :=
  flat_map (λ item : Operand, item.1.1 :: item.1.2) items.

(** [((lhs op1 x1) op2 x2) ...]: the chain folded to the left. *)
Definition chain_expr (lhs : Expr) (items : list Operand) : Expr :=
  fold_left (λ acc (item : Operand), BinaryExpr acc (Kind_ item.1.1) item.2)
            items lhs.

(** Every operator of the chain is of the level [OPS], and every operand
    is read by [sub]. *)
Definition chain_of (OPS stop : token.Kind → bool) (sub : nat → M Expr)
    (f0 : nat) (items : list Operand) : Prop :=
  Forall (λ item : Operand,
            OPS (Kind_ item.1.1) = true ∧ parses sub stop f0 item.1.2 item.2)
         items.

(** The tokens that end an operand of each level: what makes an
    identifier a call or a field access, then the operators of the
    tighter levels. *)
Definition stop_unary (k : token.Kind) : bool :=
  match k with OPEN_PAREN | DOT => true | _ => false end.
Definition stop_factor (k : token.Kind) : bool := stop_unary k || FACTOR k.
Definition stop_term (k : token.Kind) : bool := stop_factor k || TERM k.
Definition stop_comparasion (k : token.Kind) : bool :=
  stop_term k || COMPARASION k.
Definition stop_logical (k : token.Kind) : bool :=
  stop_comparasion k || LOGICAL k.

(** An atom is a literal or an identifier, and stands for itself. *)
Definition is_atom (k : token.Kind) : bool :=
  LITERAL_KIND k || token.eqb k ID.

Definition atom_expr (tok : Token) : Expr :=
  if token.eqb (Kind_ tok) ID then IdExpr tok
  else LiteralExpr (BasicType (Kind_ tok)) (Lexeme tok).

(** A chain whose operands are atoms. *)
Definition atoms (items : list (Token * Token)) : list Operand :=
  map (λ item : Token * Token, (item.1, [item.2], atom_expr item.2)) items.

(** [x1.x2. ... .xn] as the parser nests it: the access of the rest of the
    chain in [x1]. *)
Fixpoint access_chain (x : Token) (xs : list Token) : Expr :=
  match xs with
  | [] => IdExpr x
  | y :: ys => FieldAccessExpr (mkFieldAccess (IdExpr x) (access_chain y ys))
  end.

(** The tokens [. x2 . x3 ...] after the first identifier. *)
Definition access_tokens (items : list (Token * Token)) : list Token :=
  flat_map (λ item : Token * Token, [item.1; item.2]) items.

End grammar.

(** * Sample inputs *)

Module samples.
Import token lexer ast parser.

(** A store of three scopes: a root binding [x], its child binding [y],
    and a grandchild binding nothing. *)
Definition store3 : scope.store nat :=
  [scope.mkScope None {[ "x" := 1 ]}; scope.mkScope (Some 0) {[ "y" := 2 ]};
   scope.mkScope (Some 1) ∅].

(** A token of the first line of [main.t]. *)
Definition tk (k : token.Kind) (lexeme : string) (column : nat) : Token :=
  mkToken k lexeme (mkPosition "main.t" 1 column).

(** A parser reading [src], with an empty collector; its module scope is
    the one scope of the store, which binds nothing yet. *)
Definition parserOn (src : list Token) : Parser :=
  mkParser (lexer.New "main.t" src) diagnostics.New (Some 0)
           [scope.mkScope None ∅].

(** [fn main() {}] *)
Definition fn_main : list Token :=
  [tk FN "fn" 1; tk ID "main" 4; tk OPEN_PAREN "(" 8; tk CLOSE_PAREN ")" 9;
   tk OPEN_CURLY "{" 11; tk CLOSE_CURLY "}" 12].

(** [(a int, ..., b int)] *)
Definition params_ellipsis_inside : list Token :=
  [tk OPEN_PAREN "(" 1; tk ID "a" 2; tk INT_TYPE "int" 4; tk COMMA "," 7;
   tk DOT_DOT_DOT "..." 9; tk COMMA "," 12; tk ID "b" 14; tk INT_TYPE "int" 16;
   tk CLOSE_PAREN ")" 19].

(** [(a int, b *int, ...)] *)
Definition params_ellipsis_last : list Token :=
  [tk OPEN_PAREN "(" 1; tk ID "a" 2; tk INT_TYPE "int" 4; tk COMMA "," 7;
   tk ID "b" 9; tk STAR "*" 11; tk INT_TYPE "int" 12; tk COMMA "," 15;
   tk DOT_DOT_DOT "..." 17; tk CLOSE_PAREN ")" 20].

(** [a, b := 1, 2;] and [a, b := 1;] *)
Definition var_two_two : list Token :=
  [tk ID "a" 1; tk COMMA "," 2; tk ID "b" 4; tk COLON_EQUAL ":=" 6;
   tk INTEGER_LITERAL "1" 9; tk COMMA "," 10; tk INTEGER_LITERAL "2" 12;
   tk SEMICOLON ";" 13].

Definition var_two_one : list Token :=
  [tk ID "a" 1; tk COMMA "," 2; tk ID "b" 4; tk COLON_EQUAL ":=" 6;
   tk INTEGER_LITERAL "1" 9; tk SEMICOLON ";" 10].

(** [a.b.c] *)
Definition a_dot_b_dot_c : list Token :=
  [tk ID "a" 1; tk DOT "." 2; tk ID "b" 3; tk DOT "." 4; tk ID "c" 5].

(** The number of [FieldAccess] nodes of an expression. *)
Fixpoint fieldAccesses (e : Expr) : nat :=
  match e with
  | UnaryExpr _ value => fieldAccesses value
  | BinaryExpr lhs _ rhs => fieldAccesses lhs + fieldAccesses rhs
  | FunctionCallExpr (mkFunctionCall _ args) =>
      foldr (λ arg n, fieldAccesses arg + n) 0 args
  | FieldAccessExpr (mkFieldAccess lhs rhs) =>
      S (fieldAccesses lhs + fieldAccesses rhs)
  | _ => 0
  end.

(** What [%q] gives for a string of letters, digits, dots and slashes,
    as the paths of the samples are: the string between double quotes. *)
Definition in_quotes (s : string) : string :=
  String (Ascii.ascii_of_nat 34) s +:+ String (Ascii.ascii_of_nat 34) "".

(** [fn f() { a.; }] *)
Definition fn_bad_access : list Token :=
  [tk FN "fn" 1; tk ID "f" 4; tk OPEN_PAREN "(" 5; tk CLOSE_PAREN ")" 6;
   tk OPEN_CURLY "{" 8; tk ID "a" 10; tk DOT "." 11; tk SEMICOLON ";" 12;
   tk CLOSE_CURLY "}" 14].

(** A tree: the one file [bad.t], holding [fn f() { a.; }]. *)
Definition tree_fatal_file : ReadDir :=
  Entries [File_ "bad.t" (inr fn_bad_access)].

(** A tree: [README.md] and the directory [lib] holding [bad.t], whose
    source is the lone identifier [x]. *)
Definition tree_bad_file : ReadDir :=
  Entries [File_ "README.md" (inr []);
           Dir_ "lib" (Entries [File_ "bad.t" (inr [tk ID "x" 1])])].

End samples.

(** * Stores as programs build them *)

Module builds.
Import scope.

Section Ops.
Context {V : Type}.

(** What a program does to its scopes: it allocates one under a parent it
    holds a pointer to (or under [nil]), or inserts into one it holds a
    pointer to.  A pointer is held only to a scope already allocated. *)
Inductive Op : Type :=
  | DoNew (parent : option loc)
  | DoInsert (s : loc) (name : string) (element : V).

(** The store after the operations [ops], run from [σ]; [None] when an
    operation names a scope that was never allocated. *)
Fixpoint run (ops : list Op) (σ : store V) : option (store V) :=
  match ops with
  | [] => Some σ
  | DoNew parent :: ops' =>
      if match parent with
         | Some p => Nat.ltb p (List.length σ)
         | None => true
         end
      then run ops' (New parent σ).2
      else None
  | DoInsert s name element :: ops' =>
      match Insert s name element σ with
      | Some (_, σ') => run ops' σ'
      | None => None
      end
  end.

End Ops.
Global Arguments Op : clear implicits.
End builds.

(** * Token sequences and what they spell *)

Module syntax.
Import token lexer ast parser grammar.

(** The tokens that spell a type: stars, then an identifier or the keyword
    of a basic type. *)
Inductive spells : list Token → ExprType → Prop :=
  | spells_id tok :
      Kind_ tok = ID → spells [tok] (IdType tok)
  | spells_basic tok :
      IsBasicType (Kind_ tok) = true → spells [tok] (BasicType (Kind_ tok))
  | spells_pointer star ts ty :
      Kind_ star = STAR → spells ts ty → spells (star :: ts) (PointerType ty).

(** A token that starts no type. *)
Definition starts_no_type (ts : list Token) : Prop :=
  match ts with
  | [] => True
  | tok :: _ =>
      Kind_ tok ≠ STAR ∧ Kind_ tok ≠ ID ∧ IsBasicType (Kind_ tok) = false
  end.

(** A parameter as written: its name, the tokens of its type with the type
    they spell, and the comma after it, if any. *)
Definition Param : Type := Token * list Token * ExprType * option Token.

Definition optional (tok : option Token) : list Token :=
  match tok with Some tok => [tok] | None => [] end.

Definition given (tok : option Token) : bool :=
  match tok with Some _ => true | None => false end.

Definition param_tokens (param : Param) : list Token :=
  match param with (name, ts, _, comma) => name :: ts ++ optional comma end.

Definition param_field (param : Param) : Field :=
  match param with (name, _, ty, _) => mkField name ty end.

Definition param_ok (param : Param) : Prop :=
  match param with
  | (name, ts, ty, comma) =>
      Kind_ name = ID ∧ spells ts ty
      ∧ ∀ tok, comma = Some tok → Kind_ tok = COMMA
  end.

(** An argument as written: its tokens with the expression they stand
    for, and the comma after it, if any. *)
Definition Arg : Type := list Token * Expr * option Token.

Definition arg_tokens (arg : Arg) : list Token :=
  match arg with (ts, _, comma) => ts ++ optional comma end.

Definition arg_expr (arg : Arg) : Expr :=
  match arg with (_, e, _) => e end.

(** The first token of [ts] is there and satisfies [P]. *)
Definition starts (ts : list Token) (P : Token → Prop) : Prop :=
  match ts with
  | tok :: _ => P tok
  | [] => False
  end.

(** Arguments [parseExprList] can tell apart: each is an expression that
    starts with no token of [ends]; it is followed by a comma, or else by
    a token that neither continues the expression nor is a comma, which
    is the first token of the next argument or, after the last argument,
    the token [close]. *)
Fixpoint args_ok (f0 : nat) (ends : list token.Kind) (items : list Arg)
    (close : Token) : Prop :=
  match items with
  | [] => True
  | (ts, e, comma) :: items' =>
      parses parseExpr stop_logical f0 ts e
      ∧ starts ts (λ tok, existsb (token.eqb (Kind_ tok)) ends = false)
      ∧ match comma with
        | Some tok => Kind_ tok = COMMA
        | None =>
            let next := hd close (flat_map arg_tokens items') in
            stop_logical (Kind_ next) = false ∧ Kind_ next ≠ COMMA
        end
      ∧ args_ok f0 ends items' close
  end.

(** [op1 op2 ... e]: prefix operators applied from the innermost out. *)
Definition nest (ops : list Token) (e : Expr) : Expr :=
  foldr (λ op e, UnaryExpr (Kind_ op) e) e ops.

(** An atom with prefix operators before it. *)
Definition prefixed_ok (pre : list Token) (x : Token) : Prop :=
  Forall (λ op, UNARY (Kind_ op) = true) pre ∧ is_atom (Kind_ x) = true.

(** A chain whose operands are atoms with prefix operators. *)
Definition prefixed (items : list (Token * list Token * Token)) : list Operand :=
  map (λ item : Token * list Token * Token,
         (item.1.1, item.1.2 ++ [item.2], nest item.1.2 (atom_expr item.2))) items.

(** [f fuel] reads the tokens [ts] as [a] and stops there, whatever
    follows. *)
Definition reads {A} (f : nat → M A) (f0 : nat) (ts : list Token) (a : A) : Prop :=
  ∀ fuel p rest,
    (f0 ≤ fuel)%nat →
    toks (lex p) = ts ++ rest →
    f fuel p = (Ok a, leaving p rest).

End syntax.

(** * Expressions written level by level *)

Module ladder.
Import token lexer ast parser grammar syntax.

(** An operand of the tightest binary level: the prefix operators, then
    the atom they are applied to. *)
Definition Unary : Type := list Token * Token.

Definition unary_tokens (u : Unary) : list Token := u.1 ++ [u.2].
Definition unary_expr (u : Unary) : Expr := nest u.1 (atom_expr u.2).
Definition unary_ok (u : Unary) : Prop := prefixed_ok u.1 u.2.

(** A chain of one level: its first operand, then each operator with the
    operand after it. *)
Definition Level (A : Type) : Type := A * list (Token * A).

Section Level.
Context {A : Type} (OPS : token.Kind → bool).
Context (tokens : A → list Token) (expr : A → Expr) (ok : A → Prop).

Definition operands (items : list (Token * A)) : list Operand :=
  map (λ item : Token * A, (item.1, tokens item.2, expr item.2)) items.

(** The tokens of the chain, in the order they are written. *)
Definition level_tokens (l : Level A) : list Token :=
  tokens l.1 ++ chain_tokens (operands l.2).

(** The chain folded to the left over its operands. *)
Definition level_expr (l : Level A) : Expr :=
  chain_expr (expr l.1) (operands l.2).

(** Every operator is of the level, every operand is well formed. *)
Definition level_ok (l : Level A) : Prop :=
  ok l.1 ∧ Forall (λ item : Token * A, OPS (Kind_ item.1) = true ∧ ok item.2) l.2.

End Level.

(** The four binary levels, the tightest first: a chain of [*] and [/]
    over unary operands, a chain of [+] and [-] over those, a chain of
    comparisons over those, a chain of logical operators over those. *)
Definition Factors : Type := Level Unary.
Definition Terms : Type := Level Factors.
Definition Comparasions : Type := Level Terms.
Definition Logicals : Type := Level Comparasions.

Definition factors_tokens : Factors → list Token := level_tokens unary_tokens unary_expr.
Definition factors_expr : Factors → Expr := level_expr unary_tokens unary_expr.
Definition factors_ok : Factors → Prop := level_ok FACTOR unary_ok.

Definition terms_tokens : Terms → list Token := level_tokens factors_tokens factors_expr.
Definition terms_expr : Terms → Expr := level_expr factors_tokens factors_expr.
Definition terms_ok : Terms → Prop := level_ok TERM factors_ok.

Definition comparasions_tokens : Comparasions → list Token :=
  level_tokens terms_tokens terms_expr.
Definition comparasions_expr : Comparasions → Expr :=
  level_expr terms_tokens terms_expr.
Definition comparasions_ok : Comparasions → Prop := level_ok COMPARASION terms_ok.

Definition logicals_tokens : Logicals → list Token :=
  level_tokens comparasions_tokens comparasions_expr.
Definition logicals_expr : Logicals → Expr :=
  level_expr comparasions_tokens comparasions_expr.
Definition logicals_ok : Logicals → Prop := level_ok LOGICAL comparasions_ok.

End ladder.

(** * What a call may touch *)

Module frames.
Import token lexer ast parser.

(** A call that touches nothing but the lexer: the collector, the module
    scope and the scope store are left as they were. *)
Definition quiet {A} (m : M A) : Prop :=
  ∀ p, collector (m p).2 = collector p
       ∧ moduleScope (m p).2 = moduleScope p
       ∧ heap (m p).2 = heap p.

(** The collector after a call that stops at its first diagnostic: either
    nothing was reported, or one diagnostic was, and the call returned the
    sentinel error. *)
Definition first_error {A} (r : Result A) (before after : diagnostics.Collector)
  : Prop :=
  after = before
  ∨ ∃ d, after = before ++ [d] ∧ r = Err COMPILER_ERROR_FOUND.

(** A call that leaves the scopes alone and stops at its first
    diagnostic. *)
Definition failfast {A} (m : M A) : Prop :=
  ∀ p, moduleScope (m p).2 = moduleScope p
       ∧ heap (m p).2 = heap p
       ∧ first_error (m p).1 (collector p) (collector (m p).2).

(** How the scope store changes over a parse: no scope is removed or
    given another parent, no binding is removed or replaced, and a scope
    that is added hangs below an older one. *)
Definition evolves (σ σ' : scope.store Node) : Prop :=
  (List.length σ ≤ List.length σ')%nat
  ∧ (∀ s sc, σ !! s = Some sc →
       ∃ sc', σ' !! s = Some sc' ∧ scope.parent sc' = scope.parent sc
              ∧ scope.nodes sc ⊆ scope.nodes sc')
  ∧ (∀ s sc' parent, (List.length σ ≤ s)%nat → σ' !! s = Some sc' →
       scope.parent sc' = Some parent → (parent < s)%nat).

(** The module scope of the parser, when set, is a scope of the store. *)
Definition valid (p : Parser) : Prop :=
  ∀ s, moduleScope p = Some s → (s < List.length (heap p))%nat.

(** The errors a diagnostic comes with: the sentinel of package
    [diagnostics] and, for a function declared twice, the duplicate-symbol
    error of [Insert]. *)
Definition diagnosed (e : error) : Prop :=
  e = COMPILER_ERROR_FOUND ∨ e = ERR_SYMBOL_ALREADY_DEFINED_ON_SCOPE.

(** The collector after a call that ends at its first diagnostic: either
    nothing was reported, or one diagnostic was, and the call returned an
    error a diagnostic comes with. *)
Definition one_report {A} (r : Result A) (before after : diagnostics.Collector)
  : Prop :=
  after = before
  ∨ ∃ d e, after = before ++ [d] ∧ r = Err e ∧ diagnosed e.

(** A call that may declare: the store evolves, the module scope stays,
    and the call ends at its first diagnostic. *)
Definition declares {A} (m : M A) : Prop :=
  ∀ p, valid p →
       moduleScope (m p).2 = moduleScope p
       ∧ evolves (heap p) (heap (m p).2)
       ∧ one_report (m p).1 (collector p) (collector (m p).2).

(** The same for what [ParseModuleDir] and [ParseFileAsProgram] return. *)
Definition one_report_returned (r : Returned)
    (before after : diagnostics.Collector) : Prop :=
  after = before
  ∨ ∃ d e, after = before ++ [d] ∧ r = Returns None (Some e) ∧ diagnosed e.

(** A call whose every error is diagnosed: it returns no error but the
    sentinel, with exactly one diagnostic reported, and reports nothing
    when it returns no error. *)
Definition diagnosing {A} (m : M A) : Prop :=
  ∀ p, moduleScope (m p).2 = moduleScope p
       ∧ heap (m p).2 = heap p
       ∧ match (m p).1 with
         | Err e => e = COMPILER_ERROR_FOUND
                    ∧ ∃ d, collector (m p).2 = collector p ++ [d]
         | _ => collector (m p).2 = collector p
         end.

(** A quiet call that returns no error. *)
Definition silent {A} (m : M A) : Prop :=
  quiet m ∧ ∀ p e, (m p).1 ≠ Err e.

End frames.

(** * Statements as written *)

Module statements.
Import token lexer ast parser grammar syntax.

(** [f fuel] reads the tokens [ts] as [a] and stops there, provided the
    kind of the token that follows is not in [stop]. *)
Definition reads_upto {A} (f : nat → M A) (stop : token.Kind → bool) (f0 : nat)
    (ts : list Token) (a : A) : Prop :=
  ∀ fuel p rest,
    (f0 ≤ fuel)%nat →
    toks (lex p) = ts ++ rest →
    stop (Kind_ (hd (lexer.eof (lex p)) rest)) = false →
    f fuel p = (Ok a, leaving p rest).

(** A statement as written: its tokens, the statement they stand for, and
    the tokens that must not follow it. *)
Definition Written : Type := list Token * Stmt * (token.Kind → bool).

Definition written_tokens (item : Written) : list Token := item.1.1.
Definition written_stmt (item : Written) : Stmt := item.1.2.

(** Statements [parseBlock] reads one after the other: none starts with
    the closing brace, and each is followed by a token that does not
    extend it, which is the first token of the next statement or, after
    the last one, the token [close]. *)
Fixpoint stmts_ok (f0 : nat) (items : list Written) (close : Token) : Prop :=
  match items with
  | [] => True
  | (ts, s, stop) :: items' =>
      reads_upto parseStmt stop f0 ts (Some s)
      ∧ starts ts (λ tok, Kind_ tok ≠ CLOSE_CURLY)
      ∧ stop (Kind_ (hd close (flat_map written_tokens items'))) = false
      ∧ stmts_ok f0 items' close
  end.

(** The tokens that start a statement. *)
Definition starts_stmt (k : token.Kind) : bool :=
  match k with
  | RETURN | ID | IF | FOR | WHILE => true
  | _ => false
  end.

(** The tokens that continue a conditional. *)
Definition continues_cond (k : token.Kind) : bool :=
  match k with
  | ELIF | ELSE => true
  | _ => false
  end.

(** An [elif] clause as written: the keyword, the tokens of the condition
    and of the block, and what they stand for. *)
Definition Elif : Type := Token * list Token * Expr * list Token * BlockStmt.

Definition elif_tokens (item : Elif) : list Token :=
  match item with (kw, ts, _, tsb, _) => kw :: ts ++ tsb end.

Definition elif_cond (item : Elif) : IfElifCond :=
  match item with (kw, _, e, _, b) => mkIfElifCond (Pos kw) e b end.

Definition elif_ok (f0 : nat) (item : Elif) : Prop :=
  match item with
  | (kw, ts, e, tsb, b) =>
      Kind_ kw = ELIF ∧ parses parseExpr stop_logical f0 ts e
      ∧ starts tsb (λ tok, Kind_ tok = OPEN_CURLY)
      ∧ reads parseBlock f0 tsb b
  end.

(** An [else] clause as written. *)
Definition Else : Type := Token * list Token * BlockStmt.

Definition else_tokens (item : option Else) : list Token :=
  match item with Some (kw, tsb, _) => kw :: tsb | None => [] end.

Definition else_cond (item : option Else) : option ElseCond :=
  match item with Some (kw, _, b) => Some (mkElseCond (Pos kw) b) | None => None end.

Definition else_ok (f0 : nat) (item : option Else) : Prop :=
  match item with
  | Some (kw, tsb, b) => Kind_ kw = ELSE ∧ reads parseBlock f0 tsb b
  | None => True
  end.

(** A variable of a variable statement as written: its name, and the
    tokens of its type with the type they spell, if it has one. *)
Definition Var : Type := Token * option (list Token * ExprType).

Definition var_tokens (v : Var) : list Token :=
  match v with
  | (name, Some (ts, _)) => name :: ts
  | (name, None) => [name]
  end.

(** The [VarStmt] the name loop of [parseVar] makes of it. *)
Definition var_stmt (v : Var) : VarStmt :=
  match v with
  | (name, Some (_, ty)) => mkVarStmt name (Some ty) None true false
  | (name, None) => mkVarStmt name None None true true
  end.

Definition var_ok (v : Var) : Prop :=
  match v with
  | (name, Some (ts, ty)) => Kind_ name = ID ∧ spells ts ty
  | (name, None) => Kind_ name = ID
  end.

(** The variables before the last, each with the comma after it. *)
Definition vars_tokens (vars : list (Var * Token)) : list Token :=
  flat_map (λ item : Var * Token, var_tokens item.1 ++ [item.2]) vars.

(** The tokens that end the expressions of a variable statement. *)
Definition ends_var (k : token.Kind) : bool :=
  match k with
  | SEMICOLON | CLOSE_PAREN => true
  | _ => false
  end.

(** The statement [parseVar] makes of variables and expressions. *)
Definition var_statement (isDecl : bool) (variables : list VarStmt)
    (exprs : list Expr) : Stmt :=
  match zip_with (assign isDecl) variables exprs with
  | [variable] => VarStmt_ variable
  | bound => MultiVarStmt isDecl bound
  end.

End statements.

(** * Entry points kept for the tests *)

Module testing.
Import token lexer ast parser.

(** The entry points the package keeps for its tests, besides
    [ParseExprFrom] and [parseVarFrom]; the input is already tokenized.

    [parseFnDeclFrom(filename, input, moduleScope)]: the declaration is
    inserted in [moduleScope], so the store is returned with the result. *)
Definition parseFnDeclFrom (fuel : nat) (filename : string) (input : list Token)
    (moduleScope : option scope.loc) (σ : scope.store Node)
  : Result FunctionDecl * scope.store Node :=
  let parser := set_moduleScope
                  (NewWithLex (lexer.New filename input) diagnostics.New σ)
                  moduleScope in
  let '(r, p') := parseFnDecl fuel parser in (r, heap p').

(** [ParseForLoopFrom(input, filename)] *)
Definition ParseForLoopFrom (fuel : nat) (input : list Token) (filename : string)
  : Result Stmt :=
  (parseForLoop fuel (NewWithLex (lexer.New filename input) diagnostics.New [])).1.

(** [ParseWhileLoopFrom(input, filename)] *)
Definition ParseWhileLoopFrom (fuel : nat) (input : list Token) (filename : string)
  : Result Stmt :=
  (parseWhileLoop fuel (NewWithLex (lexer.New filename input) diagnostics.New [])).1.

End testing.

(** * What a file declares *)

Module declared.
Import token lexer ast parser.

(** The names of the functions declared by the nodes of a file. *)
Definition fn_names (nodes : list Node) : list string :=
  flat_map (λ node, match node with
                    | FunctionDeclNode fnDecl => [token.Name (Fn_Name fnDecl)]
                    | ExternDeclNode _ => []
                    end) nodes.

(** The functions among [nodes] are registered in the store [σ]: each is
    bound under its name in the scope at [s], and the scope of each is a
    child of that scope, allocated after it. *)
Definition registered (σ : scope.store Node) (s : scope.loc) (nodes : list Node)
  : Prop :=
  ∃ sc, σ !! s = Some sc
    ∧ ∀ fnDecl, FunctionDeclNode fnDecl ∈ nodes →
        scope.nodes sc !! token.Name (Fn_Name fnDecl) = Some (FunctionDeclNode fnDecl)
        ∧ (s < Fn_Scope fnDecl)%nat
        ∧ ∃ fnScope, σ !! Fn_Scope fnDecl = Some fnScope
                     ∧ scope.parent fnScope = Some s.

End declared.

(** * The layout of a program *)

Module layout.
Import token lexer ast parser declared samples.

(** The outline of a tree: for each source file its directory name and
    its path, then the outlines of the subdirectories, both in order. *)
Inductive Outline : Type :=
  | mkOutline (files : list (string * string)) (dirs : list Outline).

(** The source files among the entries of the directory [path]. *)
Definition sources (path : string) (entries : list DirEntry) : list (string * string) :=
  flat_map (λ entry,
              match entry with
              | File_ name _ =>
                  if String.eqb (Ext name) ".t"
                  then [(Base (Dir (Join path name)), Join path name)]
                  else []
              | Dir_ _ _ => []
              end) entries.

(** The outline of what the file system holds under [path]. *)
Fixpoint listing (path : string) (read : ReadDir) : Outline :=
  match read with
  | ReadError _ => mkOutline [] []
  | Entries entries =>
      mkOutline (sources path entries)
        (flat_map (λ entry,
                     match entry with
                     | Dir_ name read' => [listing (Join path name) read']
                     | File_ _ _ => []
                     end) entries)
  end.

(** The outline of a module. *)
Fixpoint outline (module : Module_) : Outline :=
  match module with
  | mkModule _ files modules _ _ =>
      mkOutline (map (λ file, (ast.Dir file, File_Path file)) files)
                (map outline modules)
  end.

(** An outline with more files and subdirectories put after its own. *)
Definition grown (before added : Outline) : Outline :=
  match before, added with
  | mkOutline files dirs, mkOutline files' dirs' =>
      mkOutline (files ++ files') (dirs ++ dirs')
  end.

(** The names of the functions declared in the files of a module. *)
Definition module_names (files : list File) : list string :=
  flat_map (λ file, fn_names (Body file)) files.

(** The scopes of a module are laid out as the module is: its own scope
    has the given parent; no two functions of its files share a name, and
    each is registered in the module's scope; the scope of each file and of
    each submodule is a child of the module's scope; and so on below. *)
Fixpoint scoped (σ : scope.store Node) (parent : option scope.loc) (module : Module_)
  : Prop :=
  match module with
  | mkModule _ files modules s _ =>
      (∃ sc, σ !! s = Some sc ∧ scope.parent sc = parent)
      ∧ NoDup (module_names files)
      ∧ (∀ file, file ∈ files →
           registered σ s (Body file)
           ∧ ∃ sc, σ !! File_Scope file = Some sc ∧ scope.parent sc = Some s)
      ∧ fold_right and True (map (scoped σ (Some s)) modules)
  end.

(** [src/main.t] holding [fn main() {}], [src/notes.md], and
    [src/lib/util.t] holding [fn main() {}] as well. *)
Definition tree_two_modules : ReadDir :=
  Entries [File_ "main.t" (inr fn_main);
           File_ "notes.md" (inl (Errorf "permission denied"));
           Dir_ "lib" (Entries [File_ "util.t" (inr fn_main)])].

End layout.

(** * Prototypes as written *)

Module externs.
Import token lexer ast parser syntax.

(** The return type of a signature: the tokens of a type, or no token
    and [void]. *)
Definition returns (ts : list Token) (ty : ExprType) : Prop :=
  spells ts ty ∨ (ts = [] ∧ ty = BasicType VOID_TYPE).

(** A prototype as written: [fn name params type ;], the type being
    optional. *)
Definition proto_ok (f0 : nat) (item : list Token * Proto) : Prop :=
  ∃ fn name tsP params tsT ty semi,
    item = (fn :: name :: tsP ++ tsT ++ [semi], mkProto name params ty)
    ∧ Kind_ fn = FN ∧ Kind_ name = ID
    ∧ reads parseFunctionParams f0 tsP params
    ∧ returns tsT ty
    ∧ Kind_ semi = SEMICOLON.

End externs.

(** * Properties of the symbol table *)

Module ScopeTheory.
Import scope samples.

Section Scope.
Context {V : Type}.
Implicit Types (σ : store V) (s p : loc) (sc : Scope V) (name : string).

Lemma wf_nil : wf ([] : store V).
Proof. intros s sc p H. by destruct s. Qed.

Lemma wf_New σ par :
  wf σ → (∀ p, par = Some p → p < List.length σ) → wf (New par σ).2.
Proof.
  intros Hwf Hpar s sc p Hs Hp. unfold New in Hs. simpl in Hs.
  destruct (decide (s < List.length σ)) as [Hlt|Hge].
  - rewrite lookup_app_l in Hs by done. eauto.
  - rewrite lookup_app_r in Hs by lia.
    destruct (s - List.length σ) as [|k] eqn:Hk; simpl in Hs; [|by destruct k].
    injection Hs as <-. simpl in Hp. specialize (Hpar _ Hp). lia.
Qed.

Lemma Insert_lookup_same σ s sc name v :
  σ !! s = Some sc → nodes sc !! name = None →
  Insert s name v σ
  = Some (None, <[s := mkScope (parent sc) (<[name := v]> (nodes sc))]> σ).
Proof. intros Hs Hn. unfold Insert. rewrite Hs. simpl. by rewrite Hn. Qed.

Lemma Insert_dup σ s sc name v v0 :
  σ !! s = Some sc → nodes sc !! name = Some v0 →
  Insert s name v σ
  = Some (Some (Errorf ("symbol already defined on scope: " ++ name)), σ).
Proof. intros Hs Hn. unfold Insert. rewrite Hs. simpl. by rewrite Hn. Qed.

Lemma wf_Insert σ σ' s name v r :
  wf σ → Insert s name v σ = Some (r, σ') → wf σ'.
Proof.
  intros Hwf HI. unfold Insert in HI.
  destruct (σ !! s) as [sc|] eqn:Hs; simpl in HI; [|done].
  destruct (nodes sc !! name); injection HI as <- <-; [done|].
  intros s' sc' p Hs' Hp.
  destruct (decide (s = s')) as [->|Hne].
  - rewrite list_lookup_insert_eq in Hs' by (by eapply lookup_lt_Some).
    injection Hs' as <-. simpl in Hp. eauto.
  - rewrite list_lookup_insert_ne in Hs' by done. eauto.
Qed.

Lemma Insert_inv σ σ' s name v r :
  Insert s name v σ = Some (r, σ') →
  ∃ sc, σ !! s = Some sc ∧
    match r with
    | Some e => is_Some (nodes sc !! name) ∧ σ' = σ
                ∧ e = Errorf ("symbol already defined on scope: " +:+ name)
    | None => nodes sc !! name = None
              ∧ σ' = <[s := mkScope (parent sc) (<[name := v]> (nodes sc))]> σ
    end.
Proof.
  unfold Insert. intros HI.
  destruct (σ !! s) as [sc|] eqn:Hs; simpl in HI; [|done].
  exists sc. split; [done|].
  destruct (nodes sc !! name) as [v0|] eqn:Hn; injection HI as <- <-; eauto.
Qed.

(** The error of a failed [Insert] is a value of its own, not the
    package's sentinel. *)
Lemma Insert_error_fresh σ σ' s name v e :
  Insert s name v σ = Some (Some e, σ') →
  same e SYMBOL_ALREADY_DEFINED_ON_SCOPE = false.
Proof. intros HI. apply Insert_inv in HI as (sc & _ & _ & _ & ->). done. Qed.

Lemma New_lookup_old σ par s :
  s < List.length σ → (New par σ).2 !! s = σ !! s.
Proof. intros Hs. unfold New. simpl. by rewrite lookup_app_l. Qed.

Lemma New_lookup_new σ par :
  (New par σ).2 !! (New par σ).1 = Some (mkScope par ∅).
Proof. unfold New. simpl. rewrite lookup_app_r by lia. by rewrite Nat.sub_diag. Qed.

(** *** Lookup *)

Lemma Lookup_rec_step fuel σ s sc name :
  σ !! s = Some sc →
  Lookup_rec (S fuel) σ s name =
    match nodes sc !! name with
    | Some node => Some (inl node)
    | None =>
        match parent sc with
        | None => Some (inr (Errorf ("symbol not found on scope: " +:+ name)))
        | Some p => Lookup_rec fuel σ p name
        end
    end.
Proof. intros Hs. simpl. rewrite Hs. done. Qed.

Lemma ancestry_head σ s sc c :
  ancestry σ s c → σ !! s = Some sc → ∃ c', c = sc :: c'.
Proof. intros [s' sc' H1 H2|s' sc' p c' H1 H2 H3] Hs; simplify_eq; eauto. Qed.

(** Every scope of a well-formed store has a chain up to a root. *)
Lemma ancestry_exists σ :
  wf σ → ∀ s, s < List.length σ → ∃ c, ancestry σ s c.
Proof.
  intros Hwf s. induction (lt_wf s) as [s _ IH]. intros Hs.
  destruct (lookup_lt_is_Some_2 σ s Hs) as [sc Hsc].
  destruct (parent sc) as [p|] eqn:Hp.
  - pose proof (Hwf _ _ _ Hsc Hp) as Hlt.
    destruct (IH p Hlt ltac:(lia)) as [c Hc].
    exists (sc :: c). by eapply ancestry_step.
  - exists [sc]. by apply ancestry_root.
Qed.

(** In a well-formed store the chain from [s] has at most [S s] scopes,
    so any fuel above [s] walks it to the end. *)
Lemma Lookup_rec_chain σ name :
  wf σ →
  ∀ s fuel, s < List.length σ → s < fuel →
  ∃ c, ancestry σ s c ∧
    ((∃ i sc v, c !! i = Some sc ∧ nodes sc !! name = Some v
        ∧ (∀ j sc', j < i → c !! j = Some sc' → nodes sc' !! name = None)
        ∧ Lookup_rec fuel σ s name = Some (inl v))
     ∨ ((∀ sc, sc ∈ c → nodes sc !! name = None)
        ∧ Lookup_rec fuel σ s name
          = Some (inr (Errorf ("symbol not found on scope: " +:+ name))))).
Proof.
  intros Hwf s. induction (lt_wf s) as [s _ IH]. intros fuel Hs Hfuel.
  destruct fuel as [|fuel]; [lia|].
  destruct (lookup_lt_is_Some_2 σ s Hs) as [sc Hsc].
  rewrite (Lookup_rec_step _ _ _ _ _ Hsc).
  destruct (nodes sc !! name) as [v|] eqn:Hn.
  - destruct (ancestry_exists σ Hwf s Hs) as [c Hc].
    destruct (ancestry_head _ _ _ _ Hc Hsc) as [c' ->].
    exists (sc :: c'). split; [done|]. left.
    exists 0, sc, v. repeat split; try done. intros j sc' Hj. lia.
  - destruct (parent sc) as [p|] eqn:Hp.
    + pose proof (Hwf _ _ _ Hsc Hp) as Hlt.
      destruct (IH p Hlt fuel ltac:(lia) ltac:(lia)) as (c & Hc & Hres).
      exists (sc :: c). split; [by eapply ancestry_step|].
      destruct Hres as [(i & sci & v & Hi & Hv & Hbefore & HL)|[Hnone HL]].
      * left. exists (S i), sci, v. repeat split; try done.
        intros [|j] sc' Hj Hj'; simpl in Hj'.
        -- by injection Hj' as <-.
        -- eapply Hbefore; [|done]. lia.
      * right. split; [|done].
        intros sc' [->|Hin]%elem_of_cons; eauto.
    + exists [sc]. split; [by apply ancestry_root|].
      right. split; [|done].
      intros sc' ->%list_elem_of_singleton. done.
Qed.

Lemma ancestry_unique σ s c c' :
  ancestry σ s c → ancestry σ s c' → c' = c.
Proof.
  intros H. revert c'. induction H as [s sc H1 H2|s sc p c H1 H2 H3 IH];
    intros c' Hc'; inversion Hc'; simplify_eq; try done.
  f_equal. by apply IH.
Qed.

(** ** The claims about [Insert] and [Lookup] *)

(** C3. [Insert(name, v)] on the scope at [s] fails with the
    duplicate-symbol error exactly when [name] is bound in the mapping of
    that scope itself, whatever its ancestors bind; otherwise it binds
    [name] to [v] there and changes no other scope.  In particular, when
    [name] is bound in [s], inserting it into a fresh child of [s]
    succeeds and leaves the scope at [s] as it was. *)
Theorem Insert_spec σ s sc name (v : V) :
  σ !! s = Some sc →
  (is_Some (nodes sc !! name) ↔
     Insert s name v σ
     = Some (Some (Errorf ("symbol already defined on scope: " +:+ name)), σ))
  ∧ (nodes sc !! name = None ↔
       ∃ σ', Insert s name v σ = Some (None, σ')
         ∧ σ' !! s = Some (mkScope (parent sc) (<[name := v]> (nodes sc)))
         ∧ ∀ s', s' ≠ s → σ' !! s' = σ !! s')
  ∧ (∀ w, is_Some (nodes sc !! name) →
       ∃ σ2, Insert (New (Some s) σ).1 name w (New (Some s) σ).2 = Some (None, σ2)
         ∧ σ2 !! s = Some sc
         ∧ σ2 !! (New (Some s) σ).1 = Some (mkScope (Some s) {[name := w]})).
Proof.
  intros Hs. pose proof (lookup_lt_Some _ _ _ Hs) as Hlt.
  split; [|split].
  - split.
    + intros [v0 Hv0]. by eapply Insert_dup.
    + intros HI. apply Insert_inv in HI as (sc' & Hs' & Hb & _). by simplify_eq.
  - split.
    + intros Hn. eexists. split; [by apply Insert_lookup_same|]. split.
      * by rewrite list_lookup_insert_eq.
      * intros s' Hne. by rewrite list_lookup_insert_ne.
    + intros (σ' & HI & _). apply Insert_inv in HI as (sc' & Hs' & Hn & _).
      by simplify_eq.
  - intros w _. set (c := (New (Some s) σ).1). set (σ1 := (New (Some s) σ).2).
    assert (σ1 !! c = Some (mkScope (Some s) ∅)) as Hc by apply New_lookup_new.
    eexists. split; [apply (Insert_lookup_same _ _ _ _ _ Hc); apply lookup_empty|].
    assert (c = List.length σ) as Hcl by done.
    assert (List.length σ1 = S (List.length σ)) as Hl1.
    { unfold σ1, New. simpl. rewrite length_app. simpl. lia. }
    split.
    + rewrite list_lookup_insert_ne by lia.
      unfold σ1. rewrite New_lookup_old by done. done.
    + rewrite list_lookup_insert_eq by lia. simpl. by rewrite insert_empty.
Qed.

(** C10. A failed [Insert] is atomic: when [name] is already bound in the
    scope at [s], the call returns the duplicate-symbol error and the
    store it leaves is the store it found, so the old binding of [name]
    is still there and nothing was added, removed or replaced. *)
Theorem Insert_failure_atomic σ s sc name (v0 v : V) :
  σ !! s = Some sc → nodes sc !! name = Some v0 →
  ∃ e, Insert s name v σ = Some (Some e, σ)
    ∧ (∀ r σ', Insert s name v σ = Some (r, σ') →
         σ' = σ ∧ σ' !! s = Some sc ∧ r = Some e).
Proof.
  intros Hs Hn. eexists. split; [by eapply Insert_dup|].
  intros r σ' HI. rewrite (Insert_dup _ _ _ _ _ _ Hs Hn) in HI.
  by simplify_eq.
Qed.

(** C4. [Lookup(name)] from the scope at [s] returns the value bound in
    the first scope of the chain [s], parent of [s], ... that binds
    [name], and fails with the symbol-not-found error exactly when the
    chain ends at the parent-less root with no scope binding [name]. *)
Theorem Lookup_nearest σ s name :
  wf σ → s < List.length σ →
  ∃ c, ancestry σ s c ∧ (∀ c', ancestry σ s c' → c' = c) ∧
    ((∃ i sc (v : V), c !! i = Some sc ∧ nodes sc !! name = Some v
        ∧ (∀ j sc', j < i → c !! j = Some sc' → nodes sc' !! name = None)
        ∧ Lookup σ s name = Some (inl v))
     ∨ ((∀ sc, sc ∈ c → nodes sc !! name = None)
        ∧ Lookup σ s name
          = Some (inr (Errorf ("symbol not found on scope: " +:+ name))))).
Proof.
  intros Hwf Hs.
  destruct (Lookup_rec_chain σ name Hwf s (List.length σ) Hs Hs) as (c & Hc & H).
  exists c. split; [done|]. split; [|done].
  intros c' Hc'. by eapply ancestry_unique.
Qed.

End Scope.

Lemma wf_store3 : wf store3.
Proof.
  intros [|[|[|s]]] sc p Hs Hp; simpl in Hs; simplify_eq; simpl in Hp;
    simplify_eq; lia.
Qed.

Lemma Insert_spec_witness :
  store3 !! 0 = Some (mkScope None {[ "x" := 1 ]})
  ∧ Insert 0 "x" 7 store3
    = Some (Some (Errorf "symbol already defined on scope: x"), store3).
Proof.
  split; [reflexivity|].
  apply (Insert_spec store3 0 (mkScope None {[ "x" := 1 ]}) "x" 7); [reflexivity|].
  exists 1. reflexivity.
Defined.

Lemma Insert_failure_atomic_witness :
  store3 !! 1 = Some (mkScope (Some 0) {[ "y" := 2 ]})
  ∧ ∃ e, Insert 1 "y" 9 store3 = Some (Some e, store3)
      ∧ (∀ r σ', Insert 1 "y" 9 store3 = Some (r, σ') →
           σ' = store3 ∧ σ' !! 1 = Some (mkScope (Some 0) {[ "y" := 2 ]}) ∧ r = Some e).
Proof.
  split; [reflexivity|].
  apply (Insert_failure_atomic store3 1 (mkScope (Some 0) {[ "y" := 2 ]}) "y" 2 9);
    reflexivity.
Defined.

Lemma Lookup_nearest_witness :
  2 < List.length store3
  ∧ ∃ c, ancestry store3 2 c ∧ (∀ c', ancestry store3 2 c' → c' = c) ∧
      ((∃ i sc (v : nat), c !! i = Some sc ∧ nodes sc !! "x" = Some v
          ∧ (∀ j sc', j < i → c !! j = Some sc' → nodes sc' !! "x" = None)
          ∧ Lookup store3 2 "x" = Some (inl v))
       ∨ ((∀ sc, sc ∈ c → nodes sc !! "x" = None)
          ∧ Lookup store3 2 "x" = Some (inr (Errorf "symbol not found on scope: x")))).
Proof.
  split; [simpl; lia|].
  apply (Lookup_nearest store3 2 "x" wf_store3). simpl. lia.
Defined.

End ScopeTheory.

(** * Properties of the parser *)

Module ParserTheory.
Import token lexer ast parser samples.

(** ** Expressions *)

(** The ladder at work on three operands.  Whatever the lexemes and
    positions of the tokens:
    [1 + 2 * 3] is [1 + (2 * 3)], [1 * 2 + 3] is [(1 * 2) + 3],
    [not a and b] is [(not a) and b], and [a - b + c], [a / b * c],
    [a < b > c], [a or b and c] are [(a - b) + c], [(a / b) * c],
    [(a < b) > c], [(a or b) and c]. *)
Lemma precedence_examples (n : nat) (a b c op1 op2 : string)
    (p1 p2 p3 p4 p5 : Position) :
  let lit s := LiteralExpr (BasicType INTEGER_LITERAL) s in
  let parse3 k1 o1 k2 o2 k3 :=
    ParseExprFrom (20 + n)
      [mkToken k1 a p1; mkToken o1 op1 p2; mkToken k2 b p3;
       mkToken o2 op2 p4; mkToken k3 c p5] "main.t" in
  parse3 INTEGER_LITERAL PLUS INTEGER_LITERAL STAR INTEGER_LITERAL
    = Ok (BinaryExpr (lit a) PLUS (BinaryExpr (lit b) STAR (lit c)))
  ∧ parse3 INTEGER_LITERAL STAR INTEGER_LITERAL PLUS INTEGER_LITERAL
    = Ok (BinaryExpr (BinaryExpr (lit a) STAR (lit b)) PLUS (lit c))
  ∧ ParseExprFrom (20 + n)
      [mkToken NOT op1 p1; mkToken ID a p2; mkToken AND op2 p3; mkToken ID b p4]
      "main.t"
    = Ok (BinaryExpr (UnaryExpr NOT (IdExpr (mkToken ID a p2))) AND
                     (IdExpr (mkToken ID b p4)))
  ∧ parse3 INTEGER_LITERAL MINUS INTEGER_LITERAL PLUS INTEGER_LITERAL
    = Ok (BinaryExpr (BinaryExpr (lit a) MINUS (lit b)) PLUS (lit c))
  ∧ parse3 INTEGER_LITERAL SLASH INTEGER_LITERAL STAR INTEGER_LITERAL
    = Ok (BinaryExpr (BinaryExpr (lit a) SLASH (lit b)) STAR (lit c))
  ∧ parse3 INTEGER_LITERAL LESS INTEGER_LITERAL GREATER INTEGER_LITERAL
    = Ok (BinaryExpr (BinaryExpr (lit a) LESS (lit b)) GREATER (lit c))
  ∧ parse3 INTEGER_LITERAL OR INTEGER_LITERAL AND INTEGER_LITERAL
    = Ok (BinaryExpr (BinaryExpr (lit a) OR (lit b)) AND (lit c)).
Proof. repeat split; reflexivity. Qed.

(** C2, as the code has it.  [parseFieldAccess] takes its right operand
    from [parsePrimary], and [parsePrimary] on an identifier followed by a
    dot calls [parseFieldAccess] again: [a.b.c] is the access of
    [b.c] in [a], two nested [FieldAccess] nodes, and the whole chain is
    read. *)
Theorem field_access_chain_nests (n : nat) (a b c dot1 dot2 : string)
    (p1 p2 p3 p4 p5 : Position) :
  let ta := mkToken ID a p1 in
  let tb := mkToken ID b p3 in
  let tc := mkToken ID c p5 in
  let p := NewWithLex
             (lexer.New "main.t" [ta; mkToken DOT dot1 p2; tb; mkToken DOT dot2 p4; tc])
             diagnostics.New [] in
  parseExpr (20 + n) p
  = (Ok (FieldAccessExpr (mkFieldAccess (IdExpr ta)
           (FieldAccessExpr (mkFieldAccess (IdExpr tb) (IdExpr tc))))),
     set_lex p (lexer.New "main.t" [])).
Proof. reflexivity. Qed.

(** C2, as the specification words it, fails: the expression parsed from
    [a.b.c] does not hold a single [FieldAccess] node. *)
Lemma field_access_chain_not_single :
  ¬ ∃ e, ParseExprFrom 20 a_dot_b_dot_c "main.t" = Ok e ∧ fieldAccesses e = 1.
Proof. intros (e & He & Hn). vm_compute in He. injection He as <-. discriminate Hn. Qed.

(** ** Declarations *)

(** [Insert] of [ast.Scope], case by case. *)
Lemma ast_Insert_fresh (σ : scope.store Node) s sc name v :
  σ !! s = Some sc → scope.nodes sc !! name = None →
  ast.Insert s name v σ
  = Some (None, <[s := scope.mkScope (scope.parent sc)
                         (<[name := v]> (scope.nodes sc))]> σ).
Proof. intros Hs Hn. unfold ast.Insert. rewrite Hs. simpl. by rewrite Hn. Qed.


Lemma ast_Insert_inv (σ σ' : scope.store Node) s name v r :
  ast.Insert s name v σ = Some (r, σ') →
  ∃ sc, σ !! s = Some sc ∧
    match r with
    | Some e => is_Some (scope.nodes sc !! name) ∧ σ' = σ
                ∧ e = ERR_SYMBOL_ALREADY_DEFINED_ON_SCOPE
    | None => scope.nodes sc !! name = None
              ∧ σ' = <[s := scope.mkScope (scope.parent sc)
                              (<[name := v]> (scope.nodes sc))]> σ
    end.
Proof.
  unfold ast.Insert. intros HI.
  destruct (σ !! s) as [sc|] eqn:Hs; simpl in HI; [|done].
  exists sc. split; [done|].
  destruct (scope.nodes sc !! name) as [v0|] eqn:Hn; injection HI as <- <-; eauto.
Qed.


(** ** Parameter lists *)

(** What the loop of [parseFunctionParams] does when it meets [...]. *)
Lemma parseFunctionParams_loop_ellipsis fuel params isVariadic p :
  Kind_ (lexer.Peek (lex p)) = DOT_DOT_DOT →
  parseFunctionParams_loop (S fuel) params isVariadic p =
    if lexer.NextIs (lex (skipped p)) CLOSE_PAREN
    then (Ok (params, true), skipped p)
    else (Err COMPILER_ERROR_FOUND,
          reported (skipped p)
            (diagnostics.at_pos (Pos (lexer.Peek (lex p)))
               "... is only allowed at the end of parameter list")).
Proof.
  intros Hk. cbn [parseFunctionParams_loop].
  unfold bind at 1. unfold NextIs at 1. cbn beta iota.
  unfold lexer.NextIs at 1. rewrite Hk. cbn [token.eqb token.code Nat.eqb].
  unfold bind at 1. unfold NextIs at 1. cbn beta iota.
  unfold lexer.NextIs at 1. rewrite Hk. cbn [token.eqb token.code Nat.eqb].
  unfold bind, Peek, Skip, NextIs, ReportAndSave, fail, ret. cbn beta iota.
  fold (skipped p). destruct (lexer.NextIs (lex (skipped p)) CLOSE_PAREN); reflexivity.
Qed.

(** C7. In the loop of [parseFunctionParams] an ellipsis is accepted only
    when the closing parenthesis follows it: it then ends the list and
    makes it variadic; before any other token it is reported as
    "... is only allowed at the end of parameter list" and the sentinel
    error is returned.  So [(a int, ..., b int)] fails with that
    diagnostic, and [(a int, b *int, ...)] gives the two fields [a int] and
    [b *int], in this order, with [IsVariadic = true]. *)
Theorem ellipsis_only_at_end fuel params isVariadic p :
  Kind_ (lexer.Peek (lex p)) = DOT_DOT_DOT →
  (Kind_ (lexer.Peek1 (lex p)) = CLOSE_PAREN →
     parseFunctionParams_loop (S fuel) params isVariadic p
     = (Ok (params, true), skipped p))
  ∧ (Kind_ (lexer.Peek1 (lex p)) ≠ CLOSE_PAREN →
     parseFunctionParams_loop (S fuel) params isVariadic p
     = (Err COMPILER_ERROR_FOUND,
        reported (skipped p)
          (diagnostics.at_pos (Pos (lexer.Peek (lex p)))
             "... is only allowed at the end of parameter list")))
  ∧ (let '(r, p') := parseFunctionParams 20 (parserOn params_ellipsis_inside) in
     r = Err COMPILER_ERROR_FOUND
     ∧ collector p' = [diagnostics.mkDiag
         "main.t:1:9: ... is only allowed at the end of parameter list"])
  ∧ (let '(r, p') := parseFunctionParams 20 (parserOn params_ellipsis_last) in
     r = Ok (mkFieldList (tk OPEN_PAREN "(" 1)
               [mkField (tk ID "a" 2) (BasicType INT_TYPE);
                mkField (tk ID "b" 9) (PointerType (BasicType INT_TYPE))]
               true (tk CLOSE_PAREN ")" 20))
     ∧ collector p' = [] ∧ toks (lex p') = []).
Proof.
  intros Hk.
  assert (lexer.NextIs (lex (skipped p)) CLOSE_PAREN
          = token.eqb (Kind_ (lexer.Peek1 (lex p))) CLOSE_PAREN) as Hnext.
  { unfold lexer.NextIs, skipped, lexer.Peek, lexer.Peek1, lexer.Skip, lexer.eof.
    destruct p as [[d f ts] c m h]. reflexivity. }
  rewrite (parseFunctionParams_loop_ellipsis fuel params isVariadic p Hk), Hnext.
  split; [|split; [|split]].
  - intros ->. reflexivity.
  - intros Hne. destruct (Kind_ (lexer.Peek1 (lex p))); try reflexivity. done.
  - vm_compute. done.
  - vm_compute. done.
Qed.

Lemma ellipsis_only_at_end_witness :
  let p := parserOn [tk DOT_DOT_DOT "..." 9; tk COMMA "," 12; tk ID "b" 14] in
  Kind_ (lexer.Peek (lex p)) = DOT_DOT_DOT
  ∧ Kind_ (lexer.Peek1 (lex p)) ≠ CLOSE_PAREN
  ∧ parseFunctionParams_loop 1 [] false p
    = (Err COMPILER_ERROR_FOUND,
       reported (skipped p)
         (diagnostics.at_pos (Pos (lexer.Peek (lex p)))
            "... is only allowed at the end of parameter list")).
Proof.
  split; [reflexivity|]. split; [discriminate|].
  refine (proj1 (proj2 (ellipsis_only_at_end 0 [] false
            (parserOn [tk DOT_DOT_DOT "..." 9; tk COMMA "," 12; tk ID "b" 14])
            eq_refl)) _).
  discriminate.
Defined.

(** ** Types and return types *)

Lemma Kind_eqb_eq (k1 k2 : token.Kind) : token.eqb k1 k2 = true ↔ k1 = k2.
Proof.
  split; [|intros ->; by destruct k2].
  destruct k1, k2; first [reflexivity | discriminate].
Qed.

Lemma Kind_eqb_neq (k1 k2 : token.Kind) : token.eqb k1 k2 = false ↔ k1 ≠ k2.
Proof.
  rewrite <- Kind_eqb_eq. destruct (token.eqb k1 k2); split; congruence.
Qed.

(** A type that is read takes at least one token. *)
Lemma parseExprType_from_consumes ts ty ts' :
  parseExprType_from ts = (Ok ty, ts') → List.length ts' < List.length ts.
Proof.
  revert ty ts'. induction ts as [|tok rest IH]; intros ty ts' H; simpl in H; [done|].
  destruct (Kind_ tok); simpl in H; simplify_eq; simpl; try lia.
  destruct (parseExprType_from rest) as [[ty0| | |] ts0] eqn:Hrest; simplify_eq.
  specialize (IH _ _ eq_refl). simpl. lia.
Qed.

(** [parseExprType] returns a type or an error. *)
Lemma parseExprType_from_returns ts :
  (∃ ty ts', parseExprType_from ts = (Ok ty, ts'))
  ∨ (∃ ts', parseExprType_from ts = (Err COMPILER_ERROR_FOUND, ts')).
Proof.
  induction ts as [|tok rest IH]; simpl; [eauto|].
  destruct (Kind_ tok); simpl; eauto.
  destruct IH as [(ty & ts' & ->)|(ts' & ->)]; eauto.
Qed.

(** C9. [parseReturnType] returns the void type and leaves the tokens
    untouched exactly when the next token is the opening brace or, for a
    prototype only, the semicolon.  In every other case it is
    [parseExprType] that reads the type: the type it returns is returned,
    at least one token shorter; where no type is written the
    "expected type or {" diagnostic is reported with the sentinel error. *)
Theorem parseReturnType_void_default (isPrototype : bool) (p : Parser) :
  let k := Kind_ (lexer.Peek (lex p)) in
  let void := k = OPEN_CURLY ∨ (isPrototype = true ∧ k = SEMICOLON) in
  (parseReturnType isPrototype p = (Ok (BasicType VOID_TYPE), p) ↔ void)
  ∧ (¬ void →
       (∃ ty p', parseExprType p = (Ok ty, p')
          ∧ parseReturnType isPrototype p = (Ok ty, p')
          ∧ List.length (toks (lex p')) < List.length (toks (lex p)))
       ∨ (∃ p', parseExprType p = (Err COMPILER_ERROR_FOUND, p')
          ∧ parseReturnType isPrototype p
            = (Err COMPILER_ERROR_FOUND,
               reported p' (expected "type or {" (lexer.Peek (lex p')))))).
Proof.
  intros k void.
  assert (Hcond : (isPrototype && lexer.NextIs (lex p) SEMICOLON
                   || lexer.NextIs (lex p) OPEN_CURLY) = true ↔ void).
  { unfold void, lexer.NextIs. fold k.
    rewrite orb_true_iff, andb_true_iff, !Kind_eqb_eq. tauto. }
  assert (Helse : ¬ void →
       (∃ ty p', parseExprType p = (Ok ty, p')
          ∧ parseReturnType isPrototype p = (Ok ty, p')
          ∧ List.length (toks (lex p')) < List.length (toks (lex p)))
       ∨ (∃ p', parseExprType p = (Err COMPILER_ERROR_FOUND, p')
          ∧ parseReturnType isPrototype p
            = (Err COMPILER_ERROR_FOUND,
               reported p' (expected "type or {" (lexer.Peek (lex p')))))).
  { intros Hnot. rewrite <- Hcond in Hnot. apply not_true_is_false in Hnot.
    unfold parseReturnType, bind, NextIs. rewrite Hnot.
    unfold handle, parseExprType.
    destruct (parseExprType_from_returns (toks (lex p))) as [(ty & ts' & Hty)|(ts' & Hty)];
      rewrite Hty.
    - left. eexists _, _. split; [reflexivity|]. split; [reflexivity|].
      simpl. by eapply parseExprType_from_consumes.
    - right. eexists. split; reflexivity. }
  split; [|done].
  split.
  - intros Hret.
    destruct (isPrototype && lexer.NextIs (lex p) SEMICOLON
              || lexer.NextIs (lex p) OPEN_CURLY) eqn:Hb; [by apply Hcond|exfalso].
    assert (Hnot : ¬ void) by (rewrite <- Hcond; congruence).
    destruct (Helse Hnot) as [(ty & p' & _ & Hr & Hlen)|(p' & _ & Hr)];
      rewrite Hr in Hret; simplify_eq. lia.
  - intros Hvoid. apply Hcond in Hvoid.
    unfold parseReturnType, bind, NextIs. by rewrite Hvoid.
Qed.

Lemma parseReturnType_void_default_witness :
  let p := parserOn [tk I32_TYPE "i32" 11; tk OPEN_CURLY "{" 15] in
  ¬ (Kind_ (lexer.Peek (lex p)) = OPEN_CURLY
     ∨ (false = true ∧ Kind_ (lexer.Peek (lex p)) = SEMICOLON))
  ∧ parseReturnType false p
    = (Ok (BasicType I32_TYPE), parserOn [tk OPEN_CURLY "{" 15]).
Proof.
  intros p.
  assert (Hnot : ¬ (Kind_ (lexer.Peek (lex p)) = OPEN_CURLY
                    ∨ (false = true ∧ Kind_ (lexer.Peek (lex p)) = SEMICOLON))).
  { intros [H|[H _]]; discriminate H. }
  split; [exact Hnot|].
  destruct (proj2 (parseReturnType_void_default false p) Hnot)
    as [(ty & p' & Hty & Hr & _)|(p' & Hty & _)].
  - rewrite Hr. vm_compute in Hty. by injection Hty as <- <-.
  - vm_compute in Hty. discriminate Hty.
Defined.

(** ** Variable statements *)

(** Every turn of the name loop adds a name. *)
Lemma parseVar_loop_names fuel : ∀ variables p vs isDecl p',
  parseVar_loop fuel variables p = (Ok (vs, isDecl), p') →
  List.length variables < List.length vs.
Proof.
  induction fuel as [|fuel IH]; intros variables p vs isDecl p' H; [done|].
  cbn [parseVar_loop] in H.
  unfold bind, expect, Peek, Skip, ret, fail, parseExprType in H. cbn beta iota in H.
  repeat (case_match; simplify_eq; try done);
    try (apply IH in H); rewrite ?length_app in *; simpl in *; lia.
Qed.

(** C8. Once the names and the expression list of a variable statement
    have been read, [parseVar] compares their numbers.  If they differ it
    returns the error "<names> != <expressions>".  If they agree, the
    statement holds one binding for each name, in order: binding [i] has
    the name and the type read for name [i], expression [i] as its value,
    and is a declaration exactly when the operator read was [:=].  One
    name gives that binding as a [VarStmt], several names give the
    bindings as a [MultiVarStmt].  There is always at least one name. *)
Theorem parseVar_counts fuel p variables isDecl p1 exprs p2 :
  parseVar_loop fuel [] p = (Ok (variables, isDecl), p1) →
  parseExprList fuel [SEMICOLON; CLOSE_PAREN] p1 = (Ok exprs, p2) →
  let bound :=
    zip_with (λ (variable : VarStmt) (expr : Expr),
                mkVarStmt (Var_Name variable) (Var_Type variable) (Some expr) isDecl
                          (NeedsInference variable))
             variables exprs in
  (1 ≤ List.length variables)%nat
  ∧ (List.length variables ≠ List.length exprs →
       parseVar fuel p
       = (Err (Errorf (pretty (List.length variables) +:+ " != "
                       +:+ pretty (List.length exprs))), p2))
  ∧ (List.length variables = List.length exprs →
       (∀ i variable expr,
          variables !! i = Some variable → exprs !! i = Some expr →
          bound !! i = Some (mkVarStmt (Var_Name variable) (Var_Type variable)
                                       (Some expr) isDecl (NeedsInference variable)))
       ∧ List.length bound = List.length variables
       ∧ (List.length variables = 1%nat →
            ∃ variable, bound = [variable]
              ∧ parseVar fuel p = (Ok (VarStmt_ variable), p2))
       ∧ ((1 < List.length variables)%nat →
            parseVar fuel p = (Ok (MultiVarStmt isDecl bound), p2))).
Proof.
  intros Hnames Hexprs bound.
  pose proof (parseVar_loop_names _ _ _ _ _ _ Hnames) as Hlen. simpl in Hlen.
  assert (Hrun : parseVar fuel p = parseVar_finish variables isDecl exprs p2).
  { unfold parseVar, bind. rewrite Hnames, Hexprs. reflexivity. }
  rewrite Hrun. unfold parseVar_finish.
  assert (Hbind : zip_with (assign isDecl) variables exprs = bound) by reflexivity.
  rewrite Hbind.
  split; [lia|]. split.
  - intros Hne. apply Nat.eqb_neq in Hne. by rewrite Hne.
  - intros Heq. pose proof Heq as Heqb. apply Nat.eqb_eq in Heqb. rewrite Heqb. simpl.
    assert (Hbound : List.length bound = List.length variables).
    { unfold bound. rewrite length_zip_with. lia. }
    split.
    { intros i variable expr Hv He. unfold bound.
      rewrite lookup_zip_with, Hv. simpl. by rewrite He. }
    split; [done|]. split.
    + intros H1. destruct bound as [|variable [|? ?]]; simpl in Hbound; try lia.
      by exists variable.
    + intros H1. destruct bound as [|variable [|? ?]]; simpl in Hbound; try lia.
      done.
Qed.

(** [a, b := 1;] is refused with "2 != 1", [a, b := 1, 2;] binds [a] to
    [1] and [b] to [2]. *)
Lemma parseVar_counts_witness :
  let a := mkVarStmt (tk ID "a" 1) None None true true in
  let b := mkVarStmt (tk ID "b" 4) None None true true in
  let one := LiteralExpr (BasicType INTEGER_LITERAL) "1" in
  let two := LiteralExpr (BasicType INTEGER_LITERAL) "2" in
  let rest := set_lex (parserOn []) (lexer.New "main.t" [tk SEMICOLON ";" 10]) in
  let rest' := set_lex (parserOn []) (lexer.New "main.t" [tk SEMICOLON ";" 13]) in
  parseVar_loop 20 [] (parserOn var_two_one)
  = (Ok ([a; b], true),
     set_lex (parserOn []) (lexer.New "main.t" [tk INTEGER_LITERAL "1" 9; tk SEMICOLON ";" 10]))
  ∧ parseVar 20 (parserOn var_two_one) = (Err (Errorf "2 != 1"), rest)
  ∧ parseVar 20 (parserOn var_two_two)
    = (Ok (MultiVarStmt true
             [mkVarStmt (tk ID "a" 1) None (Some one) true true;
              mkVarStmt (tk ID "b" 4) None (Some two) true true]), rest').
Proof.
  intros a b one two rest rest'.
  split; [reflexivity|]. split.
  - refine (proj1 (proj2 (parseVar_counts 20 (parserOn var_two_one) [a; b] true _
                            [one] rest eq_refl eq_refl)) _).
    simpl. lia.
  - refine (proj2 (proj2 (proj2 (proj2 (proj2 (parseVar_counts 20 (parserOn var_two_two)
              [a; b] true _ [one; two] rest' eq_refl eq_refl)) eq_refl))) _).
    simpl. lia.
Defined.

End ParserTheory.

(** * Properties of the module-tree builder *)

Module ModuleTreeTheory.
Import token lexer ast parser samples.

Section Walk.
Context (quote : string → string).
Local Abbreviation processModuleEntries := (parser.processModuleEntries quote).
Local Abbreviation buildModuleTree := (parser.buildModuleTree quote).
Local Abbreviation buildModuleTree_handler := (parser.buildModuleTree_handler quote).
Local Abbreviation walk_fails := (parser.walk_fails quote).
Local Abbreviation walk_exits := (parser.walk_exits quote).
Local Abbreviation ParseModuleDir := (parser.ParseModuleDir quote).

Lemma buildModuleTree_unfold path read :
  buildModuleTree path read
  = processModuleEntries path read buildModuleTree_handler.
Proof. destruct read; reflexivity. Qed.

(** Induction on a directory tree: the entries of a listing may be assumed
    to satisfy the property where they are directories. *)
Fixpoint ReadDir_tree_ind (P : ReadDir → Prop)
    (Herror : ∀ err, P (ReadError err))
    (Hentries : ∀ entries,
       Forall (λ entry, match entry with
                        | Dir_ _ read => P read
                        | File_ _ _ => True
                        end) entries →
       P (Entries entries))
    (read : ReadDir) {struct read} : P read :=
  match read with
  | ReadError err => Herror err
  | Entries entries =>
      Hentries entries
        ((fix all (entries : list DirEntry)
            : Forall (λ entry, match entry with
                               | Dir_ _ read => P read
                               | File_ _ _ => True
                               end) entries :=
            match entries as es
                  return Forall (λ entry, match entry with
                                          | Dir_ _ read => P read
                                          | File_ _ _ => True
                                          end) es with
            | [] => @List.Forall_nil _ _
            | entry :: entries' =>
                @List.Forall_cons _ _ entry entries'
                  (match entry as e
                         return match e with
                                | Dir_ _ read => P read
                                | File_ _ _ => True
                                end with
                   | Dir_ _ read' => ReadDir_tree_ind P Herror Hentries read'
                   | File_ _ _ => I
                   end)
                  (all entries')
            end) entries)
  end.

(** The loop stops at the first entry whose handler does not return nil. *)
Lemma processModuleEntries_loop_app path handler before entry after :
  ∀ module p module1 p1,
  processModuleEntries_loop path handler before module p = (Ok tt, module1, p1) →
  processModuleEntries_loop path handler (before ++ entry :: after) module p
  = match handler entry (Join path (Entry_Name entry)) module1 p1 with
    | (Ok _, module', p') => processModuleEntries_loop path handler after module' p'
    | failed => failed
    end.
Proof.
  induction before as [|e before IH]; intros module p module1 p1 H; simpl in *.
  - by simplify_eq.
  - destruct (handler e (Join path (Entry_Name e)) module p) as [[[[]| | |] m'] p''];
      simplify_eq. by apply IH.
Qed.

Lemma walk_fails_buildModuleTree path read module p err :
  walk_fails path read module p err →
  ∃ module' p', buildModuleTree path read module p = (Err err, module', p').
Proof.
  induction 1 as [path err module p
                 |path before name read after module p module1 p1 err Hbefore _ IH
                 |path before name err after module p module1 p1 Hbefore Hext
                 |path before name src after module p module1 p1 err p' Hbefore Hext Hparse];
    rewrite buildModuleTree_unfold; simpl.
  - eauto.
  - rewrite (processModuleEntries_loop_app _ _ _ _ _ _ _ _ _ Hbefore). simpl.
    destruct IH as (module' & p' & IH).
    unfold childOf, withChildScope, ast.NewScope in IH. simpl in IH.
    rewrite IH. eauto.
  - rewrite (processModuleEntries_loop_app _ _ _ _ _ _ _ _ _ Hbefore). simpl.
    rewrite Hext. simpl. eauto.
  - rewrite (processModuleEntries_loop_app _ _ _ _ _ _ _ _ _ Hbefore). simpl.
    rewrite Hext. simpl. simpl in Hparse. rewrite Hparse. eauto.
Qed.

Lemma walk_exits_buildModuleTree path read module p msg :
  walk_exits path read module p msg →
  ∃ module' p', buildModuleTree path read module p = (Exit msg, module', p').
Proof.
  induction 1 as [path before name read after module p module1 p1 msg Hbefore _ IH
                 |path before name src after module p module1 p1 msg p' Hbefore Hext Hparse];
    rewrite buildModuleTree_unfold; simpl.
  - rewrite (processModuleEntries_loop_app _ _ _ _ _ _ _ _ _ Hbefore). simpl.
    destruct IH as (module' & p' & IH).
    unfold childOf, withChildScope, ast.NewScope in IH. simpl in IH.
    rewrite IH. eauto.
  - rewrite (processModuleEntries_loop_app _ _ _ _ _ _ _ _ _ Hbefore). simpl.
    rewrite Hext. simpl. simpl in Hparse. rewrite Hparse. eauto.
Qed.

(** A walk that goes through has met no directory it could not read and no
    source file it could not open. *)
Lemma unusable_buildModuleTree read :
  unusable read = true →
  ∀ path module p, (buildModuleTree path read module p).1.1 ≠ Ok tt.
Proof.
  induction read as [err|entries IH] using ReadDir_tree_ind;
    intros Hbad path module p; rewrite buildModuleTree_unfold; simpl; [done|].
  simpl in Hbad. revert module p.
  induction IH as [|entry entries Hentry _ IHentries]; intros module p;
    simpl in *; [done|].
  apply orb_true_iff in Hbad as [Hbad|Hbad].
  - destruct entry as [name read|name [err|src]]; simpl; [| |done].
    + unfold ast.NewScope. simpl.
      specialize (Hentry Hbad (Join path name)
        (mkModule "" [] [] (List.length (heap p)) false)
        (set_heap p (heap p ++ [scope.mkScope (Some (Module_Scope module)) ∅]))).
      destruct (buildModuleTree _ _ _ _) as [[[[]| | |] m'] p']; done.
    + by rewrite Hbad.
  - destruct (buildModuleTree_handler entry _ module p) as [[[[]| | |] m'] p'];
      try done. by apply IHentries.
Qed.

(** Such a tree gives no program, whatever its files hold. *)
Lemma unusable_no_program path read p program e :
  unusable read = true →
  (ParseModuleDir path read p).1 = Returns program e →
  program = None ∧ is_Some e.
Proof.
  intros Hbad. unfold parser.ParseModuleDir.
  destruct (ast.NewScope None (heap p)) as [universe σ].
  pose proof (unusable_buildModuleTree read Hbad path
                (mkModule "" [] [] universe true) (set_heap p σ)) as Hnot.
  destruct (buildModuleTree _ _ _ _) as [[[[]| | |] m'] p']; simpl in *;
    intros ?; simplify_eq; eauto.
Qed.

End Walk.

End ModuleTreeTheory.

(** * Operator chains fold to the left *)

Module GrammarTheory.
Import token lexer ast parser grammar.

Lemma leaving_same p : leaving p (toks (lex p)) = p.
Proof. by destruct p as [[d f ts] c m h]. Qed.

Lemma leaving_leaving p ts ts' : leaving (leaving p ts) ts' = leaving p ts'.
Proof. reflexivity. Qed.

Lemma skipped_leaving p tok ts :
  toks (lex p) = tok :: ts → skipped p = leaving p ts.
Proof. intros H. unfold skipped, leaving, lexer.Skip. by rewrite H. Qed.

Section level.
Variables (OPS TIGHTER : token.Kind → bool).
Variables (level sub : nat → M Expr) (loop : nat → Expr → M Expr).
Hypothesis level_S : ∀ fuel p,
  level (S fuel) p = (let* lhs := sub fuel in loop fuel lhs) p.
Hypothesis loop_S : ∀ fuel lhs p,
  loop (S fuel) lhs p
  = (let* next := Peek in
     if OPS (Kind_ next) then
       Skip ;; let* rhs := sub fuel in loop fuel (BinaryExpr lhs (Kind_ next) rhs)
     else ret lhs) p.
Hypothesis disjoint : ∀ k, OPS k = true → TIGHTER k = false.

(** The loop of a level folds the chain it reads to the left. *)
Lemma loop_folds f0 items :
  chain_of OPS TIGHTER sub f0 items →
  ∀ lhs fuel p rest,
    (f0 + List.length items + 1 ≤ fuel)%nat →
    toks (lex p) = chain_tokens items ++ rest →
    OPS (Kind_ (hd (lexer.eof (lex p)) rest)) = false →
    TIGHTER (Kind_ (hd (lexer.eof (lex p)) rest)) = false →
    loop fuel lhs p = (Ok (chain_expr lhs items), leaving p rest).
Proof.
  induction 1 as [|[[op ts] e] items [Hop Hsub] Hitems IH];
    intros lhs fuel p rest Hfuel Htoks Hstop1 Hstop2;
    (destruct fuel as [|fuel]; [lia|]); rewrite loop_S; unfold bind, Peek.
  - simpl in Htoks. unfold lexer.Peek. rewrite Htoks, Hstop1. unfold ret.
    by rewrite <- Htoks, leaving_same.
  - simpl in Htoks, Hop, Hsub, Hfuel. rewrite <- app_assoc in Htoks.
    unfold lexer.Peek. rewrite Htoks. simpl.
    rewrite Hop. unfold Skip. fold (skipped p).
    rewrite (skipped_leaving p op _ Htoks).
    rewrite (Hsub fuel (leaving p (ts ++ chain_tokens items ++ rest))
                  (chain_tokens items ++ rest)); [|lia|done|].
    + rewrite leaving_leaving.
      rewrite (IH (BinaryExpr lhs (Kind_ op) e) fuel
                  (leaving p (chain_tokens items ++ rest)) rest);
        [by rewrite leaving_leaving|lia|done|done|done].
    + simpl. destruct items as [|[[op' ts'] e'] items']; simpl; [done|].
      apply disjoint. by inversion Hitems as [|? ? [? _] _].
Qed.

(** So a level reads [x0 op1 x1 ... opn xn] as [(..(x0 op1 x1)..) opn xn]. *)
Lemma level_folds f0 ts0 e0 items :
  parses sub TIGHTER f0 ts0 e0 →
  chain_of OPS TIGHTER sub f0 items →
  parses level (λ k, TIGHTER k || OPS k) (f0 + List.length items + 2)
         (ts0 ++ chain_tokens items) (chain_expr e0 items).
Proof.
  intros Hfirst Hitems fuel p rest Hfuel Htoks Hstop.
  apply orb_false_iff in Hstop as [Hstop1 Hstop2].
  destruct fuel as [|fuel]; [lia|]. rewrite level_S. unfold bind.
  rewrite (Hfirst fuel p (chain_tokens items ++ rest)); [|lia|by rewrite app_assoc|].
  - rewrite (loop_folds f0 items Hitems e0 fuel
               (leaving p (chain_tokens items ++ rest)) rest);
      [by rewrite leaving_leaving|lia|done|done|done].
  - destruct items as [|[[op' ts'] e'] items']; simpl; [done|].
    apply disjoint. by inversion Hitems as [|? ? [? _] _].
Qed.

End level.

(** An atom is read by [parseUnary], unless what follows makes it a call
    or a field access. *)
Lemma parseUnary_atom tok :
  is_atom (Kind_ tok) = true →
  parses parseUnary stop_unary 2 [tok] (atom_expr tok).
Proof.
  intros Hatom fuel p rest Hfuel Htoks Hstop.
  destruct fuel as [|[|fuel]]; [lia|lia|].
  destruct p as [[d f ts] c m h], tok as [k lexeme pos].
  simpl in Htoks, Hstop, Hatom. subst ts.
  destruct k; try discriminate Hatom; try reflexivity.
  destruct rest as [|[k' lexeme' pos'] rest']; [reflexivity|].
  simpl in Hstop. destruct k'; try discriminate Hstop; reflexivity.
Qed.

Lemma parseFactor_chain f0 ts0 e0 items :
  parses parseUnary stop_unary f0 ts0 e0 →
  chain_of FACTOR stop_unary parseUnary f0 items →
  parses parseFactor stop_factor (f0 + List.length items + 2)
         (ts0 ++ chain_tokens items) (chain_expr e0 items).
Proof.
  apply (level_folds FACTOR stop_unary parseFactor parseUnary parseFactor_loop);
    [reflexivity|reflexivity|by intros []].
Qed.

Lemma parseTerm_chain f0 ts0 e0 items :
  parses parseFactor stop_factor f0 ts0 e0 →
  chain_of TERM stop_factor parseFactor f0 items →
  parses parseTerm stop_term (f0 + List.length items + 2)
         (ts0 ++ chain_tokens items) (chain_expr e0 items).
Proof.
  apply (level_folds TERM stop_factor parseTerm parseFactor parseTerm_loop);
    [reflexivity|reflexivity|by intros []].
Qed.

Lemma parseComparasion_chain f0 ts0 e0 items :
  parses parseTerm stop_term f0 ts0 e0 →
  chain_of COMPARASION stop_term parseTerm f0 items →
  parses parseComparasion stop_comparasion (f0 + List.length items + 2)
         (ts0 ++ chain_tokens items) (chain_expr e0 items).
Proof.
  apply (level_folds COMPARASION stop_term parseComparasion parseTerm
                     parseComparasion_loop);
    [reflexivity|reflexivity|by intros []].
Qed.

Lemma parseLogical_chain f0 ts0 e0 items :
  parses parseComparasion stop_comparasion f0 ts0 e0 →
  chain_of LOGICAL stop_comparasion parseComparasion f0 items →
  parses parseLogical stop_logical (f0 + List.length items + 2)
         (ts0 ++ chain_tokens items) (chain_expr e0 items).
Proof.
  apply (level_folds LOGICAL stop_comparasion parseLogical parseComparasion
                     parseLogical_loop);
    [reflexivity|reflexivity|by intros []].
Qed.

Lemma parseExpr_parses stop f0 ts e :
  parses parseLogical stop f0 ts e → parses parseExpr stop (f0 + 1) ts e.
Proof.
  intros H fuel p rest Hfuel Htoks Hstop. destruct fuel as [|fuel]; [lia|].
  cbn [parseExpr]. apply H; [lia|done|done].
Qed.

(** An operand of a level is an operand of the level above: a chain
    with no operator. *)
Lemma parses_nil (f : nat → M Expr) stop f0 ts e :
  parses f stop f0 (ts ++ chain_tokens []) (chain_expr e []) →
  parses f stop f0 ts e.
Proof. simpl. by rewrite app_nil_r. Qed.

Lemma parses_mono (f : nat → M Expr) stop f0 f1 ts e :
  parses f stop f0 ts e → (f0 ≤ f1)%nat → parses f stop f1 ts e.
Proof. intros H Hle fuel p rest Hfuel. apply H. lia. Qed.

Lemma parseTerm_lift f0 ts e :
  parses parseFactor stop_factor f0 ts e →
  parses parseTerm stop_term (f0 + 2) ts e.
Proof.
  intros H. apply parses_nil. eapply parses_mono;
    [by apply parseTerm_chain; [exact H|constructor]|simpl; lia].
Qed.

Lemma parseComparasion_lift f0 ts e :
  parses parseTerm stop_term f0 ts e →
  parses parseComparasion stop_comparasion (f0 + 2) ts e.
Proof.
  intros H. apply parses_nil. eapply parses_mono;
    [by apply parseComparasion_chain; [exact H|constructor]|simpl; lia].
Qed.

Lemma parseLogical_lift f0 ts e :
  parses parseComparasion stop_comparasion f0 ts e →
  parses parseLogical stop_logical (f0 + 2) ts e.
Proof.
  intros H. apply parses_nil. eapply parses_mono;
    [by apply parseLogical_chain; [exact H|constructor]|simpl; lia].
Qed.

Lemma parseFactor_atom tok :
  is_atom (Kind_ tok) = true →
  parses parseFactor stop_factor 4 [tok] (atom_expr tok).
Proof.
  intros H. apply parses_nil.
  apply (parseFactor_chain 2 [tok] (atom_expr tok) []);
    [by apply parseUnary_atom|constructor].
Qed.

Lemma chain_of_atoms OPS stop (sub : nat → M Expr) f0 items :
  (∀ tok, is_atom (Kind_ tok) = true → parses sub stop f0 [tok] (atom_expr tok)) →
  Forall (λ item : Token * Token,
            OPS (Kind_ item.1) = true ∧ is_atom (Kind_ item.2) = true) items →
  chain_of OPS stop sub f0 (atoms items).
Proof.
  intros Hsub Hitems. unfold chain_of, atoms. apply Forall_map.
  eapply Forall_impl; [exact Hitems|]. intros [op x] [Hop Hx]. simpl in *.
  split; [done|by apply Hsub].
Qed.

(** Each binary level folds to the left.  A chain [x0 op1 x1 ... opn xn] of
    atoms joined by operators of one level, whichever of the four, is
    read by [parseExpr] as [(..(x0 op1 x1)..) opn xn], with fuel for the
    ladder and one unit per operator, up to a token that continues no
    expression. *)
Theorem atom_chains_fold_left (OPS : token.Kind → bool) x0 items :
  OPS = FACTOR ∨ OPS = TERM ∨ OPS = COMPARASION ∨ OPS = LOGICAL →
  is_atom (Kind_ x0) = true →
  Forall (λ item : Token * Token,
            OPS (Kind_ item.1) = true ∧ is_atom (Kind_ item.2) = true) items →
  parses parseExpr stop_logical (List.length items + 11)
         (x0 :: chain_tokens (atoms items))
         (chain_expr (atom_expr x0) (atoms items)).
Proof.
  intros HOPS Hx0 Hitems.
  assert (Hlen : List.length (atoms items) = List.length items)
    by apply length_map.
  pose proof (parseUnary_atom) as Hunary.
  pose proof (parseFactor_atom) as Hfactor.
  assert (Hterm : ∀ tok, is_atom (Kind_ tok) = true →
            parses parseTerm stop_term 6 [tok] (atom_expr tok))
    by (intros tok H; by apply (parseTerm_lift 4), Hfactor).
  assert (Hcomp : ∀ tok, is_atom (Kind_ tok) = true →
            parses parseComparasion stop_comparasion 8 [tok] (atom_expr tok))
    by (intros tok H; by apply (parseComparasion_lift 6), Hterm).
  change (x0 :: ?ts) with ([x0] ++ ts).
  destruct HOPS as [H|[H|[H|H]]]; subst OPS.
  - eapply parses_mono;
      [apply parseExpr_parses, parseLogical_lift, parseComparasion_lift, parseTerm_lift,
         parseFactor_chain;
       [by apply Hunary|by apply chain_of_atoms]|lia].
  - eapply parses_mono;
      [apply parseExpr_parses, parseLogical_lift, parseComparasion_lift, parseTerm_chain;
       [by apply Hfactor|by apply chain_of_atoms]|lia].
  - eapply parses_mono;
      [apply parseExpr_parses, parseLogical_lift, parseComparasion_chain;
       [by apply Hterm|by apply chain_of_atoms]|lia].
  - eapply parses_mono;
      [apply parseExpr_parses, parseLogical_chain;
       [by apply Hcomp|by apply chain_of_atoms]|lia].
Qed.

(** [1 - 2 - 3 - 4] is [((1 - 2) - 3) - 4]. *)
Lemma atom_chains_fold_left_witness :
  let lit s c := samples.tk INTEGER_LITERAL s c in
  let minus c := samples.tk MINUS "-" c in
  let e s := LiteralExpr (BasicType INTEGER_LITERAL) s in
  TERM = TERM
  ∧ ParseExprFrom 14
      [lit "1" 1; minus 3; lit "2" 5; minus 7; lit "3" 9; minus 11; lit "4" 13]
      "main.t"
    = Ok (BinaryExpr (BinaryExpr (BinaryExpr (e "1") MINUS (e "2")) MINUS (e "3"))
                     MINUS (e "4")).
Proof.
  intros lit minus e. split; [reflexivity|].
  unfold ParseExprFrom.
  rewrite (atom_chains_fold_left TERM (lit "1" 1)
             [(minus 3, lit "2" 5); (minus 7, lit "3" 9); (minus 11, lit "4" 13)]
             (or_intror (or_introl eq_refl)) eq_refl
             ltac:(repeat constructor) 14 _ []);
    [reflexivity|simpl; lia|reflexivity|reflexivity].
Defined.
(** ** Field accesses *)

Lemma bind_Ok {A B} (m : M A) (k : A → M B) p a p' :
  m p = (Ok a, p') → bind m k p = k a p'.
Proof. intros H. unfold bind. by rewrite H. Qed.

Lemma handle_Ok {A B} (m : M A) (onErr : error → M B) (k : A → M B) p a p' :
  m p = (Ok a, p') → handle m onErr k p = k a p'.
Proof. intros H. unfold handle. by rewrite H. Qed.

Lemma expect_Ok p tok rest K :
  toks (lex p) = tok :: rest → Kind_ tok = K →
  expect K p = (Ok (tok, true), leaving p rest).
Proof.
  intros Htoks <-. unfold expect, bind, Peek, Skip, ret, lexer.Peek.
  rewrite Htoks. simpl.
  assert (token.eqb (Kind_ tok) (Kind_ tok) = true) as ->
    by (by destruct (Kind_ tok)).
  simpl. unfold leaving, lexer.Skip. by rewrite Htoks.
Qed.

(** A chain of field accesses of any length nests to the right. *)
Lemma parsePrimary_access_chain items : ∀ x,
  Kind_ x = ID →
  Forall (λ item : Token * Token, Kind_ item.1 = DOT ∧ Kind_ item.2 = ID) items →
  parses parsePrimary stop_unary (2 * List.length items + 1)
         (x :: access_tokens items) (access_chain x (map snd items)).
Proof.
  induction items as [|[dot y] items IH]; intros x Hx Hitems fuel p rest Hfuel Htoks Hstop.
  - destruct fuel as [|fuel]; [lia|].
    destruct p as [[d f ts] c m h], x as [k lexeme pos].
    simpl in Htoks, Hstop, Hx. subst ts k.
    destruct rest as [|[k' lexeme' pos'] rest']; [reflexivity|].
    simpl in Hstop. destruct k'; try discriminate Hstop; reflexivity.
  - inversion Hitems as [|? ? [Hdot Hy] Hitems']; subst. simpl in Hdot, Hy, Hfuel.
    destruct fuel as [|[|fuel]]; [lia|lia|].
    simpl in Htoks.
    assert (Hrest : parsePrimary fuel (leaving p (y :: access_tokens items ++ rest))
                    = (Ok (access_chain y (map snd items)), leaving p rest)).
    { by rewrite (IH y Hy Hitems' fuel _ rest); [|lia|done|done]. }
    cbn [parsePrimary].
    rewrite (bind_Ok Peek _ p x p)
      by (unfold Peek, lexer.Peek; by rewrite Htoks).
    rewrite Hx. cbn beta iota.
    rewrite (bind_Ok Peek1 _ p dot p)
      by (unfold Peek1, lexer.Peek1; by rewrite Htoks).
    rewrite Hdot. cbn beta iota.
    rewrite (bind_Ok (parseFieldAccess (S fuel)) _ p
               (mkFieldAccess (IdExpr x) (access_chain y (map snd items)))
               (leaving p rest)); [reflexivity|].
    cbn [parseFieldAccess].
    rewrite (bind_Ok (expect ID) _ p (x, true)
               (leaving p (dot :: y :: access_tokens items ++ rest)))
      by by apply expect_Ok.
    cbn beta iota. cbn [negb].
    rewrite (bind_Ok (expect DOT) _ _ (dot, true)
               (leaving p (y :: access_tokens items ++ rest)))
      by exact (expect_Ok (leaving p (dot :: y :: access_tokens items ++ rest))
                  dot _ DOT eq_refl Hdot).
    cbn beta iota. cbn [negb].
    by rewrite (handle_Ok _ _ _ _ _ _ Hrest).
Qed.

End GrammarTheory.

(** * Fuel is enough *)

Module FuelTheory.
Import token lexer ast parser fuel.

Lemma sound_weaken {A} ne n n' (Q Q' : A → bool) (m : M A) :
  sound false n Q m → (n' ≤ n)%nat → (∀ a, Q' a = true → Q a = true) →
  sound ne n' Q' m.
Proof.
  intros H Hn HQ p Hp _. destruct (H p ltac:(lia) ltac:(done)) as (H1 & H2 & H3).
  repeat split; try done. intros a Ha HQ'. eauto.
Qed.

Lemma sound_never {A} ne n n' (Q : A → bool) (m : M A) :
  sound false n Q m → (n' ≤ n)%nat → sound ne n' never m.
Proof. intros H Hn. eapply sound_weaken; [done|done|]. intros a Ha. done. Qed.

Lemma sound_ret {A} ne n (Q : A → bool) (a : A) :
  Q a = false → sound ne n Q (ret a).
Proof. intros HQ p _ _. simpl. repeat split; try done. intros a' [= <-]. congruence. Qed.

Lemma sound_fail {A} ne n (Q : A → bool) e : sound ne n Q (fail e : M A).
Proof. intros p _ _. simpl. repeat split; done. Qed.

Lemma sound_fatal {A} ne n (Q : A → bool) msg : sound ne n Q (fatal msg : M A).
Proof. intros p _ _. simpl. repeat split; done. Qed.

(** A step that has read a token leaves fewer tokens to what follows. *)
Lemma sound_bind {A B} ne n (Qm : A → bool) (Q : B → bool) (m : M A) (k : A → M B) :
  sound ne n Qm m →
  (∀ a n', Qm a = true → (n' < n)%nat → sound false n' never (k a)) →
  (∀ a, Qm a = false → sound false n Q (k a)) →
  sound ne n Q (bind m k).
Proof.
  intros Hm Hstrict Hsame p Hp Hne. unfold bind.
  destruct (Hm p Hp Hne) as (H1 & H2 & H3).
  destruct (m p) as [[a|e|msg|] p1] eqn:Hmp; simpl in *; try done.
  destruct (Qm a) eqn:HQ.
  - specialize (H3 a eq_refl HQ).
    destruct (Hstrict a (len p1) HQ ltac:(lia) p1 ltac:(lia) ltac:(done)) as (K1 & K2 & _).
    repeat split; [done|lia|]. intros. lia.
  - destruct (Hsame a HQ p1 ltac:(lia) ltac:(done)) as (K1 & K2 & K3).
    repeat split; [done|lia|]. intros b Hb HQb. specialize (K3 b Hb HQb). lia.
Qed.

Lemma sound_handle {A B} ne n (Qm : A → bool) (Q : B → bool) (m : M A)
    (onErr : error → M B) (k : A → M B) :
  sound ne n Qm m →
  (∀ e, sound false n never (onErr e)) →
  (∀ e p, ∀ b, (onErr e p).1 ≠ Ok b) →
  (∀ a n', Qm a = true → (n' < n)%nat → sound false n' never (k a)) →
  (∀ a, Qm a = false → sound false n Q (k a)) →
  sound ne n Q (handle m onErr k).
Proof.
  intros Hm Herr Hnot Hstrict Hsame p Hp Hne. unfold handle.
  destruct (Hm p Hp Hne) as (H1 & H2 & H3).
  destruct (m p) as [[a|e|msg|] p1] eqn:Hmp; simpl in *; try done.
  - destruct (Qm a) eqn:HQ.
    + specialize (H3 a eq_refl HQ).
      destruct (Hstrict a (len p1) HQ ltac:(lia) p1 ltac:(lia) ltac:(done)) as (K1 & K2 & _).
      repeat split; [done|lia|]. intros. lia.
    + destruct (Hsame a HQ p1 ltac:(lia) ltac:(done)) as (K1 & K2 & K3).
      repeat split; [done|lia|]. intros b Hb HQb. specialize (K3 b Hb HQb). lia.
  - destruct (Herr e p1 ltac:(lia) ltac:(done)) as (K1 & K2 & _).
    repeat split; [done|lia|]. intros b Hb. by apply Hnot in Hb.
Qed.

(** Steps that leave the lexer alone. *)
Lemma sound_bind_pure {A B} ne n (Q : B → bool) (m : M A) (k : A → M B) :
  (∀ p, (m p).1 ≠ OutOfFuel ∧ lex (m p).2 = lex p) →
  (∀ a, sound ne n Q (k a)) →
  sound ne n Q (bind m k).
Proof.
  intros Hpure Hk p Hp Hne. unfold bind.
  destruct (Hpure p) as [H1 H2].
  destruct (m p) as [[a|e|msg|] p1] eqn:Hmp; simpl in *; try done.
  - assert (len p1 = len p) as Hlen by (unfold len; by rewrite H2).
    destruct (Hk a p1 ltac:(lia) ltac:(intros; lia || (rewrite Hlen; auto)))
      as (K1 & K2 & K3).
    rewrite Hlen in *. done.
  - assert (len p1 = len p) as Hlen by (unfold len; by rewrite H2).
    repeat split; [done|lia|done].
  - assert (len p1 = len p) as Hlen by (unfold len; by rewrite H2).
    repeat split; [done|lia|done].
Qed.

Lemma nonEOF_nonempty p :
  Kind_ (lexer.Peek (lex p)) ≠ EOF → (1 ≤ len p)%nat.
Proof.
  unfold len, lexer.Peek. destruct (toks (lex p)); simpl; [done|lia].
Qed.

(** After [Peek], a token that is not [EOF] is a token of the stream. *)
Lemma sound_bind_Peek {B} ne n (Q : B → bool) (k : Token → M B) :
  (∀ tok, sound (ne || negb (token.eqb (Kind_ tok) EOF)) n Q (k tok)) →
  sound ne n Q (bind Peek k).
Proof.
  intros Hk p Hp Hne. unfold bind, Peek.
  apply (Hk (lexer.Peek (lex p)) p Hp).
  intros [->%Hne| Hk']%orb_true_iff; [done|].
  apply nonEOF_nonempty. intros Heq. rewrite Heq in Hk'. done.
Qed.

Lemma sound_bind_NextIs {B} ne n (Q : B → bool) K (k : bool → M B) :
  K ≠ EOF →
  sound true n Q (k true) → sound ne n Q (k false) →
  sound ne n Q (bind (NextIs K) k).
Proof.
  intros HK Ht Hf p Hp Hne. unfold bind, NextIs.
  destruct (lexer.NextIs (lex p) K) eqn:Hnext.
  - apply (Ht p Hp). intros _. apply nonEOF_nonempty.
    unfold lexer.NextIs in Hnext. intros Heq. rewrite Heq in Hnext.
    destruct K; done.
  - by apply Hf.
Qed.

Lemma len_skipped p : len (skipped p) = (len p - 1)%nat.
Proof.
  unfold len, skipped, lexer.Skip. simpl. destruct (toks (lex p)); simpl; lia.
Qed.

(** [Skip] on a stream known not to be empty reads a token. *)
Lemma sound_Skip {B} n (Q : B → bool) (k : M B) :
  (∀ n', (n' < n)%nat → sound false n' never k) →
  sound true n Q (Skip ;; k).
Proof.
  intros Hk p Hp Hne. specialize (Hne eq_refl). unfold bind, Skip.
  fold (skipped p). pose proof (len_skipped p) as Hlen.
  destruct (Hk (len (skipped p)) ltac:(lia) (skipped p) ltac:(lia) ltac:(done))
    as (K1 & K2 & _).
  repeat split; [done|lia|]. intros. lia.
Qed.

(** [expect] of a kind other than [EOF] reads a token when it succeeds. *)
Lemma sound_bind_expect {B} ne n (Q : B → bool) K (k : Token * bool → M B) :
  K ≠ EOF →
  (∀ tok, sound ne n Q (k (tok, false))) →
  (∀ tok n', (n' < n)%nat → sound false n' never (k (tok, true))) →
  sound ne n Q (bind (expect K) k).
Proof.
  intros HK Hf Ht p Hp Hne.
  assert (Hexp : expect K p =
            if token.eqb (Kind_ (lexer.Peek (lex p))) K
            then (Ok (lexer.Peek (lex p), true), skipped p)
            else (Ok (lexer.Peek (lex p), false), p)).
  { unfold expect, bind, Peek, Skip, ret, skipped.
    by destruct (token.eqb (Kind_ (lexer.Peek (lex p))) K). }
  unfold bind. rewrite Hexp.
  destruct (token.eqb (Kind_ (lexer.Peek (lex p))) K) eqn:Heq.
  - assert (1 ≤ len p)%nat as Hone.
    { apply nonEOF_nonempty. intros Hk. rewrite Hk in Heq. destruct K; done. }
    pose proof (len_skipped p) as Hlen.
    assert (len (skipped p) < n)%nat as Hlt by lia.
    destruct (Ht (lexer.Peek (lex p)) _ Hlt (skipped p)) as (K1 & K2 & _);
      [lia|done|].
    repeat split; [done|lia|]. intros. lia.
  - by apply Hf.
Qed.

(** [parseExprType] gives no token back, and reads one when it succeeds. *)
Lemma parseExprType_from_le ts :
  (List.length (parseExprType_from ts).2 ≤ List.length ts)%nat.
Proof.
  induction ts as [|tok rest IH]; simpl; [done|].
  destruct (Kind_ tok); simpl; try lia.
  destruct (parseExprType_from rest) as [[ty| | |] ts']; simpl in *; lia.
Qed.

Lemma sound_parseExprType ne n : sound ne n always parseExprType.
Proof.
  intros p _ _. unfold parseExprType, len.
  pose proof (parseExprType_from_le (toks (lex p))) as Hle.
  destruct (parseExprType_from (toks (lex p))) as [r ts'] eqn:Hr. simpl in *.
  repeat split; [|done|].
  - destruct (ParserTheory.parseExprType_from_returns (toks (lex p)))
      as [(ty & ts'' & H)|(ts'' & H)]; rewrite H in Hr; by simplify_eq.
  - intros ty -> _. by eapply ParserTheory.parseExprType_from_consumes.
Qed.

(** ** The expression parser *)

Lemma sound_ne {A} ne n (Q : A → bool) (m : M A) :
  sound false n Q m → sound ne n Q m.
Proof. intros H. eapply sound_weaken; eauto. Qed.

Ltac kinds := cbn [orb negb andb token.eqb token.code Nat.eqb
                   LOGICAL COMPARASION TERM FACTOR UNARY LITERAL_KIND
                   always never isSome] in *.

Ltac fuel_S fuel :=
  destruct fuel as [|fuel]; [unfold enough in *; lia|].

(** One step through the body of a parsing function. *)
Ltac step :=
  lazymatch goal with
  | |- sound _ _ _ (bind Peek _) =>
      apply sound_bind_Peek; intros ?tok; rewrite ?orb_true_l
  | |- sound _ _ _ (bind Peek1 _) =>
      apply sound_bind_pure; [intros ?; split; [done|reflexivity]|intros ?next]
  | |- sound _ _ _ (bind (NextIsAny _) _) =>
      apply sound_bind_pure; [intros ?; split; [done|reflexivity]|intros ?atEnd]
  | |- sound _ _ _ (bind (ret _) _) =>
      apply sound_bind_pure; [intros ?; split; [done|reflexivity]|intros _]
  | |- sound _ _ _ (bind (ReportAndSave _) _) =>
      apply sound_bind_pure; [intros ?; split; [done|reflexivity]|intros _]
  | |- sound _ _ _ (bind (NextIs _) _) =>
      apply sound_bind_NextIs; [discriminate| |]
  | |- sound true _ _ (bind Skip _) =>
      apply sound_Skip; intros ?n' ?Hn'
  | |- sound _ _ _ (bind (expect _) _) =>
      apply sound_bind_expect;
        [discriminate|intros ?tok|intros ?tok ?n' ?Hn']; cbn beta iota; kinds
  | |- sound _ _ _ (ret _) => apply sound_ret; reflexivity
  | |- sound _ _ _ (fail _) => apply sound_fail
  | |- sound _ _ _ (fatal _) => apply sound_fatal
  | |- sound _ _ _ (match Kind_ ?t with _ => _ end) =>
      destruct (Kind_ t) eqn:?; kinds
  | |- sound _ _ _ (if ?f (Kind_ ?t) then _ else _) =>
      destruct (Kind_ t) eqn:?; kinds
  | |- sound _ _ _ (if ?b then _ else _) => destruct b eqn:?; kinds
  end.

(** A call of a function whose soundness is among the hypotheses. *)
Ltac known :=
  unfold enough in *;
  match goal with
  | H : ∀ fuel, _ → sound false _ _ (?F fuel) |- sound false _ _ (?F _) =>
      eapply H; lia
  | H : ∀ fuel x, _ → sound false _ _ (?F fuel x) |- sound false _ _ (?F _ _) =>
      eapply H; lia
  | H : ∀ fuel x y, _ → sound false _ _ (?F fuel x y) |- sound false _ _ (?F _ _ _) =>
      eapply H; lia
  end.

Ltac tail_call := eapply sound_weaken; [known|lia|by (intros ?; kinds)].

Ltac bind_call :=
  eapply sound_bind;
    [apply sound_ne; known
    |intros ?a ?n' ?HQ ?Hn'; kinds; try discriminate
    |intros ?a ?HQ; kinds; try discriminate].

Section expressions.
Variable n : nat.
Hypothesis IH : ∀ n', (n' < n)%nat → ExprSound n'.

Lemma step_parseFieldAccess fuel :
  enough 1 n fuel → sound false n always (parseFieldAccess fuel).
Proof.
  intros Hfuel. fuel_S fuel. cbn [parseFieldAccess].
  step; [step|]. step; [step|].
  destruct (IH n'0 ltac:(lia)).
  eapply sound_handle.
  - apply sound_ne. known.
  - intros e. step.
  - intros e p b. done.
  - intros a n'' _ Hn''. step.
  - intros a HQ. discriminate HQ.
Qed.

Lemma step_parseFnCall fuel :
  enough 1 n fuel → sound false n always (parseFnCall fuel).
Proof.
  intros Hfuel. fuel_S fuel. cbn [parseFnCall].
  step; [step|]. step; [step|].
  destruct (IH n'0 ltac:(lia)).
  eapply sound_bind; [apply sound_ne; known| |].
  - intros a n'' HQ _. discriminate HQ.
  - intros a _. eapply sound_weaken with (n := n'0) (Q := never); [|lia|done].
    step; step.
Qed.

Lemma step_parsePrimary fuel :
  enough 2 n fuel → sound false n always (parsePrimary fuel).
Proof.
  intros Hfuel. pose proof step_parseFieldAccess. pose proof step_parseFnCall.
  fuel_S fuel. cbn [parsePrimary].
  step. step; try (repeat step; fail).
  - (* identifier *)
    step. step; try (step; step); bind_call; step.
  - (* parenthesis *)
    step. destruct (IH n' Hn').
    eapply sound_bind; [apply sound_ne; known| |].
    + intros a n'' _ Hn''. step; step.
    + intros a HQ. discriminate HQ.
Qed.

Lemma step_parseUnary fuel :
  enough 3 n fuel → sound false n always (parseUnary fuel).
Proof.
  intros Hfuel. pose proof step_parsePrimary.
  fuel_S fuel. cbn [parseUnary].
  step. step; try tail_call.
  - step. destruct (IH n' Hn'). bind_call. step.
  - step. destruct (IH n' Hn'). bind_call. step.
Qed.

(** The four binary levels have the same shape. *)
Ltac binary_loop :=
  step; step; try (step; fail);
  step;
  match goal with
  | Hn : (?n' < n)%nat |- _ =>
      destruct (IH n' Hn); bind_call;
      eapply sound_weaken; [known|lia|done]
  end.

Lemma step_parseFactor_loop fuel lhs :
  enough 1 n fuel → sound false n never (parseFactor_loop fuel lhs).
Proof. intros Hfuel. fuel_S fuel. cbn [parseFactor_loop]. binary_loop. Qed.

Lemma step_parseFactor fuel :
  enough 4 n fuel → sound false n always (parseFactor fuel).
Proof.
  intros Hfuel. pose proof step_parseUnary. pose proof step_parseFactor_loop.
  fuel_S fuel. cbn [parseFactor]. bind_call.
  destruct (IH n' Hn'). tail_call.
Qed.

Lemma step_parseTerm_loop fuel lhs :
  enough 1 n fuel → sound false n never (parseTerm_loop fuel lhs).
Proof. intros Hfuel. fuel_S fuel. cbn [parseTerm_loop]. binary_loop. Qed.

Lemma step_parseTerm fuel :
  enough 5 n fuel → sound false n always (parseTerm fuel).
Proof.
  intros Hfuel. pose proof step_parseFactor. pose proof step_parseTerm_loop.
  fuel_S fuel. cbn [parseTerm]. bind_call.
  destruct (IH n' Hn'). tail_call.
Qed.

Lemma step_parseComparasion_loop fuel lhs :
  enough 1 n fuel → sound false n never (parseComparasion_loop fuel lhs).
Proof. intros Hfuel. fuel_S fuel. cbn [parseComparasion_loop]. binary_loop. Qed.

Lemma step_parseComparasion fuel :
  enough 6 n fuel → sound false n always (parseComparasion fuel).
Proof.
  intros Hfuel. pose proof step_parseTerm. pose proof step_parseComparasion_loop.
  fuel_S fuel. cbn [parseComparasion]. bind_call.
  destruct (IH n' Hn'). tail_call.
Qed.

Lemma step_parseLogical_loop fuel lhs :
  enough 1 n fuel → sound false n never (parseLogical_loop fuel lhs).
Proof. intros Hfuel. fuel_S fuel. cbn [parseLogical_loop]. binary_loop. Qed.

Lemma step_parseLogical fuel :
  enough 7 n fuel → sound false n always (parseLogical fuel).
Proof.
  intros Hfuel. pose proof step_parseComparasion. pose proof step_parseLogical_loop.
  fuel_S fuel. cbn [parseLogical]. bind_call.
  destruct (IH n' Hn'). tail_call.
Qed.

Lemma step_parseExpr fuel :
  enough 8 n fuel → sound false n always (parseExpr fuel).
Proof.
  intros Hfuel. pose proof step_parseLogical.
  fuel_S fuel. cbn [parseExpr]. tail_call.
Qed.

Lemma step_parseExprList_loop fuel ends exprs :
  enough 9 n fuel → sound false n never (parseExprList_loop fuel ends exprs).
Proof.
  intros Hfuel. pose proof step_parseExpr.
  fuel_S fuel. cbn [parseExprList_loop].
  step. step; [step|]. bind_call.
  destruct (IH n' Hn').
  step; [step|]; tail_call.
Qed.

Lemma step_parseExprList fuel ends :
  enough 10 n fuel → sound false n never (parseExprList fuel ends).
Proof.
  intros Hfuel. pose proof step_parseExprList_loop.
  fuel_S fuel. cbn [parseExprList]. tail_call.
Qed.

End expressions.

(** Whatever the number of tokens, the expression parser is sound. *)
Lemma ExprSound_all n : ExprSound n.
Proof.
  induction (lt_wf n) as [n _ IH].
  constructor; intros.
  - by apply step_parseFieldAccess.
  - by apply step_parseFnCall.
  - by apply step_parsePrimary.
  - by apply step_parseUnary.
  - by apply step_parseFactor_loop.
  - by apply step_parseFactor.
  - by apply step_parseTerm_loop.
  - by apply step_parseTerm.
  - by apply step_parseComparasion_loop.
  - by apply step_parseComparasion.
  - by apply step_parseLogical_loop.
  - by apply step_parseLogical.
  - by apply step_parseExpr.
  - by apply step_parseExprList_loop.
  - by apply step_parseExprList.
Qed.

(** ** Variable statements *)

(** The facts about the expression parser, for the size the goal is about. *)
Ltac expr_facts :=
  lazymatch goal with
  | |- sound _ ?m _ _ => destruct (ExprSound_all m)
  end.

(** A test that only a token of the stream passes. *)
Lemma sound_if_kind {A} ne n (Q : A → bool) (tok : Token) (b : bool) (m1 m2 : M A) :
  (b = true → Kind_ tok ≠ EOF) →
  sound true n Q m1 →
  sound (ne || negb (token.eqb (Kind_ tok) EOF)) n Q m2 →
  sound (ne || negb (token.eqb (Kind_ tok) EOF)) n Q (if b then m1 else m2).
Proof.
  intros Hb H1 H2. destruct b; [|done].
  assert (token.eqb (Kind_ tok) EOF = false) as ->.
  { apply ParserTheory.Kind_eqb_neq. by apply Hb. }
  by rewrite orb_true_r.
Qed.

Ltac if_kind :=
  apply sound_if_kind;
    [let H := fresh in let Heq := fresh in
     intros H Heq; rewrite Heq in H; discriminate H| |].

Lemma sound_parseVar_loop n : ∀ fuel variables,
  enough 1 n fuel → sound false n always (parseVar_loop fuel variables).
Proof.
  induction (lt_wf n) as [n _ IH]. intros fuel variables Hfuel.
  fuel_S fuel. cbn [parseVar_loop].
  step; [step|].
  assert (Hrec : ∀ ne m vs, (m ≤ n')%nat → sound ne m never (parseVar_loop fuel vs)).
  { intros ne m vs Hm.
    eapply sound_weaken; [apply (IH m); unfold enough in *; lia|lia|done]. }
  step. if_kind; [step; step|]. if_kind; [step; apply Hrec; lia|].
  eapply sound_bind; [apply sound_parseExprType| |].
  - intros ty n'' _ Hn''.
    step. if_kind; [step; step|]. if_kind; [step; apply Hrec; lia|].
    apply Hrec; lia.
  - intros ty HQ. discriminate HQ.
Qed.

Lemma sound_parseVar n fuel :
  enough 10 n fuel → sound false n always (parseVar fuel).
Proof.
  intros Hfuel. unfold parseVar.
  eapply sound_bind;
    [apply sound_parseVar_loop; unfold enough in *; lia| |].
  - intros [variables isDecl] n' _ Hn'.
    expr_facts. eapply sound_bind; [apply sound_ne; known| |].
    + intros a n'' HQ _. discriminate HQ.
    + intros exprs _. unfold parseVar_finish.
      destruct (negb _); [step|]. destruct (zip_with _ _ _) as [|? [|? ?]]; step.
  - intros a HQ. discriminate HQ.
Qed.

Lemma sound_ParseIdStmt n fuel :
  enough 10 n fuel → sound false n always (ParseIdStmt fuel).
Proof.
  intros Hfuel. pose proof (sound_parseVar n). unfold ParseIdStmt.
  expr_facts.
  step. step; try tail_call; bind_call; step.
Qed.

(** ** Statements *)

Section statements.
Variable n : nat.
Hypothesis IH : ∀ n', (n' < n)%nat → StmtSound n'.

(** A call on fewer tokens: of the expression parser, of [parseVar], or of
    the statement parser. *)
Ltac smaller :=
  lazymatch goal with
  | Hn : (?n' < n)%nat |- sound _ ?m _ _ =>
      let Hm := fresh in
      assert (Hm : (m < n)%nat) by lia;
      destruct (ExprSound_all m); destruct (IH m Hm);
      pose proof (sound_parseVar m)
  end.

Ltac next_call :=
  smaller;
  eapply sound_bind;
    [apply sound_ne; known
    |intros ?a ?n' ?HQ ?Hn'; kinds; try discriminate
    |intros ?a ?HQ; kinds; try discriminate].

Lemma step_parseWhileLoop fuel :
  enough 1 n fuel → sound false n always (parseWhileLoop fuel).
Proof.
  intros Hfuel. fuel_S fuel. cbn [parseWhileLoop].
  step; [step|]. next_call. next_call. step.
Qed.

Lemma step_parseForLoop fuel :
  enough 1 n fuel → sound false n always (parseForLoop fuel).
Proof.
  intros Hfuel. fuel_S fuel. cbn [parseForLoop].
  step; [step|]. step; [step|].
  next_call. step; [step|]. next_call. step; [step|].
  next_call. step; [step|]. next_call. step.
Qed.

Lemma step_parseIfCond fuel :
  enough 1 n fuel → sound false n always (parseIfCond fuel).
Proof.
  intros Hfuel. fuel_S fuel. cbn [parseIfCond].
  step; [step|]. next_call. next_call. step.
Qed.

Lemma step_parseElseCond fuel :
  enough 1 n fuel → sound false n never (parseElseCond fuel).
Proof.
  intros Hfuel. fuel_S fuel. cbn [parseElseCond].
  step; [step|]. next_call. step.
Qed.

Lemma step_parseElifConds fuel elifConds :
  enough 1 n fuel → sound false n never (parseElifConds fuel elifConds).
Proof.
  intros Hfuel. fuel_S fuel. cbn [parseElifConds].
  step; [step|]. next_call. next_call. smaller. tail_call.
Qed.

Lemma step_parseCondStmt fuel :
  enough 2 n fuel → sound false n always (parseCondStmt fuel).
Proof.
  intros Hfuel. pose proof step_parseIfCond.
  fuel_S fuel. cbn [parseCondStmt].
  bind_call. next_call. next_call. step.
Qed.

Lemma step_parseStmt fuel :
  enough 11 n fuel → sound false n isSome (parseStmt fuel).
Proof.
  intros Hfuel. pose proof step_parseCondStmt. pose proof step_parseForLoop.
  pose proof step_parseWhileLoop. pose proof (sound_ParseIdStmt n).
  fuel_S fuel. cbn [parseStmt].
  step. step; try (step; fail).
  - (* identifier *)
    bind_call. step; repeat step.
  - (* return *)
    step. smaller. step; [step; step|].
    eapply sound_handle; [apply sound_ne; known| | | |].
    + intros e. repeat step.
    + intros e p b. done.
    + intros a n'' _ Hn''. step; repeat step.
    + intros a HQ. discriminate HQ.
  - bind_call. step.
  - bind_call. step.
  - bind_call. step.
Qed.

Lemma step_parseBlock fuel :
  enough 1 n fuel → sound false n always (parseBlock fuel).
Proof.
  intros Hfuel. fuel_S fuel. cbn [parseBlock].
  step; [step|]. next_call. step; repeat step.
Qed.

Lemma step_parseBlock_loop fuel statements :
  enough 12 n fuel → sound false n never (parseBlock_loop fuel statements).
Proof.
  intros Hfuel. pose proof step_parseStmt.
  fuel_S fuel. cbn [parseBlock_loop].
  step. step; [step|]. bind_call.
  - destruct a; [|discriminate]. smaller. tail_call.
  - destruct a; [discriminate|]. step.
Qed.

End statements.

Lemma StmtSound_all n : StmtSound n.
Proof.
  induction (lt_wf n) as [n _ IH].
  constructor; intros.
  - by apply step_parseWhileLoop.
  - by apply step_parseForLoop.
  - by apply step_parseIfCond.
  - by apply step_parseElseCond.
  - by apply step_parseElifConds.
  - by apply step_parseCondStmt.
  - by apply step_parseStmt.
  - by apply step_parseBlock.
  - by apply step_parseBlock_loop.
Qed.

(** ** Declarations *)

Ltac stmt_facts :=
  lazymatch goal with
  | |- sound _ ?m _ _ => destruct (StmtSound_all m)
  end.

Lemma sound_parseFunctionParams_loop n : ∀ fuel params isVariadic,
  enough 1 n fuel →
  sound false n never (parseFunctionParams_loop fuel params isVariadic).
Proof.
  induction (lt_wf n) as [n _ IH]. intros fuel params isVariadic Hfuel.
  fuel_S fuel. cbn [parseFunctionParams_loop].
  step; [step|]. step.
  - step. step. step; repeat step.
  - step; [repeat step|].
    assert (Hrec : ∀ ne m ps v, (m ≤ n')%nat →
              sound ne m never (parseFunctionParams_loop fuel ps v)).
    { intros ne m ps v Hm.
      eapply sound_weaken; [apply (IH m); unfold enough in *; lia|lia|done]. }
    eapply sound_handle; [apply sound_parseExprType| | | |].
    + intros e. repeat step.
    + intros e p b. done.
    + intros ty m _ Hm. step; [step|]; apply Hrec; lia.
    + intros ty HQ. discriminate HQ.
Qed.

Lemma sound_parseFunctionParams n fuel :
  enough 1 n fuel → sound false n always (parseFunctionParams fuel).
Proof.
  intros Hfuel. unfold parseFunctionParams.
  step; [repeat step|].
  eapply sound_bind;
    [apply sound_parseFunctionParams_loop; unfold enough in *; lia| |].
  - intros a m HQ _. discriminate HQ.
  - intros [params isVariadic] _. step; repeat step.
Qed.

Lemma sound_parseReturnType n isPrototype :
  sound false n never (parseReturnType isPrototype).
Proof.
  unfold parseReturnType.
  apply sound_bind_pure; [intros ?; split; [done|reflexivity]|intros semicolon].
  apply sound_bind_pure; [intros ?; split; [done|reflexivity]|intros openCurly].
  destruct (_ || _); [step|].
  eapply sound_handle; [apply sound_parseExprType| | | |].
  - intros e. repeat step.
  - intros e p b. done.
  - intros ty m _ Hm. step.
  - intros ty HQ. discriminate HQ.
Qed.

Lemma sound_parsePrototype n fuel :
  enough 1 n fuel → sound false n always (parsePrototype fuel).
Proof.
  intros Hfuel. unfold parsePrototype.
  step; [repeat step|]. step; [repeat step|].
  eapply sound_bind;
    [apply sound_parseFunctionParams; unfold enough in *; lia| |].
  - intros params m _ Hm.
    eapply sound_bind; [apply sound_parseReturnType| |].
    + intros a m' HQ _. discriminate HQ.
    + intros returnType _. step; repeat step.
  - intros a HQ. discriminate HQ.
Qed.

Lemma sound_parseExternDecl_loop n : ∀ fuel prototypes,
  enough 2 n fuel → sound false n never (parseExternDecl_loop fuel prototypes).
Proof.
  induction (lt_wf n) as [n _ IH]. intros fuel prototypes Hfuel.
  fuel_S fuel. cbn [parseExternDecl_loop].
  step; [step|].
  eapply sound_bind;
    [apply sound_parsePrototype; unfold enough in *; lia| |].
  - intros proto m _ Hm.
    eapply sound_weaken; [apply (IH m); unfold enough in *; lia|lia|done].
  - intros a HQ. discriminate HQ.
Qed.

Lemma sound_parseExternDecl n fuel :
  enough 1 n fuel → sound false n always (parseExternDecl fuel).
Proof.
  intros Hfuel. unfold parseExternDecl.
  step; [repeat step|]. step; [repeat step|]. step; [repeat step|].
  eapply sound_bind;
    [apply sound_parseExternDecl_loop; unfold enough in *; lia| |].
  - intros a m HQ _. discriminate HQ.
  - intros prototypes _. step; repeat step.
Qed.

Lemma sound_parseFnDecl n fuel :
  enough 1 n fuel → sound false n always (parseFnDecl fuel).
Proof.
  intros Hfuel. unfold parseFnDecl.
  step; [repeat step|]. step; [repeat step|].
  eapply sound_bind;
    [apply sound_parseFunctionParams; unfold enough in *; lia| |].
  2: { intros a HQ. discriminate HQ. }
  intros params m _ Hm.
  eapply sound_bind; [apply sound_parseReturnType| |].
  { intros a m' HQ _. discriminate HQ. }
  intros returnType _.
  stmt_facts. eapply sound_bind; [apply sound_ne; known| |].
  2: { intros a HQ. discriminate HQ. }
  intros block m' _ Hm'.
  apply sound_bind_pure; [intros ?; split; [done|reflexivity]|intros moduleScope].
  apply sound_bind_pure; [intros ?; split; [done|reflexivity]|intros fnScope].
  apply sound_bind_pure.
  { intros p. unfold ScopeInsert. destruct moduleScope as [s|]; [|done].
    destruct (ast.Insert _ _ _ _) as [[err σ]|]; done. }
  intros [err|]; [|step].
  destruct (same _ _); repeat step.
Qed.

Lemma sound_next n fuel :
  enough 1 n fuel → sound false n isSome (next fuel).
Proof.
  intros Hfuel. unfold next.
  pose proof (sound_parseFnDecl n). pose proof (sound_parseExternDecl n).
  step. step; try (repeat step; fail); bind_call; step.
Qed.

Lemma sound_parseFileNodes_loop n : ∀ fuel nodes,
  enough 2 n fuel → sound false n never (parseFileNodes_loop fuel nodes).
Proof.
  induction (lt_wf n) as [n _ IH]. intros fuel nodes Hfuel.
  fuel_S fuel. cbn [parseFileNodes_loop].
  eapply sound_bind; [apply sound_next; unfold enough in *; lia| |].
  - intros [node|] m HQ Hm; [|discriminate].
    eapply sound_weaken; [apply (IH m); unfold enough in *; lia|lia|done].
  - intros [node|] HQ; [discriminate|]. step.
Qed.

(** A file is parsed with the fuel [fuel_for] grants it. *)
Lemma parseFile_fuel lex moduleScope p :
  (parseFile (fuel_for lex) lex moduleScope p).1 ≠ OutOfFuel.
Proof.
  unfold parseFile, parseFileNodes, bind at 1, NewScope.
  destruct (ast.NewScope _ _) as [fileScope σ]. unfold bind at 1.
  set (p1 := set_moduleScope (set_lex (set_heap p σ) lex) (Some moduleScope)).
  destruct (sound_parseFileNodes_loop (len p1) (fuel_for lex) [] ) with (p := p1)
    as (Hfuel & _); [|done|done|].
  - unfold enough, fuel_for, len, p1. simpl. lia.
  - unfold bind. destruct (parseFileNodes_loop _ _ _) as [[nodes| | |] p2]; done.
Qed.

(** ** The module tree *)

Section Walk.
Context (quote : string → string).
Local Abbreviation buildModuleTree := (parser.buildModuleTree quote).
Local Abbreviation ParseModuleDir := (parser.ParseModuleDir quote).

Lemma processModuleEntries_loop_fuel path handler entries :
  Forall (λ entry, ∀ fullPath module p,
            (handler entry fullPath module p).1.1 ≠ OutOfFuel) entries →
  ∀ module p,
    (processModuleEntries_loop path handler entries module p).1.1 ≠ OutOfFuel.
Proof.
  induction 1 as [|entry entries Hentry _ IH]; intros module p; simpl; [done|].
  specialize (Hentry (Join path (Entry_Name entry)) module p).
  destruct (handler entry _ module p) as [[[[]| | |] module'] p']; simpl in *;
    done.
Qed.

Lemma buildModuleTree_fuel read :
  ∀ path module p, (buildModuleTree path read module p).1.1 ≠ OutOfFuel.
Proof.
  induction read as [err|entries IH] using ModuleTreeTheory.ReadDir_tree_ind;
    intros path module p; rewrite ModuleTreeTheory.buildModuleTree_unfold; simpl;
    [done|].
  apply processModuleEntries_loop_fuel.
  eapply Forall_impl; [exact IH|]. clear.
  intros [name read|name source] Hread fullPath module p; simpl.
  - unfold ast.NewScope. simpl.
    specialize (Hread fullPath
      (mkModule "" [] [] (List.length (heap p)) false)
      (set_heap p (heap p ++ [scope.mkScope (Some (Module_Scope module)) ∅]))).
    destruct (buildModuleTree _ _ _ _) as [[r m'] p']. done.
  - destruct (String.eqb _ _); [|done]. destruct source as [err|src]; [done|].
    pose proof (parseFile_fuel
      (mkLexer (Base (Dir fullPath)) fullPath src) (Module_Scope module) p) as Hfuel.
    destruct (parseFile _ _ _ _) as [[file| | |] p']; done.
Qed.

(** The embedding of [ParseModuleDir] never stops for want of fuel: the
    caller gets what the Go function returns, or the process has ended. *)
Theorem ParseModuleDir_fuel path read p :
  (ParseModuleDir path read p).1 ≠ NoFuel.
Proof.
  unfold parser.ParseModuleDir. destruct (ast.NewScope None (heap p)) as [universe σ].
  pose proof (buildModuleTree_fuel read path
                (mkModule "" [] [] universe true) (set_heap p σ)) as Hfuel.
  destruct (buildModuleTree _ _ _ _) as [[[[]| | |] m'] p']; done.
Qed.

End Walk.

(** With fuel for sixteen calls per token and eight more, [parseExpr] runs
    to its end, and likewise the other entry points. *)
Lemma parseExpr_fuel fuel p :
  (16 * len p + 8 ≤ fuel)%nat → (parseExpr fuel p).1 ≠ OutOfFuel.
Proof.
  intros Hfuel. destruct (ExprSound_all (len p)) as [_ _ _ _ _ _ _ _ _ _ _ _ H _ _].
  by destruct (H fuel Hfuel p).
Qed.

Lemma ParseIdStmt_fuel fuel p :
  (16 * len p + 10 ≤ fuel)%nat → (ParseIdStmt fuel p).1 ≠ OutOfFuel.
Proof. intros Hfuel. by destruct (sound_ParseIdStmt (len p) fuel Hfuel p). Qed.

Lemma parseFunctionParams_fuel fuel p :
  (16 * len p + 1 ≤ fuel)%nat → (parseFunctionParams fuel p).1 ≠ OutOfFuel.
Proof. intros Hfuel. by destruct (sound_parseFunctionParams (len p) fuel Hfuel p). Qed.

Lemma parseFnDecl_fuel fuel p :
  (16 * len p + 1 ≤ fuel)%nat → (parseFnDecl fuel p).1 ≠ OutOfFuel.
Proof. intros Hfuel. by destruct (sound_parseFnDecl (len p) fuel Hfuel p). Qed.

End FuelTheory.

(** * Builds that do not go through *)

Module AbortTheory.
Import token lexer ast parser samples.
Import ModuleTreeTheory FuelTheory.

Section Walk.
Context (quote : string → string).
Local Abbreviation buildModuleTree := (parser.buildModuleTree quote).
Local Abbreviation buildModuleTree_handler := (parser.buildModuleTree_handler quote).
Local Abbreviation walk_fails := (parser.walk_fails quote).
Local Abbreviation walk_exits := (parser.walk_exits quote).
Local Abbreviation ParseModuleDir := (parser.ParseModuleDir quote).

(** A failure met after an entry that went through is a failure of the
    walk that starts with that entry. *)
Lemma walk_fails_cons path entry entries module p module1 p1 err :
  buildModuleTree_handler entry (Join path (Entry_Name entry)) module p
  = (Ok tt, module1, p1) →
  walk_fails path (Entries entries) module1 p1 err →
  walk_fails path (Entries (entry :: entries)) module p err.
Proof.
  intros Hentry H.
  inversion H as [|? before name read after ? ? module2 p2 ? Hbefore Hsub
                  |? before name err' after ? ? module2 p2 Hbefore Hext
                  |? before name src after ? ? module2 p2 ? p' Hbefore Hext Hparse];
    subst; change (entry :: before ++ ?x) with ((entry :: before) ++ x).
  - eapply fails_subdir; [|exact Hsub]. simpl. by rewrite Hentry.
  - eapply fails_open; [|exact Hext]. simpl. by rewrite Hentry.
  - eapply fails_parse; [|exact Hext|exact Hparse]. simpl. by rewrite Hentry.
Qed.

Lemma walk_exits_cons path entry entries module p module1 p1 msg :
  buildModuleTree_handler entry (Join path (Entry_Name entry)) module p
  = (Ok tt, module1, p1) →
  walk_exits path (Entries entries) module1 p1 msg →
  walk_exits path (Entries (entry :: entries)) module p msg.
Proof.
  intros Hentry H.
  inversion H as [? before name read after ? ? module2 p2 ? Hbefore Hsub
                 |? before name src after ? ? module2 p2 ? p' Hbefore Hext Hparse];
    subst; change (entry :: before ++ ?x) with ((entry :: before) ++ x).
  - eapply exits_subdir; [|exact Hsub]. simpl. by rewrite Hentry.
  - eapply exits_parse; [|exact Hext|exact Hparse]. simpl. by rewrite Hentry.
Qed.

(** Every error the walk returns is a failure it has met. *)
Lemma buildModuleTree_Err read : ∀ path module p err module' p',
  buildModuleTree path read module p = (Err err, module', p') →
  walk_fails path read module p err.
Proof.
  induction read as [err0|entries IH] using ReadDir_tree_ind;
    intros path module p err module' p'; rewrite buildModuleTree_unfold; simpl.
  { intros [= <- <- <-]. constructor. }
  revert module p.
  induction IH as [|entry entries Hentry _ IHentries]; intros module p H; simpl in H;
    [done|].
  destruct (buildModuleTree_handler entry (Join path (Entry_Name entry)) module p)
    as [[[[]|e|msg|] module1] p1] eqn:Hh; try done.
  - eapply walk_fails_cons; [exact Hh|]. by apply IHentries.
  - injection H as -> -> ->.
    destruct entry as [name read|name [err0|src]]; simpl in Hh.
    + unfold ast.NewScope in Hh. simpl in Hh.
      destruct (buildModuleTree (Join path name) read _ _) as [[r child'] p1] eqn:Hsub.
      injection Hh as -> <- <-.
      apply (fails_subdir quote path [] name read entries module p module p err);
        [reflexivity|]. eapply Hentry. exact Hsub.
    + destruct (String.eqb (Ext name) ".t") eqn:Hext; [|done].
      injection Hh as <- <- <-. apply String.eqb_eq in Hext.
      by apply (fails_open quote path [] name err0 entries module p module p).
    + destruct (String.eqb (Ext name) ".t") eqn:Hext; [|done].
      apply String.eqb_eq in Hext.
      destruct (parseFile _ _ _ _) as [[file|e| |] p1] eqn:Hparse; try done.
      injection Hh as <- <- <-.
      by apply (fails_parse quote path [] name src entries module p module p e p1).
Qed.

(** Every end of the process is a fatal parse the walk has met. *)
Lemma buildModuleTree_Exit read : ∀ path module p msg module' p',
  buildModuleTree path read module p = (Exit msg, module', p') →
  walk_exits path read module p msg.
Proof.
  induction read as [err0|entries IH] using ReadDir_tree_ind;
    intros path module p msg module' p'; rewrite buildModuleTree_unfold; simpl; [done|].
  revert module p.
  induction IH as [|entry entries Hentry _ IHentries]; intros module p H; simpl in H;
    [done|].
  destruct (buildModuleTree_handler entry (Join path (Entry_Name entry)) module p)
    as [[[[]|e|msg0|] module1] p1] eqn:Hh; try done.
  - eapply walk_exits_cons; [exact Hh|]. by apply IHentries.
  - injection H as -> -> ->.
    destruct entry as [name read|name [err0|src]]; simpl in Hh.
    + unfold ast.NewScope in Hh. simpl in Hh.
      destruct (buildModuleTree (Join path name) read _ _) as [[r child'] p1] eqn:Hsub.
      injection Hh as -> <- <-.
      apply (exits_subdir quote path [] name read entries module p module p msg);
        [reflexivity|]. eapply Hentry. exact Hsub.
    + by destruct (String.eqb (Ext name) ".t").
    + destruct (String.eqb (Ext name) ".t") eqn:Hext; [|done].
      apply String.eqb_eq in Hext.
      destruct (parseFile _ _ _ _) as [[file|e|msg0|] p1] eqn:Hparse; try done.
      injection Hh as <- <- <-.
      by apply (exits_parse quote path [] name src entries module p module p msg0 p1).
Qed.

(** C6, as amended.  When the walk of the module tree fails, be it on a
    directory that cannot be read, a source file that cannot be opened or
    a source file whose parse returns an error, at any depth,
    [ParseModuleDir] returns that error and a nil program, and it returns
    an error in no other case.  When the walk meets a source file whose
    parse ends in [log.Fatal], the process ends there and [ParseModuleDir]
    returns nothing, and it returns nothing in no other case.  Whatever
    the tree, a program is returned exactly when the error is nil. *)
Theorem ParseModuleDir_aborts path read p :
  (∀ err, walk_fails path read (rootOf p) (withUniverse p) err
          ↔ ∃ p', ParseModuleDir path read p = (Returns None (Some err), p'))
  ∧ (∀ msg, walk_exits path read (rootOf p) (withUniverse p) msg
            ↔ ∃ p', ParseModuleDir path read p = (Exits msg, p'))
  ∧ (∀ program e, (ParseModuleDir path read p).1 = Returns program e →
       (is_Some program ↔ e = None))
  ∧ (ParseModuleDir path read p).1 ≠ NoFuel.
Proof.
  split; [|split; [|split]].
  - intros err. split.
    + intros Hfails.
      apply walk_fails_buildModuleTree in Hfails as (module' & p' & Hbuild).
      unfold parser.ParseModuleDir. unfold rootOf, withUniverse in Hbuild.
      destruct (ast.NewScope None (heap p)) as [universe σ]. simpl in Hbuild.
      rewrite Hbuild. eauto.
    + intros [p' H]. unfold parser.ParseModuleDir in H. unfold rootOf, withUniverse.
      destruct (ast.NewScope None (heap p)) as [universe σ]. simpl.
      destruct (buildModuleTree _ _ _ _) as [[[[]| | |] m'] p''] eqn:Hbuild;
        simplify_eq. by eapply buildModuleTree_Err.
  - intros msg. split.
    + intros Hexits.
      apply walk_exits_buildModuleTree in Hexits as (module' & p' & Hbuild).
      unfold parser.ParseModuleDir. unfold rootOf, withUniverse in Hbuild.
      destruct (ast.NewScope None (heap p)) as [universe σ]. simpl in Hbuild.
      rewrite Hbuild. eauto.
    + intros [p' H]. unfold parser.ParseModuleDir in H. unfold rootOf, withUniverse.
      destruct (ast.NewScope None (heap p)) as [universe σ]. simpl.
      destruct (buildModuleTree _ _ _ _) as [[[[]| | |] m'] p''] eqn:Hbuild;
        simplify_eq. by eapply buildModuleTree_Exit.
  - intros program e. unfold parser.ParseModuleDir.
    destruct (ast.NewScope None (heap p)) as [universe σ].
    destruct (buildModuleTree _ _ _ _) as [[[[]| | |] m'] p'']; simpl;
      intros ?; simplify_eq; split; try done; by intros [? ?].
  - apply ParseModuleDir_fuel.
Qed.

End Walk.

(** The tree [tree_bad_file]: the parse of [lib/bad.t] returns the
    sentinel, and so does the build. *)
Lemma ParseModuleDir_aborts_witness :
  let p := parser.New diagnostics.New [] in
  walk_fails in_quotes "src" tree_bad_file (rootOf p) (withUniverse p)
             COMPILER_ERROR_FOUND
  ∧ (ParseModuleDir in_quotes "src" tree_bad_file p).1
    = Returns None (Some COMPILER_ERROR_FOUND).
Proof.
  intros p.
  assert (Hfails : walk_fails in_quotes "src" tree_bad_file (rootOf p) (withUniverse p)
                     COMPILER_ERROR_FOUND).
  { eapply (fails_subdir _ "src" [File_ "README.md" (inr [])] "lib"); [reflexivity|].
    eapply (fails_parse _ _ [] "bad.t"); [reflexivity|reflexivity|].
    vm_compute. reflexivity. }
  split; [exact Hfails|].
  destruct (proj1 (proj1 (ParseModuleDir_aborts in_quotes "src" tree_bad_file p)
                     COMPILER_ERROR_FOUND) Hfails)
    as [p' ->].
  reflexivity.
Defined.

(** C6, as the specification words it, fails.  The parse of [bad.t],
    which holds [fn f() { a.; }], fails: it gives no file.  Yet
    [ParseModuleDir] returns no error: the failure is a [log.Fatal] in
    [parseFieldAccess], which ends the process. *)
Lemma fatal_parse_returns_no_error :
  let p := parser.New diagnostics.New [] in
  let lex := mkLexer "src" "src/bad.t" fn_bad_access in
  (∀ file, (parseFile (fuel_for lex) lex 0 (withUniverse p)).1 ≠ Ok file)
  ∧ ¬ ∃ err p', ParseModuleDir in_quotes "src" tree_fatal_file p
                = (Returns None (Some err), p').
Proof.
  intros p lex. split.
  - intros file H. vm_compute in H. discriminate H.
  - intros (err & p' & H). vm_compute in H. discriminate H.
Qed.

End AbortTheory.

(** * Laws of the symbol table *)

Module ScopeLaws.
Import scope builds ScopeTheory.
Section Scope.
Context {V : Type}.
Implicit Types (σ : store V) (s p : loc) (sc : Scope V) (name : string).

Lemma Lookup_rec_None fuel σ s name :
  σ !! s = None → Lookup_rec fuel σ s name = None.
Proof. intros Hs. destruct fuel; [done|]. simpl. by rewrite Hs. Qed.

(** In a well-formed store the result does not depend on the fuel, once
    there is more of it than the address looked up from. *)
Lemma Lookup_rec_fuel σ name : wf σ →
  ∀ s f1 f2, s < f1 → s < f2 → Lookup_rec f1 σ s name = Lookup_rec f2 σ s name.
Proof.
  intros Hwf s. induction (lt_wf s) as [s _ IH]. intros f1 f2 H1 H2.
  destruct (σ !! s) as [sc|] eqn:Hs; [|by rewrite !Lookup_rec_None].
  destruct f1 as [|f1]; [lia|]. destruct f2 as [|f2]; [lia|].
  rewrite !(Lookup_rec_step _ _ _ _ _ Hs).
  destruct (nodes sc !! name); [done|].
  destruct (parent sc) as [p|] eqn:Hp; [|done].
  pose proof (Hwf _ _ _ Hs Hp). apply IH; lia.
Qed.

(** Scopes allocated later are not seen from the older ones. *)
Lemma Lookup_rec_app σ ext name : wf σ →
  ∀ fuel s, s < List.length σ →
  Lookup_rec fuel (σ ++ ext) s name = Lookup_rec fuel σ s name.
Proof.
  intros Hwf fuel. induction fuel as [|fuel IH]; intros s Hs; [done|].
  destruct (lookup_lt_is_Some_2 σ s Hs) as [sc Hsc].
  assert (Hsc' : (σ ++ ext) !! s = Some sc) by (by rewrite lookup_app_l).
  rewrite (Lookup_rec_step _ _ _ _ _ Hsc), (Lookup_rec_step _ _ _ _ _ Hsc').
  destruct (nodes sc !! name); [done|].
  destruct (parent sc) as [p|] eqn:Hp; [|done].
  pose proof (Hwf _ _ _ Hsc Hp). apply IH. lia.
Qed.

(** A binding added to a scope does not change what is found under
    another name. *)
Lemma Lookup_rec_insert_other σ s sc name v name' :
  σ !! s = Some sc → name' ≠ name →
  ∀ fuel s',
  Lookup_rec fuel (<[s := mkScope (parent sc) (<[name := v]> (nodes sc))]> σ) s' name'
  = Lookup_rec fuel σ s' name'.
Proof.
  intros Hs Hne fuel. induction fuel as [|fuel IH]; intros s'; [done|].
  pose proof (lookup_lt_Some _ _ _ Hs) as Hlt.
  destruct (decide (s' = s)) as [->|Hs'].
  - erewrite (Lookup_rec_step _ (<[s := _]> σ)); [|by apply list_lookup_insert_eq].
    rewrite (Lookup_rec_step _ _ _ _ _ Hs). simpl.
    rewrite lookup_insert_ne by done.
    destruct (nodes sc !! name'); [done|]. destruct (parent sc); [apply IH|done].
  - destruct (σ !! s') as [sc'|] eqn:Hsc.
    + erewrite (Lookup_rec_step _ (<[s := _]> σ));
        [|by rewrite list_lookup_insert_ne].
      rewrite (Lookup_rec_step _ _ _ _ _ Hsc).
      destruct (nodes sc' !! name'); [done|]. destruct (parent sc'); [apply IH|done].
    + rewrite !Lookup_rec_None; [done|done|by rewrite list_lookup_insert_ne].
Qed.

(** Nor what is found from a scope allocated before the one changed. *)
Lemma Lookup_rec_insert_before σ s x name : wf σ →
  ∀ fuel s', s' < s →
  Lookup_rec fuel (<[s := x]> σ) s' name = Lookup_rec fuel σ s' name.
Proof.
  intros Hwf fuel. induction fuel as [|fuel IH]; intros s' Hs'; [done|].
  destruct (σ !! s') as [sc'|] eqn:Hsc.
  - erewrite (Lookup_rec_step _ (<[s := _]> σ));
      [|by rewrite list_lookup_insert_ne by lia].
    rewrite (Lookup_rec_step _ _ _ _ _ Hsc).
    destruct (nodes sc' !! name); [done|].
    destruct (parent sc') as [p|] eqn:Hp; [|done].
    pose proof (Hwf _ _ _ Hsc Hp). apply IH. lia.
  - rewrite !Lookup_rec_None; [done|done|by rewrite list_lookup_insert_ne by lia].
Qed.

(** X1. A successful [Insert(name, v)] on the scope at [s] makes [Lookup(name)]
    from [s] return [v].  It changes no lookup of another name, from
    whatever scope, and no lookup at all from a scope allocated before
    [s]. *)
Theorem Insert_then_Lookup σ σ' s name (v : V) :
  wf σ → Insert s name v σ = Some (None, σ') →
  Lookup σ' s name = Some (inl v)
  ∧ (∀ s' name', name' ≠ name → Lookup σ' s' name' = Lookup σ s' name')
  ∧ (∀ s' name', s' < s → Lookup σ' s' name' = Lookup σ s' name').
Proof.
  intros Hwf HI. apply Insert_inv in HI as (sc & Hs & Hn & ->).
  pose proof (lookup_lt_Some _ _ _ Hs) as Hlt.
  unfold Lookup. rewrite length_insert. split; [|split].
  - destruct (List.length σ) as [|n] eqn:Hlen; [lia|].
    erewrite Lookup_rec_step; [|apply list_lookup_insert_eq; lia]. simpl.
    by rewrite lookup_insert_eq.
  - intros s' name' Hne. by apply Lookup_rec_insert_other.
  - intros s' name' Hs'. by apply Lookup_rec_insert_before.
Qed.

Lemma length_New σ par : List.length (New par σ).2 = S (List.length σ).
Proof. unfold New. simpl. rewrite length_app. simpl. lia. Qed.

Lemma Lookup_New_old σ par s name :
  wf σ → s < List.length σ → Lookup (New par σ).2 s name = Lookup σ s name.
Proof.
  intros Hwf Hs. unfold Lookup. rewrite length_New. unfold New. cbn [snd].
  rewrite Lookup_rec_app by done. apply Lookup_rec_fuel; [done|lia|lia].
Qed.

Lemma Lookup_New_new σ par name :
  wf σ → (∀ p, par = Some p → p < List.length σ) →
  Lookup (New par σ).2 (New par σ).1 name
  = match par with
    | Some p => Lookup σ p name
    | None => Some (inr (Errorf ("symbol not found on scope: " +:+ name)))
    end.
Proof.
  intros Hwf Hpar. unfold Lookup. rewrite length_New.
  rewrite (Lookup_rec_step _ _ _ _ _ (New_lookup_new σ par)). simpl.
  rewrite lookup_empty. destruct par as [p|]; [|done].
  unfold New. cbn [snd]. apply Lookup_rec_app; [done|]. by apply Hpar.
Qed.

(** X2. [New(parent)] changes no lookup from the scopes that exist, and the
    scope it returns is transparent: a lookup from it gives what the same
    lookup from [parent] gives, and fails with the symbol-not-found error
    for every name when [parent] is nil. *)
Theorem New_then_Lookup σ par :
  wf σ → (∀ p, par = Some p → p < List.length σ) →
  (∀ s name, s < List.length σ → Lookup (New par σ).2 s name = Lookup σ s name)
  ∧ (∀ name, Lookup (New par σ).2 (New par σ).1 name
     = match par with
       | Some p => Lookup σ p name
       | None => Some (inr (Errorf ("symbol not found on scope: " +:+ name)))
       end).
Proof.
  intros Hwf Hpar. split.
  - intros s name Hs. by apply Lookup_New_old.
  - intros name. by apply Lookup_New_new.
Qed.

(** X3. Shadowing.  A name visible from the scope at [s] is visible, with
    the same value, from a fresh child of [s]; inserting the name into the
    child succeeds, after which the child sees the new value and [s]
    still sees the old one. *)
Theorem child_binding_shadows σ s name (v0 w : V) :
  wf σ → s < List.length σ → Lookup σ s name = Some (inl v0) →
  let c := (New (Some s) σ).1 in
  let σ1 := (New (Some s) σ).2 in
  Lookup σ1 c name = Some (inl v0)
  ∧ ∃ σ2, Insert c name w σ1 = Some (None, σ2)
      ∧ Lookup σ2 c name = Some (inl w)
      ∧ Lookup σ2 s name = Some (inl v0).
Proof.
  intros Hwf Hs Hv0 c σ1.
  assert (Hpar : ∀ p, Some s = Some p → p < List.length σ) by (intros p [= <-]; done).
  assert (Hwf1 : wf σ1) by (by apply wf_New).
  split.
  - unfold c, σ1. rewrite Lookup_New_new by done. done.
  - assert (Hc : σ1 !! c = Some (mkScope (Some s) ∅)) by apply New_lookup_new.
    eexists. split; [apply (Insert_lookup_same _ _ _ _ _ Hc); apply lookup_empty|].
    assert (Hcl : c = List.length σ) by done.
    assert (Hl1 : List.length σ1 = S (List.length σ)) by apply length_New.
    split.
    + unfold Lookup. rewrite length_insert, Hl1.
      erewrite Lookup_rec_step; [|apply list_lookup_insert_eq; lia]. simpl.
      by rewrite lookup_insert_eq.
    + unfold Lookup. rewrite length_insert.
      rewrite Lookup_rec_insert_before by (done || lia).
      fold (Lookup σ1 s name). unfold σ1. by rewrite Lookup_New_old.
Qed.

Lemma run_wf ops : ∀ σ σ', wf σ → run ops σ = Some σ' → wf σ'.
Proof.
  induction ops as [|[par|s name v] ops IH]; intros σ σ' Hwf Hrun; simpl in Hrun.
  - by simplify_eq.
  - destruct par as [p|].
    + destruct (Nat.ltb p (List.length σ)) eqn:Hp; [|done].
      apply Nat.ltb_lt in Hp. eapply IH; [|done].
      apply wf_New; [done|]. by intros ? [= <-].
    + eapply IH; [|done]. apply wf_New; [done|]. by intros ? [=].
  - destruct (Insert s name v σ) as [[r σ1]|] eqn:HI; [|done].
    eapply IH; [|done]. by eapply wf_Insert.
Qed.

(** X4. Whatever sequence of [New] and [Insert] calls built the store, no
    scope is its own ancestor: the store is well formed, and [Lookup] from
    any of its scopes, for any name, returns a value or the
    symbol-not-found error; it neither recurses for ever nor reaches a
    scope that is not there. *)
Theorem Lookup_returns (ops : list (Op V)) σ :
  run ops [] = Some σ →
  wf σ
  ∧ ∀ s name, s < List.length σ →
      (∃ v, Lookup σ s name = Some (inl v))
      ∨ Lookup σ s name = Some (inr (Errorf ("symbol not found on scope: " +:+ name))).
Proof.
  intros Hrun. assert (Hwf : wf σ) by (eapply run_wf; [apply wf_nil|done]).
  split; [done|]. intros s name Hs.
  destruct (Lookup_rec_chain σ name Hwf s (List.length σ) Hs Hs)
    as (c & _ & [(i & sc & v & _ & _ & _ & HL)|[_ HL]]); eauto.
Qed.

End Scope.

Import samples.

Lemma Insert_then_Lookup_witness :
  let σ' := <[2 := mkScope (Some 1) {[ "z" := 5 ]}]> store3 in
  Insert 2 "z" 5 store3 = Some (None, σ')
  ∧ Lookup σ' 2 "z" = Some (inl 5)
  ∧ Lookup σ' 2 "x" = Lookup store3 2 "x"
  ∧ Lookup σ' 1 "z" = Lookup store3 1 "z".
Proof.
  intros σ'. split; [reflexivity|].
  pose proof (Insert_then_Lookup store3 σ' 2 "z" 5 wf_store3 eq_refl) as (H1 & H2 & H3).
  split; [exact H1|]. split; [by apply H2|apply H3; lia].
Defined.

Lemma New_then_Lookup_witness :
  (∀ p, Some 2 = Some p → p < List.length store3)
  ∧ Lookup (New (Some 2) store3).2 3 "y" = Lookup store3 2 "y".
Proof.
  assert (Hpar : ∀ p, Some 2 = Some p → p < List.length store3).
  { intros p [= <-]. simpl. lia. }
  split; [exact Hpar|].
  exact (proj2 (New_then_Lookup store3 (Some 2) wf_store3 Hpar) "y").
Defined.

Lemma child_binding_shadows_witness :
  Lookup store3 1 "x" = Some (inl 1)
  ∧ ∃ σ2, Insert 3 "x" 7 (New (Some 1) store3).2 = Some (None, σ2)
      ∧ Lookup σ2 3 "x" = Some (inl 7)
      ∧ Lookup σ2 1 "x" = Some (inl 1).
Proof.
  split; [reflexivity|].
  refine (proj2 (child_binding_shadows store3 1 "x" 1 7 wf_store3 _ eq_refl)).
  simpl. lia.
Defined.

Lemma Lookup_returns_witness :
  let ops := [DoNew None; DoInsert 0 "x" 1; DoNew (Some 0); DoInsert 1 "y" 2;
              DoNew (Some 1)] in
  run ops [] = Some store3
  ∧ ((∃ v, Lookup store3 2 "x" = Some (inl v))
     ∨ Lookup store3 2 "x" = Some (inr (Errorf "symbol not found on scope: x"))).
Proof.
  intros ops.
  assert (Hrun : run ops [] = Some store3) by reflexivity.
  split; [exact Hrun|].
  refine (proj2 (Lookup_returns ops store3 Hrun) 2 "x" _). simpl. lia.
Defined.

End ScopeLaws.

(** * Types, parameter lists, calls and operands *)

Module SyntaxTheory.
Import token lexer ast parser grammar syntax GrammarTheory.

Lemma spells_parse ts ty : spells ts ty →
  ∀ rest, parseExprType_from (ts ++ rest) = (Ok ty, rest).
Proof.
  induction 1 as [tok Hk|tok Hk|star ts ty Hk _ IH]; intros rest; simpl.
  - by rewrite Hk.
  - destruct (Kind_ tok); try discriminate Hk; reflexivity.
  - by rewrite Hk, IH.
Qed.

Lemma parse_spells ts : ∀ ty rest,
  parseExprType_from ts = (Ok ty, rest) → ∃ pre, ts = pre ++ rest ∧ spells pre ty.
Proof.
  induction ts as [|tok ts IH]; intros ty rest H; simpl in H; [done|].
  destruct (Kind_ tok) eqn:Hk; simpl in H; simplify_eq;
    try (exists [tok]; split; [done|];
         first [by apply spells_id
               |rewrite <- Hk; apply spells_basic; by rewrite Hk]).
  destruct (parseExprType_from ts) as [[ty0| | |] ts0] eqn:Hts; simplify_eq.
  destruct (IH _ _ eq_refl) as (pre & -> & Hpre).
  exists (tok :: pre). split; [done|]. by apply spells_pointer.
Qed.

Lemma parse_fails ts : ∀ e rest,
  parseExprType_from ts = (Err e, rest) →
  e = COMPILER_ERROR_FOUND
  ∧ ∃ stars, ts = stars ++ rest ∧ Forall (λ tok, Kind_ tok = STAR) stars
      ∧ starts_no_type rest.
Proof.
  induction ts as [|tok ts IH]; intros e rest H; simpl in H.
  - simplify_eq. split; [done|]. exists []. done.
  - destruct (Kind_ tok) eqn:Hk; simpl in H; simplify_eq;
      try (split; [done|]; exists []; split; [done|]; split; [constructor|];
           simpl; rewrite Hk; done).
    destruct (parseExprType_from ts) as [[ty0| | |] ts0] eqn:Hts; simplify_eq.
    destruct (IH _ _ eq_refl) as (-> & stars & -> & Hstars & Hrest).
    split; [done|]. exists (tok :: stars). split; [done|]. split; [|done].
    by constructor.
Qed.

(** X5. [parseExprType] reads exactly the types that are spelled: it
    returns [ty] and stops before [rest] if and only if the tokens before
    [rest] are stars followed by an identifier or a basic-type keyword and
    spell [ty].  When it fails, the error is the sentinel, and the tokens
    it has read are the stars only: it stops at the first token that
    starts no type, or at the end of the stream. *)
Theorem parseExprType_spelling (p : Parser) (rest : list Token) :
  (∀ ty, parseExprType p = (Ok ty, leaving p rest)
         ↔ ∃ pre, toks (lex p) = pre ++ rest ∧ spells pre ty)
  ∧ (∀ e, parseExprType p = (Err e, leaving p rest) →
       e = COMPILER_ERROR_FOUND
       ∧ ∃ stars, toks (lex p) = stars ++ rest
           ∧ Forall (λ tok, Kind_ tok = STAR) stars
           ∧ starts_no_type rest).
Proof.
  assert (Hrun : ∀ r, parseExprType p = (r, leaving p rest)
                      ↔ parseExprType_from (toks (lex p)) = (r, rest)).
  { intros r. unfold parseExprType, leaving.
    destruct (parseExprType_from (toks (lex p))) as [r' ts'].
    split; intros H; simplify_eq; done. }
  split.
  - intros ty. rewrite Hrun. split.
    + apply parse_spells.
    + intros (pre & -> & Hpre). by apply spells_parse.
  - intros e. rewrite Hrun. apply parse_fails.
Qed.

(** *** Parameter lists *)

Lemma NextIs_hd p tok rest K :
  toks (lex p) = tok :: rest →
  NextIs K p = (Ok (token.eqb (Kind_ tok) K), p).
Proof. intros H. unfold NextIs, lexer.NextIs, lexer.Peek. by rewrite H. Qed.

Lemma Peek_hd p tok rest :
  toks (lex p) = tok :: rest → Peek p = (Ok tok, p).
Proof. intros H. unfold Peek, lexer.Peek. by rewrite H. Qed.

Lemma Skip_hd p tok rest :
  toks (lex p) = tok :: rest → Skip p = (Ok tt, leaving p rest).
Proof. intros H. unfold Skip. fold (skipped p). by rewrite (skipped_leaving p tok rest). Qed.

Lemma toks_leaving p ts : toks (lex (leaving p ts)) = ts.
Proof. reflexivity. Qed.

Lemma parseExprType_spelled p ts ty rest :
  toks (lex p) = ts ++ rest → spells ts ty →
  parseExprType p = (Ok ty, leaving p rest).
Proof.
  intros Htoks Hty. unfold parseExprType. rewrite Htoks.
  by rewrite (spells_parse ts ty Hty rest).
Qed.

(** What the loop of [parseFunctionParams] is left to read after the
    parameters: the closing parenthesis, with an ellipsis before it or
    not. *)
Lemma parseFunctionParams_loop_end fuel params isVariadic p dots close rest :
  (∀ tok, dots = Some tok → Kind_ tok = DOT_DOT_DOT) →
  Kind_ close = CLOSE_PAREN →
  toks (lex p) = optional dots ++ close :: rest →
  parseFunctionParams_loop (S fuel) params isVariadic p
  = (Ok (params, given dots || isVariadic), leaving p (close :: rest)).
Proof.
  intros Hdots Hclose Htoks. cbn [parseFunctionParams_loop].
  destruct dots as [tok|]; simpl in Htoks.
  - specialize (Hdots tok eq_refl).
    rewrite (bind_Ok _ _ _ _ _ (NextIs_hd p _ _ CLOSE_PAREN Htoks)).
    rewrite Hdots. cbn [token.eqb token.code Nat.eqb].
    rewrite (bind_Ok _ _ _ _ _ (NextIs_hd p _ _ DOT_DOT_DOT Htoks)).
    rewrite Hdots. cbn [token.eqb token.code Nat.eqb].
    rewrite (bind_Ok _ _ _ _ _ (Peek_hd p _ _ Htoks)).
    rewrite (bind_Ok _ _ _ _ _ (Skip_hd p _ _ Htoks)).
    rewrite (bind_Ok _ _ _ _ _ (NextIs_hd (leaving p (close :: rest)) close rest
                                  CLOSE_PAREN eq_refl)).
    rewrite Hclose. reflexivity.
  - rewrite (bind_Ok _ _ _ _ _ (NextIs_hd p _ _ CLOSE_PAREN Htoks)).
    rewrite Hclose. cbn [token.eqb token.code Nat.eqb].
    unfold ret. by rewrite <- Htoks, leaving_same.
Qed.

Lemma parseFunctionParams_loop_reads items : ∀ fuel params isVariadic p dots close rest,
  Forall param_ok items →
  (∀ tok, dots = Some tok → Kind_ tok = DOT_DOT_DOT) →
  Kind_ close = CLOSE_PAREN →
  toks (lex p) = flat_map param_tokens items ++ optional dots ++ close :: rest →
  (List.length items + 1 ≤ fuel)%nat →
  parseFunctionParams_loop fuel params isVariadic p
  = (Ok (params ++ map param_field items, given dots || isVariadic),
     leaving p (close :: rest)).
Proof.
  induction items as [|[[[name ts] ty] comma] items IH];
    intros fuel params isVariadic p dots close rest Hitems Hdots Hclose Htoks Hfuel;
    (destruct fuel as [|fuel]; [simpl in Hfuel; lia|]).
  - simpl in Htoks. rewrite app_nil_r.
    by apply parseFunctionParams_loop_end.
  - inversion Hitems as [|? ? Hok Hitems']; subst.
    unfold param_ok in Hok. destruct Hok as (Hname & Hty & Hcomma).
    simpl in Htoks, Hfuel. rewrite <- !app_assoc in Htoks.
    set (tail := flat_map param_tokens items ++ optional dots ++ close :: rest) in *.
    assert (Htail : ∃ tok tail', tail = tok :: tail' ∧ Kind_ tok ≠ COMMA).
    { unfold tail. destruct items as [|[[[name' ts'] ty'] comma'] items'].
      - destruct dots as [tok|]; simpl.
        + exists tok, (close :: rest). split; [done|]. rewrite (Hdots tok eq_refl). done.
        + exists close, rest. split; [done|]. by rewrite Hclose.
      - inversion Hitems' as [|? ? Hok' _]; subst.
        unfold param_ok in Hok'. destruct Hok' as (Hname' & _). simpl.
        eexists name', _. split; [done|]. by rewrite Hname'. }
    cbn [parseFunctionParams_loop].
    rewrite (bind_Ok _ _ _ _ _ (NextIs_hd p _ _ CLOSE_PAREN Htoks)).
    rewrite Hname. cbn [token.eqb token.code Nat.eqb].
    rewrite (bind_Ok _ _ _ _ _ (NextIs_hd p _ _ DOT_DOT_DOT Htoks)).
    rewrite Hname. cbn [token.eqb token.code Nat.eqb].
    rewrite (bind_Ok _ _ _ _ _ (expect_Ok p name _ ID Htoks Hname)).
    cbn beta iota. cbn [negb].
    rewrite (handle_Ok _ _ _ _ _ _
               (parseExprType_spelled (leaving p (ts ++ optional comma ++ tail)) ts ty
                  (optional comma ++ tail) eq_refl Hty)).
    rewrite leaving_leaving. cbn zeta.
    destruct comma as [tok|]; simpl.
    + specialize (Hcomma tok eq_refl).
      rewrite (bind_Ok _ _ _ _ _ (NextIs_hd (leaving p (tok :: tail)) tok tail COMMA eq_refl)).
      rewrite Hcomma. cbn [token.eqb token.code Nat.eqb].
      rewrite (bind_Ok _ _ _ _ _ (Skip_hd (leaving p (tok :: tail)) tok tail eq_refl)).
      rewrite leaving_leaving.
      rewrite (IH fuel _ isVariadic (leaving p tail) dots close rest);
        [by rewrite leaving_leaving, <- app_assoc|done|done|done|done|lia].
    + destruct Htail as (tok & tail' & Htail & Hne).
      rewrite (bind_Ok _ _ _ _ _ (NextIs_hd (leaving p tail) tok tail' COMMA Htail)).
      apply ParserTheory.Kind_eqb_neq in Hne. rewrite Hne.
      rewrite (IH fuel _ isVariadic (leaving p tail) dots close rest);
        [by rewrite leaving_leaving, <- app_assoc|done|done|done|done|lia].
Qed.

(** X6. [parseFunctionParams] reads a parenthesised list of parameters,
    each a name followed by a type, as the fields of these names and
    types, in order.  The comma after a parameter is optional, also after
    the last one; an ellipsis before the closing parenthesis makes the
    list variadic, and without it the list is not. *)
Theorem parseFunctionParams_reads open items dots close :
  Kind_ open = OPEN_PAREN →
  Forall param_ok items →
  (∀ tok, dots = Some tok → Kind_ tok = DOT_DOT_DOT) →
  Kind_ close = CLOSE_PAREN →
  reads parseFunctionParams (List.length items + 1)
        (open :: flat_map param_tokens items ++ optional dots ++ [close])
        (mkFieldList open (map param_field items) (given dots) close).
Proof.
  intros Hopen Hitems Hdots Hclose fuel p rest Hfuel Htoks.
  simpl in Htoks. rewrite <- !app_assoc in Htoks. simpl in Htoks.
  unfold parseFunctionParams.
  rewrite (bind_Ok _ _ _ _ _ (expect_Ok p open _ OPEN_PAREN Htoks Hopen)).
  cbn beta iota. cbn [negb].
  rewrite (bind_Ok _ _ _ _ _
             (parseFunctionParams_loop_reads items fuel [] false
                (leaving p (flat_map param_tokens items ++ optional dots ++ close :: rest))
                dots close rest Hitems Hdots Hclose eq_refl Hfuel)).
  rewrite leaving_leaving. cbn beta iota.
  rewrite (bind_Ok _ _ _ _ _
             (expect_Ok (leaving p (close :: rest)) close rest CLOSE_PAREN eq_refl Hclose)).
  cbn [negb]. unfold ret. by rewrite orb_false_r, leaving_leaving.
Qed.

(** *** Expression lists and calls *)

Lemma NextIsAny_hd ends p tok rest :
  toks (lex p) = tok :: rest →
  NextIsAny ends p = (Ok (existsb (token.eqb (Kind_ tok)) ends), p).
Proof.
  intros H. unfold NextIsAny. f_equal. f_equal.
  induction ends as [|k ends IH]; [done|]. simpl.
  unfold lexer.NextIs at 1, lexer.Peek. rewrite H. simpl. by rewrite IH.
Qed.

Lemma Peek1_hd p tok tok' rest :
  toks (lex p) = tok :: tok' :: rest → Peek1 p = (Ok tok', p).
Proof. intros H. unfold Peek1, lexer.Peek1. by rewrite H. Qed.

Lemma parseExprList_loop_reads f0 ends close rest items : ∀ fuel exprs p,
  args_ok f0 ends items close →
  existsb (token.eqb (Kind_ close)) ends = true →
  toks (lex p) = flat_map arg_tokens items ++ close :: rest →
  (f0 + List.length items + 1 ≤ fuel)%nat →
  parseExprList_loop fuel ends exprs p
  = (Ok (exprs ++ map arg_expr items), leaving p (close :: rest)).
Proof.
  induction items as [|[[ts e] comma] items IH];
    intros fuel exprs p Hitems Hclose Htoks Hfuel;
    (destruct fuel as [|fuel]; [lia|]); cbn [parseExprList_loop].
  - simpl in Htoks.
    rewrite (bind_Ok _ _ _ _ _ (NextIsAny_hd ends p _ _ Htoks)), Hclose.
    unfold ret. by rewrite app_nil_r, <- Htoks, leaving_same.
  - destruct Hitems as (He & Hstart & Hcomma & Hitems).
    simpl in Htoks, Hfuel. rewrite <- !app_assoc in Htoks.
    set (tail := flat_map arg_tokens items ++ close :: rest) in *.
    destruct ts as [|tok ts]; [done|]. simpl in Hstart.
    rewrite (bind_Ok _ _ _ _ _ (NextIsAny_hd ends p _ _ Htoks)), Hstart.
    assert (Htail : hd close (flat_map arg_tokens items) = hd close tail
                    ∧ ∃ next tail', tail = next :: tail' ∧ hd close tail = next).
    { unfold tail. destruct (flat_map arg_tokens items) as [|next more]; simpl; eauto. }
    destruct Htail as (Hhd & next & tail' & Htail & Hnext).
    rewrite (bind_Ok _ _ _ _ _
               (He fuel p (optional comma ++ tail) ltac:(lia) Htoks
                   ltac:(destruct comma as [c|]; simpl;
                         [by rewrite Hcomma
                         |rewrite Htail; simpl; rewrite <- Hnext, <- Hhd;
                          by destruct Hcomma]))).
    cbn zeta.
    destruct comma as [c|]; simpl.
    + rewrite (bind_Ok _ _ _ _ _ (NextIs_hd (leaving p (c :: tail)) c tail COMMA eq_refl)).
      rewrite Hcomma. cbn [token.eqb token.code Nat.eqb].
      rewrite (bind_Ok _ _ _ _ _ (Skip_hd (leaving p (c :: tail)) c tail eq_refl)).
      rewrite leaving_leaving.
      rewrite (IH fuel _ (leaving p tail));
        [by rewrite leaving_leaving, <- app_assoc|done|done|done|lia].
    + destruct Hcomma as [_ Hne]. rewrite Hhd, Hnext in Hne.
      rewrite (bind_Ok _ _ _ _ _ (NextIs_hd (leaving p tail) next tail' COMMA Htail)).
      apply ParserTheory.Kind_eqb_neq in Hne. rewrite Hne.
      rewrite (IH fuel _ (leaving p tail));
        [by rewrite leaving_leaving, <- app_assoc|done|done|done|lia].
Qed.

Lemma parseFnCall_reads_args f0 name open items close :
  Kind_ name = ID → Kind_ open = OPEN_PAREN → Kind_ close = CLOSE_PAREN →
  args_ok f0 [CLOSE_PAREN] items close →
  reads parseFnCall (f0 + List.length items + 3)
        (name :: open :: flat_map arg_tokens items ++ [close])
        (mkFunctionCall name (map arg_expr items)).
Proof.
  intros Hname Hopen Hclose Hitems fuel p rest Hfuel Htoks.
  simpl in Htoks. rewrite <- app_assoc in Htoks. simpl in Htoks.
  destruct fuel as [|[|fuel]]; [lia|lia|]. cbn [parseFnCall parseExprList].
  rewrite (bind_Ok _ _ _ _ _ (expect_Ok p name _ ID Htoks Hname)).
  cbn beta iota. cbn [negb].
  rewrite (bind_Ok _ _ _ _ _
             (expect_Ok (leaving p (open :: flat_map arg_tokens items ++ close :: rest))
                open _ OPEN_PAREN eq_refl Hopen)).
  cbn beta iota. cbn [negb]. rewrite leaving_leaving.
  rewrite (bind_Ok _ _ _ _ _
             (parseExprList_loop_reads f0 [CLOSE_PAREN] close rest items fuel []
                (leaving p (flat_map arg_tokens items ++ close :: rest))
                Hitems ltac:(simpl; by rewrite Hclose) eq_refl ltac:(lia))).
  rewrite leaving_leaving.
  rewrite (bind_Ok _ _ _ _ _
             (expect_Ok (leaving p (close :: rest)) close rest CLOSE_PAREN eq_refl Hclose)).
  reflexivity.
Qed.

(** What [parseUnary] reads is read by every level above it. *)
Lemma reads_parses (f : nat → M Expr) stop f0 ts e :
  reads f f0 ts e → parses f stop f0 ts e.
Proof. intros H fuel p rest Hfuel Htoks _. by apply H. Qed.

Lemma operand_lifts f0 ts e :
  parses parseUnary stop_unary f0 ts e →
  parses parseExpr stop_logical (f0 + 9) ts e.
Proof.
  intros H. eapply parses_mono;
    [apply parseExpr_parses, parseLogical_lift, parseComparasion_lift, parseTerm_lift,
       parses_nil, parseFactor_chain; [exact H|constructor]|simpl; lia].
Qed.

Lemma parsePrimary_parseUnary stop f0 tok ts e :
  UNARY (Kind_ tok) = false →
  parses parsePrimary stop f0 (tok :: ts) e →
  parses parseUnary stop (f0 + 1) (tok :: ts) e.
Proof.
  intros Hk H fuel p rest Hfuel Htoks Hstop.
  destruct fuel as [|fuel]; [lia|]. cbn [parseUnary].
  rewrite (bind_Ok _ _ _ _ _ (Peek_hd p _ _ Htoks)), Hk.
  apply H; [lia|done|done].
Qed.

(** X7. A call [name ( args )] is read by [parseExpr] as the [FunctionCall]
    of [name] with the expressions of the arguments, in order, whatever
    follows the closing parenthesis.  An argument is any expression that
    does not start with the closing parenthesis; the comma after it is
    optional wherever the next token cannot continue the expression. *)
Theorem call_arguments f0 name open items close :
  Kind_ name = ID → Kind_ open = OPEN_PAREN → Kind_ close = CLOSE_PAREN →
  args_ok f0 [CLOSE_PAREN] items close →
  parses parseExpr stop_logical (f0 + List.length items + 14)
         (name :: open :: flat_map arg_tokens items ++ [close])
         (FunctionCallExpr (mkFunctionCall name (map arg_expr items))).
Proof.
  intros Hname Hopen Hclose Hitems.
  assert (Hprimary : parses parsePrimary stop_unary (f0 + List.length items + 4)
            (name :: open :: flat_map arg_tokens items ++ [close])
            (FunctionCallExpr (mkFunctionCall name (map arg_expr items)))).
  { intros fuel p rest Hfuel Htoks _.
    destruct fuel as [|fuel]; [lia|]. cbn [parsePrimary].
    rewrite (bind_Ok _ _ _ _ _ (Peek_hd p _ _ Htoks)), Hname. cbn beta iota.
    rewrite (bind_Ok _ _ _ _ _ (Peek1_hd p _ _ _ Htoks)), Hopen. cbn beta iota.
    assert (Hcall : (f0 + List.length items + 3 ≤ fuel)%nat) by lia.
    by rewrite (bind_Ok _ _ _ _ _
                  (parseFnCall_reads_args f0 name open items close Hname Hopen Hclose
                     Hitems fuel p rest Hcall Htoks)). }
  eapply parses_mono;
    [apply operand_lifts, parsePrimary_parseUnary; [by rewrite Hname|exact Hprimary]|lia].
Qed.

(** *** Prefix operators *)

Lemma parseUnary_prefix stop f0 ts e ops :
  Forall (λ op, UNARY (Kind_ op) = true) ops →
  parses parseUnary stop f0 ts e →
  parses parseUnary stop (f0 + List.length ops) (ops ++ ts) (nest ops e).
Proof.
  intros Hops He. induction Hops as [|op ops Hop _ IH]; simpl.
  - eapply parses_mono; [exact He|lia].
  - intros fuel p rest Hfuel Htoks Hstop.
    destruct fuel as [|fuel]; [lia|]. cbn [parseUnary]. simpl in Htoks.
    rewrite (bind_Ok _ _ _ _ _ (Peek_hd p _ _ Htoks)), Hop.
    rewrite (bind_Ok _ _ _ _ _ (Skip_hd p _ _ Htoks)).
    rewrite (bind_Ok _ _ _ _ _
               (IH fuel (leaving p ((ops ++ ts) ++ rest)) rest ltac:(lia) eq_refl Hstop)).
    reflexivity.
Qed.

Lemma parseFactor_lift f0 ts e :
  parses parseUnary stop_unary f0 ts e →
  parses parseFactor stop_factor (f0 + 2) ts e.
Proof.
  intros H. apply parses_nil. eapply parses_mono;
    [by apply parseFactor_chain; [exact H|constructor]|simpl; lia].
Qed.

(** A prefixed atom is an operand of every level. *)
Lemma prefixed_atom_parseUnary pre x :
  prefixed_ok pre x →
  parses parseUnary stop_unary (List.length pre + 2) (pre ++ [x]) (nest pre (atom_expr x)).
Proof.
  intros [Hpre Hx]. eapply parses_mono;
    [apply parseUnary_prefix; [done|by apply parseUnary_atom]|lia].
Qed.

Lemma chain_of_prefixed OPS stop (sub : nat → M Expr) f0 items :
  (∀ pre x, prefixed_ok pre x → (List.length pre ≤ f0)%nat →
     parses sub stop (f0 + 8) (pre ++ [x]) (nest pre (atom_expr x))) →
  Forall (λ item : Token * list Token * Token,
            OPS (Kind_ item.1.1) = true ∧ prefixed_ok item.1.2 item.2
            ∧ (List.length item.1.2 ≤ f0)%nat) items →
  chain_of OPS stop sub (f0 + 8) (prefixed items).
Proof.
  intros Hsub Hitems. unfold chain_of, prefixed. apply Forall_map.
  eapply Forall_impl; [exact Hitems|]. intros [[op pre] x] (Hop & Hx & Hlen).
  simpl in *. split; [done|by apply Hsub].
Qed.

Lemma chain_tokens_prefixed op pre x items :
  chain_tokens (prefixed ((op, pre, x) :: items))
  = op :: (pre ++ [x]) ++ chain_tokens (prefixed items).
Proof. reflexivity. Qed.

Lemma prefix_lengths items :
  Forall (λ item : Token * list Token * Token,
            (List.length item.1.2 ≤ List.length (chain_tokens (prefixed items)))%nat)
         items
  ∧ (List.length items ≤ List.length (chain_tokens (prefixed items)))%nat.
Proof.
  induction items as [|[[op pre] x] items [IH1 IH2]]; [split; [constructor|done]|].
  rewrite chain_tokens_prefixed. split.
  - constructor.
    + cbn [fst snd length]. rewrite !length_app. lia.
    + eapply Forall_impl; [exact IH1|]. intros [[op' pre'] x'] H.
      cbn [fst snd length] in *. rewrite !length_app. lia.
  - cbn [length]. rewrite !length_app. simpl. lia.
Qed.

(** X8. Prefix operators bind tighter than every binary operator and
    nest to the right: in a chain of one binary level whose operands are
    atoms preceded by any number of [-] and [not], each operand becomes
    the atom wrapped in its prefix operators, the nearest innermost, and
    the chain folds to the left over these operands. *)
Theorem prefixed_chains_fold_left (OPS : token.Kind → bool) pre0 x0 items :
  OPS = FACTOR ∨ OPS = TERM ∨ OPS = COMPARASION ∨ OPS = LOGICAL →
  prefixed_ok pre0 x0 →
  Forall (λ item : Token * list Token * Token,
            OPS (Kind_ item.1.1) = true ∧ prefixed_ok item.1.2 item.2) items →
  let ts := (pre0 ++ [x0]) ++ chain_tokens (prefixed items) in
  parses parseExpr stop_logical (2 * List.length ts + 20)
         ts (chain_expr (nest pre0 (atom_expr x0)) (prefixed items)).
Proof.
  intros HOPS Hx0 Hitems ts.
  set (f0 := List.length ts).
  destruct (prefix_lengths items) as [Hlens Hcount].
  assert (Hlen : (List.length (prefixed items) ≤ f0)%nat).
  { unfold f0, ts. rewrite length_app. unfold prefixed at 1. rewrite length_map. lia. }
  assert (Hpre0 : (List.length pre0 ≤ f0)%nat).
  { unfold f0, ts. rewrite !length_app. lia. }
  assert (Hitems' : Forall (λ item : Token * list Token * Token,
            OPS (Kind_ item.1.1) = true ∧ prefixed_ok item.1.2 item.2
            ∧ (List.length item.1.2 ≤ f0)%nat) items).
  { rewrite Forall_forall in Hitems, Hlens |- *. intros item Hin.
    destruct (Hitems item Hin) as [H1 H2]. pose proof (Hlens item Hin) as Hle.
    split; [done|]. split; [done|]. unfold f0, ts. rewrite length_app. lia. }
  assert (Hunary : ∀ pre x, prefixed_ok pre x → (List.length pre ≤ f0)%nat →
            parses parseUnary stop_unary (f0 + 2) (pre ++ [x]) (nest pre (atom_expr x))).
  { intros pre x H Hl. eapply parses_mono; [by apply prefixed_atom_parseUnary|lia]. }
  assert (Hfactor : ∀ pre x, prefixed_ok pre x → (List.length pre ≤ f0)%nat →
            parses parseFactor stop_factor (f0 + 4) (pre ++ [x]) (nest pre (atom_expr x))).
  { intros pre x H Hl. eapply parses_mono; [by apply parseFactor_lift, Hunary|lia]. }
  assert (Hterm : ∀ pre x, prefixed_ok pre x → (List.length pre ≤ f0)%nat →
            parses parseTerm stop_term (f0 + 6) (pre ++ [x]) (nest pre (atom_expr x))).
  { intros pre x H Hl. eapply parses_mono; [by apply parseTerm_lift, Hfactor|lia]. }
  assert (Hcomp : ∀ pre x, prefixed_ok pre x → (List.length pre ≤ f0)%nat →
            parses parseComparasion stop_comparasion (f0 + 8) (pre ++ [x])
                   (nest pre (atom_expr x))).
  { intros pre x H Hl. eapply parses_mono; [by apply parseComparasion_lift, Hterm|lia]. }
  assert (Hup : ∀ (sub : nat → M Expr) stop n,
            (n ≤ 8)%nat →
            (∀ pre x, prefixed_ok pre x → (List.length pre ≤ f0)%nat →
               parses sub stop (f0 + n) (pre ++ [x]) (nest pre (atom_expr x))) →
            ∀ pre x, prefixed_ok pre x → (List.length pre ≤ f0)%nat →
               parses sub stop (f0 + 8) (pre ++ [x]) (nest pre (atom_expr x))).
  { intros sub stop n Hn H pre x Hx Hl. eapply parses_mono; [by apply H|lia]. }
  destruct HOPS as [H|[H|[H|H]]]; subst OPS.
  - eapply parses_mono;
      [apply parseExpr_parses, parseLogical_lift, parseComparasion_lift, parseTerm_lift,
         parseFactor_chain;
       [apply (Hup parseUnary stop_unary 2); [lia|exact Hunary|done|done]
       |apply chain_of_prefixed; [by apply (Hup parseUnary stop_unary 2); [lia|]|done]]
      |lia].
  - eapply parses_mono;
      [apply parseExpr_parses, parseLogical_lift, parseComparasion_lift, parseTerm_chain;
       [apply (Hup parseFactor stop_factor 4); [lia|exact Hfactor|done|done]
       |apply chain_of_prefixed; [by apply (Hup parseFactor stop_factor 4); [lia|]|done]]
      |lia].
  - eapply parses_mono;
      [apply parseExpr_parses, parseLogical_lift, parseComparasion_chain;
       [apply (Hup parseTerm stop_term 6); [lia|exact Hterm|done|done]
       |apply chain_of_prefixed; [by apply (Hup parseTerm stop_term 6); [lia|]|done]]
      |lia].
  - eapply parses_mono;
      [apply parseExpr_parses, parseLogical_chain;
       [apply (Hup parseComparasion stop_comparasion 8); [lia|exact Hcomp|done|done]
       |apply chain_of_prefixed; [by apply (Hup parseComparasion stop_comparasion 8); [lia|]|done]]
      |lia].
Qed.

(** *** Parentheses *)

(** An operand followed by a chain of atoms of one level. *)
Lemma operand_atom_chain (OPS : token.Kind → bool) f0 ts0 e0 items :
  OPS = FACTOR ∨ OPS = TERM ∨ OPS = COMPARASION ∨ OPS = LOGICAL →
  parses parseUnary stop_unary f0 ts0 e0 →
  Forall (λ item : Token * Token,
            OPS (Kind_ item.1) = true ∧ is_atom (Kind_ item.2) = true) items →
  parses parseExpr stop_logical (f0 + List.length items + 17)
         (ts0 ++ chain_tokens (atoms items)) (chain_expr e0 (atoms items)).
Proof.
  intros HOPS H0 Hitems.
  assert (Hlen : List.length (atoms items) = List.length items) by apply length_map.
  assert (Hunary : ∀ tok, is_atom (Kind_ tok) = true →
            parses parseUnary stop_unary (f0 + 8) [tok] (atom_expr tok)).
  { intros tok H. eapply parses_mono; [by apply parseUnary_atom|lia]. }
  assert (Hfactor : ∀ tok, is_atom (Kind_ tok) = true →
            parses parseFactor stop_factor (f0 + 8) [tok] (atom_expr tok)).
  { intros tok H. eapply parses_mono; [by apply parseFactor_atom|lia]. }
  assert (Hterm : ∀ tok, is_atom (Kind_ tok) = true →
            parses parseTerm stop_term (f0 + 8) [tok] (atom_expr tok)).
  { intros tok H. eapply parses_mono; [by apply (parseTerm_lift 4), parseFactor_atom|lia]. }
  assert (Hcomp : ∀ tok, is_atom (Kind_ tok) = true →
            parses parseComparasion stop_comparasion (f0 + 8) [tok] (atom_expr tok)).
  { intros tok H. eapply parses_mono;
      [by apply (parseComparasion_lift 6), (parseTerm_lift 4), parseFactor_atom|lia]. }
  destruct HOPS as [H|[H|[H|H]]]; subst OPS.
  - eapply parses_mono;
      [apply parseExpr_parses, parseLogical_lift, parseComparasion_lift, parseTerm_lift,
         parseFactor_chain;
       [eapply parses_mono; [exact H0|]|by apply chain_of_atoms]|]; lia.
  - eapply parses_mono;
      [apply parseExpr_parses, parseLogical_lift, parseComparasion_lift, parseTerm_chain;
       [eapply parses_mono; [apply parseFactor_lift, H0|]|by apply chain_of_atoms]|]; lia.
  - eapply parses_mono;
      [apply parseExpr_parses, parseLogical_lift, parseComparasion_chain;
       [eapply parses_mono; [apply parseTerm_lift, parseFactor_lift, H0|]
       |by apply chain_of_atoms]|]; lia.
  - eapply parses_mono;
      [apply parseExpr_parses, parseLogical_chain;
       [eapply parses_mono;
          [apply parseComparasion_lift, parseTerm_lift, parseFactor_lift, H0|]
       |by apply chain_of_atoms]|]; lia.
Qed.

Lemma parsePrimary_paren f0 open ts e close :
  Kind_ open = OPEN_PAREN → Kind_ close = CLOSE_PAREN →
  parses parseExpr stop_logical f0 ts e →
  reads parsePrimary (f0 + 1) (open :: ts ++ [close]) e.
Proof.
  intros Hopen Hclose He fuel p rest Hfuel Htoks.
  simpl in Htoks. rewrite <- app_assoc in Htoks. simpl in Htoks.
  destruct fuel as [|fuel]; [lia|]. cbn [parsePrimary].
  rewrite (bind_Ok _ _ _ _ _ (Peek_hd p _ _ Htoks)), Hopen. cbn beta iota.
  rewrite (bind_Ok _ _ _ _ _ (Skip_hd p _ _ Htoks)).
  rewrite (bind_Ok _ _ _ _ _
             (He fuel (leaving p (ts ++ close :: rest)) (close :: rest)
                 ltac:(lia) eq_refl ltac:(simpl; by rewrite Hclose))).
  rewrite leaving_leaving.
  rewrite (bind_Ok _ _ _ _ _
             (expect_Ok (leaving p (close :: rest)) close rest CLOSE_PAREN eq_refl Hclose)).
  reflexivity.
Qed.

Lemma expect_not p K :
  Kind_ (lexer.Peek (lex p)) ≠ K →
  expect K p = (Ok (lexer.Peek (lex p), false), p).
Proof.
  intros Hne. unfold expect, bind, Peek.
  apply ParserTheory.Kind_eqb_neq in Hne. by rewrite Hne.
Qed.

Lemma bind_Err {A B} (m : M A) (k : A → M B) p e p' :
  m p = (Err e, p') → bind m k p = (Err e, p').
Proof. intros H. unfold bind. by rewrite H. Qed.

(** An error of [parsePrimary] on the first operand is the error of the
    expression. *)
Lemma operand_error fuel p tok rest e p' :
  toks (lex p) = tok :: rest → UNARY (Kind_ tok) = false →
  parsePrimary fuel p = (Err e, p') →
  parseExpr (S (S (S (S (S (S fuel)))))) p = (Err e, p').
Proof.
  intros Htoks Hk H.
  cbn [parseExpr parseLogical parseComparasion parseTerm parseFactor].
  do 4 apply bind_Err. cbn [parseUnary].
  by rewrite (bind_Ok _ _ _ _ _ (Peek_hd p _ _ Htoks)), Hk.
Qed.

(** X9. Parentheses group and leave no node: a parenthesised expression is
    an operand standing for the expression inside, so that followed by a
    chain of atoms of one binary level it is the first operand of the
    chain.  If what follows the expression inside is not the closing
    parenthesis, [parseExpr] returns the error "expected closing
    parenthesis", having read the expression. *)
Theorem parentheses_group (OPS : token.Kind → bool) f0 open ts e :
  OPS = FACTOR ∨ OPS = TERM ∨ OPS = COMPARASION ∨ OPS = LOGICAL →
  Kind_ open = OPEN_PAREN →
  parses parseExpr stop_logical f0 ts e →
  (∀ close items,
     Kind_ close = CLOSE_PAREN →
     Forall (λ item : Token * Token,
               OPS (Kind_ item.1) = true ∧ is_atom (Kind_ item.2) = true) items →
     parses parseExpr stop_logical (f0 + List.length items + 19)
            ((open :: ts ++ [close]) ++ chain_tokens (atoms items))
            (chain_expr e (atoms items)))
  ∧ (∀ fuel p rest,
       (f0 + 9 ≤ fuel)%nat →
       toks (lex p) = open :: ts ++ rest →
       stop_logical (Kind_ (hd (lexer.eof (lex p)) rest)) = false →
       Kind_ (hd (lexer.eof (lex p)) rest) ≠ CLOSE_PAREN →
       parseExpr fuel p
       = (Err (Errorf "expected closing parenthesis"), leaving p rest)).
Proof.
  intros HOPS Hopen He. split.
  - intros close items Hclose Hitems.
    eapply parses_mono; [apply (operand_atom_chain OPS (f0 + 1 + 1)); [done| |done]|lia].
    apply parsePrimary_parseUnary; [by rewrite Hopen|].
    apply reads_parses. by apply parsePrimary_paren.
  - intros fuel p rest Hfuel Htoks Hstop Hclose.
    do 7 (destruct fuel as [|fuel]; [lia|]).
    apply (operand_error _ _ _ _ _ _ Htoks); [by rewrite Hopen|].
    cbn [parsePrimary].
    rewrite (bind_Ok _ _ _ _ _ (Peek_hd p _ _ Htoks)), Hopen. cbn beta iota.
    rewrite (bind_Ok _ _ _ _ _ (Skip_hd p _ _ Htoks)).
    rewrite (bind_Ok _ _ _ _ _
               (He fuel (leaving p (ts ++ rest)) rest ltac:(lia) eq_refl Hstop)).
    rewrite leaving_leaving.
    assert (Hpeek : lexer.Peek (lex (leaving p rest)) = hd (lexer.eof (lex p)) rest).
    { unfold lexer.Peek. simpl. by destruct p as [[d f t] c m h]. }
    rewrite (bind_Ok _ _ _ _ _ (expect_not (leaving p rest) CLOSE_PAREN
               ltac:(by rewrite Hpeek))).
    reflexivity.
Qed.

(** ** Examples *)

Import samples.

(** [( a int b *u8 , ... )]: no comma after [a int], one after [b *u8]. *)
Lemma parseFunctionParams_reads_witness :
  let a := tk ID "a" 2 in
  let b := tk ID "b" 8 in
  let src := [tk OPEN_PAREN "(" 1; a; tk INT_TYPE "int" 4; b; tk STAR "*" 10;
              tk U8_TYPE "u8" 11; tk COMMA "," 13; tk DOT_DOT_DOT "..." 15;
              tk CLOSE_PAREN ")" 18] in
  spells [tk STAR "*" 10; tk U8_TYPE "u8" 11] (PointerType (BasicType U8_TYPE))
  ∧ parseFunctionParams 3 (parserOn src)
    = (Ok (mkFieldList (tk OPEN_PAREN "(" 1)
             [mkField a (BasicType INT_TYPE);
              mkField b (PointerType (BasicType U8_TYPE))]
             true (tk CLOSE_PAREN ")" 18)),
       parserOn []).
Proof.
  intros a b src.
  assert (Hint : spells [tk INT_TYPE "int" 4] (BasicType INT_TYPE))
    by exact (spells_basic (tk INT_TYPE "int" 4) eq_refl).
  assert (Hptr : spells [tk STAR "*" 10; tk U8_TYPE "u8" 11]
                        (PointerType (BasicType U8_TYPE)))
    by exact (spells_pointer (tk STAR "*" 10) _ _ eq_refl
                (spells_basic (tk U8_TYPE "u8" 11) eq_refl)).
  split; [exact Hptr|].
  refine (parseFunctionParams_reads (tk OPEN_PAREN "(" 1)
            [(a, [tk INT_TYPE "int" 4], BasicType INT_TYPE, None);
             (b, [tk STAR "*" 10; tk U8_TYPE "u8" 11],
              PointerType (BasicType U8_TYPE), Some (tk COMMA "," 13))]
            (Some (tk DOT_DOT_DOT "..." 15)) (tk CLOSE_PAREN ")" 18)
            eq_refl _ _ eq_refl 3 (parserOn src) [] (le_n _) eq_refl).
  - repeat apply Forall_cons_2; [| |apply Forall_nil_2].
    + split; [reflexivity|]. split; [exact Hint|]. intros tok H. discriminate H.
    + split; [reflexivity|]. split; [exact Hptr|]. intros tok [= <-]. reflexivity.
  - intros tok [= <-]. reflexivity.
Defined.

Lemma atom_argument tok :
  is_atom (Kind_ tok) = true →
  parses parseExpr stop_logical 30 [tok] (atom_expr tok).
Proof.
  intros H. eapply parses_mono; [by apply operand_lifts, parseUnary_atom|lia].
Qed.

(** [f(1, g(x) 2)]: a call among the arguments, and no comma after it. *)
Lemma call_arguments_witness :
  let f := tk ID "f" 1 in
  let g := tk ID "g" 6 in
  let x := tk ID "x" 8 in
  let one := tk INTEGER_LITERAL "1" 3 in
  let two := tk INTEGER_LITERAL "2" 11 in
  ParseExprFrom 50
    [f; tk OPEN_PAREN "(" 2; one; tk COMMA "," 4; g; tk OPEN_PAREN "(" 7; x;
     tk CLOSE_PAREN ")" 9; two; tk CLOSE_PAREN ")" 12] "main.t"
  = Ok (FunctionCallExpr (mkFunctionCall f
          [LiteralExpr (BasicType INTEGER_LITERAL) "1";
           FunctionCallExpr (mkFunctionCall g [IdExpr x]);
           LiteralExpr (BasicType INTEGER_LITERAL) "2"])).
Proof.
  intros f g x one two.
  assert (Hg : parses parseExpr stop_logical 30
                 [g; tk OPEN_PAREN "(" 7; x; tk CLOSE_PAREN ")" 9]
                 (FunctionCallExpr (mkFunctionCall g [IdExpr x]))).
  { eapply parses_mono;
      [apply (call_arguments 15 g (tk OPEN_PAREN "(" 7) [([x], IdExpr x, None)]
                (tk CLOSE_PAREN ")" 9) eq_refl eq_refl eq_refl)|simpl; lia].
    split; [|split; [reflexivity|split; [split; [reflexivity|discriminate]|exact I]]].
    eapply parses_mono; [apply (operand_lifts 2), (parseUnary_atom x eq_refl)|lia]. }
  unfold ParseExprFrom.
  rewrite (call_arguments 30 f (tk OPEN_PAREN "(" 2)
             [([one], atom_expr one, Some (tk COMMA "," 4));
              ([g; tk OPEN_PAREN "(" 7; x; tk CLOSE_PAREN ")" 9],
               FunctionCallExpr (mkFunctionCall g [IdExpr x]), None);
              ([two], atom_expr two, None)]
             (tk CLOSE_PAREN ")" 12) eq_refl eq_refl eq_refl
             ltac:(repeat split; try reflexivity; try discriminate;
                   [exact (atom_argument one eq_refl)|exact Hg
                   |exact (atom_argument two eq_refl)])
             50 _ []);
    [reflexivity|simpl; lia|reflexivity|reflexivity].
Defined.

(** [- - 1 * not x] is [(-(-1)) * (not x)]. *)
Lemma prefixed_chains_fold_left_witness :
  let minus c := tk MINUS "-" c in
  let one := tk INTEGER_LITERAL "1" 5 in
  let x := tk ID "x" 13 in
  FACTOR = FACTOR
  ∧ ParseExprFrom 32
      [minus 1; minus 3; one; tk STAR "*" 7; tk NOT "not" 9; x] "main.t"
    = Ok (BinaryExpr
            (UnaryExpr MINUS (UnaryExpr MINUS
               (LiteralExpr (BasicType INTEGER_LITERAL) "1")))
            STAR (UnaryExpr NOT (IdExpr x))).
Proof.
  intros minus one x. split; [reflexivity|].
  unfold ParseExprFrom.
  rewrite (prefixed_chains_fold_left FACTOR [minus 1; minus 3] one
             [(tk STAR "*" 7, [tk NOT "not" 9], x)]
             (or_introl eq_refl)
             ltac:(split; [repeat constructor|reflexivity])
             ltac:(repeat constructor)
             32 _ []);
    [reflexivity|simpl; lia|reflexivity|reflexivity].
Defined.

(** [(1 + 2) * 3] is [(1 + 2) * 3], and [(1 + 2 ;] lacks its parenthesis. *)
Lemma parentheses_group_witness :
  let lit s c := tk INTEGER_LITERAL s c in
  let e s := LiteralExpr (BasicType INTEGER_LITERAL) s in
  ParseExprFrom 50
    [tk OPEN_PAREN "(" 1; lit "1" 2; tk PLUS "+" 4; lit "2" 6; tk CLOSE_PAREN ")" 7;
     tk STAR "*" 9; lit "3" 11] "main.t"
  = Ok (BinaryExpr (BinaryExpr (e "1") PLUS (e "2")) STAR (e "3"))
  ∧ ParseExprFrom 50
      [tk OPEN_PAREN "(" 1; lit "1" 2; tk PLUS "+" 4; lit "2" 6; tk SEMICOLON ";" 7]
      "main.t"
    = Err (Errorf "expected closing parenthesis").
Proof.
  intros lit e.
  assert (Hsum : parses parseExpr stop_logical 20
                   [lit "1" 2; tk PLUS "+" 4; lit "2" 6]
                   (BinaryExpr (e "1") PLUS (e "2"))).
  { exact (operand_atom_chain TERM 2 [lit "1" 2] (e "1") [(tk PLUS "+" 4, lit "2" 6)]
             (or_intror (or_introl eq_refl)) (parseUnary_atom (lit "1" 2) eq_refl)
             ltac:(repeat constructor)). }
  destruct (parentheses_group FACTOR 20 (tk OPEN_PAREN "(" 1) _ _
              (or_introl eq_refl) eq_refl Hsum) as [Hgroup Hopen].
  unfold ParseExprFrom. split.
  - rewrite (Hgroup (tk CLOSE_PAREN ")" 7) [(tk STAR "*" 9, lit "3" 11)] eq_refl
               ltac:(repeat constructor) 50 _ []);
      [reflexivity|simpl; lia|reflexivity|reflexivity].
  - rewrite (Hopen 50 _ [tk SEMICOLON ";" 7]);
      [reflexivity|simpl; lia|reflexivity|reflexivity|discriminate].
Defined.

End SyntaxTheory.

(** * The precedence ladder *)

Module LadderTheory.
Import token lexer ast parser grammar syntax ladder samples.
Import GrammarTheory SyntaxTheory.

Section Level.
Context {A : Type} (OPS : token.Kind → bool).
Context (tokens : A → list Token) (expr : A → Expr) (ok : A → Prop).

(** Every operator and every operand of a chain takes room among its
    tokens. *)
Lemma operands_lengths (items : list (Token * A)) :
  (List.length items ≤ List.length (chain_tokens (operands tokens expr items)))%nat
  ∧ Forall (λ item : Token * A,
              (List.length (tokens item.2) + List.length items
               ≤ List.length (chain_tokens (operands tokens expr items)))%nat) items.
Proof.
  induction items as [|[op a] items [IH1 IH2]]; [split; [done|constructor]|].
  change (chain_tokens (operands tokens expr ((op, a) :: items)))
    with (op :: tokens a ++ chain_tokens (operands tokens expr items)).
  split.
  - cbn [length]. rewrite length_app. lia.
  - constructor.
    + cbn [fst snd length]. rewrite length_app. lia.
    + eapply Forall_impl; [exact IH2|]. intros [op' a'] H.
      cbn [fst snd length] in *. rewrite length_app. lia.
Qed.

(** One level of the ladder: when the operands are read by [sub] with two
    units of fuel for each of their tokens and [c] more, their chain is
    read by [f] with two units for each of its tokens and [c + 2] more,
    and folds to the left. *)
Lemma level_parses (stop_sub stop : token.Kind → bool) (sub f : nat → M Expr) (c : nat) :
  (∀ f0 ts0 e0 items,
     parses sub stop_sub f0 ts0 e0 →
     chain_of OPS stop_sub sub f0 items →
     parses f stop (f0 + List.length items + 2)
            (ts0 ++ chain_tokens items) (chain_expr e0 items)) →
  (∀ a, ok a →
     parses sub stop_sub (2 * List.length (tokens a) + c) (tokens a) (expr a)) →
  ∀ l : Level A, level_ok OPS ok l →
    parses f stop (2 * List.length (level_tokens tokens expr l) + (c + 2))
           (level_tokens tokens expr l) (level_expr tokens expr l).
Proof.
  intros Hchain Hsub [a0 items] [Hok0 Hitems]. unfold level_tokens, level_expr.
  cbn [fst snd] in *.
  destruct (operands_lengths items) as [Hcount Hlens].
  set (ts := tokens a0 ++ chain_tokens (operands tokens expr items)).
  set (f0 := (2 * (List.length ts - List.length items) + c)%nat).
  assert (Hts : List.length ts
                = (List.length (tokens a0)
                   + List.length (chain_tokens (operands tokens expr items)))%nat)
    by (unfold ts; by rewrite length_app).
  eapply parses_mono; [apply (Hchain f0)|].
  - eapply parses_mono; [by apply Hsub|]. unfold f0. lia.
  - unfold chain_of, operands. apply Forall_map.
    rewrite Forall_forall in Hitems, Hlens |- *. intros [op a] Hin.
    destruct (Hitems _ Hin) as [Hop Hok]. pose proof (Hlens _ Hin) as Hlen.
    cbn [fst snd] in *. split; [done|].
    eapply parses_mono; [by apply Hsub|]. unfold f0. lia.
  - unfold operands at 1. rewrite length_map. unfold f0. lia.
Qed.

End Level.

Lemma unary_parses (u : Unary) :
  unary_ok u →
  parses parseUnary stop_unary (2 * List.length (unary_tokens u) + 2)
         (unary_tokens u) (unary_expr u).
Proof.
  destruct u as [pre x]. intros Hok. unfold unary_tokens, unary_expr. cbn [fst snd].
  eapply parses_mono; [by apply prefixed_atom_parseUnary|].
  rewrite length_app. simpl. lia.
Qed.

Lemma factors_parses (l : Factors) :
  factors_ok l →
  parses parseFactor stop_factor (2 * List.length (factors_tokens l) + 4)
         (factors_tokens l) (factors_expr l).
Proof.
  apply (level_parses FACTOR unary_tokens unary_expr unary_ok stop_unary stop_factor
           parseUnary parseFactor 2 parseFactor_chain unary_parses).
Qed.

Lemma terms_parses (l : Terms) :
  terms_ok l →
  parses parseTerm stop_term (2 * List.length (terms_tokens l) + 6)
         (terms_tokens l) (terms_expr l).
Proof.
  apply (level_parses TERM factors_tokens factors_expr factors_ok stop_factor stop_term
           parseFactor parseTerm 4 parseTerm_chain factors_parses).
Qed.

Lemma comparasions_parses (l : Comparasions) :
  comparasions_ok l →
  parses parseComparasion stop_comparasion
         (2 * List.length (comparasions_tokens l) + 8)
         (comparasions_tokens l) (comparasions_expr l).
Proof.
  apply (level_parses COMPARASION terms_tokens terms_expr terms_ok stop_term
           stop_comparasion parseTerm parseComparasion 6 parseComparasion_chain
           terms_parses).
Qed.

Lemma logicals_parses (l : Logicals) :
  logicals_ok l →
  parses parseLogical stop_logical (2 * List.length (logicals_tokens l) + 10)
         (logicals_tokens l) (logicals_expr l).
Proof.
  apply (level_parses LOGICAL comparasions_tokens comparasions_expr comparasions_ok
           stop_comparasion stop_logical parseComparasion parseLogical 8
           parseLogical_chain comparasions_parses).
Qed.

(** C5. The expression parser respects the ladder, and every level folds
    to the left.  An expression written as a chain of logical operators
    over chains of comparisons over chains of [+] and [-] over chains of
    [*] and [/] over atoms with prefix operators, each chain of any
    length, is read by [parseExpr] to its end as the tree in which every
    chain is folded to the left over its operands, each operand being the
    tree of the tighter chain it is written as, and the prefix operators
    are nested on their atom.  In particular, for whatever lexemes and
    positions, [1 + 2 * 3] is [1 + (2 * 3)], [1 * 2 + 3] is [(1 * 2) + 3]
    and [not a and b] is [(not a) and b]. *)
Theorem precedence_ladder :
  (∀ l : Logicals, logicals_ok l →
     parses parseExpr stop_logical (2 * List.length (logicals_tokens l) + 11)
            (logicals_tokens l) (logicals_expr l))
  ∧ (∀ (n : nat) (a b c op1 op2 : string) (p1 p2 p3 p4 p5 : Position),
       let lit s := LiteralExpr (BasicType INTEGER_LITERAL) s in
       ParseExprFrom (20 + n)
         [mkToken INTEGER_LITERAL a p1; mkToken PLUS op1 p2; mkToken INTEGER_LITERAL b p3;
          mkToken STAR op2 p4; mkToken INTEGER_LITERAL c p5] "main.t"
       = Ok (BinaryExpr (lit a) PLUS (BinaryExpr (lit b) STAR (lit c)))
       ∧ ParseExprFrom (20 + n)
           [mkToken INTEGER_LITERAL a p1; mkToken STAR op1 p2;
            mkToken INTEGER_LITERAL b p3; mkToken PLUS op2 p4;
            mkToken INTEGER_LITERAL c p5] "main.t"
         = Ok (BinaryExpr (BinaryExpr (lit a) STAR (lit b)) PLUS (lit c))
       ∧ ParseExprFrom (20 + n)
           [mkToken NOT op1 p1; mkToken ID a p2; mkToken AND op2 p3; mkToken ID b p4]
           "main.t"
         = Ok (BinaryExpr (UnaryExpr NOT (IdExpr (mkToken ID a p2))) AND
                          (IdExpr (mkToken ID b p4)))).
Proof.
  split.
  - intros l Hok. eapply parses_mono; [by apply parseExpr_parses, logicals_parses|lia].
  - intros n a b c op1 op2 p1 p2 p3 p4 p5 lit.
    destruct (ParserTheory.precedence_examples n a b c op1 op2 p1 p2 p3 p4 p5)
      as (H1 & H2 & H3 & _).
    split; [exact H1|]. split; [exact H2|exact H3].
Qed.

(** [1 + 2 * 3 < 4 and not a]: the product is the right operand of the
    sum, the sum the left operand of the comparison, the comparison the
    left operand of [and]. *)
Lemma precedence_ladder_witness :
  let lit s c := tk INTEGER_LITERAL s c in
  let e s := LiteralExpr (BasicType INTEGER_LITERAL) s in
  let a := tk ID "a" 21 in
  ParseExprFrom 40
    [lit "1" 1; tk PLUS "+" 3; lit "2" 5; tk STAR "*" 7; lit "3" 9; tk LESS "<" 11;
     lit "4" 13; tk AND "and" 15; tk NOT "not" 19; a] "main.t"
  = Ok (BinaryExpr
          (BinaryExpr (BinaryExpr (e "1") PLUS (BinaryExpr (e "2") STAR (e "3")))
                      LESS (e "4"))
          AND (UnaryExpr NOT (IdExpr a))).
Proof.
  intros lit e a.
  set (u (x : Token) := (([] : list Token, x), [] : list (Token * Unary)) : Factors).
  set (t (f : Factors) := (f, [] : list (Token * Factors)) : Terms).
  set (l := ((((u (lit "1" 1), [(tk PLUS "+" 3,
                                   ((([], lit "2" 5), [(tk STAR "*" 7, ([], lit "3" 9))])
                                    : Factors))]) : Terms,
               [(tk LESS "<" 11, t (u (lit "4" 13)))]) : Comparasions,
              [(tk AND "and" 15,
                ((t ((([tk NOT "not" 19], a), []) : Factors), []) : Comparasions))])
             : Logicals)).
  assert (Hok : logicals_ok l).
  { unfold l, t, u. repeat (split || constructor). }
  unfold ParseExprFrom.
  rewrite (proj1 precedence_ladder l Hok 40 _ []);
    [reflexivity|vm_compute; lia|reflexivity|reflexivity].
Defined.

End LadderTheory.

(** * Diagnostics and scopes over a parse *)

Module FrameTheory.
Import token lexer ast parser frames.

Lemma quiet_ret {A} (a : A) : quiet (ret a).
Proof. by intros p. Qed.
Lemma quiet_fail {A} e : quiet (fail e : M A).
Proof. by intros p. Qed.
Lemma quiet_fatal {A} msg : quiet (fatal msg : M A).
Proof. by intros p. Qed.
Lemma quiet_outOfFuel {A} : quiet (outOfFuel : M A).
Proof. by intros p. Qed.
Lemma quiet_Peek : quiet Peek.
Proof. by intros p. Qed.
Lemma quiet_Peek1 : quiet Peek1.
Proof. by intros p. Qed.
Lemma quiet_Skip : quiet Skip.
Proof. by intros p. Qed.
Lemma quiet_NextIs K : quiet (NextIs K).
Proof. by intros p. Qed.
Lemma quiet_NextIsAny ends : quiet (NextIsAny ends).
Proof. by intros p. Qed.

Lemma quiet_bind {A B} (m : M A) (k : A → M B) :
  quiet m → (∀ a, quiet (k a)) → quiet (bind m k).
Proof.
  intros Hm Hk p. unfold bind. destruct (Hm p) as (H1 & H2 & H3).
  destruct (m p) as [[a|e|msg|] p1]; simpl in *; try done.
  destruct (Hk a p1) as (K1 & K2 & K3). by rewrite K1, K2, K3.
Qed.

Lemma quiet_handle {A B} (m : M A) (onErr : error → M B) (k : A → M B) :
  quiet m → (∀ e, quiet (onErr e)) → (∀ a, quiet (k a)) → quiet (handle m onErr k).
Proof.
  intros Hm Herr Hk p. unfold handle. destruct (Hm p) as (H1 & H2 & H3).
  destruct (m p) as [[a|e|msg|] p1]; simpl in *; try done.
  - destruct (Hk a p1) as (K1 & K2 & K3). by rewrite K1, K2, K3.
  - destruct (Herr e p1) as (K1 & K2 & K3). by rewrite K1, K2, K3.
Qed.

Lemma quiet_expect K : quiet (expect K).
Proof.
  unfold expect. apply quiet_bind; [apply quiet_Peek|]. intros tok.
  destruct (negb _); [apply quiet_ret|].
  apply quiet_bind; [apply quiet_Skip|]. intros _. apply quiet_ret.
Qed.

Lemma quiet_parseExprType : quiet parseExprType.
Proof.
  intros p. unfold parseExprType. by destruct (parseExprType_from _) as [r ts].
Qed.

Ltac conjuncts := repeat match goal with |- _ ∧ _ => split end.

(** One step through a body whose calls are known to be quiet. *)
Ltac quiet_step :=
  first
    [ assumption
    | apply quiet_ret | apply quiet_fail | apply quiet_fatal | apply quiet_outOfFuel
    | apply quiet_Peek | apply quiet_Peek1 | apply quiet_Skip | apply quiet_NextIs
    | apply quiet_NextIsAny | apply quiet_expect | apply quiet_parseExprType
    | match goal with H : ∀ _, quiet _ |- _ => apply H end
    | match goal with H : ∀ _ _, quiet _ |- _ => apply H end
    | apply quiet_bind; [|intros ?]
    | apply quiet_handle; [|intros ?|intros ?]
    | match goal with
      | |- quiet (match ?x with _ => _ end) => destruct x
      | |- quiet (if ?b then _ else _) => destruct b
      end
    | progress cbn beta iota zeta ].

Ltac quiet_go := repeat quiet_step.

Lemma quiet_expressions fuel :
  quiet (parseExpr fuel)
  ∧ quiet (parseLogical fuel) ∧ (∀ lhs, quiet (parseLogical_loop fuel lhs))
  ∧ quiet (parseComparasion fuel) ∧ (∀ lhs, quiet (parseComparasion_loop fuel lhs))
  ∧ quiet (parseTerm fuel) ∧ (∀ lhs, quiet (parseTerm_loop fuel lhs))
  ∧ quiet (parseFactor fuel) ∧ (∀ lhs, quiet (parseFactor_loop fuel lhs))
  ∧ quiet (parseUnary fuel) ∧ quiet (parsePrimary fuel)
  ∧ (∀ ends, quiet (parseExprList fuel ends))
  ∧ (∀ ends exprs, quiet (parseExprList_loop fuel ends exprs))
  ∧ quiet (parseFnCall fuel) ∧ quiet (parseFieldAccess fuel).
Proof.
  induction fuel as [|fuel IH].
  - conjuncts; intros; apply quiet_outOfFuel.
  - destruct IH as (H1 & H2 & H3 & H4 & H5 & H6 & H7 & H8 & H9 & H10 & H11 & H12
                    & H13 & H14 & H15).
    conjuncts; intros;
      cbn [parseExpr parseLogical parseLogical_loop parseComparasion
           parseComparasion_loop parseTerm parseTerm_loop parseFactor parseFactor_loop
           parseUnary parsePrimary parseExprList parseExprList_loop parseFnCall
           parseFieldAccess];
      quiet_go.
Qed.

Lemma quiet_parseVar_loop fuel : ∀ variables, quiet (parseVar_loop fuel variables).
Proof.
  induction fuel as [|fuel IH]; intros variables; [apply quiet_outOfFuel|].
  cbn [parseVar_loop]. quiet_go.
Qed.

Lemma quiet_parseVar fuel : quiet (parseVar fuel).
Proof.
  pose proof (quiet_parseVar_loop fuel).
  destruct (quiet_expressions fuel) as (_ & _ & _ & _ & _ & _ & _ & _ & _ & _ & _ & H12 & _).
  unfold parseVar, parseVar_finish. quiet_go.
Qed.

Lemma quiet_ParseIdStmt fuel : quiet (ParseIdStmt fuel).
Proof.
  pose proof (quiet_parseVar fuel).
  destruct (quiet_expressions fuel)
    as (_ & _ & _ & _ & _ & _ & _ & _ & _ & _ & _ & _ & _ & H14 & H15).
  unfold ParseIdStmt. quiet_go.
Qed.

(** ** Stopping at the first diagnostic *)

Lemma failfast_quiet {A} (m : M A) : quiet m → failfast m.
Proof.
  intros H p. destruct (H p) as (H1 & H2 & H3).
  split; [done|]. split; [done|]. by left.
Qed.

Lemma failfast_bind {A B} (m : M A) (k : A → M B) :
  failfast m → (∀ a, failfast (k a)) → failfast (bind m k).
Proof.
  intros Hm Hk p. unfold bind. destruct (Hm p) as (H1 & H2 & H3).
  destruct (m p) as [[a|e|msg|] p1]; simpl in *;
    [|split; [done|]; split; [done|];
      (destruct H3 as [H3|(d & H3 & H4)];
         [by left|right; exists d; split; [done|]; by simplify_eq])..].
  destruct (Hk a p1) as (K1 & K2 & K3). rewrite K1, K2.
  split; [done|]. split; [done|].
  destruct H3 as [H3|(d & _ & [=])]. by rewrite <- H3.
Qed.

Lemma failfast_handle {A B} (m : M A) (onErr : error → M B) (k : A → M B) :
  quiet m → (∀ e, failfast (onErr e)) → (∀ a, failfast (k a)) →
  failfast (handle m onErr k).
Proof.
  intros Hm Herr Hk p. unfold handle. destruct (Hm p) as (H1 & H2 & H3).
  destruct (m p) as [[a|e|msg|] p1]; simpl in *.
  - destruct (Hk a p1) as (K1 & K2 & K3). by rewrite K1, K2, <- H1.
  - destruct (Herr e p1) as (K1 & K2 & K3). by rewrite K1, K2, <- H1.
  - split; [done|]. split; [done|]. left. done.
  - split; [done|]. split; [done|]. left. done.
Qed.

(** [p.collector.ReportAndSave(diag); return nil, COMPILER_ERROR_FOUND] *)
Lemma failfast_report {A} d :
  failfast (ReportAndSave d ;; (fail COMPILER_ERROR_FOUND : M A)).
Proof. intros p. split; [done|]. split; [done|]. right. by exists d. Qed.

Ltac failfast_step :=
  first
    [ assumption
    | apply failfast_quiet; assumption
    | apply failfast_report
    | match goal with H : ∀ _, failfast _ |- _ => apply H end
    | apply failfast_handle; [solve [quiet_go]|intros ?|intros ?]
    | apply failfast_bind; [|intros ?]
    | match goal with
      | |- failfast (match ?x with _ => _ end) => destruct x
      | |- failfast (if ?b then _ else _) => destruct b
      end
    | apply failfast_quiet; solve [quiet_go]
    | progress cbn beta iota zeta ].

Ltac failfast_go := repeat failfast_step.

Lemma failfast_statements fuel :
  failfast (parseStmt fuel) ∧ failfast (parseBlock fuel)
  ∧ (∀ statements, failfast (parseBlock_loop fuel statements))
  ∧ failfast (parseCondStmt fuel) ∧ failfast (parseIfCond fuel)
  ∧ (∀ elifConds, failfast (parseElifConds fuel elifConds))
  ∧ failfast (parseElseCond fuel)
  ∧ failfast (parseForLoop fuel) ∧ failfast (parseWhileLoop fuel).
Proof.
  induction fuel as [|fuel IH].
  - conjuncts; intros; apply failfast_quiet, quiet_outOfFuel.
  - destruct IH as (H1 & H2 & H3 & H4 & H5 & H6 & H7 & H8 & H9).
    pose proof (quiet_parseVar fuel). pose proof (quiet_ParseIdStmt fuel).
    destruct (quiet_expressions fuel) as (? & _).
    conjuncts; intros;
      cbn [parseStmt parseBlock parseBlock_loop parseCondStmt parseIfCond
           parseElifConds parseElseCond parseForLoop parseWhileLoop];
      failfast_go.
Qed.

Lemma failfast_parseFunctionParams_loop fuel : ∀ params isVariadic,
  failfast (parseFunctionParams_loop fuel params isVariadic).
Proof.
  induction fuel as [|fuel IH]; intros params isVariadic;
    [apply failfast_quiet, quiet_outOfFuel|].
  cbn [parseFunctionParams_loop].
  assert (Hrec : ∀ params, failfast (parseFunctionParams_loop fuel params isVariadic))
    by (intros; apply IH).
  clear IH. failfast_go.
Qed.

Lemma failfast_parseFunctionParams fuel : failfast (parseFunctionParams fuel).
Proof.
  pose proof (failfast_parseFunctionParams_loop fuel [] false).
  unfold parseFunctionParams. failfast_go.
Qed.

Lemma failfast_parseReturnType isPrototype : failfast (parseReturnType isPrototype).
Proof. unfold parseReturnType. failfast_go. Qed.

Lemma failfast_parsePrototype fuel : failfast (parsePrototype fuel).
Proof.
  pose proof (failfast_parseFunctionParams fuel).
  pose proof (failfast_parseReturnType true).
  unfold parsePrototype. failfast_go.
Qed.

Lemma failfast_parseExternDecl_loop fuel : ∀ prototypes,
  failfast (parseExternDecl_loop fuel prototypes).
Proof.
  induction fuel as [|fuel IH]; intros prototypes;
    [apply failfast_quiet, quiet_outOfFuel|].
  pose proof (failfast_parsePrototype fuel).
  cbn [parseExternDecl_loop]. failfast_go.
Qed.

Lemma failfast_parseExternDecl fuel : failfast (parseExternDecl fuel).
Proof.
  pose proof (failfast_parseExternDecl_loop fuel).
  unfold parseExternDecl. failfast_go.
Qed.

End FrameTheory.

Module DeclTheory.
Import token lexer ast parser frames FrameTheory.

(** ** How the scope store evolves *)

Lemma scope_agree (σ : scope.store Node) s sc sc' :
  σ !! s = Some sc → σ !! s = Some sc' → sc = sc'.
Proof. congruence. Qed.

Lemma evolves_refl σ : evolves σ σ.
Proof.
  split; [done|]. split.
  - intros s sc Hs. by exists sc.
  - intros s sc' parent Hs Hsc. apply lookup_lt_Some in Hsc. lia.
Qed.

Lemma evolves_trans σ1 σ2 σ3 : evolves σ1 σ2 → evolves σ2 σ3 → evolves σ1 σ3.
Proof.
  intros (L1 & K1 & N1) (L2 & K2 & N2). split; [lia|]. split.
  - intros s sc Hs. destruct (K1 s sc Hs) as (sc2 & Hs2 & Hp2 & Hn2).
    destruct (K2 s sc2 Hs2) as (sc3 & Hs3 & Hp3 & Hn3).
    exists sc3. split; [done|]. split; [congruence|]. by etrans.
  - intros s sc3 parent Hs Hsc3 Hp.
    destruct (decide (s < List.length σ2)%nat) as [Hlt|Hge].
    + destruct (lookup_lt_is_Some_2 σ2 s Hlt) as [sc2 Hs2].
      destruct (K2 s sc2 Hs2) as (sc3' & Hs3 & Hp3 & _).
      assert (sc3' = sc3) as -> by (by eapply scope_agree).
      eapply N1; [done|done|congruence].
    + eapply N2; [|done|done]. lia.
Qed.

Lemma evolves_New σ parent :
  (∀ p, parent = Some p → (p < List.length σ)%nat) →
  evolves σ (ast.NewScope parent σ).2.
Proof.
  intros Hpar. unfold ast.NewScope. simpl. split; [rewrite length_app; simpl; lia|]. split.
  - intros s sc Hs. exists sc. split; [|done].
    rewrite lookup_app_l; [done|by eapply lookup_lt_Some].
  - intros s sc' p Hs Hsc Hp.
    rewrite lookup_app_r in Hsc by done.
    destruct (s - List.length σ)%nat as [|k] eqn:Hk; simpl in Hsc; [|by destruct k].
    injection Hsc as <-. simpl in Hp. specialize (Hpar _ Hp). lia.
Qed.

Lemma evolves_Insert σ σ' s name (node : Node) r :
  ast.Insert s name node σ = Some (r, σ') → evolves σ σ'.
Proof.
  intros HI. apply ParserTheory.ast_Insert_inv in HI as (sc & Hs & HI).
  destruct r as [e|].
  - destruct HI as (_ & -> & _). apply evolves_refl.
  - destruct HI as (Hn & ->). pose proof (lookup_lt_Some _ _ _ Hs) as Hlt.
    split; [by rewrite length_insert|]. split.
    + intros s' sc' Hs'. destruct (decide (s' = s)) as [->|Hne].
      * assert (sc' = sc) as -> by (by eapply scope_agree).
        eexists. split; [by apply list_lookup_insert_eq|]. split; [done|].
        simpl. by apply insert_subseteq.
      * exists sc'. split; [|done]. by rewrite list_lookup_insert_ne.
    + intros s' sc' parent Hs' Hsc'. apply lookup_lt_Some in Hsc'.
      rewrite length_insert in Hsc'. lia.
Qed.

Lemma evolves_wf σ σ' : scope.wf σ → evolves σ σ' → scope.wf σ'.
Proof.
  intros Hwf (L & K & N) s sc' parent Hs Hp.
  destruct (decide (s < List.length σ)%nat) as [Hlt|Hge].
  - destruct (lookup_lt_is_Some_2 σ s Hlt) as [sc Hsc].
    destruct (K s sc Hsc) as (sc'' & Hs'' & Hp'' & _).
    assert (sc'' = sc') as -> by (by eapply scope_agree).
    eapply Hwf; [done|congruence].
  - eapply N; [|done|done]. lia.
Qed.

(** ** Declarations *)

Lemma one_report_retype {A B} (r : Result A) (r' : Result B) before after :
  one_report r before after →
  (∀ e, r = Err e → r' = Err e) →
  one_report r' before after.
Proof.
  intros [H|(d & e & H1 & H2 & H3)] Hr; [by left|right; exists d, e; auto].
Qed.

Lemma one_report_first_error {A} (r : Result A) before after :
  first_error r before after → one_report r before after.
Proof.
  intros [H|(d & H1 & H2)]; [by left|].
  right. exists d, COMPILER_ERROR_FOUND. split; [done|]. split; [done|by left].
Qed.

Lemma declares_failfast {A} (m : M A) : failfast m → declares m.
Proof.
  intros H p _. destruct (H p) as (H1 & H2 & H3).
  split; [done|]. split; [rewrite H2; apply evolves_refl|].
  by apply one_report_first_error.
Qed.

Lemma declares_bind {A B} (m : M A) (k : A → M B) :
  declares m → (∀ a, declares (k a)) → declares (bind m k).
Proof.
  intros Hm Hk p Hvalid. unfold bind. destruct (Hm p Hvalid) as (H1 & H2 & H3).
  destruct (m p) as [[a|e|msg|] p1]; simpl in *;
    [|split; [done|]; split; [done|];
      (eapply one_report_retype; [exact H3|by intros ? [= ->]])..].
  assert (Hvalid1 : valid p1).
  { intros s Hs. rewrite H1 in Hs. specialize (Hvalid s Hs).
    destruct H2 as (L & _). lia. }
  destruct (Hk a p1 Hvalid1) as (K1 & K2 & K3).
  split; [congruence|]. split; [by eapply evolves_trans|].
  destruct H3 as [H3|(d & e & _ & [=] & _)]. by rewrite <- H3.
Qed.

(** The end of [parseFnDecl]: the scope of the function is allocated and
    the declaration inserted in the module scope. *)
Lemma declares_registration name params block returnType :
  declares
    (let* moduleScope := (λ p, (Ok (moduleScope p), p)) in
     let* fnScope := NewScope moduleScope in
     let fnDecl := mkFunctionDecl fnScope name params block returnType in
     let* err := ScopeInsert moduleScope (token.Name name) (FunctionDeclNode fnDecl) in
     match err with
     | Some err =>
         (if same err ERR_SYMBOL_ALREADY_DEFINED_ON_SCOPE
          then ReportAndSave (functionRedeclaration name)
          else ret tt) ;;
         fail err
     | None => ret fnDecl
     end).
Proof.
  intros p Hvalid. unfold bind, NewScope, ScopeInsert.
  pose proof (evolves_New (heap p) (moduleScope p) Hvalid) as Hnew.
  destruct (ast.NewScope (moduleScope p) (heap p)) as [fnScope σ] eqn:HN.
  simpl in Hnew. cbn [heap set_heap].
  destruct (moduleScope p) as [s|] eqn:Hs; [|split; [done|]; split; [done|by left]].
  destruct (ast.Insert s _ _ σ) as [[err σ']|] eqn:HI;
    [|split; [done|]; split; [done|by left]].
  pose proof (evolves_Insert _ _ _ _ _ _ HI) as Hins.
  destruct err as [err|].
  - apply ParserTheory.ast_Insert_inv in HI as (sc & _ & _ & _ & ->). simpl.
    split; [done|]. split; [by eapply evolves_trans|].
    right. exists (functionRedeclaration name), ERR_SYMBOL_ALREADY_DEFINED_ON_SCOPE.
    split; [done|]. split; [done|by right].
  - simpl. split; [done|]. split; [by eapply evolves_trans|by left].
Qed.

Ltac declares_step :=
  first
    [ assumption
    | apply declares_failfast; assumption
    | apply declares_failfast; apply failfast_report
    | apply declares_registration
    | match goal with H : ∀ _, declares _ |- _ => apply H end
    | apply declares_bind; [|intros ?]
    | match goal with
      | |- declares (match ?x with _ => _ end) => destruct x
      | |- declares (if ?b then _ else _) => destruct b
      end
    | apply declares_failfast; solve [failfast_go]
    | progress cbn beta iota zeta ].

Ltac declares_go := repeat declares_step.

Lemma declares_parseFnDecl fuel : declares (parseFnDecl fuel).
Proof.
  pose proof (failfast_parseFunctionParams fuel).
  pose proof (failfast_parseReturnType false).
  destruct (failfast_statements fuel) as (_ & Hblock & _).
  unfold parseFnDecl. declares_go.
Qed.

Lemma declares_next fuel : declares (next fuel).
Proof.
  pose proof (declares_parseFnDecl fuel).
  pose proof (failfast_parseExternDecl fuel).
  unfold next. declares_go.
Qed.

Lemma declares_parseFileNodes_loop fuel : ∀ nodes,
  declares (parseFileNodes_loop fuel nodes).
Proof.
  induction fuel as [|fuel IH]; intros nodes;
    [apply declares_failfast, failfast_quiet, quiet_outOfFuel|].
  pose proof (declares_next fuel).
  cbn [parseFileNodes_loop]. declares_go.
Qed.

(** A file: its scope is allocated below the module scope, then its
    declarations are read. *)
Lemma parseFile_frame fuel lex moduleScope p :
  (moduleScope < List.length (heap p))%nat →
  evolves (heap p) (heap (parseFile fuel lex moduleScope p).2)
  ∧ one_report (parseFile fuel lex moduleScope p).1 (collector p)
               (collector (parseFile fuel lex moduleScope p).2).
Proof.
  intros Hms.
  set (σ := (ast.NewScope (Some moduleScope) (heap p)).2).
  set (p1 := set_moduleScope (set_lex (set_heap p σ) lex) (Some moduleScope)).
  assert (Hrun : parseFile fuel lex moduleScope p
                 = match parseFileNodes_loop fuel [] p1 with
                   | (Ok nodes, p2) =>
                       (Ok (mkFile (ParentDirName lex) (Path lex)
                              (List.length (heap p)) nodes), p2)
                   | (Err e, p2) => (Err e, p2)
                   | (Exit msg, p2) => (Exit msg, p2)
                   | (OutOfFuel, p2) => (OutOfFuel, p2)
                   end).
  { reflexivity. }
  rewrite Hrun.
  assert (Hnew : evolves (heap p) σ).
  { apply evolves_New. by intros ? [= <-]. }
  assert (Hvalid : valid p1).
  { intros s [= <-]. simpl. destruct Hnew as (L & _). lia. }
  destruct (declares_parseFileNodes_loop fuel [] p1 Hvalid) as (_ & Hev & Hfirst).
  simpl in Hev, Hfirst.
  destruct (parseFileNodes_loop fuel [] p1) as [[nodes| | |] p2]; simpl in *;
    (split; [exact (evolves_trans _ _ _ Hnew Hev)|]);
    (eapply one_report_retype; [exact Hfirst|intros ? ?; by simplify_eq]).
Qed.

(** ** The module tree *)

Section Walk.
Context (quote : string → string).
Local Abbreviation buildModuleTree := (parser.buildModuleTree quote).
Local Abbreviation buildModuleTree_handler := (parser.buildModuleTree_handler quote).
Local Abbreviation ParseModuleDir := (parser.ParseModuleDir quote).

Lemma buildModuleTree_frame read : ∀ path module p,
  (Module_Scope module < List.length (heap p))%nat →
  evolves (heap p) (heap (buildModuleTree path read module p).2)
  ∧ one_report (buildModuleTree path read module p).1.1 (collector p)
               (collector (buildModuleTree path read module p).2)
  ∧ Module_Scope (buildModuleTree path read module p).1.2 = Module_Scope module.
Proof.
  induction read as [err|entries IH] using ModuleTreeTheory.ReadDir_tree_ind;
    intros path module p Hms; rewrite ModuleTreeTheory.buildModuleTree_unfold; simpl.
  { split; [apply evolves_refl|]. split; [by left|done]. }
  revert module p Hms.
  induction IH as [|entry entries Hentry _ IHentries]; intros module p Hms; simpl.
  { split; [apply evolves_refl|]. split; [by left|done]. }
  assert (Hstep : evolves (heap p)
            (heap (buildModuleTree_handler entry (Join path (Entry_Name entry)) module p).2)
          ∧ one_report
              (buildModuleTree_handler entry (Join path (Entry_Name entry)) module p).1.1
              (collector p)
              (collector (buildModuleTree_handler entry (Join path (Entry_Name entry))
                            module p).2)
          ∧ Module_Scope (buildModuleTree_handler entry (Join path (Entry_Name entry))
                            module p).1.2 = Module_Scope module).
  { destruct entry as [name read|name [err|src]]; simpl.
    - pose proof (evolves_New (heap p) (Some (Module_Scope module))
                    ltac:(by intros ? [= <-])) as Hnew.
      unfold ast.NewScope in *. simpl in *.
      specialize (Hentry (Join path name)
        (mkModule "" [] [] (List.length (heap p)) false)
        (set_heap p (heap p ++ [scope.mkScope (Some (Module_Scope module)) ∅]))).
      simpl in Hentry. rewrite length_app in Hentry. simpl in Hentry.
      destruct (Hentry ltac:(lia)) as (Hev & Hfirst & _).
      destruct (buildModuleTree _ _ _ _) as [[r m'] p']. simpl in *.
      split; [by eapply evolves_trans|]. split; [done|by destruct module].
    - destruct (String.eqb _ _); simpl;
        (split; [apply evolves_refl|]; split; [by left|done]).
    - destruct (String.eqb _ _); simpl;
        [|split; [apply evolves_refl|]; split; [by left|done]].
      pose proof (parseFile_frame
        (fuel_for (mkLexer (Base (Dir (Join path name))) (Join path name) src))
        (mkLexer (Base (Dir (Join path name))) (Join path name) src)
        (Module_Scope module) p Hms) as (Hev & Hfirst).
      destruct (parseFile _ _ _ _) as [[file| | |] p']; simpl in *;
        (split; [done|]; split;
           [eapply one_report_retype; [exact Hfirst|intros ? ?; by simplify_eq]
           |by destruct module]). }
  destruct Hstep as (Hev & Hfirst & Hscope).
  destruct (buildModuleTree_handler entry _ module p) as [[[[]| | |] module'] p'];
    simpl in *; try (split; [done|]; split; [done|done]).
  destruct (IHentries module' p') as (Hev' & Hfirst' & Hscope').
  { rewrite Hscope. destruct Hev as (L & _). lia. }
  split; [by eapply evolves_trans|]. split; [|congruence].
  destruct Hfirst as [Hc|(d & e & _ & [=] & _)]. by rewrite <- Hc.
Qed.

(** X10. The parser ends a run at its first diagnostic.  Over a whole run
    of [ParseModuleDir], and of [ParseFileAsProgram], the parser either
    leaves the collector as it was or adds exactly one diagnostic to it,
    and in that case the run returns a nil program with an error: the
    sentinel [COMPILER_ERROR_FOUND] or, for a function declared twice, the
    duplicate-symbol error.  So a run that returns a program has reported
    nothing, and in no run does the parser report twice. *)
Theorem first_diagnostic_ends_the_parse :
  (∀ path read p,
     one_report_returned (ParseModuleDir path read p).1 (collector p)
                         (collector (ParseModuleDir path read p).2))
  ∧ (∀ fuel lex p,
       one_report_returned (ParseFileAsProgram fuel lex p).1 (collector p)
                           (collector (ParseFileAsProgram fuel lex p).2)).
Proof.
  split.
  - intros path read p. unfold parser.ParseModuleDir.
    destruct (buildModuleTree_frame read path
                (mkModule "" [] [] (ast.NewScope None (heap p)).1 true)
                (set_heap p (ast.NewScope None (heap p)).2)) as (_ & Hfirst & _).
    { unfold ast.NewScope. simpl. rewrite length_app. simpl. lia. }
    unfold ast.NewScope in *. simpl in *.
    destruct (buildModuleTree _ _ _ _) as [[[[]| | |] m'] p']; simpl in *;
      (destruct Hfirst as [Hc|(d & e' & Hc & Hr & He)];
       [by left|right; exists d, e'; by simplify_eq]).
  - intros fuel lex p. unfold ParseFileAsProgram.
    unfold ast.NewScope. simpl.
    destruct (parseFile_frame fuel lex (S (List.length (heap p)))
                (set_heap p ((heap p ++ [scope.mkScope None ∅])
                             ++ [scope.mkScope (Some (List.length (heap p))) ∅])))
      as (_ & Hfirst).
    { simpl. rewrite !length_app. simpl. lia. }
    rewrite length_app. simpl. rewrite Nat.add_1_r.
    destruct (parseFile _ _ _ _) as [[file| | |] p']; simpl in *;
      (destruct Hfirst as [Hc|(d & e' & Hc & Hr & He)];
       [by left|right; exists d, e'; by simplify_eq]).
Qed.

(** X11. Parsing only adds to the scopes.  Over a run of [ParseModuleDir],
    and of [ParseFileAsProgram], every scope that existed still exists
    with the same parent and with all its bindings, and every scope that
    was added has a parent allocated before it; so a store in which
    parents precede their children is still one afterwards. *)
Theorem parsing_keeps_the_scopes :
  (∀ path read p,
     evolves (heap p) (heap (ParseModuleDir path read p).2)
     ∧ (scope.wf (heap p) → scope.wf (heap (ParseModuleDir path read p).2)))
  ∧ (∀ fuel lex p,
       evolves (heap p) (heap (ParseFileAsProgram fuel lex p).2)
       ∧ (scope.wf (heap p) → scope.wf (heap (ParseFileAsProgram fuel lex p).2))).
Proof.
  assert (Hwf : ∀ σ σ', evolves σ σ' → evolves σ σ' ∧ (scope.wf σ → scope.wf σ')).
  { intros σ σ' H. split; [done|]. intros Hw. by eapply evolves_wf. }
  split.
  - intros path read p. apply Hwf. unfold parser.ParseModuleDir.
    pose proof (evolves_New (heap p) None ltac:(by intros ? [=])) as Hnew.
    destruct (buildModuleTree_frame read path
                (mkModule "" [] [] (ast.NewScope None (heap p)).1 true)
                (set_heap p (ast.NewScope None (heap p)).2)) as (Hev & _ & _).
    { unfold ast.NewScope. simpl. rewrite length_app. simpl. lia. }
    unfold ast.NewScope in *. simpl in *.
    destruct (buildModuleTree _ _ _ _) as [[[[]| | |] m'] p']; simpl in *;
      by eapply evolves_trans.
  - intros fuel lex p. apply Hwf. unfold ParseFileAsProgram.
    pose proof (evolves_New (heap p) None ltac:(by intros ? [=])) as Hnew.
    pose proof (evolves_New (ast.NewScope None (heap p)).2 (Some (List.length (heap p)))) as Hnew'.
    unfold ast.NewScope in *. simpl in *.
    rewrite length_app in Hnew'. simpl in Hnew'.
    specialize (Hnew' ltac:(intros ? [= <-]; lia)).
    destruct (parseFile_frame fuel lex (S (List.length (heap p)))
                (set_heap p ((heap p ++ [scope.mkScope None ∅])
                             ++ [scope.mkScope (Some (List.length (heap p))) ∅])))
      as (Hev & _).
    { simpl. rewrite !length_app. simpl. lia. }
    rewrite length_app. simpl. rewrite Nat.add_1_r.
    destruct (parseFile _ _ _ _) as [[file| | |] p']; simpl in *;
      (eapply evolves_trans; [exact Hnew|]; eapply evolves_trans; [exact Hnew'|done]).
Qed.

End Walk.

End DeclTheory.

Module ReportTheory.
Import token lexer ast parser frames FrameTheory DeclTheory.

(** X12. The expression parser reports nothing.  [parseExpr],
    [parseExprList], [parseFnCall], [parseFieldAccess], [parseVar] and
    [ParseIdStmt] leave the collector, the module scope and the scope
    store as they found them, whatever they return: their errors reach the
    caller without a diagnostic. *)
Theorem expressions_report_nothing fuel :
  quiet (parseExpr fuel)
  ∧ (∀ possibleEnds, quiet (parseExprList fuel possibleEnds))
  ∧ quiet (parseFnCall fuel)
  ∧ quiet (parseFieldAccess fuel)
  ∧ quiet (parseVar fuel)
  ∧ quiet (ParseIdStmt fuel).
Proof.
  destruct (quiet_expressions fuel)
    as (H1 & _ & _ & _ & _ & _ & _ & _ & _ & _ & _ & H12 & _ & H14 & H15).
  pose proof (quiet_parseVar fuel). pose proof (quiet_ParseIdStmt fuel).
  done.
Qed.

(** X13. The statement parser leaves the scopes alone and stops at its
    first diagnostic: [parseStmt], [parseBlock], [parseCondStmt],
    [parseForLoop] and [parseWhileLoop] either report nothing, or report
    one diagnostic and return the sentinel error. *)
Theorem statements_stop_at_first_diagnostic fuel :
  failfast (parseStmt fuel)
  ∧ failfast (parseBlock fuel)
  ∧ failfast (parseCondStmt fuel)
  ∧ failfast (parseForLoop fuel)
  ∧ failfast (parseWhileLoop fuel).
Proof.
  destruct (failfast_statements fuel) as (H1 & H2 & _ & H4 & _ & _ & _ & H8 & H9).
  done.
Qed.

(** ** Signatures: every error is diagnosed *)

Lemma silent_quiet {A} (m : M A) : silent m → quiet m.
Proof. by intros [H _]. Qed.

Lemma silent_Peek : silent Peek.
Proof. split; [apply quiet_Peek|done]. Qed.
Lemma silent_Skip : silent Skip.
Proof. split; [apply quiet_Skip|done]. Qed.
Lemma silent_NextIs K : silent (NextIs K).
Proof. split; [apply quiet_NextIs|done]. Qed.
Lemma silent_expect K : silent (expect K).
Proof.
  split; [apply quiet_expect|]. intros p e. unfold expect, bind, Peek, Skip, ret.
  by destruct (negb _).
Qed.

Lemma diagnosing_silent {A} (m : M A) : silent m → diagnosing m.
Proof.
  intros [Hq Hne] p. destruct (Hq p) as (H1 & H2 & H3). specialize (Hne p).
  split; [done|]. split; [done|].
  destruct (m p).1 as [a|e|msg|]; try done. by destruct (Hne e).
Qed.

Lemma diagnosing_ret {A} (a : A) : diagnosing (ret a).
Proof. by intros p. Qed.

Lemma diagnosing_outOfFuel {A} : diagnosing (outOfFuel : M A).
Proof. by intros p. Qed.

Lemma diagnosing_report {A} d :
  diagnosing (ReportAndSave d ;; (fail COMPILER_ERROR_FOUND : M A)).
Proof. intros p. split; [done|]. split; [done|]. simpl. split; [done|]. by exists d. Qed.

Lemma diagnosing_bind {A B} (m : M A) (k : A → M B) :
  diagnosing m → (∀ a, diagnosing (k a)) → diagnosing (bind m k).
Proof.
  intros Hm Hk p. unfold bind. destruct (Hm p) as (H1 & H2 & H3).
  destruct (m p) as [[a|e|msg|] p1]; simpl in *; try done.
  destruct (Hk a p1) as (K1 & K2 & K3). rewrite K1, K2.
  split; [done|]. split; [done|]. by rewrite <- H3.
Qed.

Lemma diagnosing_handle {A B} (m : M A) (onErr : error → M B) (k : A → M B) :
  quiet m → (∀ e, diagnosing (onErr e)) → (∀ a, diagnosing (k a)) →
  diagnosing (handle m onErr k).
Proof.
  intros Hm Herr Hk p. unfold handle. destruct (Hm p) as (H1 & H2 & H3).
  destruct (m p) as [[a|e|msg|] p1]; simpl in *; try done.
  - destruct (Hk a p1) as (K1 & K2 & K3). by rewrite K1, K2, <- H1.
  - destruct (Herr e p1) as (K1 & K2 & K3). by rewrite K1, K2, <- H1.
Qed.

Ltac diagnosing_step :=
  first
    [ assumption
    | apply diagnosing_report
    | apply diagnosing_ret
    | apply diagnosing_silent;
        first [apply silent_Peek|apply silent_Skip|apply silent_NextIs|apply silent_expect]
    | match goal with H : ∀ _, diagnosing _ |- _ => apply H end
    | apply diagnosing_handle; [apply quiet_parseExprType|intros ?|intros ?]
    | apply diagnosing_bind; [|intros ?]
    | match goal with
      | |- diagnosing (match ?x with _ => _ end) => destruct x
      | |- diagnosing (if ?b then _ else _) => destruct b
      end
    | progress cbn beta iota zeta ].

Ltac diagnosing_go := repeat diagnosing_step.

Lemma diagnosing_parseFunctionParams_loop fuel : ∀ params isVariadic,
  diagnosing (parseFunctionParams_loop fuel params isVariadic).
Proof.
  induction fuel as [|fuel IH]; intros params isVariadic; [apply diagnosing_outOfFuel|].
  cbn [parseFunctionParams_loop].
  assert (Hrec : ∀ params, diagnosing (parseFunctionParams_loop fuel params isVariadic))
    by (intros; apply IH).
  clear IH. diagnosing_go.
Qed.

Lemma diagnosing_parseFunctionParams fuel : diagnosing (parseFunctionParams fuel).
Proof.
  pose proof (diagnosing_parseFunctionParams_loop fuel [] false).
  unfold parseFunctionParams. diagnosing_go.
Qed.

Lemma diagnosing_parseReturnType isPrototype : diagnosing (parseReturnType isPrototype).
Proof. unfold parseReturnType. diagnosing_go. Qed.

Lemma diagnosing_parsePrototype fuel : diagnosing (parsePrototype fuel).
Proof.
  pose proof (diagnosing_parseFunctionParams fuel).
  pose proof (diagnosing_parseReturnType true).
  unfold parsePrototype. diagnosing_go.
Qed.

Lemma diagnosing_parseExternDecl_loop fuel : ∀ prototypes,
  diagnosing (parseExternDecl_loop fuel prototypes).
Proof.
  induction fuel as [|fuel IH]; intros prototypes; [apply diagnosing_outOfFuel|].
  pose proof (diagnosing_parsePrototype fuel).
  cbn [parseExternDecl_loop]. diagnosing_go.
Qed.

(** X14. In a signature every error is diagnosed.  [parseFunctionParams],
    [parseReturnType] and [parsePrototype], and [parseExternDecl] when
    called on the [extern] keyword as [next] calls it, return no error
    but the sentinel [COMPILER_ERROR_FOUND], and then exactly one
    diagnostic has been reported; when they return no error, none has. *)
Theorem signature_errors_are_diagnosed fuel :
  diagnosing (parseFunctionParams fuel)
  ∧ (∀ isPrototype, diagnosing (parseReturnType isPrototype))
  ∧ diagnosing (parsePrototype fuel)
  ∧ (∀ p, lexer.NextIs (lex p) EXTERN = true →
       moduleScope (parseExternDecl fuel p).2 = moduleScope p
       ∧ heap (parseExternDecl fuel p).2 = heap p
       ∧ match (parseExternDecl fuel p).1 with
         | Err e => e = COMPILER_ERROR_FOUND
                    ∧ ∃ d, collector (parseExternDecl fuel p).2 = collector p ++ [d]
         | _ => collector (parseExternDecl fuel p).2 = collector p
         end).
Proof.
  split; [apply diagnosing_parseFunctionParams|].
  split; [apply diagnosing_parseReturnType|].
  split; [apply diagnosing_parsePrototype|].
  intros p Hextern.
  set (rest :=
         let* (name, ok) := expect ID in
         if negb ok then
           ReportAndSave (expected "name" name) ;;
           fail COMPILER_ERROR_FOUND
         else
           let* (openCurly, ok) := expect OPEN_CURLY in
           if negb ok then
             ReportAndSave (expected "{" openCurly) ;;
             fail COMPILER_ERROR_FOUND
           else
             let* prototypes := parseExternDecl_loop fuel [] in
             let* (closeCurly, ok) := expect CLOSE_CURLY in
             if negb ok then
               ReportAndSave (expected "}" closeCurly) ;;
               fail COMPILER_ERROR_FOUND
             else ret (mkExternDecl None name prototypes)).
  assert (Hrest : diagnosing rest).
  { pose proof (diagnosing_parseExternDecl_loop fuel). unfold rest. diagnosing_go. }
  assert (Hrun : parseExternDecl fuel p = rest (skipped p)).
  { unfold parseExternDecl. unfold bind at 1. unfold expect at 1, bind at 1, Peek.
    unfold lexer.NextIs in Hextern. rewrite Hextern. reflexivity. }
  rewrite Hrun. exact (Hrest (skipped p)).
Qed.

End ReportTheory.

Module SilentTheory.
Import token lexer ast parser frames samples.

(** X15. A statement can be refused without a diagnostic.  On an
    identifier followed by a token that is neither [(] nor [.], neither
    [:=], [=] nor [,], and starts no type, [parseStmt] returns the
    sentinel [COMPILER_ERROR_FOUND], which elsewhere means that the error
    has been reported, having read the identifier and reported nothing. *)
Theorem undiagnosed_statement fuel p :
  Kind_ (lexer.Peek (lex p)) = ID →
  (let k := Kind_ (lexer.Peek1 (lex p)) in
   k ≠ OPEN_PAREN ∧ k ≠ DOT ∧ k ≠ COLON_EQUAL ∧ k ≠ EQUAL ∧ k ≠ COMMA
   ∧ k ≠ STAR ∧ k ≠ ID ∧ IsBasicType k = false) →
  parseStmt (S (S fuel)) p = (Err COMPILER_ERROR_FOUND, skipped p)
  ∧ collector (parseStmt (S (S fuel)) p).2 = collector p.
Proof.
  intros Hname Hnext.
  assert (Hrun : parseStmt (S (S fuel)) p = (Err COMPILER_ERROR_FOUND, skipped p)).
  { destruct p as [[d f ts] c m h]. unfold lexer.Peek, lexer.Peek1 in *.
    destruct ts as [|[k lexeme pos] ts]; simpl in Hname; [done|]. subst k.
    simpl in Hnext. destruct Hnext as (H1 & H2 & H3 & H4 & H5 & H6 & H7 & H8).
    destruct ts as [|[k' lexeme' pos'] ts]; [reflexivity|].
    simpl in *. destruct k'; try done; reflexivity. }
  split; [exact Hrun|]. by rewrite Hrun.
Qed.

(** [x ;]: the statement is refused with the sentinel, and the collector
    is as empty as before. *)
Lemma undiagnosed_statement_witness :
  let p := parserOn [tk ID "x" 1; tk SEMICOLON ";" 2] in
  parseStmt 2 p = (Err COMPILER_ERROR_FOUND, parserOn [tk SEMICOLON ";" 2])
  ∧ collector (parseStmt 2 p).2 = [].
Proof.
  intros p.
  refine (undiagnosed_statement 0 p eq_refl _).
  simpl. repeat split; discriminate.
Defined.

End SilentTheory.

(** * Statements *)

Module StatementTheory.
Import token lexer ast parser testing grammar syntax statements GrammarTheory SyntaxTheory.

Lemma reads_reads_upto {A} (f : nat → M A) stop f0 ts a :
  reads f f0 ts a → reads_upto f stop f0 ts a.
Proof. intros H fuel p rest Hfuel Htoks _. by apply H. Qed.

Lemma reads_mono {A} (f : nat → M A) f0 f1 ts a :
  reads f f0 ts a → (f0 ≤ f1)%nat → reads f f1 ts a.
Proof. intros H Hle fuel p rest Hfuel. apply H. lia. Qed.

Lemma Peek_leaving p ts :
  lexer.Peek (lex (leaving p ts)) = hd (lexer.eof (lex p)) ts.
Proof. unfold lexer.Peek. simpl. by destruct p as [[d f t] c m h]. Qed.

Lemma expect_leaving_not p ts K :
  Kind_ (hd (lexer.eof (lex p)) ts) ≠ K →
  expect K (leaving p ts) = (Ok (hd (lexer.eof (lex p)) ts, false), leaving p ts).
Proof.
  intros Hne. rewrite <- Peek_leaving in *. by apply expect_not.
Qed.

(** *** Return *)

(** X16. Return statements.  [return ;] is a return of the void
    expression, read at once when a semicolon follows the keyword.
    Otherwise the keyword is followed by an expression, which becomes the
    value, and a semicolon; when the token after the expression is not a
    semicolon, [parseStmt] has consumed the expression, reports
    [expected ; at the end of statement] at that token and returns the
    sentinel. *)
Theorem parseStmt_return kw :
  Kind_ kw = RETURN →
  (∀ semi, Kind_ semi = SEMICOLON →
     reads parseStmt 1 [kw; semi] (Some (ReturnStmt kw VoidExpr)))
  ∧ (∀ f0 ts e semi,
       parses parseExpr stop_logical f0 ts e →
       starts ts (λ tok, Kind_ tok ≠ SEMICOLON) →
       Kind_ semi = SEMICOLON →
       reads parseStmt (f0 + 1) (kw :: ts ++ [semi]) (Some (ReturnStmt kw e)))
  ∧ (∀ f0 ts e fuel p rest,
       parses parseExpr stop_logical f0 ts e →
       starts ts (λ tok, Kind_ tok ≠ SEMICOLON) →
       (f0 + 1 ≤ fuel)%nat →
       toks (lex p) = kw :: ts ++ rest →
       let next := hd (lexer.eof (lex p)) rest in
       stop_logical (Kind_ next) = false →
       Kind_ next ≠ SEMICOLON →
       parseStmt fuel p
       = (Err COMPILER_ERROR_FOUND,
          reported (leaving p rest) (expected "; at the end of statement" next))).
Proof.
  intros Hkw. split; [|split].
  - intros semi Hsemi fuel p rest Hfuel Htoks. simpl in Htoks.
    destruct fuel as [|fuel]; [lia|]. cbn [parseStmt].
    rewrite (bind_Ok _ _ _ _ _ (Peek_hd p _ _ Htoks)), Hkw. cbn beta iota.
    rewrite (bind_Ok _ _ _ _ _ (Skip_hd p _ _ Htoks)).
    rewrite (bind_Ok _ _ _ _ _ (NextIs_hd (leaving p (semi :: rest)) semi rest
                                  SEMICOLON eq_refl)).
    rewrite Hsemi. cbn [token.eqb token.code Nat.eqb].
    by rewrite (bind_Ok _ _ _ _ _ (Skip_hd (leaving p (semi :: rest)) semi rest eq_refl)).
  - intros f0 ts e semi He Hstart Hsemi fuel p rest Hfuel Htoks.
    simpl in Htoks. rewrite <- app_assoc in Htoks. simpl in Htoks.
    destruct ts as [|tok ts]; [done|]. simpl in Hstart, Htoks.
    destruct fuel as [|fuel]; [lia|]. cbn [parseStmt].
    rewrite (bind_Ok _ _ _ _ _ (Peek_hd p _ _ Htoks)), Hkw. cbn beta iota.
    rewrite (bind_Ok _ _ _ _ _ (Skip_hd p _ _ Htoks)).
    rewrite (bind_Ok _ _ _ _ _
               (NextIs_hd (leaving p (tok :: ts ++ semi :: rest)) tok _ SEMICOLON eq_refl)).
    apply ParserTheory.Kind_eqb_neq in Hstart. rewrite Hstart.
    rewrite (handle_Ok _ _ _ _ _ _
               (He fuel (leaving p (tok :: ts ++ semi :: rest)) (semi :: rest)
                   ltac:(lia) eq_refl ltac:(simpl; by rewrite Hsemi))).
    rewrite leaving_leaving.
    by rewrite (bind_Ok _ _ _ _ _
                  (expect_Ok (leaving p (semi :: rest)) semi rest SEMICOLON eq_refl Hsemi)).
  - intros f0 ts e fuel p rest He Hstart Hfuel Htoks next Hstop Hnext.
    destruct ts as [|tok ts]; [done|]. simpl in Hstart, Htoks.
    destruct fuel as [|fuel]; [lia|]. cbn [parseStmt].
    rewrite (bind_Ok _ _ _ _ _ (Peek_hd p _ _ Htoks)), Hkw. cbn beta iota.
    rewrite (bind_Ok _ _ _ _ _ (Skip_hd p _ _ Htoks)).
    rewrite (bind_Ok _ _ _ _ _
               (NextIs_hd (leaving p (tok :: ts ++ rest)) tok _ SEMICOLON eq_refl)).
    apply ParserTheory.Kind_eqb_neq in Hstart. rewrite Hstart.
    rewrite (handle_Ok _ _ _ _ _ _
               (He fuel (leaving p (tok :: ts ++ rest)) rest
                   ltac:(lia) eq_refl Hstop)).
    rewrite leaving_leaving.
    rewrite (bind_Ok _ _ _ _ _ (expect_leaving_not p rest SEMICOLON Hnext)).
    cbn beta iota. cbn [negb].
    unfold bind, Peek, ReportAndSave, fail, reported. by rewrite Peek_leaving.
Qed.

(** *** Blocks *)

(** A token that starts no statement is left where it is. *)
Lemma parseStmt_none fuel p :
  starts_stmt (Kind_ (lexer.Peek (lex p))) = false →
  parseStmt (S fuel) p = (Ok None, p).
Proof.
  intros H. cbn [parseStmt]. unfold bind at 1, Peek.
  by destruct (Kind_ (lexer.Peek (lex p))).
Qed.

(** The statement loop of [parseBlock] stops at a token that closes the
    block or starts no statement. *)
Lemma parseBlock_loop_stops f0 items : ∀ fuel statements p rest,
  let next := hd (lexer.eof (lex p)) rest in
  stmts_ok f0 items next →
  Kind_ next = CLOSE_CURLY ∨ starts_stmt (Kind_ next) = false →
  toks (lex p) = flat_map written_tokens items ++ rest →
  (f0 + List.length items + 2 ≤ fuel)%nat →
  parseBlock_loop fuel statements p
  = (Ok (statements ++ map written_stmt items), leaving p rest).
Proof.
  induction items as [|[[ts s] stop] items IH];
    intros fuel statements p rest next Hitems Hnext Htoks Hfuel;
    (destruct fuel as [|fuel]; [simpl in Hfuel; lia|]); cbn [parseBlock_loop].
  - simpl in Htoks. destruct fuel as [|fuel]; [simpl in Hfuel; lia|].
    assert (Hpeek : lexer.Peek (lex p) = next).
    { unfold lexer.Peek. by rewrite Htoks. }
    unfold bind at 1, Peek. rewrite Hpeek.
    rewrite app_nil_r, <- Htoks, leaving_same.
    destruct (token.eqb (Kind_ next) CLOSE_CURLY) eqn:Heq; [done|].
    destruct Hnext as [Hnext|Hnext].
    { apply ParserTheory.Kind_eqb_neq in Heq. done. }
    by rewrite (bind_Ok _ _ _ _ _ (parseStmt_none fuel p ltac:(by rewrite Hpeek))).
  - destruct Hitems as (Hs & Hstart & Hstop & Hitems).
    simpl in Htoks, Hfuel. unfold written_tokens at 1 in Htoks. simpl in Htoks.
    rewrite <- app_assoc in Htoks.
    set (tail := flat_map written_tokens items ++ rest) in *.
    destruct ts as [|tok ts]; [done|]. simpl in Hstart.
    rewrite (bind_Ok _ _ _ _ _ (Peek_hd p _ _ Htoks)).
    apply ParserTheory.Kind_eqb_neq in Hstart. rewrite Hstart.
    assert (Htail : hd (lexer.eof (lex p)) tail
                    = hd next (flat_map written_tokens items)).
    { unfold tail. by destruct (flat_map written_tokens items). }
    rewrite (bind_Ok _ _ _ _ _
               (Hs fuel p tail ltac:(lia) Htoks ltac:(by rewrite Htail))).
    rewrite (IH fuel _ (leaving p tail) rest);
      [by rewrite leaving_leaving, <- app_assoc|done|done|done|lia].
Qed.

(** X17. Blocks.  [{ s1 ... sn }] is read as the block of the statements
    in order, with the positions of both braces; [n] may be zero.  The
    loop ends at the first token that starts no statement: when that
    token is not the closing brace (the end of the file, say), the
    statements read so far are dropped, [expected statement or }] is
    reported at that token, and the sentinel is returned. *)
Theorem parseBlock_reads f0 open items :
  Kind_ open = OPEN_CURLY →
  (∀ close,
     Kind_ close = CLOSE_CURLY →
     stmts_ok f0 items close →
     reads parseBlock (f0 + List.length items + 3)
           (open :: flat_map written_tokens items ++ [close])
           (mkBlockStmt (Pos open) (map written_stmt items) (Pos close)))
  ∧ (∀ fuel p rest,
       let next := hd (lexer.eof (lex p)) rest in
       stmts_ok f0 items next →
       Kind_ next ≠ CLOSE_CURLY → starts_stmt (Kind_ next) = false →
       (f0 + List.length items + 3 ≤ fuel)%nat →
       toks (lex p) = open :: flat_map written_tokens items ++ rest →
       parseBlock fuel p
       = (Err COMPILER_ERROR_FOUND,
          reported (leaving p rest) (expected "statement or }" next))).
Proof.
  intros Hopen. split.
  - intros close Hclose Hitems fuel p rest Hfuel Htoks.
    simpl in Htoks. rewrite <- app_assoc in Htoks. simpl in Htoks.
    destruct fuel as [|fuel]; [lia|]. cbn [parseBlock].
    rewrite (bind_Ok _ _ _ _ _ (expect_Ok p open _ OPEN_CURLY Htoks Hopen)).
    cbn beta iota. cbn [negb].
    rewrite (bind_Ok _ _ _ _ _
               (parseBlock_loop_stops f0 items fuel []
                  (leaving p (flat_map written_tokens items ++ close :: rest))
                  (close :: rest) Hitems (or_introl Hclose) eq_refl ltac:(lia))).
    rewrite leaving_leaving.
    by rewrite (bind_Ok _ _ _ _ _
                  (expect_Ok (leaving p (close :: rest)) close rest CLOSE_CURLY
                     eq_refl Hclose)).
  - intros fuel p rest next Hitems Hclose Hstart Hfuel Htoks.
    destruct fuel as [|fuel]; [lia|]. cbn [parseBlock].
    rewrite (bind_Ok _ _ _ _ _ (expect_Ok p open _ OPEN_CURLY Htoks Hopen)).
    cbn beta iota. cbn [negb].
    rewrite (bind_Ok _ _ _ _ _
               (parseBlock_loop_stops f0 items fuel []
                  (leaving p (flat_map written_tokens items ++ rest))
                  rest Hitems (or_intror Hstart) eq_refl ltac:(lia))).
    rewrite leaving_leaving.
    by rewrite (bind_Ok _ _ _ _ _ (expect_leaving_not p rest CLOSE_CURLY Hclose)).
Qed.

(** *** Loops and conditionals *)

Lemma starts_hd (p : Parser) ts rest (P : Token → Prop) :
  starts ts P → P (hd (lexer.eof (lex p)) (ts ++ rest)).
Proof. by destruct ts. Qed.

(** A condition followed by its block. *)
Lemma cond_and_block f0 ts e tsb b fuel p rest :
  parses parseExpr stop_logical f0 ts e →
  starts tsb (λ tok, Kind_ tok = OPEN_CURLY) →
  reads parseBlock f0 tsb b →
  (f0 ≤ fuel)%nat →
  toks (lex p) = ts ++ tsb ++ rest →
  parseExpr fuel p = (Ok e, leaving p (tsb ++ rest))
  ∧ parseBlock fuel (leaving p (tsb ++ rest)) = (Ok b, leaving p rest).
Proof.
  intros He Hstart Hb Hfuel Htoks. split.
  - apply He; [done|done|].
    by rewrite (starts_hd p tsb rest _ Hstart).
  - by rewrite (Hb fuel (leaving p (tsb ++ rest)) rest Hfuel eq_refl).
Qed.

Lemma parseWhileLoop_reads f0 kw ts e tsb b :
  Kind_ kw = WHILE →
  parses parseExpr stop_logical f0 ts e →
  starts tsb (λ tok, Kind_ tok = OPEN_CURLY) →
  reads parseBlock f0 tsb b →
  reads parseWhileLoop (f0 + 1) (kw :: ts ++ tsb) (WhileLoop e b).
Proof.
  intros Hkw He Hstart Hb fuel p rest Hfuel Htoks.
  simpl in Htoks. rewrite <- app_assoc in Htoks.
  destruct fuel as [|fuel]; [lia|]. cbn [parseWhileLoop].
  destruct (cond_and_block f0 ts e tsb b fuel (leaving p (ts ++ tsb ++ rest)) rest
              He Hstart Hb ltac:(lia) eq_refl) as [Hcond Hblock].
  rewrite !leaving_leaving in *.
  rewrite (bind_Ok _ _ _ _ _ (expect_Ok p kw _ WHILE Htoks Hkw)).
  cbn beta iota. cbn [negb].
  by rewrite (bind_Ok _ _ _ _ _ Hcond), (bind_Ok _ _ _ _ _ Hblock).
Qed.

(** X18. While loops.  [while cond block], the condition being an
    expression, is read by [parseStmt] as the loop of that condition and
    block; [ParseWhileLoopFrom] returns the same loop. *)
Theorem parseStmt_while f0 kw ts e tsb b :
  Kind_ kw = WHILE →
  parses parseExpr stop_logical f0 ts e →
  starts tsb (λ tok, Kind_ tok = OPEN_CURLY) →
  reads parseBlock f0 tsb b →
  reads parseStmt (f0 + 2) (kw :: ts ++ tsb) (Some (WhileLoop e b))
  ∧ ∀ fuel filename,
      (f0 + 1 ≤ fuel)%nat →
      ParseWhileLoopFrom fuel (kw :: ts ++ tsb) filename = Ok (WhileLoop e b).
Proof.
  intros Hkw He Hstart Hb.
  pose proof (parseWhileLoop_reads f0 kw ts e tsb b Hkw He Hstart Hb) as Hwhile.
  split.
  - intros fuel p rest Hfuel Htoks.
    destruct fuel as [|fuel]; [lia|]. cbn [parseStmt].
    rewrite (bind_Ok _ _ _ _ _ (Peek_hd p _ _ Htoks)), Hkw. cbn beta iota.
    by rewrite (bind_Ok _ _ _ _ _ (Hwhile fuel p rest ltac:(lia) Htoks)).
  - intros fuel filename Hfuel. unfold ParseWhileLoopFrom.
    by rewrite (Hwhile fuel (NewWithLex (lexer.New filename (kw :: ts ++ tsb))
                               diagnostics.New [])
                  [] Hfuel (eq_sym (app_nil_r _))).
Qed.

Lemma parseElifConds_reads f0 elifs : ∀ fuel elifConds p rest,
  Forall (elif_ok f0) elifs →
  Kind_ (hd (lexer.eof (lex p)) rest) ≠ ELIF →
  toks (lex p) = flat_map elif_tokens elifs ++ rest →
  (f0 + List.length elifs + 1 ≤ fuel)%nat →
  parseElifConds fuel elifConds p
  = (Ok (elifConds ++ map elif_cond elifs), leaving p rest).
Proof.
  induction elifs as [|[[[[kw ts] e] tsb] b] elifs IH];
    intros fuel elifConds p rest Helifs Hnext Htoks Hfuel;
    (destruct fuel as [|fuel]; [simpl in Hfuel; lia|]); cbn [parseElifConds].
  - simpl in Htoks.
    assert (Hpeek : lexer.Peek (lex p) = hd (lexer.eof (lex p)) rest).
    { unfold lexer.Peek. by rewrite Htoks. }
    rewrite (bind_Ok _ _ _ _ _ (expect_not p ELIF ltac:(by rewrite Hpeek))).
    cbn beta iota. cbn [negb]. unfold ret.
    by rewrite app_nil_r, <- Htoks, leaving_same.
  - inversion Helifs as [|? ? Hok Helifs']; subst.
    unfold elif_ok in Hok. destruct Hok as (Hkw & He & Hstart & Hb).
    simpl in Htoks, Hfuel. rewrite <- !app_assoc in Htoks.
    set (tail := flat_map elif_tokens elifs ++ rest) in *.
    rewrite (bind_Ok _ _ _ _ _ (expect_Ok p kw _ ELIF Htoks Hkw)).
    cbn beta iota. cbn [negb].
    destruct (cond_and_block f0 ts e tsb b fuel (leaving p (ts ++ tsb ++ tail)) tail
                He Hstart Hb ltac:(lia) eq_refl) as [Hcond Hblock].
    rewrite !leaving_leaving in *.
    rewrite (bind_Ok _ _ _ _ _ Hcond), (bind_Ok _ _ _ _ _ Hblock).
    rewrite (IH fuel _ (leaving p tail) rest);
      [by rewrite leaving_leaving, <- app_assoc|done|done|done|lia].
Qed.

Lemma parseElseCond_reads f0 els fuel p rest :
  else_ok f0 els →
  (els = None → Kind_ (hd (lexer.eof (lex p)) rest) ≠ ELSE) →
  toks (lex p) = else_tokens els ++ rest →
  (f0 + 1 ≤ fuel)%nat →
  parseElseCond fuel p = (Ok (else_cond els), leaving p rest).
Proof.
  intros Hels Hnext Htoks Hfuel.
  destruct fuel as [|fuel]; [lia|]. cbn [parseElseCond].
  destruct els as [[[kw tsb] b]|]; simpl in *.
  - destruct Hels as [Hkw Hb].
    rewrite (bind_Ok _ _ _ _ _ (expect_Ok p kw _ ELSE Htoks Hkw)).
    cbn beta iota. cbn [negb].
    by rewrite (bind_Ok _ _ _ _ _
                  (Hb fuel (leaving p (tsb ++ rest)) rest ltac:(lia) eq_refl)),
               leaving_leaving.
  - assert (Hpeek : lexer.Peek (lex p) = hd (lexer.eof (lex p)) rest).
    { unfold lexer.Peek. by rewrite Htoks. }
    rewrite (bind_Ok _ _ _ _ _ (expect_not p ELSE ltac:(rewrite Hpeek; by apply Hnext))).
    cbn beta iota. cbn [negb]. unfold ret. by rewrite <- Htoks, leaving_same.
Qed.

(** X19. Conditionals.  [if cond block], then any number of
    [elif cond block], then at most one [else block], are read as one
    conditional statement holding the clauses in order, each with the
    position of its keyword.  Without an [else] the statement ends at the
    first token that is neither [elif] nor [else]; after an [else] block
    it ends whatever follows. *)
Theorem parseStmt_cond f0 kw ts e tsb b elifs els :
  Kind_ kw = IF →
  parses parseExpr stop_logical f0 ts e →
  starts tsb (λ tok, Kind_ tok = OPEN_CURLY) →
  reads parseBlock f0 tsb b →
  Forall (elif_ok f0) elifs →
  else_ok f0 els →
  reads_upto parseStmt (match els with Some _ => λ _, false | None => continues_cond end)
             (f0 + List.length elifs + 3)
             (kw :: ts ++ tsb ++ flat_map elif_tokens elifs ++ else_tokens els)
             (Some (CondStmt (mkIfElifCond (Pos kw) e b) (map elif_cond elifs)
                             (else_cond els))).
Proof.
  intros Hkw He Hstart Hb Helifs Hels fuel p rest Hfuel Htoks Hstop.
  simpl in Htoks. rewrite <- !app_assoc in Htoks.
  set (tail := flat_map elif_tokens elifs ++ else_tokens els ++ rest) in *.
  destruct fuel as [|[|[|fuel]]]; [lia|lia|lia|].
  cbn [parseStmt parseCondStmt parseIfCond].
  rewrite (bind_Ok _ _ _ _ _ (Peek_hd p _ _ Htoks)), Hkw. cbn beta iota.
  erewrite bind_Ok; [reflexivity|].
  destruct (cond_and_block f0 ts e tsb b fuel (leaving p (ts ++ tsb ++ tail)) tail
              He Hstart Hb ltac:(lia) eq_refl) as [Hcond Hblock].
  rewrite !leaving_leaving in *.
  erewrite (bind_Ok (let* (ifToken, ok) := expect IF in _));
    [|rewrite (bind_Ok _ _ _ _ _ (expect_Ok p kw _ IF Htoks Hkw));
      cbn beta iota; cbn [negb];
      by rewrite (bind_Ok _ _ _ _ _ Hcond), (bind_Ok _ _ _ _ _ Hblock)].
  assert (Hnext : Kind_ (hd (lexer.eof (lex p)) (else_tokens els ++ rest)) ≠ ELIF
                  ∧ (els = None → Kind_ (hd (lexer.eof (lex p)) rest) ≠ ELSE)).
  { destruct els as [[[kw' tsb'] b']|]; simpl in *.
    - destruct Hels as [Hkw' _]. rewrite Hkw'. done.
    - split; [|intros _]; intros Heq; by rewrite Heq in Hstop. }
  destruct Hnext as [Helif Helse].
  rewrite (bind_Ok _ _ _ _ _
             (parseElifConds_reads f0 elifs (S fuel) [] (leaving p tail)
                (else_tokens els ++ rest) Helifs Helif eq_refl ltac:(lia))).
  rewrite leaving_leaving.
  by rewrite (bind_Ok _ _ _ _ _
                (parseElseCond_reads f0 els (S fuel) (leaving p (else_tokens els ++ rest))
                   rest Hels Helse eq_refl ltac:(lia))), leaving_leaving.
Qed.

(** *** Variable statements *)

(** The name of a variable and its type, if any, up to the separator
    [sep] that follows. *)
Lemma parseVar_loop_var (v : Var) sep more fuel variables p :
  var_ok v →
  toks (lex p) = var_tokens v ++ sep :: more →
  (Kind_ sep = COMMA ∨ Kind_ sep = COLON_EQUAL ∨ Kind_ sep = EQUAL) →
  parseVar_loop (S fuel) variables p
  = if token.eqb (Kind_ sep) COMMA
    then parseVar_loop fuel (variables ++ [var_stmt v]) (leaving p more)
    else (Ok (variables ++ [var_stmt v], token.eqb (Kind_ sep) COLON_EQUAL),
          leaving p more).
Proof.
  intros Hv Htoks Hsep. cbn [parseVar_loop].
  destruct v as [name [[ts ty]|]]; simpl in Hv, Htoks.
  - destruct Hv as [Hname Hty].
    rewrite (bind_Ok _ _ _ _ _ (expect_Ok p name _ ID Htoks Hname)).
    cbn beta iota. cbn [negb]. cbn zeta.
    assert (Hfirst : ∃ tok ts', ts = tok :: ts'
              ∧ token.eqb (Kind_ tok) COLON_EQUAL = false
              ∧ token.eqb (Kind_ tok) EQUAL = false
              ∧ token.eqb (Kind_ tok) COMMA = false).
    { destruct Hty as [tok Hk|tok Hk|star ts' ty' Hk _]; eexists _, _;
        (split; [done|]); try rewrite Hk; try done.
      by destruct (Kind_ tok). }
    destruct Hfirst as (tok & ts' & -> & H1 & H2 & H3).
    rewrite (bind_Ok _ _ _ _ _
               (Peek_hd (leaving p ((tok :: ts') ++ sep :: more)) tok _ eq_refl)).
    rewrite H1, H2, H3. cbn [orb].
    rewrite (bind_Ok _ _ _ _ _
               (parseExprType_spelled (leaving p ((tok :: ts') ++ sep :: more))
                  (tok :: ts') ty (sep :: more) eq_refl Hty)).
    rewrite leaving_leaving. cbn zeta.
    rewrite (bind_Ok _ _ _ _ _ (Peek_hd (leaving p (sep :: more)) sep more eq_refl)).
    destruct Hsep as [Hsep|[Hsep|Hsep]]; rewrite Hsep;
      cbn [token.eqb token.code Nat.eqb orb];
      by rewrite (bind_Ok _ _ _ _ _ (Skip_hd (leaving p (sep :: more)) sep more eq_refl)),
                 leaving_leaving.
  - rewrite (bind_Ok _ _ _ _ _ (expect_Ok p name _ ID Htoks Hv)).
    cbn beta iota. cbn [negb]. cbn zeta.
    rewrite (bind_Ok _ _ _ _ _ (Peek_hd (leaving p (sep :: more)) sep more eq_refl)).
    destruct Hsep as [Hsep|[Hsep|Hsep]]; rewrite Hsep;
      cbn [token.eqb token.code Nat.eqb orb];
      by rewrite (bind_Ok _ _ _ _ _ (Skip_hd (leaving p (sep :: more)) sep more eq_refl)),
                 leaving_leaving.
Qed.

Lemma parseVar_loop_reads vars : ∀ last op fuel variables p more,
  Forall (λ item : Var * Token, var_ok item.1 ∧ Kind_ item.2 = COMMA) vars →
  var_ok last →
  Kind_ op = COLON_EQUAL ∨ Kind_ op = EQUAL →
  toks (lex p) = vars_tokens vars ++ var_tokens last ++ op :: more →
  (List.length vars + 1 ≤ fuel)%nat →
  parseVar_loop fuel variables p
  = (Ok (variables ++ map var_stmt (map fst vars ++ [last]),
         token.eqb (Kind_ op) COLON_EQUAL),
     leaving p more).
Proof.
  induction vars as [|[v comma] vars IH];
    intros last op fuel variables p more Hvars Hlast Hop Htoks Hfuel;
    (destruct fuel as [|fuel]; [simpl in Hfuel; lia|]).
  - simpl in Htoks.
    rewrite (parseVar_loop_var last op more fuel variables p Hlast Htoks
               ltac:(tauto)).
    by destruct Hop as [-> | ->].
  - inversion Hvars as [|? ? [Hv Hcomma] Hvars']; subst. simpl in Hv, Hcomma.
    simpl in Htoks, Hfuel. rewrite <- !app_assoc in Htoks. simpl in Htoks.
    rewrite (parseVar_loop_var v comma _ fuel variables p Hv Htoks
               ltac:(tauto)).
    rewrite Hcomma. cbn [token.eqb token.code Nat.eqb].
    rewrite (IH last op fuel _ (leaving p _) more Hvars' Hlast Hop eq_refl ltac:(lia)).
    by rewrite leaving_leaving, <- app_assoc.
Qed.

(** A variable statement starts with a name that the next token makes
    neither a call nor a field access. *)
Lemma var_statement_starts vars last op more :
  Forall (λ item : Var * Token, var_ok item.1 ∧ Kind_ item.2 = COMMA) vars →
  var_ok last →
  Kind_ op = COLON_EQUAL ∨ Kind_ op = EQUAL →
  ∃ name next more',
    vars_tokens vars ++ var_tokens last ++ op :: more = name :: next :: more'
    ∧ Kind_ name = ID ∧ Kind_ next ≠ OPEN_PAREN ∧ Kind_ next ≠ DOT.
Proof.
  intros Hvars Hlast Hop.
  assert (Hvar : ∀ (v : Var) sep tail,
            var_ok v →
            Kind_ sep = COMMA ∨ Kind_ sep = COLON_EQUAL ∨ Kind_ sep = EQUAL →
            ∃ name next more',
              var_tokens v ++ sep :: tail = name :: next :: more'
              ∧ Kind_ name = ID ∧ Kind_ next ≠ OPEN_PAREN ∧ Kind_ next ≠ DOT).
  { intros [name [[tst ty]|]] sep tail Hv Hsep; simpl in *.
    - destruct Hv as [Hname Hty].
      destruct Hty as [tok Hk|tok Hk|star ts' ty' Hk _]; eexists _, _, _;
        (split; [done|]); (split; [done|]); try rewrite Hk; try done.
      by destruct (Kind_ tok).
    - eexists _, _, _. split; [done|]. split; [done|].
      by destruct Hsep as [-> |[-> | ->]]. }
  destruct vars as [|[v comma] vars].
  - simpl. apply Hvar; [done|tauto].
  - inversion Hvars as [|? ? [Hv Hcomma] _]; subst. simpl in Hv, Hcomma.
    simpl. rewrite <- !app_assoc. simpl. apply Hvar; [done|tauto].
Qed.

(** X20. Variable statements.  [v1, ..., vn op e1, ..., em] with [op]
    one of [:=] and [=], each [v] a name with an optional type, is read as
    follows.  When [m = n], the i-th variable gets the i-th expression,
    all are declarations exactly when [op] is [:=], and only those written
    without a type need inference; one variable gives a [VarStmt], more
    give a [MultiVarStmt].  [parseStmt] reads the same followed by a
    semicolon, and so does [parseVarFrom].  When [m ≠ n], [parseVar] has
    consumed everything up to the closing token and returns the error
    [n != m], an error that is no sentinel. *)
Theorem parseVar_reads f0 vars last op items :
  Forall (λ item : Var * Token, var_ok item.1 ∧ Kind_ item.2 = COMMA) vars →
  var_ok last →
  Kind_ op = COLON_EQUAL ∨ Kind_ op = EQUAL →
  (∀ close, ends_var (Kind_ close) = true →
     args_ok f0 [SEMICOLON; CLOSE_PAREN] items close) →
  let ts := vars_tokens vars ++ var_tokens last ++ op :: flat_map arg_tokens items in
  let isDecl := token.eqb (Kind_ op) COLON_EQUAL in
  let variables := map var_stmt (map fst vars ++ [last]) in
  let exprs := map arg_expr items in
  (List.length items = S (List.length vars) →
     reads_upto parseVar (λ k, negb (ends_var k))
                (f0 + List.length items + 2) ts
                (var_statement isDecl variables exprs)
     ∧ ∀ semi, Kind_ semi = SEMICOLON →
         reads parseStmt (f0 + List.length items + 3) (ts ++ [semi])
               (Some (var_statement isDecl variables exprs))
         ∧ ∀ fuel filename,
             (f0 + List.length items + 2 ≤ fuel)%nat →
             parseVarFrom fuel filename (ts ++ [semi])
             = Ok (var_statement isDecl variables exprs))
  ∧ (List.length items ≠ S (List.length vars) →
     ∀ fuel p rest,
       (f0 + List.length items + List.length vars + 2 ≤ fuel)%nat →
       toks (lex p) = ts ++ rest →
       ends_var (Kind_ (hd (lexer.eof (lex p)) rest)) = true →
       parseVar fuel p
       = (Err (Errorf (pretty (S (List.length vars)) +:+ " != "
                       +:+ pretty (List.length items))),
          leaving p rest)).
Proof.
  intros Hvars Hlast Hop Hitems ts isDecl variables exprs.
  assert (Hrun : ∀ fuel p rest,
            (f0 + List.length items + 2 ≤ fuel)%nat →
            (List.length vars + 1 ≤ fuel)%nat →
            toks (lex p) = ts ++ rest →
            ends_var (Kind_ (hd (lexer.eof (lex p)) rest)) = true →
            parseVar fuel p = parseVar_finish variables isDecl exprs (leaving p rest)).
  { intros fuel p rest Hfuel Hfuel' Htoks Hend.
    destruct rest as [|close rest]; [done|]. simpl in Hend.
    unfold ts in Htoks. rewrite <- !app_assoc in Htoks. simpl in Htoks.
    unfold parseVar.
    rewrite (bind_Ok _ _ _ _ _
               (parseVar_loop_reads vars last op fuel [] p _ Hvars Hlast Hop Htoks
                  ltac:(lia))).
    cbn beta iota.
    destruct fuel as [|fuel]; [lia|]. cbn [parseExprList].
    rewrite (bind_Ok _ _ _ _ _
               (parseExprList_loop_reads f0 [SEMICOLON; CLOSE_PAREN] close rest items
                  fuel [] (leaving p (flat_map arg_tokens items ++ close :: rest))
                  (Hitems close Hend)
                  ltac:(simpl; by destruct (Kind_ close)) eq_refl ltac:(lia))).
    by rewrite leaving_leaving. }
  assert (Hlen : List.length variables = S (List.length vars)).
  { unfold variables. rewrite length_map, length_app, length_map. simpl. lia. }
  assert (Hlen' : List.length exprs = List.length items) by apply length_map.
  split.
  - intros Hcount.
    assert (Hvar : ∀ fuel p rest,
              (f0 + List.length items + 2 ≤ fuel)%nat →
              toks (lex p) = ts ++ rest →
              ends_var (Kind_ (hd (lexer.eof (lex p)) rest)) = true →
              parseVar fuel p
              = (Ok (var_statement isDecl variables exprs), leaving p rest)).
    { intros fuel p rest Hfuel Htoks Hend.
      rewrite (Hrun fuel p rest ltac:(lia) ltac:(lia) Htoks Hend).
      unfold parseVar_finish, var_statement. rewrite Hlen, Hlen', Hcount, Nat.eqb_refl.
      cbn [negb]. by destruct (zip_with _ _ _) as [|? [|? ?]]. }
    assert (Hid : ∀ fuel p rest,
              (f0 + List.length items + 2 ≤ fuel)%nat →
              toks (lex p) = ts ++ rest →
              ends_var (Kind_ (hd (lexer.eof (lex p)) rest)) = true →
              ParseIdStmt fuel p
              = (Ok (var_statement isDecl variables exprs), leaving p rest)).
    { intros fuel p rest Hfuel Htoks Hend.
      destruct (var_statement_starts vars last op (flat_map arg_tokens items ++ rest)
                  Hvars Hlast Hop) as (name & next & more & Hts & Hname & Hn1 & Hn2).
      assert (Htoks' : toks (lex p) = name :: next :: more).
      { rewrite Htoks, <- Hts. unfold ts. by rewrite <- !app_assoc. }
      unfold ParseIdStmt.
      rewrite (bind_Ok _ _ _ _ _ (Peek1_hd p _ _ _ Htoks')).
      destruct (Kind_ next); try done; by apply Hvar. }
    split.
    + intros fuel p rest Hfuel Htoks Hstop. apply Hvar; [done|done|].
      by apply negb_false_iff.
    + intros semi Hsemi. split.
      * intros fuel p rest Hfuel Htoks.
        rewrite <- app_assoc in Htoks. simpl in Htoks.
        destruct fuel as [|fuel]; [lia|]. cbn [parseStmt].
        destruct (var_statement_starts vars last op
                    (flat_map arg_tokens items ++ semi :: rest) Hvars Hlast Hop)
          as (name & next & more & Hts & Hname & _).
        assert (Htoks' : toks (lex p) = name :: next :: more).
        { rewrite Htoks, <- Hts. unfold ts. by rewrite <- !app_assoc. }
        rewrite (bind_Ok _ _ _ _ _ (Peek_hd p _ _ Htoks')), Hname. cbn beta iota.
        rewrite (bind_Ok _ _ _ _ _
                   (Hid fuel p (semi :: rest) ltac:(lia) Htoks
                        ltac:(simpl; by rewrite Hsemi))).
        by rewrite (bind_Ok _ _ _ _ _
                      (expect_Ok (leaving p (semi :: rest)) semi rest SEMICOLON
                         eq_refl Hsemi)).
      * intros fuel filename Hfuel. unfold parseVarFrom.
        by rewrite (Hid fuel (NewWithLex (lexer.New filename (ts ++ [semi]))
                                diagnostics.New [])
                      [semi] Hfuel eq_refl ltac:(simpl; by rewrite Hsemi)).
  - intros Hcount fuel p rest Hfuel Htoks Hend.
    rewrite (Hrun fuel p rest ltac:(lia) ltac:(lia) Htoks Hend).
    unfold parseVar_finish. rewrite Hlen, Hlen'.
    assert (Nat.eqb (S (List.length vars)) (List.length items) = false) as ->
      by (apply Nat.eqb_neq; lia).
    reflexivity.
Qed.

(** *** The [for] loop *)

Lemma parseForLoop_reads f0 kw open tsi init semi1 tsc cond semi2 tsu update close
    tsb block :
  Kind_ kw = FOR → Kind_ open = OPEN_PAREN →
  Kind_ semi1 = SEMICOLON → Kind_ semi2 = SEMICOLON → Kind_ close = CLOSE_PAREN →
  reads_upto parseVar (λ k, negb (ends_var k)) f0 tsi init →
  parses parseExpr stop_logical f0 tsc cond →
  reads_upto parseVar (λ k, negb (ends_var k)) f0 tsu update →
  reads parseBlock f0 tsb block →
  reads parseForLoop (f0 + 1)
        (kw :: open :: tsi ++ semi1 :: tsc ++ semi2 :: tsu ++ close :: tsb)
        (ForLoop init cond update block).
Proof.
  intros Hkw Hopen Hsemi1 Hsemi2 Hclose Hinit Hcond Hupdate Hblock fuel p rest Hfuel Htoks.
  simpl in Htoks. repeat (rewrite <- app_assoc in Htoks; simpl in Htoks).
  set (t4 := tsb ++ rest) in *. set (t3 := tsu ++ close :: t4) in *.
  set (t2 := tsc ++ semi2 :: t3) in *. set (t1 := tsi ++ semi1 :: t2) in *.
  destruct fuel as [|fuel]; [lia|]. cbn [parseForLoop].
  rewrite (bind_Ok _ _ _ _ _ (expect_Ok p kw _ FOR Htoks Hkw)).
  cbn beta iota. cbn [negb].
  rewrite (bind_Ok _ _ _ _ _
             (expect_Ok (leaving p (open :: t1)) open t1 OPEN_PAREN eq_refl Hopen)).
  cbn beta iota. cbn [negb]. rewrite leaving_leaving.
  assert (H1 : parseVar fuel (leaving p t1) = (Ok init, leaving p (semi1 :: t2))).
  { rewrite (Hinit fuel (leaving p t1) (semi1 :: t2)); [done|lia|done|].
    simpl. by rewrite Hsemi1. }
  rewrite (bind_Ok _ _ _ _ _ H1).
  rewrite (bind_Ok _ _ _ _ _
             (expect_Ok (leaving p (semi1 :: t2)) semi1 t2 SEMICOLON eq_refl Hsemi1)).
  cbn beta iota. cbn [negb]. rewrite leaving_leaving.
  assert (H2 : parseExpr fuel (leaving p t2) = (Ok cond, leaving p (semi2 :: t3))).
  { rewrite (Hcond fuel (leaving p t2) (semi2 :: t3)); [done|lia|done|].
    simpl. by rewrite Hsemi2. }
  rewrite (bind_Ok _ _ _ _ _ H2).
  rewrite (bind_Ok _ _ _ _ _
             (expect_Ok (leaving p (semi2 :: t3)) semi2 t3 SEMICOLON eq_refl Hsemi2)).
  cbn beta iota. cbn [negb]. rewrite leaving_leaving.
  assert (H3 : parseVar fuel (leaving p t3) = (Ok update, leaving p (close :: t4))).
  { rewrite (Hupdate fuel (leaving p t3) (close :: t4)); [done|lia|done|].
    simpl. by rewrite Hclose. }
  rewrite (bind_Ok _ _ _ _ _ H3).
  rewrite (bind_Ok _ _ _ _ _
             (expect_Ok (leaving p (close :: t4)) close t4 CLOSE_PAREN eq_refl Hclose)).
  cbn beta iota. cbn [negb]. rewrite leaving_leaving.
  by rewrite (bind_Ok _ _ _ _ _ (Hblock fuel (leaving p t4) rest ltac:(lia) eq_refl)),
             leaving_leaving.
Qed.

(** X21. For loops.  [for ( init ; cond ; update ) block], where [init]
    and [update] are variable statements and [cond] is an expression, is
    read by [parseStmt] as the loop of these four parts;
    [ParseForLoopFrom] returns the same loop. *)
Theorem parseStmt_for f0 kw open tsi init semi1 tsc cond semi2 tsu update close tsb block :
  Kind_ kw = FOR → Kind_ open = OPEN_PAREN →
  Kind_ semi1 = SEMICOLON → Kind_ semi2 = SEMICOLON → Kind_ close = CLOSE_PAREN →
  reads_upto parseVar (λ k, negb (ends_var k)) f0 tsi init →
  parses parseExpr stop_logical f0 tsc cond →
  reads_upto parseVar (λ k, negb (ends_var k)) f0 tsu update →
  reads parseBlock f0 tsb block →
  let ts := kw :: open :: tsi ++ semi1 :: tsc ++ semi2 :: tsu ++ close :: tsb in
  reads parseStmt (f0 + 2) ts (Some (ForLoop init cond update block))
  ∧ ∀ fuel filename,
      (f0 + 1 ≤ fuel)%nat →
      ParseForLoopFrom fuel ts filename = Ok (ForLoop init cond update block).
Proof.
  intros Hkw Hopen Hsemi1 Hsemi2 Hclose Hinit Hcond Hupdate Hblock ts.
  pose proof (parseForLoop_reads f0 kw open tsi init semi1 tsc cond semi2 tsu update
                close tsb block Hkw Hopen Hsemi1 Hsemi2 Hclose Hinit Hcond Hupdate Hblock)
    as Hfor.
  split.
  - intros fuel p rest Hfuel Htoks.
    destruct fuel as [|fuel]; [lia|]. cbn [parseStmt].
    rewrite (bind_Ok _ _ _ _ _ (Peek_hd p _ _ Htoks)), Hkw. cbn beta iota.
    by rewrite (bind_Ok _ _ _ _ _ (Hfor fuel p rest ltac:(lia) Htoks)).
  - intros fuel filename Hfuel. unfold ParseForLoopFrom.
    by rewrite (Hfor fuel (NewWithLex (lexer.New filename ts) diagnostics.New [])
                  [] Hfuel (eq_sym (app_nil_r _))).
Qed.

End StatementTheory.

Module StatementExamples.
Import token lexer ast parser testing grammar syntax statements samples.
Import GrammarTheory SyntaxTheory StatementTheory.

(** A fact of the form [reads f f0 ts a] for given tokens, by running
    [f] on them; [n] is at least [f0]. *)
Tactic Notation "runs" integer(n) :=
  let fuel := fresh "fuel" in
  let p := fresh "p" in
  let Hfuel := fresh "Hfuel" in
  let Htoks := fresh "Htoks" in
  intros fuel p ? Hfuel Htoks;
  do n (destruct fuel as [|fuel]; [simpl in Hfuel; lia|]);
  destruct p as [[? ? ?] ? ? ?]; simpl in Htoks; subst; reflexivity.

(** The same for [reads_upto], by cases on the token that follows. *)
Tactic Notation "runs_upto" integer(n) :=
  let fuel := fresh "fuel" in
  let p := fresh "p" in
  let rest := fresh "rest" in
  let Hfuel := fresh "Hfuel" in
  let Htoks := fresh "Htoks" in
  let Hstop := fresh "Hstop" in
  intros fuel p rest Hfuel Htoks Hstop;
  do n (destruct fuel as [|fuel]; [simpl in Hfuel; lia|]);
  destruct p as [[? ? ?] ? ? ?]; simpl in Htoks; subst;
  destruct rest as [|[[] ? ?] ?]; try discriminate Hstop; reflexivity.

(** [{ }] *)
Lemma empty_block open close :
  Kind_ open = OPEN_CURLY → Kind_ close = CLOSE_CURLY →
  reads parseBlock 2 [open; close] (mkBlockStmt (Pos open) [] (Pos close)).
Proof.
  intros Hopen Hclose fuel p rest Hfuel Htoks.
  do 2 (destruct fuel as [|fuel]; [lia|]).
  destruct p as [[d f ts] c m h], open as [k1 l1 p1], close as [k2 l2 p2].
  simpl in *. subst. reflexivity.
Qed.

(** [return 0;] *)
Lemma parseStmt_return_witness :
  let kw := tk RETURN "return" 1 in
  let zero := tk INTEGER_LITERAL "0" 8 in
  let semi := tk SEMICOLON ";" 9 in
  Kind_ kw = RETURN
  ∧ parseStmt 31 (parserOn [kw; zero; semi])
    = (Ok (Some (ReturnStmt kw (LiteralExpr (BasicType INTEGER_LITERAL) "0"))),
       parserOn []).
Proof.
  intros kw zero semi. split; [reflexivity|].
  refine (proj1 (proj2 (parseStmt_return kw eq_refl)) 30 [zero] _ semi
            (atom_argument zero eq_refl) _ eq_refl 31 (parserOn [kw; zero; semi]) []
            (le_n _) eq_refl).
  discriminate.
Defined.

(** [{ return; x := 1; }], and the same block left open at the end of
    the file. *)
Lemma parseBlock_reads_witness :
  let open := tk OPEN_CURLY "{" 1 in
  let ret := tk RETURN "return" 3 in
  let x := tk ID "x" 11 in
  let one := tk INTEGER_LITERAL "1" 16 in
  let close := tk CLOSE_CURLY "}" 19 in
  let src := [open; ret; tk SEMICOLON ";" 9; x; tk COLON_EQUAL ":=" 13; one;
              tk SEMICOLON ";" 17] in
  let stmts := [ReturnStmt ret VoidExpr;
                VarStmt_ (mkVarStmt x None
                            (Some (LiteralExpr (BasicType INTEGER_LITERAL) "1"))
                            true true)] in
  parseBlock 25 (parserOn (src ++ [close]))
  = (Ok (mkBlockStmt (Pos open) stmts (Pos close)), parserOn [])
  ∧ (parseBlock 25 (parserOn src)).1 = Err COMPILER_ERROR_FOUND
  ∧ collector (parseBlock 25 (parserOn src)).2
    = [diagnostics.mkDiag "main.t:0:0: expected statement or }, not end of file"].
Proof.
  intros open ret x one close src stmts.
  set (items := [([ret; tk SEMICOLON ";" 9], ReturnStmt ret VoidExpr,
                  (λ _ : token.Kind, false));
                 ([x; tk COLON_EQUAL ":=" 13; one; tk SEMICOLON ";" 17],
                  VarStmt_ (mkVarStmt x None
                              (Some (LiteralExpr (BasicType INTEGER_LITERAL) "1"))
                              true true),
                  (λ _ : token.Kind, false))] : list Written).
  assert (Hitems : ∀ next, stmts_ok 20 items next).
  { intros next. repeat split; try discriminate.
    - runs_upto 20.
    - runs_upto 20. }
  destruct (parseBlock_reads 20 open items eq_refl) as [Hclosed Hopen].
  split.
  - exact (Hclosed close eq_refl (Hitems close) 25 (parserOn (src ++ [close])) []
             ltac:(simpl; lia) eq_refl).
  - rewrite (Hopen 25 (parserOn src) [] (Hitems _) ltac:(discriminate) eq_refl
               ltac:(simpl; lia) eq_refl).
    split; reflexivity.
Defined.

(** [while x < 3 { }] *)
Lemma parseStmt_while_witness :
  let kw := tk WHILE "while" 1 in
  let x := tk ID "x" 7 in
  let three := tk INTEGER_LITERAL "3" 11 in
  let open := tk OPEN_CURLY "{" 13 in
  let close := tk CLOSE_CURLY "}" 15 in
  ParseWhileLoopFrom 30 [kw; x; tk LESS "<" 9; three; open; close] "main.t"
  = Ok (WhileLoop
          (BinaryExpr (IdExpr x) LESS (LiteralExpr (BasicType INTEGER_LITERAL) "3"))
          (mkBlockStmt (Pos open) [] (Pos close))).
Proof.
  intros kw x three open close.
  refine (proj2 (parseStmt_while 20 kw [x; tk LESS "<" 9; three] _ [open; close] _
                   eq_refl _ eq_refl _) 30 "main.t" _).
  - exact (operand_atom_chain COMPARASION 2 [x] (IdExpr x) [(tk LESS "<" 9, three)]
             (or_intror (or_intror (or_introl eq_refl))) (parseUnary_atom x eq_refl)
             ltac:(repeat constructor)).
  - eapply (reads_mono _ 2); [by apply empty_block|lia].
  - lia.
Defined.

(** [if a { } elif b { } else { }], and without the [else]. *)
Lemma parseStmt_cond_witness :
  let kw c := tk IF "if" c in
  let a := tk ID "a" 4 in
  let b := tk ID "b" 15 in
  let open c := tk OPEN_CURLY "{" c in
  let close c := tk CLOSE_CURLY "}" c in
  let block c := mkBlockStmt (Pos (open c)) [] (Pos (close (c + 2))) in
  let src := [kw 1; a; open 6; close 8; tk ELIF "elif" 10; b; open 17; close 19] in
  parseStmt 30 (parserOn (src ++ [tk ELSE "else" 21; open 26; close 28]))
  = (Ok (Some (CondStmt (mkIfElifCond (Pos (kw 1)) (IdExpr a) (block 6))
                 [mkIfElifCond (Pos (tk ELIF "elif" 10)) (IdExpr b) (block 17)]
                 (Some (mkElseCond (Pos (tk ELSE "else" 21)) (block 26))))),
     parserOn [])
  ∧ parseStmt 30 (parserOn (src ++ [tk SEMICOLON ";" 21]))
    = (Ok (Some (CondStmt (mkIfElifCond (Pos (kw 1)) (IdExpr a) (block 6))
                   [mkIfElifCond (Pos (tk ELIF "elif" 10)) (IdExpr b) (block 17)]
                   None)),
       parserOn [tk SEMICOLON ";" 21]).
Proof.
  intros kw a b open close block src.
  assert (Hblock : ∀ c, reads parseBlock 20 [open c; close (c + 2)] (block c)).
  { intros c. eapply (reads_mono _ 2); [by apply empty_block|lia]. }
  assert (Hid : ∀ x, Kind_ x = ID → parses parseExpr stop_logical 20 [x] (IdExpr x)).
  { intros [k l pos] Hk. simpl in Hk. subst k.
    eapply parses_mono;
      [apply operand_lifts, (parseUnary_atom (mkToken ID l pos) eq_refl)|lia]. }
  assert (Helifs : Forall (elif_ok 20)
                     [(tk ELIF "elif" 10, [b], IdExpr b, [open 17; close 19], block 17)]).
  { repeat constructor; [by apply Hid|apply (Hblock 17)]. }
  split.
  - exact (parseStmt_cond 20 (kw 1) [a] (IdExpr a) [open 6; close 8] (block 6) _
             (Some (tk ELSE "else" 21, [open 26; close 28], block 26))
             eq_refl (Hid a eq_refl) eq_refl (Hblock 6) Helifs
             (conj eq_refl (Hblock 26)) 30 (parserOn (src ++ _)) []
             ltac:(simpl; lia) eq_refl eq_refl).
  - exact (parseStmt_cond 20 (kw 1) [a] (IdExpr a) [open 6; close 8] (block 6) _ None
             eq_refl (Hid a eq_refl) eq_refl (Hblock 6) Helifs I
             30 (parserOn (src ++ _)) [tk SEMICOLON ";" 21]
             ltac:(simpl; lia) eq_refl eq_refl).
Defined.

(** [a, b int = 1, 2;] *)
Lemma parseVar_reads_witness :
  let a := tk ID "a" 1 in
  let b := tk ID "b" 4 in
  let one := tk INTEGER_LITERAL "1" 12 in
  let two := tk INTEGER_LITERAL "2" 15 in
  let lit s := LiteralExpr (BasicType INTEGER_LITERAL) s in
  parseVarFrom 40 "main.t"
    [a; tk COMMA "," 2; b; tk INT_TYPE "int" 6; tk EQUAL "=" 10; one; tk COMMA "," 13;
     two; tk SEMICOLON ";" 16]
  = Ok (MultiVarStmt false
          [mkVarStmt a None (Some (lit "1")) false true;
           mkVarStmt b (Some (BasicType INT_TYPE)) (Some (lit "2")) false false]).
Proof.
  intros a b one two lit.
  set (items := [([one], atom_expr one, Some (tk COMMA "," 13));
                 ([two], atom_expr two, None)] : list Arg).
  assert (Hitems : ∀ close, ends_var (Kind_ close) = true →
                     args_ok 30 [SEMICOLON; CLOSE_PAREN] items close).
  { intros close Hclose.
    repeat split; try reflexivity;
      try exact (atom_argument one eq_refl); try exact (atom_argument two eq_refl);
      simpl; by destruct (Kind_ close). }
  refine (proj2 (proj2 (proj1 (parseVar_reads 30 [((a, None), tk COMMA "," 2)]
              (b, Some ([tk INT_TYPE "int" 6], BasicType INT_TYPE)) (tk EQUAL "=" 10) items
              _ _ (or_intror eq_refl) Hitems) eq_refl)
            (tk SEMICOLON ";" 16) eq_refl) 40 "main.t" _).
  - repeat constructor.
  - split; [reflexivity|]. exact (spells_basic (tk INT_TYPE "int" 6) eq_refl).
  - simpl. lia.
Defined.

(** [for (i := 0; i < 3; i = i + 1) { }] *)
Lemma parseStmt_for_witness :
  let i c := tk ID "i" c in
  let lit s := LiteralExpr (BasicType INTEGER_LITERAL) s in
  let open := tk OPEN_CURLY "{" 31 in
  let close := tk CLOSE_CURLY "}" 33 in
  ParseForLoopFrom 40
    [tk FOR "for" 1; tk OPEN_PAREN "(" 5; i 6; tk COLON_EQUAL ":=" 8;
     tk INTEGER_LITERAL "0" 11; tk SEMICOLON ";" 12; i 14; tk LESS "<" 16;
     tk INTEGER_LITERAL "3" 18; tk SEMICOLON ";" 19; i 21; tk EQUAL "=" 23; i 25;
     tk PLUS "+" 27; tk INTEGER_LITERAL "1" 29; tk CLOSE_PAREN ")" 30; open; close]
    "main.t"
  = Ok (ForLoop
          (VarStmt_ (mkVarStmt (i 6) None (Some (lit "0")) true true))
          (BinaryExpr (IdExpr (i 14)) LESS (lit "3"))
          (VarStmt_ (mkVarStmt (i 21) None
                       (Some (BinaryExpr (IdExpr (i 25)) PLUS (lit "1"))) false true))
          (mkBlockStmt (Pos open) [] (Pos close))).
Proof.
  intros i lit open close.
  refine (proj2 (parseStmt_for 30 (tk FOR "for" 1) (tk OPEN_PAREN "(" 5)
                   [i 6; tk COLON_EQUAL ":=" 8; tk INTEGER_LITERAL "0" 11] _
                   (tk SEMICOLON ";" 12)
                   [i 14; tk LESS "<" 16; tk INTEGER_LITERAL "3" 18] _
                   (tk SEMICOLON ";" 19)
                   [i 21; tk EQUAL "=" 23; i 25; tk PLUS "+" 27; tk INTEGER_LITERAL "1" 29] _
                   (tk CLOSE_PAREN ")" 30) [open; close] _
                   eq_refl eq_refl eq_refl eq_refl eq_refl _ _ _ _) 40 "main.t" _).
  - runs_upto 30.
  - eapply parses_mono;
      [exact (operand_atom_chain COMPARASION 2 [i 14] (IdExpr (i 14))
                [(tk LESS "<" 16, tk INTEGER_LITERAL "3" 18)]
                (or_intror (or_intror (or_introl eq_refl)))
                (parseUnary_atom (i 14) eq_refl) ltac:(repeat constructor))|simpl; lia].
  - runs_upto 30.
  - eapply (reads_mono _ 2); [by apply empty_block|lia].
  - lia.
Defined.

End StatementExamples.

(** * Function declarations and the module scope *)

Module RegisterTheory.
Import token lexer ast parser testing grammar syntax statements frames declared.
Import GrammarTheory SyntaxTheory StatementTheory FrameTheory DeclTheory.

Lemma bind_Ok_inv {A B} (m : M A) (k : A → M B) p b p' :
  bind m k p = (Ok b, p') → ∃ a p1, m p = (Ok a, p1) ∧ k a p1 = (Ok b, p').
Proof.
  unfold bind. destruct (m p) as [[a|e|msg|] p1]; intros H; try done. eauto.
Qed.

(** What [parseFnDecl] has done when it returns a declaration. *)
Lemma parseFnDecl_Ok fuel p fnDecl p' :
  valid p →
  parseFnDecl fuel p = (Ok fnDecl, p') →
  ∃ s sc,
    moduleScope p = Some s ∧ heap p !! s = Some sc
    ∧ scope.nodes sc !! token.Name (Fn_Name fnDecl) = None
    ∧ Fn_Scope fnDecl = List.length (heap p)
    ∧ heap p'
      = <[s := scope.mkScope (scope.parent sc)
                 (<[token.Name (Fn_Name fnDecl) := FunctionDeclNode fnDecl]>
                    (scope.nodes sc))]>
          (heap p ++ [scope.mkScope (Some s) ∅])
    ∧ moduleScope p' = moduleScope p
    ∧ collector p' = collector p.
Proof.
  unfold parseFnDecl. intros Hvalid H.
  apply bind_Ok_inv in H as ([fn ok] & p1 & H1 & H).
  destruct (quiet_expect FN p) as (C1 & M1 & S1). rewrite H1 in C1, M1, S1. simpl in *.
  destruct ok; simpl in H; [|done].
  apply bind_Ok_inv in H as ([name ok] & p2 & H2 & H).
  destruct (quiet_expect ID p1) as (C2 & M2 & S2). rewrite H2 in C2, M2, S2. simpl in *.
  destruct ok; simpl in H; [|done].
  apply bind_Ok_inv in H as (params & p3 & H3 & H).
  destruct (ReportTheory.diagnosing_parseFunctionParams fuel p2) as (M3 & S3 & C3).
  rewrite H3 in C3, M3, S3. simpl in *.
  apply bind_Ok_inv in H as (returnType & p4 & H4 & H).
  destruct (ReportTheory.diagnosing_parseReturnType false p3) as (M4 & S4 & C4).
  rewrite H4 in C4, M4, S4. simpl in *.
  apply bind_Ok_inv in H as (block & p5 & H5 & H).
  destruct (failfast_statements fuel) as (_ & Hblock & _).
  destruct (Hblock p4) as (M5 & S5 & C5). rewrite H5 in C5, M5, S5. simpl in *.
  destruct C5 as [C5|(d & _ & [=])].
  assert (Hm : moduleScope p5 = moduleScope p) by congruence.
  assert (Hs : heap p5 = heap p) by congruence.
  assert (Hc : collector p5 = collector p) by congruence.
  assert (Hvalid5 : valid p5) by (intros s; rewrite Hm, Hs; apply Hvalid).
  clear - H Hm Hs Hc Hvalid5.
  unfold bind, NewScope, ScopeInsert, ast.NewScope in H. cbn [heap set_heap] in H.
  destruct (moduleScope p5) as [s|] eqn:Hms; [|done].
  destruct (ast.Insert s _ _ _) as [[err σ]|] eqn:HI; [|done].
  destruct err as [err|]; [by destruct (same _ _)|].
  simpl in H. injection H as <- <-.
  apply ParserTheory.ast_Insert_inv in HI as (sc & Hsc & Hn & ->).
  assert (Hlt : (s < List.length (heap p5))%nat) by (by apply Hvalid5).
  assert (Hsc' : heap p5 !! s = Some sc).
  { rewrite <- Hsc. symmetry. by apply lookup_app_l. }
  exists s, sc. rewrite <- Hs, <- Hm, <- Hc. simpl. repeat split; done.
Qed.

(** The return type of a declaration with a body: a type, or nothing
    before the opening brace. *)
Lemma parseReturnType_reads tsT ty p more :
  spells tsT ty ∨ (tsT = [] ∧ ty = BasicType VOID_TYPE) →
  Kind_ (hd (lexer.eof (lex p)) more) = OPEN_CURLY →
  toks (lex p) = tsT ++ more →
  parseReturnType false p = (Ok ty, leaving p more).
Proof.
  intros Hty Hopen Htoks. unfold parseReturnType.
  destruct Hty as [Hty|[-> ->]].
  - assert (Hfirst : ∃ tok ts, tsT = tok :: ts ∧ Kind_ tok ≠ OPEN_CURLY).
    { destruct Hty as [tok Hk|tok Hk|star ts' ty' Hk _]; eexists _, _;
        (split; [done|]); try rewrite Hk; try done.
      intros Heq. by rewrite Heq in Hk. }
    destruct Hfirst as (tok & ts & -> & Hne).
    rewrite (bind_Ok _ _ _ _ _ (NextIs_hd p _ _ SEMICOLON Htoks)).
    rewrite (bind_Ok _ _ _ _ _ (NextIs_hd p _ _ OPEN_CURLY Htoks)).
    apply ParserTheory.Kind_eqb_neq in Hne. rewrite Hne. cbn [andb orb].
    by rewrite (handle_Ok _ _ _ _ _ _ (parseExprType_spelled p _ ty more Htoks Hty)).
  - simpl in Htoks.
    assert (Hpeek : lexer.NextIs (lex p) OPEN_CURLY = true).
    { unfold lexer.NextIs, lexer.Peek. rewrite Htoks, Hopen. done. }
    unfold bind, NextIs. rewrite Hpeek. cbn [andb orb]. unfold ret.
    by rewrite <- Htoks, leaving_same.
Qed.

(** X22. Declaring a function.  [fn name params type block], the type
    being optional and [void] when left out, read while the module scope
    does not bind [name], gives the declaration of these parts.  A scope
    for the function is allocated at the end of the store, as a child of
    the module scope and binding nothing; the declaration is bound under
    its name in the module scope, so [Lookup] of the function's name from
    the function's own scope finds the declaration.  Nothing else changes in the store, and
    [parseFnDeclFrom] returns the same declaration. *)
Theorem parseFnDecl_registers f0 kw name tsP params tsT ty tsB block :
  Kind_ kw = FN → Kind_ name = ID →
  reads parseFunctionParams f0 tsP params →
  spells tsT ty ∨ (tsT = [] ∧ ty = BasicType VOID_TYPE) →
  starts tsB (λ tok, Kind_ tok = OPEN_CURLY) →
  reads parseBlock f0 tsB block →
  ∀ fuel p rest s sc,
    (f0 ≤ fuel)%nat →
    toks (lex p) = kw :: name :: tsP ++ tsT ++ tsB ++ rest →
    moduleScope p = Some s →
    heap p !! s = Some sc →
    scope.nodes sc !! token.Name name = None →
    let fnDecl := mkFunctionDecl (List.length (heap p)) name params block ty in
    let σ' := <[s := scope.mkScope (scope.parent sc)
                       (<[token.Name name := FunctionDeclNode fnDecl]> (scope.nodes sc))]>
                (heap p ++ [scope.mkScope (Some s) ∅]) in
    parseFnDecl fuel p = (Ok fnDecl, set_heap (leaving p rest) σ')
    ∧ parseFnDeclFrom fuel (Path (lex p)) (toks (lex p)) (Some s) (heap p)
      = (Ok fnDecl, σ')
    ∧ σ' !! Fn_Scope fnDecl = Some (scope.mkScope (Some s) ∅)
    ∧ scope.Lookup σ' (Fn_Scope fnDecl) (token.Name name)
      = Some (inl (FunctionDeclNode fnDecl)).
Proof.
  intros Hkw Hname Hparams Hty Hstart Hblock fuel p rest s sc Hfuel Htoks Hms Hsc Hn
         fnDecl σ'.
  pose proof (lookup_lt_Some _ _ _ Hsc) as Hlt.
  assert (Hrun : ∀ q, toks (lex q) = toks (lex p) → moduleScope q = Some s →
            heap q = heap p →
            parseFnDecl fuel q = (Ok fnDecl, set_heap (leaving q rest) σ')).
  { intros q Hq Hqs Hqh. rewrite Htoks in Hq. unfold parseFnDecl.
    rewrite (bind_Ok _ _ _ _ _ (expect_Ok q kw _ FN Hq Hkw)).
    cbn beta iota. cbn [negb].
    rewrite (bind_Ok _ _ _ _ _ (expect_Ok (leaving q _) name _ ID eq_refl Hname)).
    cbn beta iota. cbn [negb]. rewrite leaving_leaving.
    rewrite (bind_Ok _ _ _ _ _
               (Hparams fuel (leaving q (tsP ++ tsT ++ tsB ++ rest)) (tsT ++ tsB ++ rest)
                  Hfuel eq_refl)).
    rewrite leaving_leaving.
    rewrite (bind_Ok _ _ _ _ _
               (parseReturnType_reads tsT ty (leaving q (tsT ++ tsB ++ rest))
                  (tsB ++ rest) Hty (starts_hd q tsB rest _ Hstart) eq_refl)).
    rewrite leaving_leaving.
    rewrite (bind_Ok _ _ _ _ _ (Hblock fuel (leaving q (tsB ++ rest)) rest Hfuel eq_refl)).
    rewrite leaving_leaving.
    unfold bind, NewScope, ScopeInsert, ast.NewScope. cbn [heap set_heap leaving set_lex].
    assert (Hl : moduleScope (leaving q rest) = Some s) by exact Hqs.
    rewrite !Hl, !Hqh.
    assert (Hsc' : (heap p ++ [scope.mkScope (Some s) ∅]) !! s = Some sc)
      by (by rewrite lookup_app_l).
    rewrite (ParserTheory.ast_Insert_fresh _ _ _ _ _ Hsc' Hn). reflexivity. }
  split; [by apply Hrun|]. split.
  - unfold parseFnDeclFrom.
    rewrite (Hrun (set_moduleScope
                     (NewWithLex (lexer.New (Path (lex p)) (toks (lex p)))
                        diagnostics.New (heap p)) (Some s)) eq_refl eq_refl eq_refl).
    reflexivity.
  - assert (Hfn : σ' !! List.length (heap p) = Some (scope.mkScope (Some s) ∅)).
    { unfold σ'. rewrite list_lookup_insert_ne by lia.
      rewrite lookup_app_r by lia. by rewrite Nat.sub_diag. }
    split; [exact Hfn|].
    assert (Hk : ∃ k, List.length σ' = S (S k)).
    { exists (List.length (heap p) - 1)%nat. unfold σ'.
      rewrite length_insert, length_app. simpl. lia. }
    destruct Hk as [k Hk]. unfold scope.Lookup. rewrite Hk.
    rewrite (ScopeTheory.Lookup_rec_step _ _ _ _ _ Hfn).
    cbn [scope.nodes scope.parent]. rewrite lookup_empty.
    erewrite ScopeTheory.Lookup_rec_step;
      [|unfold σ'; apply list_lookup_insert_eq; rewrite length_app; simpl; lia].
    simpl. by rewrite lookup_insert_eq.
Qed.


(** What [next] has done when it returns a declaration. *)
Lemma next_Ok fuel p node p' :
  next fuel p = (Ok (Some node), p') →
  (∃ fnDecl, node = FunctionDeclNode fnDecl ∧ parseFnDecl fuel p = (Ok fnDecl, p'))
  ∨ (∃ externDecl, node = ExternDeclNode externDecl
       ∧ heap p' = heap p ∧ moduleScope p' = moduleScope p).
Proof.
  unfold next. intros H. apply bind_Ok_inv in H as (tok & p1 & [= <- <-] & H).
  destruct (Kind_ _); try (by apply bind_Ok_inv in H as (? & ? & _ & [=])); try done.
  - apply bind_Ok_inv in H as (fnDecl & p1 & H1 & [= <- <-]). left. eauto.
  - apply bind_Ok_inv in H as (externDecl & p1 & H1 & [= <- <-]). right.
    destruct (failfast_parseExternDecl fuel p) as (Hm & Hs & _).
    rewrite H1 in Hm, Hs. eauto.
Qed.

Lemma fn_names_elem name nodes :
  name ∈ fn_names nodes →
  ∃ fnDecl, FunctionDeclNode fnDecl ∈ nodes ∧ name = token.Name (Fn_Name fnDecl).
Proof.
  induction nodes as [|[fnDecl|externDecl] nodes IH]; simpl; intros Hin.
  - by apply elem_of_nil in Hin.
  - apply elem_of_cons in Hin as [->|Hin].
    + exists fnDecl. split; [left|done].
    + destruct (IH Hin) as (fnDecl' & Hin' & ->). exists fnDecl'. split; [by right|done].
  - destruct (IH Hin) as (fnDecl' & Hin' & ->). exists fnDecl'. split; [by right|done].
Qed.

(** At the end of the file [next] changes nothing. *)
Lemma next_None fuel p p' : next fuel p = (Ok None, p') → p' = p.
Proof.
  unfold next. intros H. apply bind_Ok_inv in H as (tok & p1 & [= <- <-] & H).
  destruct (Kind_ _); try (by apply bind_Ok_inv in H as (? & ? & _ & [=]));
    by injection H.
Qed.

(** The loop of [parseFileNodes] keeps what is registered, and registers
    what it reads. *)
Lemma parseFileNodes_loop_registers ms (sc0 : Scope) (fileScope : scope.loc) fuel :
  ∀ nodes p nodes' p' sc,
    moduleScope p = Some ms →
    heap p !! ms = Some sc →
    scope.nodes sc0 ⊆ scope.nodes sc →
    NoDup (fn_names nodes) →
    (∀ name, name ∈ fn_names nodes → scope.nodes sc0 !! name = None) →
    registered (heap p) ms nodes →
    fileScope ≠ ms →
    heap p !! fileScope = Some (scope.mkScope (Some ms) ∅) →
    parseFileNodes_loop fuel nodes p = (Ok nodes', p') →
    NoDup (fn_names nodes')
    ∧ (∀ name, name ∈ fn_names nodes' → scope.nodes sc0 !! name = None)
    ∧ registered (heap p') ms nodes'
    ∧ heap p' !! fileScope = Some (scope.mkScope (Some ms) ∅).
Proof.
  induction fuel as [|fuel IH]; intros nodes p nodes' p' sc Hms Hsc Hsub Hnd Hnew Hreg
                                       Hfs Hfile H; [done|].
  simpl in H. apply bind_Ok_inv in H as (node & p1 & Hnext & H).
  destruct node as [node|];
    [|apply next_None in Hnext as ->; by injection H as <- <-].
  apply next_Ok in Hnext as [(fnDecl & -> & Hfn)|(externDecl & -> & Hs & Hm)].
  - apply parseFnDecl_Ok in Hfn as (s & sc' & Hs & Hsc' & Hn & Hscope & Hheap & Hm & _);
      [|intros s' Hs'; rewrite Hms in Hs'; injection Hs' as <-;
        by apply (lookup_lt_Some _ _ _ Hsc)].
    rewrite Hms in Hs. injection Hs as <-.
    assert (sc' = sc) as -> by (by eapply scope_agree).
    pose proof (lookup_lt_Some _ _ _ Hsc) as Hlt.
    pose proof (lookup_lt_Some _ _ _ Hfile) as Hflt.
    destruct Hreg as (sc1 & Hsc1 & Hreg).
    assert (sc1 = sc) as -> by (by eapply scope_agree).
    assert (Hfresh : token.Name (Fn_Name fnDecl) ∉ fn_names nodes).
    { intros Hin. apply fn_names_elem in Hin as (fnDecl' & Hin & Hname).
      destruct (Hreg _ Hin) as (Hbound & _).
      rewrite <- Hname in Hbound. by rewrite Hn in Hbound. }
    assert (Hnames : fn_names (nodes ++ [FunctionDeclNode fnDecl])
                     = fn_names nodes ++ [token.Name (Fn_Name fnDecl)]).
    { unfold fn_names. rewrite flat_map_app. simpl. by rewrite ?app_nil_r. }
    eapply (IH _ p1 _ _ _); try exact H.
    + by rewrite Hm.
    + rewrite Hheap. apply list_lookup_insert_eq. rewrite length_app. simpl. lia.
    + simpl. etrans; [exact Hsub|]. by apply insert_subseteq.
    + rewrite Hnames. apply NoDup_app. split; [done|]. split; [|apply NoDup_singleton].
      intros x Hx Hx'. apply list_elem_of_singleton in Hx' as ->. done.
    + intros name. rewrite Hnames, elem_of_app, list_elem_of_singleton.
      intros [Hin| ->]; [by apply Hnew|].
      destruct (scope.nodes sc0 !! _) as [v|] eqn:Hv; [|done].
      eapply lookup_weaken in Hv; [|exact Hsub]. by rewrite Hn in Hv.
    + eexists. split.
      { rewrite Hheap. apply list_lookup_insert_eq. rewrite length_app. simpl. lia. }
      intros fnDecl' Hin. simpl. apply elem_of_app in Hin as [Hin|Hin].
      * destruct (Hreg _ Hin) as (Hbound & Hafter & fnScope & Hscope' & Hparent).
        split; [|split; [done|]].
        { rewrite lookup_insert_ne; [done|]. intros Heq. rewrite <- Heq in Hbound.
          by rewrite Hn in Hbound. }
        exists fnScope. split; [|done]. rewrite Hheap.
        rewrite list_lookup_insert_ne by lia.
        rewrite lookup_app_l; [done|]. by apply (lookup_lt_Some _ _ _ Hscope').
      * apply list_elem_of_singleton in Hin. injection Hin as ->.
        split; [by rewrite lookup_insert_eq|]. rewrite Hscope. split; [done|].
        exists (scope.mkScope (Some ms) ∅). split; [|done]. rewrite Hheap.
        rewrite list_lookup_insert_ne by lia.
        rewrite lookup_app_r by lia. by rewrite Nat.sub_diag.
    + done.
    + rewrite Hheap. rewrite list_lookup_insert_ne by done.
      by rewrite lookup_app_l.
  - assert (Hnames : fn_names (nodes ++ [ExternDeclNode externDecl]) = fn_names nodes).
    { unfold fn_names. rewrite flat_map_app. simpl. by rewrite ?app_nil_r. }
    eapply (IH _ p1 _ _ sc); try exact H; rewrite ?Hnames, ?Hs, ?Hm; try done.
    destruct Hreg as (sc1 & Hsc1 & Hreg). exists sc1. split; [done|].
    intros fnDecl Hin. apply elem_of_app in Hin as [Hin|Hin]; [by apply Hreg|].
    by apply list_elem_of_singleton in Hin.
Qed.

(** What [parseFile] has done when it returns a file. *)
Lemma parseFile_Ok fuel lex ms p sc file p' :
  heap p !! ms = Some sc →
  parseFile fuel lex ms p = (Ok file, p') →
  NoDup (fn_names (Body file))
  ∧ (∀ name, name ∈ fn_names (Body file) → scope.nodes sc !! name = None)
  ∧ registered (heap p') ms (Body file)
  ∧ File_Scope file = List.length (heap p)
  ∧ heap p' !! File_Scope file = Some (scope.mkScope (Some ms) ∅).
Proof.
  intros Hsc H. pose proof (lookup_lt_Some _ _ _ Hsc) as Hlt.
  unfold parseFile in H.
  apply bind_Ok_inv in H as (fileScope & p1 & [= <- <-] & H).
  apply bind_Ok_inv in H as ([] & p2 & [= <-] & H).
  apply bind_Ok_inv in H as (nodes & p3 & H & [= <- <-]).
  cbn [Body File_Scope]. unfold ast.NewScope in *. cbn [fst snd] in *.
  unfold parseFileNodes in H.
  set (σ := heap p ++ [scope.mkScope (Some ms) ∅]) in *.
  set (p1 := set_moduleScope (set_lex (set_heap p σ) lex) (Some ms)) in *.
  assert (Hsc1 : heap p1 !! ms = Some sc) by (simpl; by apply lookup_app_l_Some).
  assert (Hfile1 : heap p1 !! List.length (heap p) = Some (scope.mkScope (Some ms) ∅)).
  { simpl. unfold σ. rewrite lookup_app_r by lia. by rewrite Nat.sub_diag. }
  assert (Hne : List.length (heap p) ≠ ms) by lia.
  destruct (parseFileNodes_loop_registers ms sc (List.length (heap p)) fuel
              [] p1 nodes p3 sc eq_refl Hsc1 (reflexivity _) (NoDup_nil_2)
              (λ name Hin, False_ind _ (proj1 (elem_of_nil name) Hin)))
    with (3 := Hfile1) (4 := H) as (Hnd & Hnew & Hreg & Hfile); try done.
  exists sc. split; [done|]. intros fnDecl Hin. by apply elem_of_nil in Hin.
Qed.

(** X23. What a file registers.  When [parseFile] returns a file, no two
    functions of its body share a name, none of them was bound in the
    module scope before, and afterwards each is bound under its name in
    the module scope and owns a scope that is a child of the module
    scope.  The scope of the file itself was allocated first, as a child
    of the module scope, and still binds nothing: declarations go to the
    module scope, not to the file scope. *)
Theorem parseFile_registers fuel lex ms p sc file p' :
  heap p !! ms = Some sc →
  parseFile fuel lex ms p = (Ok file, p') →
  NoDup (fn_names (Body file))
  ∧ (∀ name, name ∈ fn_names (Body file) → scope.nodes sc !! name = None)
  ∧ registered (heap p') ms (Body file)
  ∧ File_Scope file = List.length (heap p)
  ∧ heap p' !! File_Scope file = Some (scope.mkScope (Some ms) ∅).
Proof. intros Hsc H. by eapply parseFile_Ok. Qed.

End RegisterTheory.

Module RegisterExamples.
Import token lexer ast parser testing grammar syntax statements frames declared samples.
Import GrammarTheory SyntaxTheory StatementTheory StatementExamples RegisterTheory.


(** [fn main() i32 { return 0; }] *)
Lemma parseFnDecl_registers_witness :
  let kw := tk FN "fn" 1 in
  let name := tk ID "main" 4 in
  let ret := tk RETURN "return" 18 in
  let tsP := [tk OPEN_PAREN "(" 8; tk CLOSE_PAREN ")" 9] in
  let tsT := [tk I32_TYPE "i32" 11] in
  let tsB := [tk OPEN_CURLY "{" 15; ret; tk INTEGER_LITERAL "0" 25;
              tk SEMICOLON ";" 26; tk CLOSE_CURLY "}" 28] in
  let block := mkBlockStmt (mkPosition "main.t" 1 15)
                 [ReturnStmt ret (LiteralExpr (BasicType INTEGER_LITERAL) "0")]
                 (mkPosition "main.t" 1 28) in
  let params := mkFieldList (tk OPEN_PAREN "(" 8) [] false (tk CLOSE_PAREN ")" 9) in
  let fnDecl := mkFunctionDecl 1 name params block (BasicType I32_TYPE) in
  let σ' := [scope.mkScope None {[ "main" := FunctionDeclNode fnDecl ]};
             scope.mkScope (Some 0) ∅] in
  parseFnDecl 40 (parserOn (kw :: name :: tsP ++ tsT ++ tsB))
  = (Ok fnDecl, set_heap (parserOn []) σ')
  ∧ scope.Lookup σ' 1 "main" = Some (inl (FunctionDeclNode fnDecl)).
Proof.
  intros kw name ret tsP tsT tsB block params fnDecl σ'.
  assert (Hparams : reads parseFunctionParams 40 tsP params) by runs 40.
  assert (Hblock : reads parseBlock 40 tsB block) by runs 40.
  pose proof (parseFnDecl_registers 40 kw name tsP params tsT (BasicType I32_TYPE)
                tsB block eq_refl eq_refl Hparams
                (or_introl (spells_basic (tk I32_TYPE _ _) eq_refl))
                eq_refl Hblock 40
                (parserOn (kw :: name :: tsP ++ tsT ++ tsB)) []
                0 (scope.mkScope None ∅) (le_n _) eq_refl eq_refl eq_refl eq_refl)
    as (Hrun & _ & _ & Hlook).
  split; [exact Hrun|exact Hlook].
Defined.

(** [fn main() {}] parsed into a module that binds nothing yet. *)
Lemma parseFile_registers_witness :
  let r := parseFile 20 (lexer.New "main.t" fn_main) 0 (parserOn []) in
  ∃ file, r.1 = Ok file
    ∧ fn_names (Body file) = ["main"]
    ∧ registered (heap r.2) 0 (Body file)
    ∧ heap r.2 !! File_Scope file = Some (scope.mkScope (Some 0) ∅).
Proof.
  intros r. eexists. split; [reflexivity|]. split; [reflexivity|].
  pose proof (parseFile_registers 20 (lexer.New "main.t" fn_main) 0 (parserOn [])
                (scope.mkScope None ∅) _ r.2 eq_refl eq_refl)
    as (_ & _ & Hreg & _ & Hfile).
  split; [exact Hreg|exact Hfile].
Defined.

End RegisterExamples.

(** * The module tree *)

Module TreeTheory.
Import token lexer ast parser frames declared layout samples.
Import ModuleTreeTheory FrameTheory DeclTheory RegisterTheory.

Section Walk.
Context (quote : string → string).
Local Abbreviation buildModuleTree := (parser.buildModuleTree quote).
Local Abbreviation buildModuleTree_handler := (parser.buildModuleTree_handler quote).
Local Abbreviation ParseModuleDir := (parser.ParseModuleDir quote).

(** A file that parses is named after its lexer. *)
Lemma parseFile_Ok_path fuel lex ms p file p' :
  parseFile fuel lex ms p = (Ok file, p') →
  ast.Dir file = ParentDirName lex ∧ File_Path file = Path lex.
Proof.
  unfold parseFile. intros H.
  apply bind_Ok_inv in H as (fileScope & p1 & _ & H).
  apply bind_Ok_inv in H as ([] & p2 & _ & H).
  by apply bind_Ok_inv in H as (nodes & p3 & _ & [= <- <-]).
Qed.

Lemma grown_nil before : grown before (mkOutline [] []) = before.
Proof. destruct before. simpl. by rewrite !app_nil_r. Qed.

Lemma grown_nil_l added : grown (mkOutline [] []) added = added.
Proof. by destruct added. Qed.

Lemma grown_assoc a b c : grown (grown a b) c = grown a (grown b c).
Proof. destruct a, b, c. simpl. by rewrite !app_assoc. Qed.

(** What one entry adds to the outline. *)
Lemma handler_outline path entry module p module' p' :
  (∀ path module p module' p',
     match entry with
     | Dir_ _ read =>
         buildModuleTree path read module p = (Ok tt, module', p') →
         outline module' = grown (outline module) (listing path read)
     | File_ _ _ => True
     end) →
  buildModuleTree_handler entry (Join path (Entry_Name entry)) module p
  = (Ok tt, module', p') →
  outline module'
  = grown (outline module)
      (mkOutline (sources path [entry])
         match entry with
         | Dir_ name read => [listing (Join path name) read]
         | File_ _ _ => []
         end).
Proof.
  intros IH H. destruct entry as [name read|name [err|src]]; simpl in *.
  - unfold ast.NewScope in H. simpl in H.
    destruct (buildModuleTree _ _ _ _) as [[r child'] p1] eqn:Hchild.
    injection H as -> <- <-. apply IH in Hchild.
    change (outline (mkModule "" [] [] _ false)) with (mkOutline [] []) in Hchild.
    rewrite grown_nil_l in Hchild. rewrite <- Hchild. destruct module. simpl.
    by rewrite map_app, app_nil_r.
  - destruct (String.eqb _ _); [done|]. injection H as <- <-.
    by rewrite grown_nil.
  - destruct (String.eqb _ _); [|injection H as <- <-; by rewrite grown_nil].
    destruct (parseFile _ _ _ _) as [[file| | |] p1] eqn:Hfile; try done.
    injection H as <- <-. apply parseFile_Ok_path in Hfile as [Hdir Hpath].
    simpl in *. destruct module. simpl. rewrite map_app. simpl.
    by rewrite Hdir, Hpath, app_nil_r.
Qed.

Lemma buildModuleTree_outline read : ∀ path module p module' p',
  buildModuleTree path read module p = (Ok tt, module', p') →
  outline module' = grown (outline module) (listing path read).
Proof.
  induction read as [err|entries IH] using ReadDir_tree_ind;
    intros path module p module' p'; rewrite buildModuleTree_unfold; simpl; [done|].
  revert module p.
  induction IH as [|entry entries Hentry _ IHentries]; intros module p H; simpl in *.
  { injection H as <- <-. by rewrite grown_nil. }
  destruct (buildModuleTree_handler entry _ module p) as [[[[]| | |] module1] p1] eqn:Hh;
    try done.
  apply handler_outline in Hh;
    [|intros ? ? ? ? ?; destruct entry; [apply Hentry|done]].
  apply IHentries in H. rewrite H, Hh, grown_assoc. f_equal.
  unfold sources. simpl. rewrite app_nil_r.
  destruct entry; reflexivity.
Qed.

(** X24. The module tree mirrors the directory.  When [ParseModuleDir]
    returns a program, its root module holds one file for each entry
    whose extension is [.t], in the order of the listing, each with its
    full path and the name of its directory, and one submodule for each
    subdirectory, in order, which mirrors that subdirectory in the same
    way.  Other files are left out. *)
Theorem tree_mirrors_directory path read p program p' :
  ParseModuleDir path read p = (Returns (Some program) None, p') →
  outline (Root program) = listing path read.
Proof.
  unfold parser.ParseModuleDir, ast.NewScope. simpl.
  destruct (buildModuleTree _ _ _ _) as [[[[]| | |] root'] p1] eqn:Hwalk; try done.
  intros [= <- <-]. apply buildModuleTree_outline in Hwalk. simpl in *.
  rewrite Hwalk. by destruct (listing path read).
Qed.

(** Induction on a module tree: the submodules may be assumed to satisfy
    the property. *)
Fixpoint Module_tree_ind (P : Module_ → Prop)
    (H : ∀ name files modules s isRoot,
       Forall P modules → P (mkModule name files modules s isRoot))
    (module : Module_) {struct module} : P module :=
  match module with
  | mkModule name files modules s isRoot =>
      H name files modules s isRoot
        ((fix all (modules : list Module_) : Forall P modules :=
            match modules with
            | [] => @List.Forall_nil _ _
            | module' :: modules' =>
                @List.Forall_cons _ _ module' modules'
                  (Module_tree_ind P H module') (all modules')
            end) modules)
  end.

Lemma all_Forall (P : Module_ → Prop) modules :
  fold_right and True (map P modules) ↔ Forall P modules.
Proof.
  induction modules as [|module modules IH]; simpl.
  - split; [constructor|done].
  - rewrite Forall_cons. by rewrite IH.
Qed.

Lemma scoped_unfold σ parent name files modules s isRoot :
  scoped σ parent (mkModule name files modules s isRoot)
  ↔ (∃ sc, σ !! s = Some sc ∧ scope.parent sc = parent)
    ∧ NoDup (module_names files)
    ∧ (∀ file, file ∈ files →
         registered σ s (Body file)
         ∧ ∃ sc, σ !! File_Scope file = Some sc ∧ scope.parent sc = Some s)
    ∧ Forall (scoped σ (Some s)) modules.
Proof. simpl. by rewrite all_Forall. Qed.

Lemma child_evolves σ σ' s parent :
  evolves σ σ' →
  (∃ sc, σ !! s = Some sc ∧ scope.parent sc = parent) →
  ∃ sc, σ' !! s = Some sc ∧ scope.parent sc = parent.
Proof.
  intros (_ & Hkeep & _) (sc & Hsc & Hparent).
  destruct (Hkeep _ _ Hsc) as (sc' & Hsc' & Hp & _). exists sc'. by rewrite Hp.
Qed.

(** What is registered stays registered. *)
Lemma registered_evolves σ σ' s nodes :
  evolves σ σ' → registered σ s nodes → registered σ' s nodes.
Proof.
  intros Hev (sc & Hsc & Hreg). pose proof Hev as (_ & Hkeep & _).
  destruct (Hkeep _ _ Hsc) as (sc' & Hsc' & _ & Hsub).
  exists sc'. split; [done|]. intros fnDecl Hin.
  destruct (Hreg _ Hin) as (Hbound & Hafter & Hchild).
  split; [by eapply lookup_weaken|]. split; [done|]. by eapply child_evolves.
Qed.

Lemma scoped_evolves σ σ' : evolves σ σ' →
  ∀ module parent, scoped σ parent module → scoped σ' parent module.
Proof.
  intros Hev module.
  induction module as [name files modules s isRoot IH] using Module_tree_ind.
  intros parent. rewrite !scoped_unfold. intros (Hs & Hnd & Hfiles & Hmods).
  split; [by eapply child_evolves|]. split; [done|]. split.
  - intros file Hin. destruct (Hfiles _ Hin) as (Hreg & Hchild).
    split; [by eapply registered_evolves|by eapply child_evolves].
  - rewrite Forall_forall in IH, Hmods. apply Forall_forall. intros module Hin.
    apply IH; [done|]. by apply Hmods.
Qed.

Lemma module_names_app files file :
  module_names (files ++ [file]) = module_names files ++ fn_names (Body file).
Proof. unfold module_names. rewrite flat_map_app. simpl. by rewrite app_nil_r. Qed.

Lemma module_names_elem name files :
  name ∈ module_names files → ∃ file, file ∈ files ∧ name ∈ fn_names (Body file).
Proof.
  induction files as [|file files IH]; simpl; intros Hin.
  - by apply elem_of_nil in Hin.
  - apply elem_of_app in Hin as [Hin|Hin].
    + exists file. split; [left|done].
    + destruct (IH Hin) as (file' & Hin' & Hname). exists file'. split; [by right|done].
Qed.

(** One entry keeps the layout of the module it is added to. *)
Lemma handler_scoped path entry parent module p module' p' :
  (∀ path parent module p module' p',
     match entry with
     | Dir_ _ read =>
         scoped (heap p) parent module →
         buildModuleTree path read module p = (Ok tt, module', p') →
         scoped (heap p') parent module'
     | File_ _ _ => True
     end) →
  scoped (heap p) parent module →
  buildModuleTree_handler entry (Join path (Entry_Name entry)) module p
  = (Ok tt, module', p') →
  scoped (heap p') parent module'.
Proof.
  intros IH Hmod H. destruct module as [mname files modules s isRoot].
  pose proof Hmod as Hmod'. apply scoped_unfold in Hmod' as (Hs & Hnd & Hfiles & Hmods).
  pose proof Hs as (sc & Hsc & Hparent). pose proof (lookup_lt_Some _ _ _ Hsc) as Hlt.
  destruct entry as [name read|name [err|src]]; simpl in *.
  - unfold ast.NewScope in H. simpl in H.
    set (σ1 := heap p ++ [scope.mkScope (Some s) ∅]) in *.
    set (child := mkModule "" [] [] (List.length (heap p)) false) in *.
    assert (Hnew : evolves (heap p) σ1).
    { apply (evolves_New (heap p) (Some s)). by intros ? [= <-]. }
    assert (Hchild : scoped (heap (set_heap p σ1)) (Some s) child).
    { apply scoped_unfold. split.
      - exists (scope.mkScope (Some s) ∅). split; [|done]. simpl. unfold σ1.
        rewrite lookup_app_r by lia. by rewrite Nat.sub_diag.
      - split; [constructor|]. split; [|constructor].
        intros file Hin. by apply elem_of_nil in Hin. }
    pose proof (buildModuleTree_frame quote read (Join path name) child (set_heap p σ1)) as Hframe.
    destruct (buildModuleTree _ _ _ _) as [[r child'] p1] eqn:Hwalk.
    injection H as -> <- <-.
    destruct Hframe as (Hev & _ & _);
      [simpl; unfold σ1; rewrite length_app; simpl; lia|]. simpl in Hev.
    assert (Hev' : evolves (heap p) (heap p1)) by (by eapply evolves_trans).
    apply (IH _ (Some s)) in Hwalk; [|done].
    apply (scoped_evolves _ _ Hev' (mkModule mname files modules s isRoot)) in Hmod.
    apply scoped_unfold in Hmod as (Hs' & _ & Hfiles' & Hmods').
    apply scoped_unfold. split; [done|]. split; [done|]. split; [done|].
    apply Forall_app. split; [done|]. by constructor.
  - destruct (String.eqb _ _); [done|]. by injection H as <- <-.
  - destruct (String.eqb _ _); [|by injection H as <- <-].
    set (lex := mkLexer _ _ _) in *.
    pose proof (parseFile_frame (fuel_for lex) lex s p Hlt) as (Hev & _).
    destruct (parseFile _ _ _ _) as [[file| | |] p1] eqn:Hfile; try done.
    injection H as <- <-. simpl in Hev.
    destruct (parseFile_Ok _ _ _ _ _ _ _ Hsc Hfile)
      as (Hnd' & Hfresh & Hreg & _ & Hfscope).
    apply (scoped_evolves _ _ Hev (mkModule mname files modules s isRoot)) in Hmod.
    apply scoped_unfold in Hmod as (Hs' & _ & Hfiles' & Hmods').
    apply scoped_unfold. split; [done|]. split; [|split; [|done]].
    + rewrite module_names_app. apply NoDup_app. split; [done|]. split; [|done].
      intros name' Hold Hnew.
      apply module_names_elem in Hold as (file' & Hin & Hname).
      apply fn_names_elem in Hname as (fnDecl & Hin' & ->).
      destruct (Hfiles _ Hin) as ((sc1 & Hsc1 & Hreg1) & _).
      assert (sc1 = sc) as -> by (by eapply scope_agree).
      destruct (Hreg1 _ Hin') as (Hbound & _).
      by rewrite (Hfresh _ Hnew) in Hbound.
    + intros file' Hin. apply elem_of_app in Hin as [Hin|Hin]; [by apply Hfiles'|].
      apply list_elem_of_singleton in Hin as ->. split; [done|]. eauto.
Qed.

Lemma buildModuleTree_scoped read : ∀ path parent module p module' p',
  scoped (heap p) parent module →
  buildModuleTree path read module p = (Ok tt, module', p') →
  scoped (heap p') parent module'.
Proof.
  induction read as [err|entries IH] using ReadDir_tree_ind;
    intros path parent module p module' p' Hmod;
    rewrite buildModuleTree_unfold; simpl; [done|].
  revert module p Hmod.
  induction IH as [|entry entries Hentry _ IHentries]; intros module p Hmod H; simpl in *.
  { by injection H as <- <-. }
  destruct (buildModuleTree_handler entry _ module p) as [[[[]| | |] module1] p1] eqn:Hh;
    try done.
  apply (handler_scoped _ _ parent) in Hh; [by eapply IHentries| |done].
  intros ? ? ? ? ? ?. destruct entry; [apply Hentry|done].
Qed.

(** X25. The scopes of a program are laid out as its modules.  In the
    store left by a run that returns a program, the scope of the root has
    no parent ([ParseModuleDir]) or the universe scope as parent
    ([ParseFileAsProgram]); in every module, the scope of each file and
    of each submodule is a child of the module's scope, every function of
    every file is bound under its name in the module's scope, and no two
    functions of the module share a name, across its files. *)
Theorem program_scopes_follow_modules :
  (∀ path read p program p',
     ParseModuleDir path read p = (Returns (Some program) None, p') →
     scoped (heap p') None (Root program))
  ∧ (∀ fuel lex p program p',
       ParseFileAsProgram fuel lex p = (Returns (Some program) None, p') →
       scoped (heap p') (Some (List.length (heap p))) (Root program)).
Proof.
  split.
  - intros path read p program p'. unfold parser.ParseModuleDir, ast.NewScope. simpl.
    destruct (buildModuleTree _ _ _ _) as [[[[]| | |] root'] p1] eqn:Hwalk; try done.
    intros [= <- <-]. eapply buildModuleTree_scoped; [|exact Hwalk].
    apply scoped_unfold. split.
    + exists (scope.mkScope None ∅). split; [|done]. simpl.
      rewrite lookup_app_r by lia. by rewrite Nat.sub_diag.
    + split; [constructor|]. split; [|constructor].
      intros file Hin. by apply elem_of_nil in Hin.
  - intros fuel lex p program p'. unfold ParseFileAsProgram, ast.NewScope. simpl.
    set (σ := (heap p ++ [scope.mkScope None ∅])
              ++ [scope.mkScope (Some (List.length (heap p))) ∅]).
    set (ms := List.length (heap p ++ [scope.mkScope None ∅])).
    assert (Hms : σ !! ms = Some (scope.mkScope (Some (List.length (heap p))) ∅)).
    { unfold σ, ms. rewrite lookup_app_r by lia. by rewrite Nat.sub_diag. }
    pose proof (parseFile_frame fuel lex ms (set_heap p σ)
                  (lookup_lt_Some _ _ _ Hms)) as (Hev & _).
    destruct (parseFile _ _ _ _) as [[file| | |] p1] eqn:Hfile; try done.
    intros [= <- <-]. simpl in Hev.
    destruct (parseFile_Ok fuel lex ms (set_heap p σ) _ _ _ Hms Hfile)
      as (Hnd & _ & Hreg & _ & Hfscope).
    apply scoped_unfold. split; [|split; [|split; [|constructor]]].
    + eapply child_evolves; [exact Hev|]. eauto.
    + unfold module_names. simpl. by rewrite app_nil_r.
    + intros file' Hin. apply list_elem_of_singleton in Hin as ->. split; [done|]. eauto.
Qed.

End Walk.

End TreeTheory.

Module TreeExamples.
Import token lexer ast parser frames declared layout samples.
Import TreeTheory.

(** The tree [tree_two_modules] goes through. *)
Lemma tree_two_modules_parses :
  ∃ program p',
    ParseModuleDir in_quotes "src" tree_two_modules (parser.New diagnostics.New [])
    = (Returns (Some program) None, p').
Proof. vm_compute. eexists _, _. reflexivity. Defined.

(** The tree [tree_two_modules] under [src]: [notes.md] is left out, and
    is not even opened. *)
Lemma tree_mirrors_directory_witness :
  ∃ program p',
    ParseModuleDir in_quotes "src" tree_two_modules (parser.New diagnostics.New [])
    = (Returns (Some program) None, p')
    ∧ outline (Root program)
      = mkOutline [("src", "src/main.t")] [mkOutline [("lib", "src/lib/util.t")] []].
Proof.
  destruct tree_two_modules_parses as (program & p' & H).
  exists program, p'. split; [exact H|].
  exact (tree_mirrors_directory in_quotes "src" tree_two_modules _ _ _ H).
Defined.

(** The same tree: [main] is declared in both modules, which is no
    redeclaration. *)
Lemma program_scopes_follow_modules_witness :
  ∃ program p',
    ParseModuleDir in_quotes "src" tree_two_modules (parser.New diagnostics.New [])
    = (Returns (Some program) None, p')
    ∧ scoped (heap p') None (Root program).
Proof.
  destruct tree_two_modules_parses as (program & p' & H).
  exists program, p'. split; [exact H|].
  exact (proj1 (program_scopes_follow_modules in_quotes) "src" tree_two_modules _ _ _ H).
Defined.

End TreeExamples.

(** * Extern declarations *)

Module ExternTheory.
Import token lexer ast parser grammar syntax statements frames externs.
Import GrammarTheory SyntaxTheory StatementTheory FrameTheory RegisterTheory.

(** The first token of a type is no [;] and no [{]. *)
Lemma spells_first ts ty :
  spells ts ty →
  ∃ tok ts', ts = tok :: ts' ∧ Kind_ tok ≠ OPEN_CURLY ∧ Kind_ tok ≠ SEMICOLON.
Proof.
  intros [tok Hk|tok Hk|star ts' ty' Hk _]; eexists _, _; (split; [done|]);
    try rewrite Hk; try done.
  split; intros Heq; by rewrite Heq in Hk.
Qed.

(** The return type of a prototype: a type, or nothing before the
    semicolon. *)
Lemma parseReturnType_proto_reads tsT ty p more :
  returns tsT ty →
  Kind_ (hd (lexer.eof (lex p)) more) = SEMICOLON →
  toks (lex p) = tsT ++ more →
  parseReturnType true p = (Ok ty, leaving p more).
Proof.
  intros Hty Hsemi Htoks. unfold parseReturnType.
  destruct Hty as [Hty|[-> ->]].
  - destruct (spells_first _ _ Hty) as (tok & ts & -> & Hopen & Hne).
    rewrite (bind_Ok _ _ _ _ _ (NextIs_hd p _ _ SEMICOLON Htoks)).
    rewrite (bind_Ok _ _ _ _ _ (NextIs_hd p _ _ OPEN_CURLY Htoks)).
    apply ParserTheory.Kind_eqb_neq in Hopen, Hne. rewrite Hopen, Hne. cbn [andb orb].
    by rewrite (handle_Ok _ _ _ _ _ _ (parseExprType_spelled p _ ty more Htoks Hty)).
  - simpl in Htoks.
    assert (Hpeek : lexer.NextIs (lex p) SEMICOLON = true).
    { unfold lexer.NextIs, lexer.Peek. rewrite Htoks, Hsemi. done. }
    unfold bind, NextIs. rewrite Hpeek. cbn [andb orb]. unfold ret.
    by rewrite <- Htoks, leaving_same.
Qed.

Lemma parsePrototype_reads f0 item :
  proto_ok f0 item → reads parsePrototype f0 item.1 item.2.
Proof.
  intros (fn & name & tsP & params & tsT & ty & semi & -> & Hfn & Hname & Hparams
          & Hty & Hsemi) fuel p rest Hfuel Htoks.
  simpl in Htoks. unfold parsePrototype. cbn [fst snd].
  rewrite (bind_Ok _ _ _ _ _ (expect_Ok p fn _ FN Htoks Hfn)). cbn beta iota. cbn [negb].
  rewrite (bind_Ok _ _ _ _ _ (expect_Ok (leaving p _) name _ ID eq_refl Hname)).
  cbn beta iota. cbn [negb]. rewrite leaving_leaving.
  rewrite <- !app_assoc.
  rewrite (bind_Ok _ _ _ _ _
             (Hparams fuel (leaving p (tsP ++ tsT ++ [semi] ++ rest))
                (tsT ++ [semi] ++ rest) Hfuel eq_refl)).
  rewrite leaving_leaving.
  rewrite (bind_Ok _ _ _ _ _
             (parseReturnType_proto_reads tsT ty (leaving p (tsT ++ [semi] ++ rest))
                ([semi] ++ rest) Hty Hsemi eq_refl)).
  rewrite leaving_leaving.
  rewrite (bind_Ok _ _ _ _ _ (expect_Ok (leaving p _) semi rest SEMICOLON eq_refl Hsemi)).
  reflexivity.
Qed.

Lemma parseExternDecl_loop_reads f0 items :
  Forall (proto_ok f0) items →
  ∀ fuel p prototypes close rest,
    (f0 + List.length items + 1 ≤ fuel)%nat →
    Kind_ close = CLOSE_CURLY →
    toks (lex p) = concat (map fst items) ++ close :: rest →
    parseExternDecl_loop fuel prototypes p
    = (Ok (prototypes ++ map snd items), leaving p (close :: rest)).
Proof.
  induction 1 as [|item items Hitem _ IH]; intros fuel p prototypes close rest
                                                   Hfuel Hclose Htoks;
    (destruct fuel as [|fuel]; [lia|]); simpl in *.
  - rewrite (bind_Ok _ _ _ _ _ (NextIs_hd p _ _ CLOSE_CURLY Htoks)).
    rewrite Hclose. simpl. unfold ret. by rewrite app_nil_r, <- Htoks, leaving_same.
  - pose proof (parsePrototype_reads _ _ Hitem) as Hreads.
    destruct Hitem as (fn & name & tsP & params & tsT & ty & semi & -> & Hfn & _).
    cbn [fst snd] in *. rewrite <- app_assoc in Htoks.
    rewrite (bind_Ok _ _ _ _ _ (NextIs_hd p fn _ CLOSE_CURLY Htoks)).
    rewrite Hfn. change (token.eqb FN CLOSE_CURLY) with false. cbn beta iota.
    rewrite (bind_Ok _ _ _ _ _ (Hreads fuel p _ ltac:(lia) Htoks)).
    rewrite (IH fuel (leaving p (concat (map fst items) ++ close :: rest)) _ close rest
               ltac:(lia) Hclose eq_refl).
    by rewrite <- app_assoc.
Qed.

(** X26. Extern declarations.  [extern name { p1 ... pn }], each [p]
    a prototype [fn name params type ;] with the type optional and [void]
    when left out, is read as the extern declaration of that name and of
    the prototypes in order, with a nil scope; [n] may be zero.  [next]
    returns it as a node of the file.  The parser is left as it was but
    for the tokens read: an extern declaration binds no name in any
    scope. *)
Theorem parseExternDecl_reads f0 kw name open items close :
  Kind_ kw = EXTERN → Kind_ name = ID →
  Kind_ open = OPEN_CURLY → Kind_ close = CLOSE_CURLY →
  Forall (proto_ok f0) items →
  let src := kw :: name :: open :: concat (map fst items) ++ [close] in
  let externDecl := mkExternDecl None name (map snd items) in
  reads parseExternDecl (f0 + List.length items + 1) src externDecl
  ∧ reads (λ fuel, next fuel) (f0 + List.length items + 1) src
          (Some (ExternDeclNode externDecl)).
Proof.
  intros Hkw Hname Hopen Hclose Hitems src externDecl.
  assert (Hreads : reads parseExternDecl (f0 + List.length items + 1) src externDecl).
  { intros fuel p rest Hfuel Htoks. unfold src in Htoks. simpl in Htoks.
    rewrite <- app_assoc in Htoks. simpl in Htoks. unfold parseExternDecl.
    rewrite (bind_Ok _ _ _ _ _ (expect_Ok p kw _ EXTERN Htoks Hkw)).
    cbn beta iota. cbn [negb].
    rewrite (bind_Ok _ _ _ _ _ (expect_Ok (leaving p _) name _ ID eq_refl Hname)).
    cbn beta iota. cbn [negb]. rewrite leaving_leaving.
    rewrite (bind_Ok _ _ _ _ _ (expect_Ok (leaving p _) open _ OPEN_CURLY eq_refl Hopen)).
    cbn beta iota. cbn [negb]. rewrite leaving_leaving.
    rewrite (bind_Ok _ _ _ _ _
               (parseExternDecl_loop_reads f0 items Hitems fuel (leaving p _) [] close rest
                  Hfuel Hclose eq_refl)).
    rewrite leaving_leaving.
    rewrite (bind_Ok _ _ _ _ _
               (expect_Ok (leaving p _) close _ CLOSE_CURLY eq_refl Hclose)).
    reflexivity. }
  split; [exact Hreads|].
  intros fuel p rest Hfuel Htoks. unfold next.
  rewrite (bind_Ok _ _ _ _ _ (Peek_hd p kw _ Htoks)). rewrite Hkw.
  by rewrite (bind_Ok _ _ _ _ _ (Hreads fuel p rest Hfuel Htoks)).
Qed.

(** X27. The closing brace of an extern declaration is always there.
    When the loop over the prototypes ends without an error the current
    token is the closing brace, so the [expect] that follows the loop in
    [parseExternDecl] succeeds, and its diagnostic [expected }] is never
    reported.  A block left open ends in the diagnostic of
    [parsePrototype] instead. *)
Theorem extern_block_is_closed fuel : ∀ prototypes p prototypes' p',
  parseExternDecl_loop fuel prototypes p = (Ok prototypes', p') →
  Kind_ (lexer.Peek (lex p')) = CLOSE_CURLY
  ∧ expect CLOSE_CURLY p' = (Ok (lexer.Peek (lex p'), true), skipped p').
Proof.
  induction fuel as [|fuel IH]; intros prototypes p prototypes' p' H; [done|].
  simpl in H. apply bind_Ok_inv in H as (closeCurly & p1 & [= <- <-] & H).
  destruct (lexer.NextIs (lex p) CLOSE_CURLY) eqn:Hnext.
  - injection H as <- <-. unfold lexer.NextIs in Hnext.
    apply ParserTheory.Kind_eqb_eq in Hnext. split; [done|].
    unfold expect, bind, Peek, Skip, ret. rewrite Hnext. reflexivity.
  - apply bind_Ok_inv in H as (proto & p1 & _ & H). by eapply IH.
Qed.

End ExternTheory.

Module ExternExamples.
Import token lexer ast parser grammar syntax statements frames externs samples.
Import GrammarTheory SyntaxTheory StatementTheory StatementExamples ExternTheory.

(** [extern libc { fn puts(s *u8) i32; fn abort(); }] *)
Lemma parseExternDecl_reads_witness :
  let kw := tk EXTERN "extern" 1 in
  let libc := tk ID "libc" 8 in
  let open := tk OPEN_CURLY "{" 13 in
  let close := tk CLOSE_CURLY "}" 48 in
  let puts := tk ID "puts" 18 in
  let s := tk ID "s" 23 in
  let abort := tk ID "abort" 38 in
  let tsP1 := [tk OPEN_PAREN "(" 22; s; tk STAR "*" 25; tk U8_TYPE "u8" 26;
               tk CLOSE_PAREN ")" 28] in
  let tsP2 := [tk OPEN_PAREN "(" 43; tk CLOSE_PAREN ")" 44] in
  let params1 := mkFieldList (tk OPEN_PAREN "(" 22)
                   [mkField s (PointerType (BasicType U8_TYPE))] false
                   (tk CLOSE_PAREN ")" 28) in
  let params2 := mkFieldList (tk OPEN_PAREN "(" 43) [] false (tk CLOSE_PAREN ")" 44) in
  let src := [kw; libc; open; tk FN "fn" 15; puts] ++ tsP1
             ++ [tk I32_TYPE "i32" 30; tk SEMICOLON ";" 33; tk FN "fn" 35; abort] ++ tsP2
             ++ [tk SEMICOLON ";" 45; close] in
  parseExternDecl 40 (parserOn src)
  = (Ok (mkExternDecl None libc
           [mkProto puts params1 (BasicType I32_TYPE);
            mkProto abort params2 (BasicType VOID_TYPE)]),
     parserOn []).
Proof.
  intros kw libc open close puts s abort tsP1 tsP2 params1 params2 src.
  assert (H1 : reads parseFunctionParams 30 tsP1 params1) by runs 30.
  assert (H2 : reads parseFunctionParams 30 tsP2 params2) by runs 30.
  assert (Hitems : Forall (proto_ok 30)
            [(tk FN "fn" 15 :: puts :: tsP1 ++ [tk I32_TYPE "i32" 30] ++ [tk SEMICOLON ";" 33],
              mkProto puts params1 (BasicType I32_TYPE));
             (tk FN "fn" 35 :: abort :: tsP2 ++ [] ++ [tk SEMICOLON ";" 45],
              mkProto abort params2 (BasicType VOID_TYPE))]).
  { repeat constructor.
    - exists (tk FN "fn" 15), puts, tsP1, params1, [tk I32_TYPE "i32" 30],
        (BasicType I32_TYPE), (tk SEMICOLON ";" 33).
      repeat split; try done. left. by apply (spells_basic (tk I32_TYPE "i32" 30)).
    - exists (tk FN "fn" 35), abort, tsP2, params2, [], (BasicType VOID_TYPE),
        (tk SEMICOLON ";" 45).
      repeat split; try done. by right. }
  exact (proj1 (parseExternDecl_reads 30 kw libc open _ close eq_refl eq_refl eq_refl
                  eq_refl Hitems) 40 (parserOn src) [] ltac:(simpl; lia) eq_refl).
Defined.

(** [fn abort(); }] *)
Lemma extern_block_is_closed_witness :
  let close := tk CLOSE_CURLY "}" 13 in
  let src := [tk FN "fn" 1; tk ID "abort" 4; tk OPEN_PAREN "(" 9; tk CLOSE_PAREN ")" 10;
              tk SEMICOLON ";" 11; close] in
  (parseExternDecl_loop 20 [] (parserOn src)).1
  = Ok [mkProto (tk ID "abort" 4)
          (mkFieldList (tk OPEN_PAREN "(" 9) [] false (tk CLOSE_PAREN ")" 10))
          (BasicType VOID_TYPE)]
  ∧ expect CLOSE_CURLY (parserOn [close]) = (Ok (close, true), parserOn []).
Proof.
  intros close src. split; [reflexivity|].
  exact (proj2 (extern_block_is_closed 20 [] (parserOn src) _ (parserOn [close]) eq_refl)).
Defined.

End ExternExamples.

(** * Termination and progress *)

Module ProgressTheory.
Import token lexer ast parser fuel grammar syntax samples.
Import GrammarTheory SyntaxTheory FuelTheory.

(** X28. Field accesses of any length nest to the right.  [parseExpr]
    reads [x1.x2. ... .xn] as the access of [x1] whose right side is the
    access [x2. ... .xn], down to the last identifier, with fuel for the
    ladder and two units per dot. *)
Theorem field_access_nests_right x items :
  Kind_ x = ID →
  Forall (λ item : Token * Token, Kind_ item.1 = DOT ∧ Kind_ item.2 = ID) items →
  parses parseExpr stop_logical (2 * List.length items + 11)
         (x :: access_tokens items) (access_chain x (map snd items)).
Proof.
  intros Hx Hitems.
  eapply parses_mono;
    [apply parseExpr_parses, parseLogical_lift, parseComparasion_lift, parseTerm_lift,
       parseFactor_lift, parsePrimary_parseUnary;
     [by rewrite Hx|by apply parsePrimary_access_chain]|lia].
Qed.

(** [a.b.c.d] *)
Lemma field_access_nests_right_witness :
  let a := tk ID "a" 1 in
  let b := tk ID "b" 3 in
  let c := tk ID "c" 5 in
  let d := tk ID "d" 7 in
  let access left right := FieldAccessExpr (mkFieldAccess (IdExpr left) right) in
  ParseExprFrom 17 [a; tk DOT "." 2; b; tk DOT "." 4; c; tk DOT "." 6; d] "main.t"
  = Ok (access a (access b (access c (IdExpr d)))).
Proof.
  intros a b c d access. unfold ParseExprFrom.
  rewrite (field_access_nests_right a [(tk DOT "." 2, b); (tk DOT "." 4, c); (tk DOT "." 6, d)]
             eq_refl ltac:(repeat constructor) 17 _ []);
    [reflexivity|simpl; lia|reflexivity|reflexivity].
Defined.

(** X29. The parsers stop and make progress.  With fuel for sixteen
    calls per remaining token and twelve more, [parseExpr], [parseStmt],
    [parseBlock] and [next] do not run out of it and give no token back;
    whenever one returns an expression, a statement, a block or a
    declaration, it has read at least one token.  So
    [ParseFileAsProgram], run with the fuel [fuel_for] grants, always
    returns or exits. *)
Theorem parsers_make_progress :
  (∀ n fuel, (16 * n + 12 ≤ fuel)%nat →
     sound false n always (parseExpr fuel)
     ∧ sound false n isSome (parseStmt fuel)
     ∧ sound false n always (parseBlock fuel)
     ∧ sound false n isSome (next fuel))
  ∧ (∀ lex p, (ParseFileAsProgram (fuel_for lex) lex p).1 ≠ NoFuel).
Proof.
  split.
  - intros n fuel Hfuel.
    destruct (ExprSound_all n) as [_ _ _ _ _ _ _ _ _ _ _ _ Hexpr _ _].
    destruct (StmtSound_all n) as [_ _ _ _ _ _ Hstmt Hblock _].
    split; [apply Hexpr; unfold enough; lia|].
    split; [apply Hstmt; unfold enough; lia|].
    split; [apply Hblock; unfold enough; lia|].
    apply sound_next. unfold enough. lia.
  - intros lex p. unfold ParseFileAsProgram, ast.NewScope. simpl.
    pose proof (parseFile_fuel lex
                  (List.length (heap p ++ [scope.mkScope None ∅]))
                  (set_heap p ((heap p ++ [scope.mkScope None ∅])
                               ++ [scope.mkScope (Some (List.length (heap p))) ∅])))
      as Hfuel.
    destruct (parseFile _ _ _ _) as [[file| | |] p']; done.
Qed.

End ProgressTheory.
